(** * Baileys core: key-store transactions, pre-keys, device lists, relay, job queue

    A shallow embedding of
      - src/Utils/auth-utils.ts   ([addTransactionCapability])
      - src/Utils/signal.ts       ([generateOrGetPreKeys], [getNextPreKeys],
                                   [extractDeviceJids])
      - src/Socket/messages-send.ts ([getUSyncDevices], [assertSessions],
                                   [createParticipantNodes], [relayMessage])
      - WASignalGroup/queue_job.js
    together with the properties the specification states about them.

    Asynchronous functions are modelled as state-passing functions that
    return either a value or the raised error; one logical flow of control
    runs at a time (awaits are sequenced in program order). *)

From Stdlib Require Import ZArith Lia Ascii.
From stdpp Require Import gmap strings list fin_maps pretty.

Local Open Scope Z_scope.
Set Warnings "-abstract-large-number".

(* ===================================================================== *)
(** * Results of fallible calls                                          *)
(* ===================================================================== *)

(** A promise either resolves with a value or rejects with an error. *)
Definition error := string.

Inductive Res (A : Type) : Type :=
| Ok (a : A)
| Err (e : error).
Arguments Ok {A} a.
Arguments Err {A} e.

Definition is_ok {A} (r : Res A) : bool :=
  match r with Ok _ => true | Err _ => false end.

(* ===================================================================== *)
(** * Key-store data                                                     *)
(* ===================================================================== *)

Definition bytes := list Z.

Record KeyPair := { public : bytes; private : bytes }.

(** The payloads of [SignalDataTypeMap]: a pre-key pair, the
    sender-key-memory row of a group ([{ [jid]: boolean }]), or an opaque
    serialized record (session, sender-key, app-state keys). *)
Inductive SignalData :=
| PreKey (kp : KeyPair)
| SenderKeyMemory (m : gmap string bool)
| Blob (b : bytes).

(** An entry of a [SignalDataSet] is a payload or [null]; payloads are
    objects, so [null] is the one falsy entry.  An absent property
    ([undefined]) is an absent key of the map. *)
Inductive value :=
| VNull
| VItem (d : SignalData).

Definition truthy (v : value) : bool :=
  match v with VNull => false | VItem _ => true end.

(** [SignalDataSet]: type -> id -> entry. *)
Abbreviation dict := (gmap string value).
Abbreviation dataset := (gmap string (gmap string value)).

Global Instance KeyPair_eq_dec : EqDecision KeyPair.
Proof. solve_decision. Defined.
Global Instance SignalData_eq_dec : EqDecision SignalData.
Proof. solve_decision. Defined.
Global Instance value_eq_dec : EqDecision value.
Proof. solve_decision. Defined.

(** The [SignalKeyStore] the capability wraps: [get(type, ids)] and
    [set(data)], each of which may reject.  Entries are values: the store
    is taken to hand out copies of what it holds, as a store that
    serialises its entries does.  A store that hands out its own objects
    sees a change made to such an object in place before any [set]. *)
Class SignalKeyStore (St : Type) := {
  store_get : string -> list string -> St -> Res dict * St;
  store_set : dataset -> St -> Res unit * St
}.

(** The calls that reach the wrapped store, in order. *)
Inductive StoreCall :=
| CallGet (type : string) (ids : list string)
| CallSet (data : dataset).

Definition is_set_call (c : StoreCall) : bool :=
  match c with CallSet _ => true | CallGet _ _ => false end.

Definition set_calls (l : list StoreCall) : list StoreCall :=
  List.filter is_set_call l.

(* ===================================================================== *)
(** * addTransactionCapability                                           *)
(* ===================================================================== *)

(** [TransactionCapabilityOptions].  [maxCommitRetries] counts tries, so
    it is a natural number. *)
Record TransactionCapabilityOptions := {
  maxCommitRetries : nat;
  delayBetweenTriesMs : Z
}.

(** The variables closed over by the returned store. *)
Record TxState := {
  opts : TransactionCapabilityOptions;
  dbQueriesInTransaction : nat;
  transactionCache : dataset;
  mutations : dataset;
  transactionsInProgress : nat
}.

Definition tx_init (o : TransactionCapabilityOptions) : TxState :=
  {| opts := o; dbQueriesInTransaction := 0; transactionCache := ∅;
     mutations := ∅; transactionsInProgress := 0 |}.

(** The world a call runs in: the wrapped store, the log of the calls made
    to it, the capability's variables, and everything outside the key
    store ([Env]: caches, the socket). *)
Record World (St Env : Type) := {
  backing : St;
  calls : list StoreCall;
  tx : TxState;
  env : Env
}.
Arguments backing {St Env} w.
Arguments calls {St Env} w.
Arguments tx {St Env} w.
Arguments env {St Env} w.

(** The number of open transactions. *)
Definition tip {St Env} (w : World St Env) : nat := transactionsInProgress (tx w).

Definition M (St Env A : Type) : Type := World St Env -> Res A * World St Env.

Definition ret {St Env A} (a : A) : M St Env A := fun w => (Ok a, w).
Definition throw {St Env A} (e : error) : M St Env A := fun w => (Err e, w).
Definition bind {St Env A B} (m : M St Env A) (f : A -> M St Env B) : M St Env B :=
  fun w => match m w with
           | (Ok a, w') => f a w'
           | (Err e, w') => (Err e, w')
           end.

Notation "x <- c1 ;; c2" := (bind c1 (fun x => c2))
  (at level 100, c1 at next level, right associativity).

Section TransactionCapability.
Context {St Env : Type} `{SignalKeyStore St}.

Definition with_tx (w : World St Env) (t : TxState) : World St Env :=
  {| backing := backing w; calls := calls w; tx := t; env := env w |}.

Definition isInTransaction (w : World St Env) : bool :=
  bool_decide (0 < transactionsInProgress (tx w))%nat.

(** [state.get(type, ids)] on the wrapped store, logged. *)
Definition state_get (type : string) (ids : list string) : M St Env dict :=
  fun w =>
    let '(r, s') := store_get type ids (backing w) in
    (r, {| backing := s'; calls := calls w ++ [CallGet type ids];
           tx := tx w; env := env w |}).

(** [state.set(data)] on the wrapped store, logged. *)
Definition state_set (data : dataset) : M St Env unit :=
  fun w =>
    let '(r, s') := store_set data (backing w) in
    (r, {| backing := s'; calls := calls w ++ [CallSet data];
           tx := tx w; env := env w |}).

(** [ids.reduce(...)]: the ids whose cached entry is truthy. *)
Definition collect (cached : dict) (ids : list string) : dict :=
  fold_left (fun acc id =>
               match cached !! id with
               | Some v => if truthy v then <[id := v]> acc else acc
               | None => acc
               end) ids ∅.

(** [get(type, ids)] of the capability. *)
Definition ks_get (type : string) (ids : list string) : M St Env dict :=
  fun w =>
    if isInTransaction w then
      let dict0 := default ∅ (transactionCache (tx w) !! type) in
      let idsRequiringFetch :=
        List.filter (fun id => bool_decide (dict0 !! id = None)) ids in
      let fetched : Res unit * World St Env :=
        match idsRequiringFetch with
        | [] => (Ok tt, w)
        | _ :: _ =>
            let t1 := {| opts := opts (tx w);
                         dbQueriesInTransaction := S (dbQueriesInTransaction (tx w));
                         transactionCache := transactionCache (tx w);
                         mutations := mutations (tx w);
                         transactionsInProgress := transactionsInProgress (tx w) |} in
            match state_get type idsRequiringFetch (with_tx w t1) with
            | (Err e, w') => (Err e, w')
            | (Ok result, w') =>
                (* transactionCache[type] ||= {}; Object.assign(..., result) *)
                let old := default ∅ (transactionCache (tx w') !! type) in
                let t2 := {| opts := opts (tx w');
                             dbQueriesInTransaction := dbQueriesInTransaction (tx w');
                             transactionCache :=
                               <[type := result ∪ old]> (transactionCache (tx w'));
                             mutations := mutations (tx w');
                             transactionsInProgress := transactionsInProgress (tx w') |} in
                (Ok tt, with_tx w' t2)
            end
        end in
      match fetched with
      | (Err e, w') => (Err e, w')
      | (Ok _, w') =>
          (Ok (collect (default ∅ (transactionCache (tx w') !! type)) ids), w')
      end
    else state_get type ids w.

(** [{ ...old[key], ...data[key] }] for every key of [data]. *)
Definition spread_into (data old : dataset) : dataset :=
  merge (fun od oo => match od with
                      | Some d => Some (d ∪ default ∅ oo)
                      | None => oo
                      end) data old.

(** [set(data)] of the capability. *)
Definition ks_set (data : dataset) : M St Env unit :=
  fun w =>
    if isInTransaction w then
      let t1 := {| opts := opts (tx w);
                   dbQueriesInTransaction := dbQueriesInTransaction (tx w);
                   transactionCache := spread_into data (transactionCache (tx w));
                   mutations := spread_into data (mutations (tx w));
                   transactionsInProgress := transactionsInProgress (tx w) |} in
      (Ok tt, with_tx w t1)
    else state_set data w.

(** The commit loop: [while(tries) { tries -= 1; try { await
    state.set(mutations); break } catch { warn; await delay } }]. *)
Fixpoint commit (tries : nat) (w : World St Env) : World St Env :=
  match tries with
  | O => w
  | S n =>
      match state_set (mutations (tx w)) w with
      | (Ok _, w') => w'
      | (Err _, w') => commit n w'
      end
  end.

(** Entry of [transaction(work)]: [transactionsInProgress += 1]. *)
Definition tx_enter (w : World St Env) : World St Env :=
  with_tx w {| opts := opts (tx w);
               dbQueriesInTransaction := dbQueriesInTransaction (tx w);
               transactionCache := transactionCache (tx w);
               mutations := mutations (tx w);
               transactionsInProgress := S (transactionsInProgress (tx w)) |}.

(** The [finally] block. *)
Definition tx_finally (w : World St Env) : World St Env :=
  let n := Nat.pred (transactionsInProgress (tx w)) in
  if bool_decide (n = 0%nat) then
    with_tx w {| opts := opts (tx w); dbQueriesInTransaction := 0;
                 transactionCache := ∅; mutations := ∅;
                 transactionsInProgress := n |}
  else
    with_tx w {| opts := opts (tx w);
                 dbQueriesInTransaction := dbQueriesInTransaction (tx w);
                 transactionCache := transactionCache (tx w);
                 mutations := mutations (tx w);
                 transactionsInProgress := n |}.

(** What follows [await work()]: the commit of the outermost transaction
    and the [finally] block. *)
Definition tx_exit {A} (r : Res A * World St Env) : Res A * World St Env :=
  match r with
  | (Err e, w) => (Err e, tx_finally w)
  | (Ok a, w) =>
      let w' :=
        if bool_decide (transactionsInProgress (tx w) = 1%nat)
           && bool_decide (mutations (tx w) ≠ ∅)
        then commit (maxCommitRetries (opts (tx w))) w
        else w in
      (Ok a, tx_finally w')
  end.

(** [transaction(work)]. *)
Definition ks_transaction {A} (work : M St Env A) : M St Env A :=
  fun w => tx_exit (work (tx_enter w)).

End TransactionCapability.

(* ===================================================================== *)
(** * Transaction bodies                                                 *)
(* ===================================================================== *)

(** The [work] callback handed to [transaction]: code that reads and
    writes through the capability ([get], [set], nested [transaction]),
    catches errors, throws, and acts on the rest of the world, but has no
    handle on the capability's private variables or on the wrapped
    store. *)
Inductive prog (Env : Type) (A : Type) : Type :=
| Ret (a : A)
| Throw (e : error)
| Get (type : string) (ids : list string) (k : dict -> prog Env A)
| Put (data : dataset) (k : prog Env A)
| Transaction (B : Type) (work : prog Env B) (k : B -> prog Env A)
| TryCatch (B : Type) (body : prog Env B) (handler : error -> prog Env B)
           (k : B -> prog Env A)
| Ext (X : Type) (f : Env -> Res X * Env) (k : X -> prog Env A).
Arguments Ret {Env A} a.
Arguments Throw {Env A} e.
Arguments Get {Env A} type ids k.
Arguments Put {Env A} data k.
Arguments Transaction {Env A B} work k.
Arguments TryCatch {Env A B} body handler k.
Arguments Ext {Env A X} f k.

(** An action on the world outside the key store. *)
Definition lift_env {St Env X} (f : Env -> Res X * Env) : M St Env X :=
  fun w =>
    let '(r, e') := f (env w) in
    (r, {| backing := backing w; calls := calls w; tx := tx w; env := e' |}).

Section Run.
Context {St Env : Type} `{SignalKeyStore St}.

Fixpoint run {A} (p : prog Env A) : M St Env A :=
  match p with
  | Ret a => ret a
  | Throw e => throw e
  | Get type ids k => r <- ks_get type ids ;; run (k r)
  | Put data k => _ <- ks_set data ;; run k
  | Transaction work k => b <- ks_transaction (run work) ;; run (k b)
  | TryCatch body handler k =>
      fun w =>
        match run body w with
        | (Ok b, w') => run (k b) w'
        | (Err e, w') =>
            match run (handler e) w' with
            | (Ok b, w'') => run (k b) w''
            | (Err e', w'') => (Err e', w'')
            end
        end
  | Ext f k => x <- lift_env f ;; run (k x)
  end.

(** All [tries] attempts of the commit loop reject. *)
Fixpoint all_commits_fail (tries : nat) (data : dataset) (s : St) : Prop :=
  match tries with
  | O => True
  | S n => exists e s', store_set data s = (Err e, s')
                        /\ all_commits_fail n data s'
  end.

(** The wrapped store answers a [get] with entries for requested ids
    only. *)
Definition get_returns_requested : Prop :=
  forall type ids s r s',
    store_get type ids s = (Ok r, s') ->
    forall id, is_Some (r !! id) -> id ∈ ids.

End Run.

Section LaterCalls.
Context {St Env : Type} `{SignalKeyStore St}.

(** The calls a transaction body makes after some point, as far as they
    leave the entry [(type, id)] alone: any [get], and any [set] whose
    data carries no entry for [(type, id)]. *)
Inductive later_in_tx (type id : string) : World St Env -> World St Env -> Prop :=
| later_refl w : later_in_tx type id w w
| later_get w t ids r w1 w2 :
    ks_get t ids w = (r, w1) ->
    later_in_tx type id w1 w2 ->
    later_in_tx type id w w2
| later_set w data w1 w2 :
    (forall d, data !! type = Some d -> d !! id = None) ->
    ks_set data w = (Ok tt, w1) ->
    later_in_tx type id w1 w2 ->
    later_in_tx type id w w2.

End LaterCalls.

(* ===================================================================== *)
(** * An in-memory key store                                             *)
(* ===================================================================== *)

(** The key store is supplied by the caller of the library.  This one
    keeps the entries in memory, deletes on [null], and can be told to
    reject its next [failing_sets] writes and [failing_gets] reads; the
    examples below run the code against it. *)
Record MemStore := {
  entries : dataset;
  failing_sets : nat;
  failing_gets : nat
}.

Definition mem_write_dict (d old : dict) : dict :=
  merge (fun ov oo => match ov with
                      | Some VNull => None
                      | Some v => Some v
                      | None => oo
                      end) d old.

Definition mem_write (data c : dataset) : dataset :=
  merge (fun od oc => match od with
                      | Some d => Some (mem_write_dict d (default ∅ oc))
                      | None => oc
                      end) data c.

Definition mem_read (d : dict) (ids : list string) : dict :=
  fold_left (fun acc id => match d !! id with
                           | Some v => <[id := v]> acc
                           | None => acc
                           end) ids ∅.

Global Instance MemStore_SignalKeyStore : SignalKeyStore MemStore := {
  store_get type ids s :=
    match failing_gets s with
    | S n => (Err "get failed",
              {| entries := entries s; failing_sets := failing_sets s;
                 failing_gets := n |})
    | O => (Ok (mem_read (default ∅ (entries s !! type)) ids), s)
    end;
  store_set data s :=
    match failing_sets s with
    | S n => (Err "set failed",
              {| entries := entries s; failing_sets := n;
                 failing_gets := failing_gets s |})
    | O => (Ok tt, {| entries := mem_write data (entries s);
                      failing_sets := 0; failing_gets := failing_gets s |})
    end
}.

Definition mem_store (c : dataset) (fs fg : nat) : MemStore :=
  {| entries := c; failing_sets := fs; failing_gets := fg |}.

Definition world0 {Env} (s : MemStore) (o : TransactionCapabilityOptions) (e : Env)
  : World MemStore Env :=
  {| backing := s; calls := []; tx := tx_init o; env := e |}.

Definition default_opts : TransactionCapabilityOptions :=
  {| maxCommitRetries := 3; delayBetweenTriesMs := 10 |}.

Definition sample_pair : KeyPair := {| public := [1; 2; 3]; private := [4; 5; 6] |}.

(** A transaction that writes one pre-key and then throws, on an empty
    store. *)
Definition throwing_work : prog unit unit :=
  Put {[ "pre-key" := {[ "1" := VItem (PreKey sample_pair) ]} ]} (Throw "boom").

(** A transaction that writes one pre-key, on a store that rejects its
    next three writes, with [maxCommitRetries = 3]. *)
Definition writing_work : prog unit unit :=
  Put {[ "pre-key" := {[ "1" := VItem (PreKey sample_pair) ]} ]} (Ret tt).

Definition rejecting_world : World MemStore unit :=
  world0 (mem_store ∅ 3 0) default_opts tt.

(** A deletion of pre-key 7 inside a transaction, on a store that holds
    pre-key 7. *)
Definition delete_7 : dataset := {[ "pre-key" := {[ "7" := VNull ]} ]}.

Definition holding_7 : World MemStore unit :=
  tx_enter (world0 (mem_store {[ "pre-key" := {[ "7" := VItem (PreKey sample_pair) ]} ]} 0 0)
                   default_opts tt).

(** The entry [(type, id)] of a data set is [null]. *)
Definition null_at (type id : string) (ds : dataset) : Prop :=
  exists d, ds !! type = Some d /\ d !! id = Some VNull.

Definition holds_null {St Env} (type id : string) (w : World St Env) : Prop :=
  (0 < tip w)%nat
  /\ null_at type id (transactionCache (tx w))
  /\ null_at type id (mutations (tx w)).

(* ===================================================================== *)
(** * Pre-keys (src/Utils/signal.ts)                                     *)
(* ===================================================================== *)

(** The fields of [AuthenticationCreds] read by the code below. *)
Record AuthenticationCreds := {
  nextPreKeyId : Z;
  firstUnuploadedPreKeyId : Z;
  me_id : string;
  me_lid : option string
}.

(** [Partial<AuthenticationCreds>] as returned by [getNextPreKeys]. *)
Record PreKeyUpdate := {
  upd_nextPreKeyId : Z;
  upd_firstUnuploadedPreKeyId : Z
}.

(** [id.toString()], and the property name a numeric index is stored
    under. *)
Definition toString (z : Z) : string := pretty z.

Record PreKeyBatch := {
  newPreKeyIds : list Z;
  newPreKeys : gmap string KeyPair;
  lastPreKeyId : Z;
  preKeysRange : Z * Z
}.

(** [generateOrGetPreKeys(creds, range)].  [Curve.generateKeyPair()] draws
    a fresh pair at each call; [draw k] is the pair of the [k]-th call.
    [newPreKeyIds] lists the values of the loop index [i].  The counters
    are integers here and doubles in the code: the two agree as long as
    the counters and the range are not negative and the counters plus the
    range stay below 2^53. *)
Definition generateOrGetPreKeys (draw : nat -> KeyPair)
    (creds : AuthenticationCreds) (range : Z) : PreKeyBatch :=
  let avaliable := nextPreKeyId creds - firstUnuploadedPreKeyId creds in
  let remaining := range - avaliable in
  let lastPreKeyId := nextPreKeyId creds + remaining - 1 in
  let ids := if bool_decide (0 < remaining)
             then seqZ (nextPreKeyId creds) (lastPreKeyId - nextPreKeyId creds + 1)
             else [] in
  {| newPreKeyIds := ids;
     newPreKeys := list_to_map (imap (fun k i => (toString i, draw k)) ids);
     lastPreKeyId := lastPreKeyId;
     preKeysRange := (firstUnuploadedPreKeyId creds, range) |}.

Section PreKeys.
Context {St Env : Type} `{SignalKeyStore St}.

(** [getPreKeys({ get }, min, limit)]. *)
Definition getPreKeys (min limit : Z) : M St Env dict :=
  let idList := toString <$> seqZ min (limit - min) in
  ks_get "pre-key" idList.

Definition preKeyEntries (m : gmap string KeyPair) : dict :=
  (fun kp => VItem (PreKey kp)) <$> m.

(** [getNextPreKeys({ creds, keys }, count)]. *)
Definition getNextPreKeys (draw : nat -> KeyPair)
    (creds : AuthenticationCreds) (count : Z)
  : M St Env (PreKeyUpdate * dict) :=
  let b := generateOrGetPreKeys draw creds count in
  let update :=
    {| upd_nextPreKeyId := Z.max (lastPreKeyId b + 1) (nextPreKeyId creds);
       upd_firstUnuploadedPreKeyId :=
         Z.max (firstUnuploadedPreKeyId creds) (lastPreKeyId b + 1) |} in
  _ <- ks_set {[ "pre-key" := preKeyEntries (newPreKeys b) ]} ;;
  preKeys <- getPreKeys (fst (preKeysRange b))
                        (fst (preKeysRange b) + snd (preKeysRange b)) ;;
  ret (update, preKeys).

End PreKeys.

Definition sample_creds (next first : Z) : AuthenticationCreds :=
  {| nextPreKeyId := next; firstUnuploadedPreKeyId := first;
     me_id := "14155550009:3@s.whatsapp.net"; me_lid := None |}.

Definition sample_draw (k : nat) : KeyPair :=
  {| public := [Z.of_nat k]; private := [Z.of_nat k + 100] |}.

(* ===================================================================== *)
(** * Binary nodes and JIDs                                              *)
(* ===================================================================== *)

(** [BinaryNode]: a tag, string attributes, and a content that is absent,
    a byte string, or a list of nodes. *)
Inductive BinaryNode : Type :=
| Node (tag : string) (attrs : gmap string string) (content : NodeContent)
with NodeContent : Type :=
| Absent
| Bytes (b : bytes)
| Children (l : list BinaryNode).

Definition tag (n : BinaryNode) : string := let 'Node t _ _ := n in t.
Definition attrs (n : BinaryNode) : gmap string string := let 'Node _ a _ := n in a.
Definition content (n : BinaryNode) : NodeContent := let 'Node _ _ c := n in c.

(** The nodes of a content when it is an array ([Array.isArray]), none
    otherwise. *)
Definition children_of (c : NodeContent) : list BinaryNode :=
  match c with Children l => l | _ => [] end.

(** A JavaScript number as far as device ids go: an integer, or [NaN]
    (what unary plus yields on [undefined] or on text that is no number). *)
Inductive number :=
| NaN
| Num (z : Z).

Global Instance number_eq_dec : EqDecision number.
Proof. solve_decision. Defined.

(** [a === b] on numbers: [NaN] equals nothing. *)
Definition strict_eq (a b : number) : bool :=
  match a, b with
  | Num x, Num y => bool_decide (x = y)
  | _, _ => false
  end.

(** [a === b] where [a] may be [undefined] and [b] is a number. *)
Definition strict_eq_opt (a : option number) (b : number) : bool :=
  match a with
  | Some x => strict_eq x b
  | None => false
  end.

(** [JidWithDevice]: [{ user, device? }]. *)
Record JidWithDevice := {
  user : string;
  device : option number
}.

Global Instance JidWithDevice_eq_dec : EqDecision JidWithDevice.
Proof. solve_decision. Defined.

(** What [jidDecode] yields: [{ user, server, device? }]. *)
Record FullJid := {
  fj_user : string;
  fj_server : string;
  fj_device : option number
}.

(** The helpers of the WABinary module used by the code below, which is
    not among the sources, and the reading of an attribute as a number
    (unary plus).  The code is verified for any such helpers. *)
Class WABinary := {
  jidDecode : option string -> option FullJid;
  jidEncode : string -> string -> option number -> string;
  jidNormalizedUser : string -> string;
  isJidGroup : string -> bool;
  areJidsSameUser : string -> string -> bool;
  getBinaryNodeChild : option BinaryNode -> string -> option BinaryNode;
  getBinaryNodeChildren : option BinaryNode -> string -> list BinaryNode;
  toNumber : option string -> number
}.

Definition S_WHATSAPP_NET : string := "@s.whatsapp.net".

(** [!!s] for an attribute that may be missing. *)
Definition attr_truthy (s : option string) : bool :=
  match s with
  | Some v => negb (bool_decide (v = ""))
  | None => false
  end.

Section ExtractDeviceJids.
Context `{WABinary}.

(** [processDevice] (signal.ts). *)
Definition processDevice (tag : string) (attrs : gmap string string)
    (user myUser : string) (myDevice : option number)
    (excludeZeroDevices : bool) (extracted : list JidWithDevice)
  : list JidWithDevice :=
  let device := toNumber (attrs !! "id") in
  if bool_decide (tag = "device")
     && (negb excludeZeroDevices || negb (strict_eq device (Num 0)))
     && (negb (bool_decide (myUser = user)) || negb (strict_eq_opt myDevice device))
     && (strict_eq device (Num 0) || attr_truthy (attrs !! "key-index"))
  then extracted ++ [{| user := user; device := Some device |}]
  else extracted.

(** [processItem] (signal.ts); [jidDecode(...)!] throws on a JID that
    does not decode. *)
Definition processItem (item : BinaryNode) (myUser : string)
    (myDevice : option number) (excludeZeroDevices : bool)
    (extracted : list JidWithDevice) : Res (list JidWithDevice) :=
  match jidDecode (attrs item !! "jid") with
  | None => Err "TypeError: cannot destructure undefined"
  | Some fj =>
      let devicesNode := getBinaryNodeChild (Some item) "devices" in
      let deviceListNode := getBinaryNodeChild devicesNode "device-list" in
      match deviceListNode with
      | Some (Node _ _ (Children l)) =>
          Ok (fold_left (fun acc d =>
                           processDevice (tag d) (attrs d) (fj_user fj)
                             myUser myDevice excludeZeroDevices acc)
                        l extracted)
      | _ => Ok extracted
      end
  end.

Fixpoint processItems (items : list BinaryNode) (myUser : string)
    (myDevice : option number) (excludeZeroDevices : bool)
    (extracted : list JidWithDevice) : Res (list JidWithDevice) :=
  match items with
  | [] => Ok extracted
  | item :: rest =>
      match processItem item myUser myDevice excludeZeroDevices extracted with
      | Ok extracted' => processItems rest myUser myDevice excludeZeroDevices extracted'
      | Err e => Err e
      end
  end.

(** The outer loop of [extractDeviceJids] over [result.content]. *)
Fixpoint extractFromNodes (nodes : list BinaryNode) (myUser : string)
    (myDevice : option number) (excludeZeroDevices : bool)
    (extracted : list JidWithDevice) : Res (list JidWithDevice) :=
  match nodes with
  | [] => Ok extracted
  | node :: rest =>
      let step :=
        match getBinaryNodeChild (Some node) "list" with
        | Some (Node _ _ (Children list)) =>
            processItems list myUser myDevice excludeZeroDevices extracted
        | _ => Ok extracted
        end in
      match step with
      | Ok extracted' => extractFromNodes rest myUser myDevice excludeZeroDevices extracted'
      | Err e => Err e
      end
  end.

(** [extractDeviceJids(result, myJid, excludeZeroDevices)].  Iterating
    an absent content throws; a byte content yields numbers, which have
    no [list] child. *)
Definition extractDeviceJids (result : BinaryNode) (myJid : string)
    (excludeZeroDevices : bool) : Res (list JidWithDevice) :=
  match jidDecode (Some myJid) with
  | None => Err "TypeError: cannot destructure undefined"
  | Some me =>
      match content result with
      | Absent => Err "TypeError: result.content is not iterable"
      | Bytes _ => Ok []
      | Children nodes =>
          extractFromNodes nodes (fj_user me) (fj_device me) excludeZeroDevices []
      end
  end.

(** The [<device>] descriptors a USync response carries for a user: the
    children of the [device-list] of the [devices] child of an item of
    a [list]. *)
Definition descriptor_in (result : BinaryNode) (u : string)
    (d : BinaryNode) : Prop :=
  exists node t1 a1 items item fj t2 a2 ds,
    node ∈ children_of (content result)
    /\ getBinaryNodeChild (Some node) "list" = Some (Node t1 a1 (Children items))
    /\ item ∈ items
    /\ jidDecode (attrs item !! "jid") = Some fj /\ fj_user fj = u
    /\ getBinaryNodeChild (getBinaryNodeChild (Some item) "devices") "device-list"
       = Some (Node t2 a2 (Children ds))
    /\ d ∈ ds.

End ExtractDeviceJids.

Section ExtractedFrom.
Context `{WABinary}.

(** What [processDevice] has checked about a descriptor [dn] of user [u]
    before it pushes [x], when zero devices are excluded. *)
Definition pushed_from (myUser : string) (myDevice : option number)
    (u : string) (dn : BinaryNode) (x : JidWithDevice) : Prop :=
  tag dn = "device"
  /\ x = {| user := u; device := Some (toNumber (attrs dn !! "id")) |}
  /\ strict_eq (toNumber (attrs dn !! "id")) (Num 0) = false
  /\ ~ (myUser = u /\ strict_eq_opt myDevice (toNumber (attrs dn !! "id")) = true)
  /\ attr_truthy (attrs dn !! "key-index") = true.

(** An element pushed while processing one item of a [list]. *)
Definition pushed_by_item (myUser : string) (myDevice : option number)
    (item : BinaryNode) (x : JidWithDevice) : Prop :=
  exists fj t a ds dn,
    jidDecode (attrs item !! "jid") = Some fj
    /\ getBinaryNodeChild (getBinaryNodeChild (Some item) "devices") "device-list"
       = Some (Node t a (Children ds))
    /\ dn ∈ ds
    /\ pushed_from myUser myDevice (fj_user fj) dn x.

End ExtractedFrom.

(* ===================================================================== *)
(** * The WABinary helpers                                               *)
(* ===================================================================== *)

(** Text up to the first [sep], and the text after it if [sep] occurs. *)
Fixpoint cut (sep : Ascii.ascii) (s : string) : string * option string :=
  match s with
  | EmptyString => (EmptyString, None)
  | String c rest =>
      if Ascii.eqb c sep then (EmptyString, Some rest)
      else let '(a, b) := cut sep rest in (String c a, b)
  end.

Fixpoint read_digits (s : string) (acc : Z) : option Z :=
  match s with
  | EmptyString => Some acc
  | String c rest =>
      let n := Z.of_nat (Ascii.nat_of_ascii c) in
      if bool_decide (48 <= n <= 57) then read_digits rest (10 * acc + (n - 48))
      else None
  end.

(** Unary plus on an attribute, as far as the examples need it:
    [undefined] reads as [NaN], the empty string as 0, a run of decimal
    digits as its value.  Other text is taken as [NaN] here, although
    unary plus also reads a sign, an exponent, a hexadecimal literal and
    white space around the number.  The theorems on device lists hold for
    any [toNumber]. *)
Definition decimal_toNumber (o : option string) : number :=
  match o with
  | None => NaN
  | Some s => match read_digits s 0 with
              | Some z => Num z
              | None => NaN
              end
  end.

Fixpoint ends_with (suffix s : string) : bool :=
  if String.eqb s suffix then true
  else match s with
       | EmptyString => false
       | String _ rest => ends_with suffix rest
       end.

(** Modelled from the spec: the JID helpers of the WABinary module
    ([jidDecode], [jidEncode], [jidNormalizedUser], [isJidGroup],
    [areJidsSameUser]) and its node helpers are not among the sources.
    Following the JID forms of the data model, a JID reads
    [user@server] or, for a specific device, with the device number
    between the user and the [@]; the code itself splits the device off at
    [":"] (messages-send.ts, line 540), and an agent suffix after ["_"] is
    not part of the user.  [jidDecode] yields [{user, server, device?}];
    [jidEncode] writes a device only when it is a non-zero number. *)
Definition wa_jidDecode (o : option string) : option FullJid :=
  match o with
  | None => None
  | Some jid =>
      match cut "@"%char jid with
      | (_, None) => None
      | (userCombined, Some server) =>
          let '(userAgent, dev) := cut ":"%char userCombined in
          let '(u, _) := cut "_"%char userAgent in
          let d := match dev with
                   | Some rest =>
                       let seg := fst (cut ":"%char rest) in
                       if bool_decide (seg = "") then None
                       else Some (decimal_toNumber (Some seg))
                   | None => None
                   end in
          Some {| fj_user := u; fj_server := server; fj_device := d |}
      end
  end.

Definition wa_jidEncode (u server : string) (d : option number) : string :=
  u +:+ match d with
        | Some (Num z) => if bool_decide (z = 0) then "" else ":" +:+ toString z
        | _ => ""
        end +:+ "@" +:+ server.

Definition wa_jidNormalizedUser (jid : string) : string :=
  match wa_jidDecode (Some jid) with
  | None => ""
  | Some fj =>
      wa_jidEncode (fj_user fj)
        (if bool_decide (fj_server fj = "c.us") then "s.whatsapp.net" else fj_server fj)
        None
  end.

Definition wa_areJidsSameUser (a b : string) : bool :=
  bool_decide (fj_user <$> wa_jidDecode (Some a) = fj_user <$> wa_jidDecode (Some b)).

Definition wa_getBinaryNodeChildren (o : option BinaryNode) (childTag : string)
  : list BinaryNode :=
  match o with
  | Some (Node _ _ (Children l)) =>
      List.filter (fun n => bool_decide (tag n = childTag)) l
  | _ => []
  end.

Definition wa_getBinaryNodeChild (o : option BinaryNode) (childTag : string)
  : option BinaryNode :=
  head (wa_getBinaryNodeChildren o childTag).

Definition wa : WABinary := {|
  jidDecode := wa_jidDecode;
  jidEncode := wa_jidEncode;
  jidNormalizedUser := wa_jidNormalizedUser;
  isJidGroup := ends_with "@g.us";
  areJidsSameUser := wa_areJidsSameUser;
  getBinaryNodeChild := wa_getBinaryNodeChild;
  getBinaryNodeChildren := wa_getBinaryNodeChildren;
  toNumber := decimal_toNumber
|}.

(** Builders for USync responses. *)
Definition device_node (a : list (string * string)) : BinaryNode :=
  Node "device" (list_to_map a) Absent.

Definition user_item (jid : string) (devices : list BinaryNode) : BinaryNode :=
  Node "user" {[ "jid" := jid ]}
       (Children [Node "devices" ∅
                       (Children [Node "device-list" ∅ (Children devices)])]).

Definition usync_result (items : list BinaryNode) : BinaryNode :=
  Node "iq" {[ "type" := "result" ]}
       (Children [Node "usync" ∅ (Children [Node "list" ∅ (Children items)])]).

(** A response for user 14155550001 with a primary device, a companion
    with a key index, and a companion without one. *)
Definition sample_usync_result : BinaryNode :=
  usync_result
    [user_item "14155550001@s.whatsapp.net"
       [device_node [("id", "0")];
        device_node [("id", "1"); ("key-index", "2")];
        device_node [("id", "2")]]].

(* ===================================================================== *)
(** * The socket and its collaborators (messages-send.ts)                *)
(* ===================================================================== *)

(** The part of the socket's state the relay touches, outside the key
    store: the user-devices cache, the stanzas handed to [query] and
    to [sendNode] (in order), and the count of generated tags. *)
Record Socket := {
  userDevicesCache : gmap string (list JidWithDevice);
  queried : list BinaryNode;
  sent : list BinaryNode;
  epoch : nat
}.

Record GroupMetadata := { participants : list string }.

(** [MessageRelayOptions]; [participant] is the [jid] of
    [{ jid, count }]. *)
Record MessageRelayOptions := {
  messageId : option string;
  participant : option string;
  additionalAttributes : option (gmap string string);
  additionalNodes : option (list BinaryNode);
  useUserDevicesCache : option bool;
  useCachedGroupMetadata : option bool;
  statusJidList : option (list string)
}.

(** What the relay is given from outside messages-send.ts: the query
    layer and the groups socket, the configuration hooks, the codecs of
    Utils, the fields of the protobuf message it inspects, and the Signal
    repository.  Each is a function of its arguments.  The repository
    keeps its sessions and sender keys in the same key store; that
    traffic is not followed here, so what is proved of a relay that
    encrypts is about the stanza and about the writes of the relay
    itself, not about every call the key store sees. *)
Class Collaborators (Message : Type) := {
  meId : string;
  meLid : option string;
  query : BinaryNode -> Res BinaryNode;
  generateMessageTag : nat -> string;
  generateMessageIDV2 : nat -> string;
  sendNode : BinaryNode -> Res unit;
  groupMetadata : string -> Res GroupMetadata;
  cachedGroupMetadata : option (string -> option GroupMetadata);
  patchMessageBeforeSending : Message -> list string -> Message;
  encodeWAMessage : Message -> bytes;
  encodeNewsletterMessage : Message -> bytes;
  encodeSignedDeviceIdentity : bytes;
  pinInChatMessage : Message -> bool;
  has : string -> Message -> bool;
  getTypeMessage : Message -> string;
  editedMessage : Message -> option Message;
  protocolKeyId : Message -> string;
  isRevoke : Message -> bool;
  emptyMessage : Message;
  deviceSentMessage : string -> Message -> Message;
  senderKeyDistributionMessage : bytes -> string -> Message;
  jidToSignalProtocolAddress : string -> string;
  encryptMessage : string -> bytes -> Res (string * bytes);
  encryptGroupMessage : string -> bytes -> string -> Res (bytes * bytes);
  injectE2ESession : BinaryNode -> Res unit;
  assertNodeErrorFree : BinaryNode -> Res unit
}.

(** [Array.from(new Set(jids))]: first occurrences, in order. *)
Fixpoint uniq_from (seen : list string) (l : list string) : list string :=
  match l with
  | [] => []
  | x :: rest =>
      if bool_decide (x ∈ seen) then uniq_from seen rest
      else x :: uniq_from (x :: seen) rest
  end.

Definition uniq (l : list string) : list string := uniq_from [] l.

(** The [iq] of [getUSyncDevices]. *)
Definition usyncQuery (sid : string) (users : list BinaryNode) : BinaryNode :=
  Node "iq"
       (list_to_map [("to", S_WHATSAPP_NET); ("type", "get"); ("xmlns", "usync")])
       (Children
          [Node "usync"
                (list_to_map [("sid", sid); ("mode", "query"); ("last", "true");
                              ("index", "0"); ("context", "message")])
                (Children
                   [Node "query" ∅ (Children [Node "devices" {[ "version" := "2" ]} Absent]);
                    Node "list" ∅ (Children users)])]).

Definition userNode (jid : string) : BinaryNode :=
  Node "user" {[ "jid" := jid ]} Absent.

(** [deviceMap[item.user] = deviceMap[item.user] || []; push(item)]. *)
Definition groupByUser (extracted : list JidWithDevice)
  : gmap string (list JidWithDevice) :=
  fold_left (fun m item => <[user item := default [] (m !! user item) ++ [item]]> m)
            extracted ∅.

Section GetUSyncDevices.
Context `{WABinary} {Message : Type} `{Collaborators Message}.

(** The loop of [getUSyncDevices] over the deduplicated JIDs: cached
    users go to [deviceResults], the others to the [users] of the
    query.  The cache is asked with [user!]; on a JID that does not
    decode the key is [undefined], on which the cache throws. *)
Fixpoint splitCached (cache : gmap string (list JidWithDevice)) (useCache : bool)
    (jids : list string) (deviceResults : list JidWithDevice)
    (users : list BinaryNode) : Res (list JidWithDevice * list BinaryNode) :=
  match jids with
  | [] => Ok (deviceResults, users)
  | jid :: rest =>
      match jidDecode (Some jid) with
      | None => Err "TypeError: cache key is undefined"
      | Some fj =>
          let jid' := jidNormalizedUser jid in
          match cache !! fj_user fj with
          | Some devices =>
              if useCache
              then splitCached cache useCache rest (deviceResults ++ devices) users
              else splitCached cache useCache rest deviceResults (users ++ [userNode jid'])
          | None =>
              splitCached cache useCache rest deviceResults (users ++ [userNode jid'])
          end
      end
  end.

(** [getUSyncDevices(jids, useCache, ignoreZeroDevices)]. *)
Definition getUSyncDevices (jids : list string) (useCache ignoreZeroDevices : bool)
    (s : Socket) : Res (list JidWithDevice) * Socket :=
  match splitCached (userDevicesCache s) useCache (uniq jids) [] [] with
  | Err e => (Err e, s)
  | Ok (deviceResults, []) => (Ok deviceResults, s)
  | Ok (deviceResults, (_ :: _) as users) =>
      let iq := usyncQuery (generateMessageTag (epoch s)) users in
      let s1 := {| userDevicesCache := userDevicesCache s;
                   queried := queried s ++ [iq];
                   sent := sent s;
                   epoch := S (epoch s) |} in
      match query iq with
      | Err e => (Err e, s1)
      | Ok result =>
          match extractDeviceJids result meId ignoreZeroDevices with
          | Err e => (Err e, s1)
          | Ok extracted =>
              (Ok (deviceResults ++ extracted),
               {| userDevicesCache := groupByUser extracted ∪ userDevicesCache s1;
                  queried := queried s1;
                  sent := sent s1;
                  epoch := epoch s1 |})
          end
      end
  end.

End GetUSyncDevices.

Section UsyncReading.
Context `{WABinary}.

(** Whether [getUSyncDevices] serves a JID from the cache, and with
    which devices. *)
Definition servedFromCache (cache : gmap string (list JidWithDevice))
    (useCache : bool) (jid : string) : bool :=
  match jidDecode (Some jid) with
  | Some fj => useCache && bool_decide (is_Some (cache !! fj_user fj))
  | None => false
  end.

Definition cachedDevices (cache : gmap string (list JidWithDevice))
    (jid : string) : list JidWithDevice :=
  match jidDecode (Some jid) with
  | Some fj => default [] (cache !! fj_user fj)
  | None => []
  end.

(** The bare users a list of JIDs names. *)
Definition bareUsers (jids : list string) : list string :=
  omap (fun jid => fj_user <$> jidDecode (Some jid)) jids.

End UsyncReading.

(** The [<user>] nodes of a USync query. *)
Definition usyncUsers (iq : BinaryNode) : list BinaryNode :=
  children_of
    (from_option content Absent
       (wa_getBinaryNodeChild (wa_getBinaryNodeChild (Some iq) "usync") "list")).

(* ===================================================================== *)
(** * Stand-ins for the collaborators                                    *)
(* ===================================================================== *)

(** A server and a Signal repository to run the relay against: messages
    are texts, every queried user has a single primary device, the group
    [x@g.us] has four participants, encryption tags its input. *)
Definition demo_query (iq : BinaryNode) : Res BinaryNode :=
  if bool_decide (attrs iq !! "xmlns" = Some "usync") then
    Ok (usync_result
          ((fun u => user_item (default "" (attrs u !! "jid")) [device_node [("id", "0")]])
             <$> usyncUsers iq))
  else
    Ok (Node "iq" {[ "type" := "result" ]}
             (Children [Node "list" ∅
                             (Children (wa_getBinaryNodeChildren
                                          (wa_getBinaryNodeChild (Some iq) "key") "user"))])).

Definition demo_group : GroupMetadata :=
  {| participants := ["14155550001@s.whatsapp.net"; "14155550002@s.whatsapp.net";
                      "14155550003@s.whatsapp.net"; "14155550004@s.whatsapp.net"] |}.

Definition text_bytes (s : string) : bytes :=
  (fun c => Z.of_nat (Ascii.nat_of_ascii c)) <$> String.list_ascii_of_string s.

Definition demo : Collaborators string := {|
  meId := "14155550009:3@s.whatsapp.net";
  meLid := None;
  query := demo_query;
  generateMessageTag n := "tag-" +:+ pretty n;
  generateMessageIDV2 n := "3EB0" +:+ pretty n;
  sendNode _ := Ok tt;
  groupMetadata jid :=
    if bool_decide (jid = "x@g.us") then Ok demo_group else Ok {| participants := [] |};
  cachedGroupMetadata := None;
  patchMessageBeforeSending m _ := m;
  encodeWAMessage := text_bytes;
  encodeNewsletterMessage := text_bytes;
  encodeSignedDeviceIdentity := [9; 9];
  pinInChatMessage _ := false;
  has _ _ := false;
  getTypeMessage _ := "text";
  editedMessage _ := None;
  protocolKeyId _ := "";
  isRevoke _ := false;
  emptyMessage := "";
  deviceSentMessage dest m := "deviceSent:" +:+ dest +:+ ":" +:+ m;
  senderKeyDistributionMessage _ group := "skdm:" +:+ group;
  jidToSignalProtocolAddress jid :=
    match wa_jidDecode (Some jid) with
    | Some fj => fj_user fj +:+ "." +:+
                 match fj_device fj with Some (Num z) => toString z | _ => "0" end
    | None => jid
    end;
  encryptMessage jid data := Ok ("msg", 1 :: data);
  encryptGroupMessage group data me := Ok (2 :: data, [7; 7; 7]);
  injectE2ESession _ := Ok tt;
  assertNodeErrorFree _ := Ok tt
|}.

Definition socket0 (cache : gmap string (list JidWithDevice)) : Socket :=
  {| userDevicesCache := cache; queried := []; sent := []; epoch := 0 |}.

(* ===================================================================== *)
(** * relayMessage (messages-send.ts)                                    *)
(* ===================================================================== *)

Definition statusJid : string := "status@broadcast".

(** [x !== false] for an optional flag. *)
Definition not_false (o : option bool) : bool :=
  match o with Some false => false | _ => true end.

(** The row [result[jid] || {}] of a sender-key-memory lookup. *)
Definition senderKeyRow (result : dict) (jid : string) : gmap string bool :=
  match result !! jid with
  | Some (VItem (SenderKeyMemory m)) => m
  | _ => ∅
  end.

(** [!senderKeyMap[jid]]. *)
Definition unmarked (senderKeyMap : gmap string bool) (jid : string) : bool :=
  negb (default false (senderKeyMap !! jid)).

(** The loop over [devices] that picks the recipients of the sender-key
    distribution message and marks them ([senderKeyJids], [senderKeyMap]).
    The code marks the row object in place; the marked row reaches the
    key store with the [keys.set] that follows the loop. *)
Fixpoint markSenderKeys (jids : list string) (forced : bool)
    (senderKeyJids : list string) (senderKeyMap : gmap string bool)
  : list string * gmap string bool :=
  match jids with
  | [] => (senderKeyJids, senderKeyMap)
  | jid :: rest =>
      if unmarked senderKeyMap jid || forced
      then markSenderKeys rest forced (senderKeyJids ++ [jid]) (<[jid := true]> senderKeyMap)
      else markSenderKeys rest forced senderKeyJids senderKeyMap
  end.

(** The [<enc v="2" type="skmsg">] payload of a group message. *)
Definition skmsgNode (ciphertext : bytes) : BinaryNode :=
  Node "enc" (list_to_map [("v", "2"); ("type", "skmsg")]) (Bytes ciphertext).

(** The [<to jid=...><enc v="2" type=... ...extraAttrs>] node of one
    recipient. *)
Definition toNode (jid type : string) (extraAttrs : gmap string string)
    (ciphertext : bytes) : BinaryNode :=
  Node "to" {[ "jid" := jid ]}
       (Children [Node "enc" (extraAttrs ∪ list_to_map [("v", "2"); ("type", type)])
                       (Bytes ciphertext)]).

(** The [iq] with which [assertSessions] fetches pre-key bundles. *)
Definition keyQuery (jids : list string) : BinaryNode :=
  Node "iq"
       (list_to_map [("xmlns", "encrypt"); ("type", "get"); ("to", S_WHATSAPP_NET)])
       (Children [Node "key" ∅ (Children (userNode <$> jids))]).

Definition is_skmsg (n : BinaryNode) : bool :=
  bool_decide (tag n = "enc") && bool_decide (attrs n !! "type" = Some "skmsg").

(** The [<to>] recipient nodes of a stanza: the children of its
    [<participants>] children. *)
Definition recipientNodes (stanza : BinaryNode) : list BinaryNode :=
  concat ((fun n => if bool_decide (tag n = "participants")
                    then List.filter (fun c => bool_decide (tag c = "to"))
                                     (children_of (content n))
                    else [])
            <$> children_of (content stanza)).

Section Relay.
Context {St : Type} `{SignalKeyStore St} `{WABinary}
        {Message : Type} `{Collaborators Message}.

Definition lift_res {A} (r : Res A) : M St Socket A := fun w => (r, w).

(** [getMediaType]. *)
Definition getMediaType (message : Message) : option string :=
  if has "imageMessage" message then Some "image"
  else if has "videoMessage" message
       then Some (if has "videoMessage.gifPlayback" message then "gif" else "video")
  else if has "audioMessage" message
       then Some (if has "audioMessage.ptt" message then "ptt" else "audio")
  else if has "contactMessage" message then Some "vcard"
  else if has "documentMessage" message then Some "document"
  else if has "contactsArrayMessage" message then Some "contact_array"
  else if has "liveLocationMessage" message then Some "livelocation"
  else if has "stickerMessage" message then Some "sticker"
  else if has "orderMessage" message then Some "order"
  else if has "productMessage" message then Some "product"
  else if has "interactiveResponseMessage" message then Some "native_flow_response"
  else if has "groupInviteMessage" message then Some "url"
  else None.

(** [query(iq)] and [sendNode(stanza)], logged on the socket. *)
Definition sock_query (iq : BinaryNode) : M St Socket BinaryNode :=
  lift_env (fun s => (query iq,
                      {| userDevicesCache := userDevicesCache s;
                         queried := queried s ++ [iq];
                         sent := sent s; epoch := epoch s |})).

Definition sock_sendNode (stanza : BinaryNode) : M St Socket unit :=
  lift_env (fun s => (sendNode stanza,
                      {| userDevicesCache := userDevicesCache s;
                         queried := queried s;
                         sent := sent s ++ [stanza]; epoch := epoch s |})).

(** [msgId || generateMessageIDV2(sock.user?.id)]. *)
Definition chooseMessageId (o : option string) : M St Socket string :=
  match o with
  | Some id => if bool_decide (id = "") then
                 lift_env (fun s => (Ok (generateMessageIDV2 (epoch s)),
                                     {| userDevicesCache := userDevicesCache s;
                                        queried := queried s; sent := sent s;
                                        epoch := S (epoch s) |}))
               else ret id
  | None => lift_env (fun s => (Ok (generateMessageIDV2 (epoch s)),
                                {| userDevicesCache := userDevicesCache s;
                                   queried := queried s; sent := sent s;
                                   epoch := S (epoch s) |}))
  end.

Fixpoint forEachRes {A} (f : A -> Res unit) (l : list A) : Res unit :=
  match l with
  | [] => Ok tt
  | x :: rest => match f x with
                 | Ok _ => forEachRes f rest
                 | Err e => Err e
                 end
  end.

(** [parseAndInjectE2ESessions] (signal.ts): every [user] node of the
    [list] is checked for errors, then the sessions are injected (in
    chunks of 100, which does not change the outcome here). *)
Definition parseAndInjectE2ESessions (node : BinaryNode) : Res unit :=
  let nodes := getBinaryNodeChildren (getBinaryNodeChild (Some node) "list") "user" in
  match forEachRes assertNodeErrorFree nodes with
  | Err e => Err e
  | Ok _ => forEachRes injectE2ESession nodes
  end.

(** [assertSessions(jids, force)]. *)
Definition assertSessions (jids : list string) (force : bool) : M St Socket bool :=
  jidsRequiringFetch <-
    (if force then ret jids
     else
       sessions <- ks_get "session" (jidToSignalProtocolAddress <$> jids) ;;
       ret (List.filter
              (fun jid => negb (from_option truthy false
                                  (sessions !! jidToSignalProtocolAddress jid)))
              jids)) ;;
  match jidsRequiringFetch with
  | [] => ret false
  | _ :: _ =>
      result <- sock_query (keyQuery jidsRequiringFetch) ;;
      _ <- lift_res (parseAndInjectE2ESessions result) ;;
      ret true
  end.

(** The [Promise.all(jids.map(...))] of [createParticipantNodes]. *)
Fixpoint encryptEach (jids : list string) (data : bytes)
    (extraAttrs : gmap string string) : Res (list BinaryNode * bool) :=
  match jids with
  | [] => Ok ([], false)
  | jid :: rest =>
      match encryptMessage jid data with
      | Err e => Err e
      | Ok (type, ciphertext) =>
          match encryptEach rest data extraAttrs with
          | Err e => Err e
          | Ok (nodes, flag) =>
              Ok (toNode jid type extraAttrs ciphertext :: nodes,
                  bool_decide (type = "pkmsg") || flag)
          end
      end
  end.

(** [createParticipantNodes(jids, message, extraAttrs)]. *)
Definition createParticipantNodes (jids : list string) (message : Message)
    (extraAttrs : gmap string string) : Res (list BinaryNode * bool) :=
  let patched := patchMessageBeforeSending message jids in
  let data := encodeWAMessage patched in
  encryptEach jids data extraAttrs.

(** Locals of [relayMessage] derived from its arguments. *)
Definition isNewsletter (fj : FullJid) : bool := bool_decide (fj_server fj = "newsletter").
Definition isGroup (fj : FullJid) : bool := bool_decide (fj_server fj = "g.us").
Definition isStatus (jid : string) : bool := bool_decide (jid = statusJid).
Definition isLid (fj : FullJid) : bool := bool_decide (fj_server fj = "lid").

Definition destinationJid (jid : string) (fj : FullJid) : string :=
  if negb (isStatus jid) then
    jidEncode (fj_user fj)
      (if isLid fj then "lid" else if isGroup fj then "g.us"
       else if isNewsletter fj then "newsletter" else "s.whatsapp.net") None
  else statusJid.

Definition deviceServer (fj : FullJid) : string :=
  if isLid fj then "lid" else "s.whatsapp.net".

Definition extraAttrsOf (message : Message) : gmap string string :=
  let a : gmap string string :=
    match getMediaType message with
    | Some mediaType => {[ "mediatype" := mediaType ]}
    | None => ∅
    end in
  if pinInChatMessage message then <[ "decrypt-fail" := "hide" ]> a else a.

Definition isPeer (o : MessageRelayOptions) : bool :=
  bool_decide (additionalAttributes o ≫= (fun a => a !! "category") = Some "peer").

(** The first async function of the [Promise.all]: cached group
    metadata if allowed and usable, else [groupMetadata(jid)]. *)
Definition fetchGroupData (jid : string) (o : MessageRelayOptions)
  : Res GroupMetadata :=
  let useCached := not_false (useCachedGroupMetadata o) && negb (isStatus jid) in
  let cached := if useCached
                then match cachedGroupMetadata with
                     | Some f => f jid
                     | None => None
                     end
                else None in
  match cached with
  | Some groupData => Ok groupData
  | None => groupMetadata jid
  end.

(** The second one: the sender-key-memory row of the group
    ([result[jid] || {}]), not read for a status or when a participant
    is given: the map then starts empty. *)
Definition readSenderKeyMap (jid : string) (o : MessageRelayOptions)
  : M St Socket (gmap string bool) :=
  if negb (bool_decide (is_Some (participant o))) && negb (isStatus jid) then
    result <- ks_get "sender-key-memory" [jid] ;;
    ret (senderKeyRow result jid)
  else ret ∅.

(** The devices of a group or status message: the given participant,
    or the devices of the audience as [getUSyncDevices] lists them. *)
Definition groupDevices (jid : string) (o : MessageRelayOptions)
    (groupData : GroupMetadata) (devices0 : list JidWithDevice)
  : M St Socket (list JidWithDevice) :=
  match participant o with
  | Some _ => ret devices0
  | None =>
      let participantsList :=
        (if negb (isStatus jid) then participants groupData else [])
        ++ (if isStatus jid then default [] (statusJidList o) else []) in
      additionalDevices <-
        lift_env (getUSyncDevices participantsList
                    (not_false (useUserDevicesCache o)) false) ;;
      ret (devices0 ++ additionalDevices)
  end.

(** The group branch up to the list of devices and the row.  Both
    async functions of the [Promise.all] are started before either
    settles, so [keys.get] has been called for the row (when the row is
    read at all) before the group data arrives or fails to; the answer
    of the store is taken to arrive before the [Promise.all] settles. *)
Definition groupAudience (jid : string) (o : MessageRelayOptions)
    (devices0 : list JidWithDevice)
  : M St Socket (gmap string bool * list JidWithDevice) :=
  senderKeyMap <- readSenderKeyMap jid o ;;
  groupData <- lift_res (fetchGroupData jid o) ;;
  devices <- groupDevices jid o groupData devices0 ;;
  ret (senderKeyMap, devices).

Definition deviceJids (fj : FullJid) (devices : list JidWithDevice) : list string :=
  (fun d => jidEncode (user d) (deviceServer fj) (device d)) <$> devices.

(** The rest of the group branch: encryption, the recipients of the
    distribution message, the [skmsg] payload and the write of the row.
    Yields [participants], [binaryNodeContent] and
    [shouldIncludeDeviceIdentity]. *)
Definition groupFanOut (jid : string) (fj : FullJid) (message : Message)
    (o : MessageRelayOptions)
    (senderKeyMap : gmap string bool) (devices : list JidWithDevice)
  : M St Socket (list BinaryNode * list BinaryNode * bool) :=
  let extraAttrs := extraAttrsOf message in
  let patched := patchMessageBeforeSending message (deviceJids fj devices) in
  let data := encodeWAMessage patched in
  enc <- lift_res (encryptGroupMessage (destinationJid jid fj) data meId) ;;
  let '(ciphertext, skdm) := enc in
  let '(senderKeyJids, senderKeyMap') :=
    markSenderKeys (deviceJids fj devices)
                   (bool_decide (is_Some (participant o))) [] senderKeyMap in
  parts <-
    match senderKeyJids with
    | [] => ret ([], false)
    | _ :: _ =>
        let senderKeyMsg := senderKeyDistributionMessage skdm (destinationJid jid fj) in
        _ <- assertSessions senderKeyJids false ;;
        lift_res (createParticipantNodes senderKeyJids senderKeyMsg extraAttrs)
    end ;;
  _ <- ks_set {[ "sender-key-memory" :=
                   {[ jid := VItem (SenderKeyMemory senderKeyMap') ]} ]} ;;
  ret (fst parts, [skmsgNode ciphertext], snd parts).

(** The newsletter branch. *)
Definition newsletterBranch (message : Message) (msgId : string)
  : string * Message * list BinaryNode :=
  let mediaType := getMediaType message in
  let '(msgId1, message1) :=
    match editedMessage message with
    | Some m => (protocolKeyId message, m)
    | None => (msgId, message)
    end in
  let '(msgId2, message2) :=
    if isRevoke message1 then (protocolKeyId message1, emptyMessage)
    else (msgId1, message1) in
  let patched := patchMessageBeforeSending message2 [] in
  (msgId2, message2,
   [Node "plaintext"
         (match mediaType with
          | Some t => {[ "mediatype" := t ]}
          | None => ∅
          end)
         (Bytes (encodeNewsletterMessage patched))]).

(** The JID under which the one-to-one branch encrypts for each device,
    with the [isMe] flag; [creds.me.lid!.split(":")] throws when a LID
    is needed and the creds carry none. *)
Fixpoint directJids (fj : FullJid) (meUser : string)
    (devices : list JidWithDevice) : Res (list (bool * string)) :=
  match devices with
  | [] => Ok []
  | d :: rest =>
      let isMe := bool_decide (user d = meUser) in
      let u : Res string :=
        if isMe && isLid fj
        then match meLid with
             | Some lid => let p := fst (cut ":"%char lid) in
                           Ok (if bool_decide (p = "") then user d else p)
             | None => Err "TypeError: cannot read properties of undefined"
             end
        else Ok (user d) in
      match u with
      | Err e => Err e
      | Ok u' =>
          match directJids fj meUser rest with
          | Err e => Err e
          | Ok tl => Ok ((isMe, jidEncode u' (deviceServer fj) (device d)) :: tl)
          end
      end
  end.

(** The one-to-one branch. *)
Definition directBranch (jid : string) (fj : FullJid) (message : Message)
    (o : MessageRelayOptions) (devices0 : list JidWithDevice)
  : M St Socket (list BinaryNode * bool) :=
  let extraAttrs := extraAttrsOf message in
  match jidDecode (Some meId) with
  | None => throw "TypeError: cannot destructure undefined"
  | Some me =>
      let meUser := fj_user me in
      devices <-
        match participant o with
        | Some _ => ret devices0
        | None =>
            let seeded :=
              devices0 ++ [{| user := fj_user fj; device := None |}]
              ++ (if bool_decide (fj_user fj = meUser) then []
                  else [{| user := meUser; device := None |}]) in
            if isPeer o then ret seeded
            else
              additionalDevices <-
                lift_env (getUSyncDevices [meId; jid]
                            (not_false (useUserDevicesCache o)) true) ;;
              ret (seeded ++ additionalDevices)
        end ;;
      tagged <- lift_res (directJids fj meUser devices) ;;
      let meJids := snd <$> List.filter fst tagged in
      let otherJids := snd <$> List.filter (fun p => negb (fst p)) tagged in
      let allJids := snd <$> tagged in
      _ <- assertSessions allJids false ;;
      r1 <- lift_res (createParticipantNodes meJids
                        (deviceSentMessage (destinationJid jid fj) message) extraAttrs) ;;
      r2 <- lift_res (createParticipantNodes otherJids message extraAttrs) ;;
      ret (fst r1 ++ fst r2, snd r1 || snd r2)
  end.

(** What follows the branches: the [<participants>] wrapper or the
    inlined peer node, the stanza and its routing attributes, the device
    identity, the additional nodes, and [sendNode]. *)
Definition buildStanza (jid : string) (fj : FullJid) (message : Message)
    (o : MessageRelayOptions) (msgId : string)
    (participants : list BinaryNode) (binaryNodeContent : list BinaryNode)
    (shouldIncludeDeviceIdentity : bool) : BinaryNode :=
  let content1 :=
    match participants with
    | [] => binaryNodeContent
    | first :: _ =>
        if isPeer o then
          match children_of (content first) with
          | peerNode :: _ => binaryNodeContent ++ [peerNode]
          | [] => binaryNodeContent
          end
        else binaryNodeContent ++ [Node "participants" ∅ (Children participants)]
    end in
  let attrs0 : gmap string string :=
    default ∅ (additionalAttributes o)
    ∪ list_to_map [("id", msgId);
                   ("type", if isNewsletter fj then getTypeMessage message else "text")] in
  let dest := destinationJid jid fj in
  let attrs1 :=
    match participant o with
    | Some pjid =>
        if isJidGroup dest
        then <[ "participant" := pjid ]> (<[ "to" := dest ]> attrs0)
        else if areJidsSameUser pjid meId
             then <[ "recipient" := dest ]> (<[ "to" := pjid ]> attrs0)
             else <[ "to" := pjid ]> attrs0
    | None => <[ "to" := dest ]> attrs0
    end in
  let content2 :=
    if shouldIncludeDeviceIdentity
    then content1 ++ [Node "device-identity" ∅ (Bytes encodeSignedDeviceIdentity)]
    else content1 in
  let content3 :=
    match additionalNodes o with
    | Some (n :: ns) => content2 ++ n :: ns
    | _ => content2
    end in
  Node "message" attrs1 (Children content3).

(** The callback handed to [authState.keys.transaction]. *)
Definition relayBody (jid : string) (fj : FullJid) (message : Message)
    (o : MessageRelayOptions) (msgId : string) (devices0 : list JidWithDevice)
  : M St Socket string :=
  if isGroup fj || isStatus jid then
    a <- groupAudience jid o devices0 ;;
    r <- groupFanOut jid fj message o (fst a) (snd a) ;;
    _ <- sock_sendNode (buildStanza jid fj message o msgId
                          (fst (fst r)) (snd (fst r)) (snd r)) ;;
    ret msgId
  else if isNewsletter fj then
    let '(msgId', message', binaryNodeContent) := newsletterBranch message msgId in
    _ <- sock_sendNode (buildStanza jid fj message' o msgId' [] binaryNodeContent false) ;;
    ret msgId'
  else
    r <- directBranch jid fj message o devices0 ;;
    _ <- sock_sendNode (buildStanza jid fj message o msgId (fst r) [] (snd r)) ;;
    ret msgId.

(** What [relayMessage] does before it opens the transaction. *)
Definition relayPrelude (jid : string) (o : MessageRelayOptions)
  : M St Socket (FullJid * string * list JidWithDevice) :=
  match jidDecode (Some jid) with
  | None => throw "TypeError: cannot destructure undefined"
  | Some fj =>
      msgId <- chooseMessageId (messageId o) ;;
      match participant o with
      | None => ret (fj, msgId, [])
      | Some pjid =>
          match jidDecode (Some pjid) with
          | None => throw "TypeError: cannot destructure undefined"
          | Some p => ret (fj, msgId, [{| user := fj_user p; device := fj_device p |}])
          end
      end
  end.

(** The [devices] list as the prelude leaves it when it returns: the
    device of [participant], if the option is set. *)
Definition participantDevices (o : MessageRelayOptions) : list JidWithDevice :=
  match participant o with
  | None => []
  | Some pjid =>
      match jidDecode (Some pjid) with
      | None => []
      | Some p => [{| user := fj_user p; device := fj_device p |}]
      end
  end.

(** [relayMessage(jid, message, options)]. *)
Definition relayMessage (jid : string) (message : Message)
    (o : MessageRelayOptions) : M St Socket string :=
  pre <- relayPrelude jid o ;;
  let '(fj, msgId, devices0) := pre in
  ks_transaction (relayBody jid fj message o msgId devices0).

(** The sender-key row and the devices a group relay works with: the
    relay up to the end of [groupAudience]. *)
Definition relayAudience (jid : string) (o : MessageRelayOptions)
  : M St Socket (gmap string bool * list JidWithDevice) :=
  pre <- relayPrelude jid o ;;
  let '(fj, msgId, devices0) := pre in
  fun w => groupAudience jid o devices0 (tx_enter w).

End Relay.

Definition default_relay_options : MessageRelayOptions :=
  {| messageId := None; participant := None; additionalAttributes := None;
     additionalNodes := None; useUserDevicesCache := None;
     useCachedGroupMetadata := None; statusJidList := None |}.

(** A call of the wrapped store's [get] for [type]. *)
Definition is_get_of (type : string) (c : StoreCall) : Prop :=
  exists ids, c = CallGet type ids.

(** A step of the relay that leaves alone the open transactions, the
    pending mutations and the stanzas handed to [sendNode], and calls the
    wrapped store only as [P] allows. *)
Definition quiet {St} (P : StoreCall -> Prop) (w w' : World St Socket) : Prop :=
  tip w' = tip w
  /\ opts (tx w') = opts (tx w)
  /\ mutations (tx w') = mutations (tx w)
  /\ sent (env w') = sent (env w)
  /\ exists extra, calls w' = calls w ++ extra /\ Forall P extra.

(** [n] is the recipient node of [j] around [data] as encrypted for
    [j]. *)
Definition encrypted_for `{Collaborators Message} (data : bytes)
    (extraAttrs : gmap string string) (j : string) (n : BinaryNode) : Prop :=
  exists type ct, encryptMessage j data = Ok (type, ct)
                  /\ n = toNode j type extraAttrs ct.

(** The entry of a data set under [(type, id)]. *)
Definition entry (ds : dataset) (type id : string) : option value :=
  ds !! type ≫= (fun d => d !! id).

(** The spec's group scenario: the key store holds a row for [x@g.us]
    that marks two of the four participants. *)
Definition half_known_row : gmap string bool :=
  {[ "14155550001@s.whatsapp.net" := true; "14155550002@s.whatsapp.net" := true ]}.

Definition half_known_world : World MemStore Socket :=
  world0 (mem_store {[ "sender-key-memory" :=
                         {[ "x@g.us" := VItem (SenderKeyMemory half_known_row) ]} ]} 0 0)
         default_opts (socket0 ∅).

Definition demo_devices : list JidWithDevice :=
  [{| user := "14155550001"; device := Some (Num 0) |};
   {| user := "14155550002"; device := Some (Num 0) |};
   {| user := "14155550003"; device := Some (Num 0) |};
   {| user := "14155550004"; device := Some (Num 0) |}].

Definition group_x : FullJid :=
  {| fj_user := "x"; fj_server := "g.us"; fj_device := None |}.

(** A status post to one contact, on an empty key store. *)
Definition status_options : MessageRelayOptions :=
  {| messageId := None; participant := None; additionalAttributes := None;
     additionalNodes := None; useUserDevicesCache := None;
     useCachedGroupMetadata := None;
     statusJidList := Some ["14155550001@s.whatsapp.net"] |}.

Definition empty_world : World MemStore Socket :=
  world0 (mem_store ∅ 0 0) default_opts (socket0 ∅).

Definition status_fj : FullJid :=
  {| fj_user := "status"; fj_server := "broadcast"; fj_device := None |}.

(* ===================================================================== *)
(** * The per-bucket job queue (WASignalGroup/queue_job.js)              *)
(* ===================================================================== *)

Definition _gcLimit : nat := 10000.
Global Arguments _gcLimit : simpl never.

(** How the awaited job ended: [withTimeout] resolves, rejects, or rejects
    on the timer. *)
Inductive Outcome := Resolved | Rejected | TimedOut.

(** What can be observed of the queue, in order. *)
Inductive QEvent :=
| ExecutorStarted (bucket : string)
| JobStarted (bucket : string) (job : nat)
| JobSettled (bucket : string) (job : nat) (how : Outcome)
| Spliced (bucket : string) (count : nat)
| BucketRemoved (bucket : string).

(** An executor suspended at [await withTimeout(job.awaitable)] for
    [job = queue[i]]: the queue array it shares with the bucket map and
    its locals.  Jobs are named by numbers. *)
Record Executor := {
  ex_queue : list nat;
  ex_offt : nat;
  ex_limit : nat;
  ex_i : nat
}.

(** [_queueAsyncBuckets], each bucket with the executor that serves it,
    and the events so far, latest first. *)
Record JobQueue := {
  buckets : gmap string Executor;
  qtrace : list QEvent
}.

Definition history (q : JobQueue) : list QEvent := rev (qtrace q).

(** Where a run of the executor's code ends: at the next [await], at its
    return (after [cleanup()]), or with a [TypeError] on a missing
    [queue[i]]. *)
Inductive Resumed :=
| Suspended (e : Executor)
| Finished
| Crashed.

(** [_asyncQueueExecutor] from the test [i < limit] of its [for] loop to
    the next [await] or to its return.  Each unit of [fuel] pays for one
    turn of the [while (true)] loop; [None] when it runs out. *)
Fixpoint executor_run (fuel : nat) (bucket : string) (queue : list nat)
    (offt limit i : nat) (tr : list QEvent) : option (Resumed * list QEvent) :=
  if (i <? limit)%nat then
    match queue !! i with
    | Some job =>
        Some (Suspended {| ex_queue := queue; ex_offt := offt;
                           ex_limit := limit; ex_i := i |},
              JobStarted bucket job :: tr)
    | None => Some (Crashed, tr)
    end
  else if (limit <? length queue)%nat then
    match fuel with
    | O => None
    | S fuel' =>
        if (_gcLimit <=? limit)%nat then
          let queue' := drop limit queue in
          executor_run fuel' bucket queue' 0 (Nat.min (length queue') _gcLimit) 0
                       (Spliced bucket limit :: tr)
        else
          executor_run fuel' bucket queue limit (Nat.min (length queue) _gcLimit) limit tr
    end
  else Some (Finished, BucketRemoved bucket :: tr).

(** Two turns of the loop always reach an [await] or the return. *)
Definition executor_fuel : nat := 2.

Definition after_run (bucket : string) (q : JobQueue)
    (r : option (Resumed * list QEvent)) : option JobQueue :=
  match r with
  | None => None
  | Some (Suspended e, tr) =>
      Some {| buckets := <[bucket := e]> (buckets q); qtrace := tr |}
  | Some (Finished, tr) =>
      Some {| buckets := delete bucket (buckets q); qtrace := tr |}
  | Some (Crashed, tr) =>
      Some {| buckets := buckets q; qtrace := tr |}
  end.

(** [module.exports(bucket, awaitable)]: the job is pushed on the
    bucket's queue; a bucket that did not exist gets a queue and an
    executor, which runs up to its first [await]. *)
Definition enqueue (bucket : string) (job : nat) (q : JobQueue) : option JobQueue :=
  match buckets q !! bucket with
  | None =>
      after_run bucket q
        (executor_run executor_fuel bucket [job] 0 (Nat.min 1 _gcLimit) 0
                      (ExecutorStarted bucket :: qtrace q))
  | Some e =>
      Some {| buckets := <[bucket := {| ex_queue := ex_queue e ++ [job];
                                        ex_offt := ex_offt e;
                                        ex_limit := ex_limit e;
                                        ex_i := ex_i e |}]> (buckets q);
              qtrace := qtrace q |}
  end.

(** The job awaited in [bucket] settles: the executor resolves or rejects
    it and goes on. *)
Definition settle (bucket : string) (how : Outcome) (q : JobQueue) : option JobQueue :=
  match buckets q !! bucket with
  | None => Some q
  | Some e =>
      match ex_queue e !! ex_i e with
      | None => Some q
      | Some job =>
          after_run bucket q
            (executor_run executor_fuel bucket (ex_queue e) (ex_offt e) (ex_limit e)
                          (S (ex_i e)) (JobSettled bucket job how :: qtrace q))
      end
  end.

Inductive QInput :=
| Enqueue (bucket : string) (job : nat)
| Settle (bucket : string) (how : Outcome).

Fixpoint feed (inputs : list QInput) (q : JobQueue) : option JobQueue :=
  match inputs with
  | [] => Some q
  | Enqueue b j :: rest =>
      match enqueue b j q with Some q' => feed rest q' | None => None end
  | Settle b how :: rest =>
      match settle b how q with Some q' => feed rest q' | None => None end
  end.

Definition no_queues : JobQueue := {| buckets := ∅; qtrace := [] |}.

(** [n] jobs enqueued in one bucket before the first of them settles,
    which then all resolve. *)
Definition burst (bucket : string) (n : nat) : list QInput :=
  (Enqueue bucket <$> seq 0 n) ++ replicate n (Settle bucket Resolved).

Definition started_jobs (tr : list QEvent) : list nat :=
  omap (fun ev => match ev with JobStarted _ j => Some j | _ => None end) tr.

Definition settled_jobs (tr : list QEvent) : list nat :=
  omap (fun ev => match ev with JobSettled _ j _ => Some j | _ => None end) tr.

Definition executors_started (tr : list QEvent) : nat :=
  length (List.filter (fun ev => match ev with ExecutorStarted _ => true | _ => false end) tr).

Definition splices (tr : list QEvent) : list nat :=
  omap (fun ev => match ev with Spliced _ n => Some n | _ => None end) tr.

(** The history of a burst of [g + 1] jobs when the limit is [g]. *)
Definition in_pass (bucket : string) (from count : nat) : list QEvent :=
  flat_map (fun k => [JobSettled bucket k Resolved; JobStarted bucket (S k)])
           (seq from count).

Definition burst_history (bucket : string) (g : nat) : list QEvent :=
  [ExecutorStarted bucket; JobStarted bucket 0]
  ++ in_pass bucket 0 (g - 1)
  ++ [JobSettled bucket (g - 1) Resolved; Spliced bucket g; JobStarted bucket g;
      JobSettled bucket g Resolved; BucketRemoved bucket].

(** One bucket with its executor. *)
Definition single (bucket : string) (e : Executor) (tr : list QEvent) : JobQueue :=
  {| buckets := {[ bucket := e ]}; qtrace := tr |}.

(* ===================================================================== *)
(** * More of the transaction capability                                 *)
(* ===================================================================== *)

Section TransactionDepth.
Context {St Env : Type} `{SignalKeyStore St}.

(** The world with [transactionsInProgress] set to [n]. *)
Definition at_depth (n : nat) (w : World St Env) : World St Env :=
  with_tx w {| opts := opts (tx w);
               dbQueriesInTransaction := dbQueriesInTransaction (tx w);
               transactionCache := transactionCache (tx w);
               mutations := mutations (tx w);
               transactionsInProgress := n |}.

(** The wrapped store rejects [set(data)] [k] times in a row and then
    accepts it, ending in [s']. *)
Fixpoint accepts_after (k : nat) (data : dataset) (s s' : St) : Prop :=
  match k with
  | O => store_set data s = (Ok tt, s')
  | S n => exists e s1, store_set data s = (Err e, s1)
                        /\ accepts_after n data s1 s'
  end.

(** The entries of [transactionCache[type]]. *)
Definition cached_of (type : string) (w : World St Env) : dict :=
  default ∅ (transactionCache (tx w) !! type).

End TransactionDepth.

(** A transaction whose body writes one pre-key and throws, inside a
    transaction that catches the error and goes on. *)
Definition catching_work : prog unit unit :=
  TryCatch (Transaction throwing_work Ret) (fun _ => Ret tt) Ret.

Section StoreContract.
Context {St : Type} `{SignalKeyStore St}.

(** The store [s'] is [s] after some calls of [get]. *)
Inductive only_read : St -> St -> Prop :=
| only_read_refl s : only_read s s
| only_read_get s type ids r s1 s2 :
    store_get type ids s = (r, s1) -> only_read s1 s2 -> only_read s s2.

(** A wrapped store that takes writes: in a state [ok], which a [get]
    does not leave, [set] resolves; and a payload that a [set] wrote is
    what a [get] of it returns afterwards. *)
Record takes_writes (ok : St -> Prop) : Prop := {
  get_stays_ok :
    forall type ids s r s', ok s -> store_get type ids s = (r, s') -> ok s';
  set_resolves :
    forall data s, ok s -> exists s', store_set data s = (Ok tt, s');
  set_is_kept :
    forall data s s' type d id x r s'',
      store_set data s = (Ok tt, s') ->
      data !! type = Some d -> d !! id = Some (VItem x) ->
      store_get type [id] s' = (Ok r, s'') ->
      r !! id = Some (VItem x)
}.

End StoreContract.

(** The in-memory store when it is not told to reject writes. *)
Definition mem_accepting (s : MemStore) : Prop := failing_sets s = 0%nat.

(** A store that rejects its next two writes. *)
Definition twice_rejecting_world : World MemStore unit :=
  world0 (mem_store ∅ 2 0) default_opts tt.

(** An open transaction on a store that holds pre-key 7 and no
    pre-key 8. *)
Definition pair_7 : value := VItem (PreKey sample_pair).

Definition write_8 : dataset := {[ "pre-key" := {[ "8" := pair_7 ]} ]}.

(** What [ids.reduce(...)] keeps of a cached entry: truthy values. *)
Definition kept (cached : dict) (k : string) : option value :=
  match cached !! k with
  | Some v => if truthy v then Some v else None
  | None => None
  end.

(** The value the last [set] of a sequence gave to [(type, id)], if any
    of them named it. *)
Definition last_written (sets : list dataset) (type id : string)
    (before : option value) : option value :=
  fold_left (fun acc data => match entry data type id with
                             | Some v => Some v
                             | None => acc
                             end) sets before.

Section SetSequences.
Context {St Env : Type} `{SignalKeyStore St}.

(** [set(d1); set(d2); ...] one after the other. *)
Definition set_all (sets : list dataset) (w : World St Env) : World St Env :=
  fold_left (fun w data => snd (ks_set data w)) sets w.

End SetSequences.

Definition delete_8 : dataset := {[ "pre-key" := {[ "8" := VNull ]} ]}.

Definition plain_world : World MemStore unit :=
  world0 (mem_store ∅ 0 0) default_opts tt.

(* ===================================================================== *)
(** * makeCacheableSignalKeyStore (src/Utils/auth-utils.ts)              *)
(* ===================================================================== *)

(** [getUniqueId(type, id)]. *)
Definition getUniqueId (type id : string) : string := type +:+ "." +:+ id.

(** The store [makeCacheableSignalKeyStore] returns: the cache (unique id
    to item, [undefined] being an absent key), the store it wraps, and
    the calls made to that store, in order.  Entries leave the cache only
    by [flushAll]; the expiry of an entry after its time to live is not
    part of a call. *)
Record Cacheable (St : Type) := {
  cache : gmap string value;
  inner : St;
  inner_calls : list StoreCall
}.
Arguments cache {St} c.
Arguments inner {St} c.
Arguments inner_calls {St} c.

(** The first loop of [get]: cached items go to [data], the other ids to
    [idsToFetch]. *)
Fixpoint fromCache (c : gmap string value) (type : string) (ids : list string)
    (data : dict) (idsToFetch : list string) : dict * list string :=
  match ids with
  | [] => (data, idsToFetch)
  | id :: rest =>
      match c !! getUniqueId type id with
      | Some item => fromCache c type rest (<[id := item]> data) idsToFetch
      | None => fromCache c type rest data (idsToFetch ++ [id])
      end
  end.

(** The second loop of [get]: the truthy items among the fetched go to
    [data] and to the cache. *)
Fixpoint absorbFetched (type : string) (fetched : dict) (idsToFetch : list string)
    (data : dict) (c : gmap string value) : dict * gmap string value :=
  match idsToFetch with
  | [] => (data, c)
  | id :: rest =>
      match fetched !! id with
      | Some item =>
          if truthy item
          then absorbFetched type fetched rest (<[id := item]> data)
                             (<[getUniqueId type id := item]> c)
          else absorbFetched type fetched rest data c
      | None => absorbFetched type fetched rest data c
      end
  end.

(** The loops of [set] over the types and ids of [data].  A map keeps no
    order of insertion; the order matters only when two entries of [data]
    share a unique id. *)
Definition cacheAll (data : dataset) (c : gmap string value) : gmap string value :=
  map_fold (fun type d c =>
              map_fold (fun id item c => <[getUniqueId type id := item]> c) c d)
           c data.

Section CacheableStore.
Context {St : Type} `{SignalKeyStore St}.

(** [store.get] and [store.set] of the wrapped store, logged. *)
Definition inner_get (type : string) (ids : list string) (s : Cacheable St)
  : Res dict * Cacheable St :=
  let '(r, st) := store_get type ids (inner s) in
  (r, {| cache := cache s; inner := st;
         inner_calls := inner_calls s ++ [CallGet type ids] |}).

Definition inner_set (data : dataset) (s : Cacheable St)
  : Res unit * Cacheable St :=
  let '(r, st) := store_set data (inner s) in
  (r, {| cache := cache s; inner := st;
         inner_calls := inner_calls s ++ [CallSet data] |}).

(** [get(type, ids)] of the cacheable store. *)
Definition cacheable_get (type : string) (ids : list string) (s : Cacheable St)
  : Res dict * Cacheable St :=
  let '(data, idsToFetch) := fromCache (cache s) type ids ∅ [] in
  match idsToFetch with
  | [] => (Ok data, s)
  | _ :: _ =>
      match inner_get type idsToFetch s with
      | (Err e, s1) => (Err e, s1)
      | (Ok fetched, s1) =>
          let '(data', c') := absorbFetched type fetched idsToFetch data (cache s1) in
          (Ok data', {| cache := c'; inner := inner s1;
                        inner_calls := inner_calls s1 |})
      end
  end.

(** [set(data)] of the cacheable store: the cache first, then the
    wrapped store. *)
Definition cacheable_set (data : dataset) (s : Cacheable St)
  : Res unit * Cacheable St :=
  inner_set data {| cache := cacheAll data (cache s); inner := inner s;
                    inner_calls := inner_calls s |}.

(** The cacheable store is a key store itself, which the transaction
    capability can wrap in turn. *)
Definition Cacheable_SignalKeyStore : SignalKeyStore (Cacheable St) :=
  {| store_get := cacheable_get; store_set := cacheable_set |}.

End CacheableStore.

(** A text without a dot. *)
Fixpoint dot_free (s : string) : bool :=
  match s with
  | EmptyString => true
  | String c rest => negb (Ascii.eqb c "."%char) && dot_free rest
  end.

(** The ids of [ids] the cache holds nothing for. *)
Definition cacheMisses (c : gmap string value) (type : string) (ids : list string)
  : list string :=
  List.filter (fun id => bool_decide (c !! getUniqueId type id = None)) ids.

Definition cache0 (c : gmap string value) (s : MemStore) : Cacheable MemStore :=
  {| cache := c; inner := s; inner_calls := [] |}.

Section CacheableClear.
Context {St : Type} `{SignalKeyStore St}.

(** [clear()]: [cache.flushAll()], then [store.clear?.()], which the
    wrapped store need not have. *)
Definition cacheable_clear (clear : option (St -> Res unit * St))
    (s : Cacheable St) : Res unit * Cacheable St :=
  let s1 := {| cache := ∅; inner := inner s; inner_calls := inner_calls s |} in
  match clear with
  | None => (Ok tt, s1)
  | Some f =>
      let '(r, st) := f (inner s1) in
      (r, {| cache := cache s1; inner := st; inner_calls := inner_calls s1 |})
  end.

End CacheableClear.

(** The ids of [ids] that a result of [get] has no entry for. *)
Definition notReturned (r : dict) (ids : list string) : list string :=
  List.filter (fun id => bool_decide (r !! id = None)) ids.

(** At most one call, and none for an empty list of ids. *)
Definition oneGet (type : string) (ids : list string) : list StoreCall :=
  match ids with
  | [] => []
  | _ :: _ => [CallGet type ids]
  end.

(** Every type of a data set is free of dots. *)
Definition dot_free_types (data : dataset) : Prop :=
  forall t, is_Some (data !! t) -> dot_free t = true.

(** A cacheable store over a store that rejects its next three writes,
    under the transaction capability. *)
Definition cached_rejecting_world : World (Cacheable MemStore) unit :=
  {| backing := cache0 ∅ (mem_store ∅ 3 0); calls := [];
     tx := tx_init default_opts; env := tt |}.

Definition pre_key_1 : dataset :=
  {[ "pre-key" := {[ "1" := VItem (PreKey sample_pair) ]} ]}.

(** An empty cache over a store that holds pre-key 7. *)
Definition cold_cache : Cacheable MemStore :=
  cache0 ∅ (mem_store {[ "pre-key" := {[ "7" := pair_7 ]} ]} 0 0).

(** An empty cache over an empty store that rejects its next write. *)
Definition cache_over_rejecting : Cacheable MemStore :=
  cache0 ∅ (mem_store ∅ 1 0).

(* ===================================================================== *)
(** * More on pre-keys                                                   *)
(* ===================================================================== *)

(** The creds after the caller has merged the [update] that
    [getNextPreKeys] returned into them. *)
Definition applyUpdate (creds : AuthenticationCreds) (upd : PreKeyUpdate)
  : AuthenticationCreds :=
  {| nextPreKeyId := upd_nextPreKeyId upd;
     firstUnuploadedPreKeyId := upd_firstUnuploadedPreKeyId upd;
     me_id := me_id creds; me_lid := me_lid creds |}.

(** [range - avaliable] of [generateOrGetPreKeys]. *)
Definition remainingKeys (creds : AuthenticationCreds) (range : Z) : Z :=
  range - (nextPreKeyId creds - firstUnuploadedPreKeyId creds).

(* ===================================================================== *)
(** * The devices a USync response lists                                 *)
(* ===================================================================== *)

Section ListedDevices.
Context `{WABinary}.

(** The test of [processDevice] on a descriptor of user [u]. *)
Definition deviceKept (myUser : string) (myDevice : option number)
    (excludeZeroDevices : bool) (u : string) (dn : BinaryNode) : bool :=
  let device := toNumber (attrs dn !! "id") in
  bool_decide (tag dn = "device")
  && (negb excludeZeroDevices || negb (strict_eq device (Num 0)))
  && (negb (bool_decide (myUser = u)) || negb (strict_eq_opt myDevice device))
  && (strict_eq device (Num 0) || attr_truthy (attrs dn !! "key-index")).

(** The descriptors of a [device-list] that pass the test, in order. *)
Definition keptDevices (myUser : string) (myDevice : option number)
    (excludeZeroDevices : bool) (u : string) (ds : list BinaryNode)
  : list JidWithDevice :=
  (fun dn => {| user := u; device := Some (toNumber (attrs dn !! "id")) |})
    <$> List.filter (deviceKept myUser myDevice excludeZeroDevices u) ds.

(** The [device-list] of an item of a [list]. *)
Definition deviceListOf (item : BinaryNode) : list BinaryNode :=
  match getBinaryNodeChild (getBinaryNodeChild (Some item) "devices") "device-list" with
  | Some (Node _ _ (Children ds)) => ds
  | _ => []
  end.

Definition devicesOfItem (myUser : string) (myDevice : option number)
    (excludeZeroDevices : bool) (item : BinaryNode) : list JidWithDevice :=
  match jidDecode (attrs item !! "jid") with
  | Some fj => keptDevices myUser myDevice excludeZeroDevices (fj_user fj)
                           (deviceListOf item)
  | None => []
  end.

(** The items of the [list] child of a node of the response. *)
Definition itemsOf (node : BinaryNode) : list BinaryNode :=
  match getBinaryNodeChild (Some node) "list" with
  | Some (Node _ _ (Children items)) => items
  | _ => []
  end.

(** All items of a response, in document order. *)
Definition allItems (result : BinaryNode) : list BinaryNode :=
  flat_map itemsOf (children_of (content result)).

Definition listedDevices (myUser : string) (myDevice : option number)
    (excludeZeroDevices : bool) (result : BinaryNode) : list JidWithDevice :=
  flat_map (devicesOfItem myUser myDevice excludeZeroDevices) (allItems result).

End ListedDevices.

(** A response with a descriptor that has a key index and no id, and an
    item whose JID does not decode. *)
Definition usync_result_without_id : BinaryNode :=
  usync_result
    [user_item "14155550001@s.whatsapp.net" [device_node [("key-index", "2")]]].

(* ===================================================================== *)
(** * The user-devices cache                                             *)
(* ===================================================================== *)



(* ===================================================================== *)
(** * More on relayMessage                                               *)
(* ===================================================================== *)

(** A step that, when run inside a transaction, leaves the number of open
    transactions as it is and calls nothing but [get] on the wrapped
    store. *)
Definition reads_store {St Env A} `{SignalKeyStore St} (m : M St Env A) : Prop :=
  forall w r w',
    (0 < tip w)%nat -> m w = (r, w') ->
    tip w' = tip w /\ only_read (backing w) (backing w').

(** A step of the relay's transaction before the stanza is sent: inside
    a transaction it leaves the number of open transactions and the
    options as they are, does not call [set] on the wrapped store and
    hands nothing to [sendNode]. *)
Definition before_send {St A} `{SignalKeyStore St} (m : M St Socket A) : Prop :=
  forall w r w',
    (0 < tip w)%nat -> m w = (r, w') ->
    tip w' = tip w /\ opts (tx w') = opts (tx w)
    /\ set_calls (calls w') = set_calls (calls w)
    /\ sent (env w') = sent (env w).

(** The stand-in collaborators with a connection that is closed:
    [sendNode] rejects. *)
Definition demo_offline : Collaborators string := {|
  meId := @meId _ demo;
  meLid := @meLid _ demo;
  query := @query _ demo;
  generateMessageTag := @generateMessageTag _ demo;
  generateMessageIDV2 := @generateMessageIDV2 _ demo;
  sendNode := fun _ => Err "Connection Closed";
  groupMetadata := @groupMetadata _ demo;
  cachedGroupMetadata := @cachedGroupMetadata _ demo;
  patchMessageBeforeSending := @patchMessageBeforeSending _ demo;
  encodeWAMessage := @encodeWAMessage _ demo;
  encodeNewsletterMessage := @encodeNewsletterMessage _ demo;
  encodeSignedDeviceIdentity := @encodeSignedDeviceIdentity _ demo;
  pinInChatMessage := @pinInChatMessage _ demo;
  has := @has _ demo;
  getTypeMessage := @getTypeMessage _ demo;
  editedMessage := @editedMessage _ demo;
  protocolKeyId := @protocolKeyId _ demo;
  isRevoke := @isRevoke _ demo;
  emptyMessage := @emptyMessage _ demo;
  deviceSentMessage := @deviceSentMessage _ demo;
  senderKeyDistributionMessage := @senderKeyDistributionMessage _ demo;
  jidToSignalProtocolAddress := @jidToSignalProtocolAddress _ demo;
  encryptMessage := @encryptMessage _ demo;
  encryptGroupMessage := @encryptGroupMessage _ demo;
  injectE2ESession := @injectE2ESession _ demo;
  assertNodeErrorFree := @assertNodeErrorFree _ demo
|}.

Section RelayReadings.
Context `{WABinary} {Message : Type} `{Collaborators Message}.

(** The [plaintext] payload of a newsletter message. *)
Definition plaintextNode (mediaType : option string) (message : Message)
  : BinaryNode :=
  Node "plaintext"
       (match mediaType with
        | Some t => {[ "mediatype" := t ]}
        | None => ∅
        end)
       (Bytes (encodeNewsletterMessage (patchMessageBeforeSending message []))).

(** The devices the one-to-one branch starts from: the recipient and,
    if it is someone else, the own user. *)
Definition seededDevices (fj me : FullJid) : list JidWithDevice :=
  [{| user := fj_user fj; device := None |}]
  ++ (if bool_decide (fj_user fj = fj_user me) then []
      else [{| user := fj_user me; device := None |}]).

End RelayReadings.

Definition newsletter_jid : string := "120363000000000001@newsletter".

Definition newsletter_fj : FullJid :=
  {| fj_user := "120363000000000001"; fj_server := "newsletter"; fj_device := None |}.

Section PeerMessages.
Context {St : Type} `{SignalKeyStore St} `{WABinary}
        {Message : Type} `{Collaborators Message}.

(** The options [sendPeerDataOperationMessage] relays with. *)
Definition peerOptions : MessageRelayOptions :=
  {| messageId := None; participant := None;
     additionalAttributes :=
       Some (list_to_map [("category", "peer"); ("push_priority", "high_force")]);
     additionalNodes := None; useUserDevicesCache := None;
     useCachedGroupMetadata := None; statusJidList := None |}.

(** The protocol message around a request:
    [{ protocolMessage: { peerDataOperationRequestMessage: pdoMessage,
       type: PEER_DATA_OPERATION_REQUEST_MESSAGE } }]. *)
Variable peerDataOperationRequest : Message -> Message.

(** [sendPeerDataOperationMessage(pdoMessage)].  Creds without [me.id]
    are creds whose [meId] is the empty text. *)
Definition sendPeerDataOperationMessage (pdoMessage : Message)
  : M St Socket string :=
  if bool_decide (meId = "") then throw "Not authenticated"
  else
    let protocolMessage := peerDataOperationRequest pdoMessage in
    let meJid := jidNormalizedUser meId in
    relayMessage meJid protocolMessage peerOptions.

End PeerMessages.

(** The [enc] node inside the [to] node of a recipient. *)
Definition encNode (type : string) (extraAttrs : gmap string string)
    (ciphertext : bytes) : BinaryNode :=
  Node "enc" (extraAttrs ∪ list_to_map [("v", "2"); ("type", type)]) (Bytes ciphertext).

(** The stanzas handed to [query] after a given point. *)
Definition queriedSince (before after : Socket) : list BinaryNode :=
  drop (length (queried before)) (queried after).

(** A query for the pre-key bundles of some JIDs:
    [<iq xmlns="encrypt" type="get" to="@s.whatsapp.net"><key>] around one
    [<user jid=...>] for each. *)
Definition is_key_query (iq : BinaryNode) : Prop :=
  exists jids,
    iq = Node "iq"
              (list_to_map [("xmlns", "encrypt"); ("type", "get");
                            ("to", "@s.whatsapp.net")])
              (Children
                 [Node "key" ∅
                       (Children ((fun jid => Node "user" {[ "jid" := jid ]} Absent)
                                    <$> jids))]).

(** A request wrapped as text. *)
Definition pdo_request (pdoMessage : string) : string := "pdo:" +:+ pdoMessage.

(** Creds with a bare own JID. *)
Definition demo_bare : Collaborators string := {|
  meId := "14155550009@s.whatsapp.net";
  meLid := @meLid _ demo;
  query := @query _ demo;
  generateMessageTag := @generateMessageTag _ demo;
  generateMessageIDV2 := @generateMessageIDV2 _ demo;
  sendNode := @sendNode _ demo;
  groupMetadata := @groupMetadata _ demo;
  cachedGroupMetadata := @cachedGroupMetadata _ demo;
  patchMessageBeforeSending := @patchMessageBeforeSending _ demo;
  encodeWAMessage := @encodeWAMessage _ demo;
  encodeNewsletterMessage := @encodeNewsletterMessage _ demo;
  encodeSignedDeviceIdentity := @encodeSignedDeviceIdentity _ demo;
  pinInChatMessage := @pinInChatMessage _ demo;
  has := @has _ demo;
  getTypeMessage := @getTypeMessage _ demo;
  editedMessage := @editedMessage _ demo;
  protocolKeyId := @protocolKeyId _ demo;
  isRevoke := @isRevoke _ demo;
  emptyMessage := @emptyMessage _ demo;
  deviceSentMessage := @deviceSentMessage _ demo;
  senderKeyDistributionMessage := @senderKeyDistributionMessage _ demo;
  jidToSignalProtocolAddress := @jidToSignalProtocolAddress _ demo;
  encryptMessage := @encryptMessage _ demo;
  encryptGroupMessage := @encryptGroupMessage _ demo;
  injectE2ESession := @injectE2ESession _ demo;
  assertNodeErrorFree := @assertNodeErrorFree _ demo
|}.

(* ===================================================================== *)
(** * Readings of the job queue's history                                *)
(* ===================================================================== *)

(** The jobs handed to [bucket], in the order of the calls. *)
Definition enqueued_in (bucket : string) (inputs : list QInput) : list nat :=
  omap (fun inp => match inp with
                   | Enqueue b j => if bool_decide (b = bucket) then Some j else None
                   | Settle _ _ => None
                   end) inputs.

(** The jobs of [bucket] whose awaitable was called, in that order. *)
Definition started_in (bucket : string) (h : list QEvent) : list nat :=
  omap (fun ev => match ev with
                  | JobStarted b j => if bool_decide (b = bucket) then Some j else None
                  | _ => None
                  end) h.

(** The jobs of [bucket] that were resolved or rejected, in that order. *)
Definition settled_in (bucket : string) (h : list QEvent) : list nat :=
  omap (fun ev => match ev with
                  | JobSettled b j _ => if bool_decide (b = bucket) then Some j else None
                  | _ => None
                  end) h.

(** At every moment of the history the jobs started in [bucket] are the
    settled ones and at most one more. *)
Definition one_at_a_time (bucket : string) (h : list QEvent) : Prop :=
  forall h', h' `prefix_of` h ->
    (length (settled_in bucket h') <= length (started_in bucket h')
     /\ length (started_in bucket h') <= S (length (settled_in bucket h')))%nat.

(** What holds of a bucket between two inputs. *)
Definition bucket_inv (inputs : list QInput) (q : JobQueue) (b : string) : Prop :=
  one_at_a_time b (history q)
  /\ match buckets q !! b with
     | None =>
         started_in b (history q) = enqueued_in b inputs
         /\ settled_in b (history q) = enqueued_in b inputs
     | Some e =>
         exists gone,
           enqueued_in b inputs = gone ++ ex_queue e
           /\ settled_in b (history q) = gone ++ take (ex_i e) (ex_queue e)
           /\ started_in b (history q) = gone ++ take (S (ex_i e)) (ex_queue e)
           /\ (ex_i e < ex_limit e)%nat
           /\ (ex_limit e <= length (ex_queue e))%nat
           /\ (ex_limit e <= _gcLimit)%nat
     end.

(* ===================================================================== *)
(** * Properties of the transaction capability                           *)
(* ===================================================================== *)

Section TransactionFacts.
Context {St Env : Type} `{SignalKeyStore St}.
Implicit Types w : World St Env.

Lemma isInTransaction_true w : (0 < tip w)%nat -> isInTransaction w = true.
Proof. intros. unfold isInTransaction. apply bool_decide_eq_true. exact H0. Qed.

Lemma isInTransaction_false w : tip w = 0%nat -> isInTransaction w = false.
Proof.
  intros Hz. unfold isInTransaction. apply bool_decide_eq_false.
  unfold tip in Hz. lia.
Qed.

Lemma set_calls_app l1 l2 : set_calls (l1 ++ l2) = set_calls l1 ++ set_calls l2.
Proof. unfold set_calls. apply List.filter_app. Qed.

(** What a [get] of the wrapped store leaves alone. *)
Lemma state_get_frame type ids w r w' :
  state_get type ids w = (r, w') ->
  tx w' = tx w /\ env w' = env w /\ calls w' = calls w ++ [CallGet type ids].
Proof.
  unfold state_get. destruct (store_get type ids (backing w)) as [r0 s'].
  intros [= <- <-]. simpl. auto.
Qed.

Lemma state_set_frame data w r w' :
  state_set data w = (r, w') ->
  tx w' = tx w /\ env w' = env w /\ calls w' = calls w ++ [CallSet data].
Proof.
  unfold state_set. destruct (store_set data (backing w)) as [r0 s'].
  intros [= <- <-]. simpl. auto.
Qed.

(** Inside a transaction [get] touches neither the counter of open
    transactions, nor the options, nor the mutations, and calls the
    wrapped store's [get] at most. *)
Lemma ks_get_in_tx type ids w r w' :
  (0 < tip w)%nat ->
  ks_get type ids w = (r, w') ->
  tip w' = tip w /\ opts (tx w') = opts (tx w)
  /\ mutations (tx w') = mutations (tx w)
  /\ set_calls (calls w') = set_calls (calls w)
  /\ env w' = env w.
Proof.
  intros Hin. unfold ks_get. rewrite (isInTransaction_true w Hin).
  cbv zeta.
  destruct (List.filter _ ids) as [|i0 rest] eqn:Hf.
  - intros [= <- <-]. auto.
  - match goal with |- context [state_get ?t ?l ?x] =>
      destruct (state_get t l x) as [[res|e] w1] eqn:Hg end;
    apply state_get_frame in Hg; simpl in Hg; destruct Hg as (Htx & Henv & Hc).
    + intros [= <- <-]. unfold tip. simpl. rewrite Htx, Henv, Hc. simpl.
      rewrite set_calls_app. simpl. rewrite app_nil_r. auto.
    + intros [= <- <-]. unfold tip. rewrite Htx, Henv, Hc. simpl.
      rewrite set_calls_app. simpl. rewrite app_nil_r. auto.
Qed.

Lemma ks_set_in_tx data w :
  (0 < tip w)%nat ->
  ks_set data w =
    (Ok tt, with_tx w {| opts := opts (tx w);
                         dbQueriesInTransaction := dbQueriesInTransaction (tx w);
                         transactionCache := spread_into data (transactionCache (tx w));
                         mutations := spread_into data (mutations (tx w));
                         transactionsInProgress := transactionsInProgress (tx w) |}).
Proof. intros Hin. unfold ks_set. now rewrite (isInTransaction_true w Hin). Qed.

Lemma lift_env_frame {X} (f : Env -> Res X * Env) w r w' :
  lift_env f w = (r, w') ->
  tx w' = tx w /\ calls w' = calls w /\ backing w' = backing w.
Proof.
  unfold lift_env. destruct (f (env w)) as [r0 e']. intros [= <- <-]. auto.
Qed.

Lemma tx_finally_nested w :
  (1 < tip w)%nat ->
  tip (tx_finally w) = Nat.pred (tip w)
  /\ opts (tx (tx_finally w)) = opts (tx w)
  /\ transactionCache (tx (tx_finally w)) = transactionCache (tx w)
  /\ mutations (tx (tx_finally w)) = mutations (tx w)
  /\ calls (tx_finally w) = calls w
  /\ env (tx_finally w) = env w
  /\ backing (tx_finally w) = backing w.
Proof.
  intros Hn. unfold tx_finally, tip in *. rewrite bool_decide_eq_false_2 by lia.
  simpl. repeat split; reflexivity.
Qed.

Lemma tx_finally_outermost w :
  tip w = 1%nat ->
  tx (tx_finally w) = tx_init (opts (tx w))
  /\ calls (tx_finally w) = calls w
  /\ env (tx_finally w) = env w
  /\ backing (tx_finally w) = backing w.
Proof.
  intros Hn. unfold tx_finally, tip in *. rewrite bool_decide_eq_true_2 by lia.
  simpl. rewrite Hn. repeat split; reflexivity.
Qed.

(** The invariant of a transaction body: while a transaction is open,
    no step of a body reaches the wrapped store's [set], and every step
    returns with the same number of open transactions. *)
Lemma run_in_tx {A} (p : prog Env A) :
  forall w r w',
    (0 < tip w)%nat ->
    run p w = (r, w') ->
    tip w' = tip w /\ opts (tx w') = opts (tx w)
    /\ set_calls (calls w') = set_calls (calls w).
Proof.
  induction p as [A a|A e|A type ids k IH|A data k IH|A B work IHw k IHk
                 |A B body IHb handler IHh k IHk|A X f k IH];
    intros w r w' Hin; simpl.
  - intros [= <- <-]; auto.
  - intros [= <- <-]; auto.
  - unfold bind. destruct (ks_get type ids w) as [[d|e] w1] eqn:Hg;
      destruct (ks_get_in_tx _ _ _ _ _ Hin Hg) as (Ht & Ho & _ & Hc & _).
    + intros Hr. apply IH in Hr; [|lia]. destruct Hr as (-> & -> & ->). auto.
    + intros [= <- <-]. auto.
  - unfold bind. rewrite (ks_set_in_tx data w Hin).
    intros Hr. apply IH in Hr; [|exact Hin]. exact Hr.
  - unfold bind, ks_transaction.
    destruct (run work (tx_enter w)) as [rb w1] eqn:Hw.
    apply IHw in Hw; [|unfold tip; simpl; lia].
    destruct Hw as (Ht & Ho & Hc).
    assert (Ht1 : tip w1 = S (tip w)) by (rewrite Ht; reflexivity).
    assert (Hfin : (1 < tip w1)%nat) by lia.
    destruct (tx_finally_nested w1 Hfin) as (Hf1 & Hf2 & _ & _ & Hf3 & _).
    destruct rb as [b|e]; simpl.
    + rewrite bool_decide_eq_false_2 by (unfold tip in *; lia). simpl.
      intros Hr. apply IHk in Hr; [|rewrite Hf1; lia].
      destruct Hr as (-> & -> & ->).
      rewrite Hf1, Hf2, Hf3, Ht1, Ho, Hc. auto.
    + intros [= <- <-]. rewrite Hf1, Hf2, Hf3, Ht1, Ho, Hc. auto.
  - destruct (run body w) as [[b|e] w1] eqn:Hb;
      apply IHb in Hb; try exact Hin; destruct Hb as (Ht & Ho & Hc).
    + intros Hr. apply IHk in Hr; [|lia]. destruct Hr as (-> & -> & ->). auto.
    + destruct (run (handler e) w1) as [[b|e'] w2] eqn:Hh;
        apply IHh in Hh; try lia; destruct Hh as (Ht2 & Ho2 & Hc2).
      * intros Hr. apply IHk in Hr; [|lia]. destruct Hr as (-> & -> & ->).
        rewrite Ht2, Ho2, Hc2. auto.
      * intros [= <- <-]. rewrite Ht2, Ho2, Hc2. auto.
  - unfold bind. destruct (lift_env f w) as [[x|e] w1] eqn:Hl;
      apply lift_env_frame in Hl; destruct Hl as (Htx & Hc & _).
    + intros Hr. apply IH in Hr; [|unfold tip; rewrite Htx; exact Hin].
      destruct Hr as (-> & -> & ->). unfold tip. rewrite Htx, Hc. auto.
    + intros [= <- <-]. unfold tip. rewrite Htx, Hc. auto.
Qed.

End TransactionFacts.

Section TransactionTheorems.
Context {St Env : Type} `{SignalKeyStore St}.
Implicit Types w : World St Env.

Lemma tip_enter w : tip (tx_enter w) = S (tip w).
Proof. reflexivity. Qed.

(** A body started by the outermost transaction returns with exactly one
    transaction open. *)
Lemma work_returns_outermost {A} (work : prog Env A) w r w2 :
  tip w = 0%nat ->
  run work (tx_enter w) = (r, w2) ->
  tip w2 = 1%nat /\ opts (tx w2) = opts (tx w)
  /\ set_calls (calls w2) = set_calls (calls w).
Proof.
  intros Hz Hr. apply run_in_tx in Hr; [|rewrite tip_enter; lia].
  destruct Hr as (Ht & Ho & Hc). rewrite tip_enter, Hz in Ht. auto.
Qed.

(** C3 (amended). When the body of a transaction throws, the caller
    observes the error and the wrapped store's [set] has not been
    called between entry and exit.  On exit of the outermost
    transaction the transaction cache and the mutations are empty, so
    nothing that transaction wrote reaches the store.  The exit of a
    nested transaction clears nothing: what its body wrote stays in the
    transaction cache and among the mutations it shares with the
    enclosing transaction. *)
Theorem transaction_throw_never_commits {A} (work : prog Env A) w e w2 :
  run work (tx_enter w) = (Err e, w2) ->
  exists w3,
    ks_transaction (run work) w = (Err e, w3)
    /\ set_calls (calls w3) = set_calls (calls w)
    /\ tip w3 = tip w
    /\ (tip w = 0%nat ->
        transactionCache (tx w3) = ∅ /\ mutations (tx w3) = ∅)
    /\ ((0 < tip w)%nat ->
        transactionCache (tx w3) = transactionCache (tx w2)
        /\ mutations (tx w3) = mutations (tx w2)).
Proof.
  intros Hr. exists (tx_finally w2).
  unfold ks_transaction. rewrite Hr. simpl. split; [reflexivity|].
  apply run_in_tx in Hr; [|rewrite tip_enter; lia].
  destruct Hr as (Ht & _ & Hc). rewrite tip_enter in Ht.
  destruct (tip w) as [|n] eqn:Hn.
  - destruct (tx_finally_outermost w2 Ht) as (Hx & Hcalls & _).
    rewrite Hcalls. split; [exact Hc|]. split.
    + unfold tip at 1. rewrite Hx. reflexivity.
    + split; [intros _; rewrite Hx; auto|]. intros Hpos. lia.
  - assert (Hgt : (1 < tip w2)%nat) by lia.
    destruct (tx_finally_nested w2 Hgt) as (Hp & _ & Hcache & Hmut & Hcalls & _).
    rewrite Hcalls, Hp, Ht. split; [exact Hc|]. split; [reflexivity|].
    split; [intros Hz; discriminate Hz|]. intros _. auto.
Qed.

(** When every attempt rejects, the commit loop makes exactly [tries]
    calls and changes nothing else. *)
Lemma commit_all_fail tries : forall w,
  all_commits_fail tries (mutations (tx w)) (backing w) ->
  tx (commit tries w) = tx w
  /\ env (commit tries w) = env w
  /\ calls (commit tries w)
     = calls w ++ replicate tries (CallSet (mutations (tx w))).
Proof.
  induction tries as [|n IH]; intros w Hall; simpl.
  - rewrite app_nil_r. auto.
  - destruct Hall as (e & s' & Hset & Hrest).
    unfold state_set. rewrite Hset.
    match goal with |- context [commit n ?x] => set (w1 := x) end.
    destruct (IH w1) as (Htx & Henv & Hcalls); [exact Hrest|].
    rewrite Htx, Henv, Hcalls. subst w1; simpl.
    rewrite <- app_assoc. auto.
Qed.

(** On a capability in its initial state, a transaction that does
    nothing returns and leaves the world as it was. *)
Lemma empty_transaction {B} (b : B) w :
  tx w = tx_init (opts (tx w)) ->
  ks_transaction (run (Ret b)) w = (Ok b, w).
Proof.
  destruct w as [bk cl t en]. simpl. intros ->.
  unfold ks_transaction, tx_enter, tx_exit, ret. simpl.
  rewrite (bool_decide_eq_false_2 (∅ ≠ ∅)) by (intros Hn; apply Hn; reflexivity).
  reflexivity.
Qed.

(** C1 (amended). When the body of the outermost transaction returns
    [r] with pending mutations and every one of the [maxCommitRetries]
    attempts of [set(mutations)] rejects, the transaction still resolves
    with [r]: no error reaches the caller.  The store was called exactly
    [maxCommitRetries] times with the mutations, the capability is back
    in its initial state, and a later transaction runs as usual. *)
Theorem exhausted_commit_is_not_surfaced {A} (work : prog Env A) w r w2 :
  tip w = 0%nat ->
  run work (tx_enter w) = (Ok r, w2) ->
  mutations (tx w2) ≠ ∅ ->
  all_commits_fail (maxCommitRetries (opts (tx w2))) (mutations (tx w2))
                   (backing w2) ->
  exists w3,
    ks_transaction (run work) w = (Ok r, w3)
    /\ calls w3 = calls w2 ++ replicate (maxCommitRetries (opts (tx w)))
                                        (CallSet (mutations (tx w2)))
    /\ tx w3 = tx_init (opts (tx w))
    /\ forall B (b : B), ks_transaction (run (Ret b)) w3 = (Ok b, w3).
Proof.
  intros Hz Hr Hne Hall.
  destruct (work_returns_outermost work w (Ok r) w2 Hz Hr) as (Ht & Ho & _).
  unfold ks_transaction. rewrite Hr. simpl.
  rewrite bool_decide_eq_true_2 by exact Ht.
  rewrite bool_decide_eq_true_2 by exact Hne. simpl.
  destruct (commit_all_fail _ w2 Hall) as (Htx & Henv & Hcalls).
  set (wc := commit _ w2) in *.
  assert (Htc : tip wc = 1%nat) by (unfold tip; rewrite Htx; exact Ht).
  destruct (tx_finally_outermost wc Htc) as (Hx & Hfc & Hfe & Hfb).
  eexists. split; [reflexivity|]. split; [|split].
  - rewrite Hfc, Hcalls, Ho. reflexivity.
  - rewrite Hx, Htx, Ho. reflexivity.
  - intros B b. apply empty_transaction. rewrite Hx. reflexivity.
Qed.

End TransactionTheorems.

Lemma transaction_throw_never_commits_witness :
  exists w3,
    ks_transaction (run throwing_work) (world0 (mem_store ∅ 0 0) default_opts tt)
      = (Err "boom", w3)
    /\ set_calls (calls w3) = []
    /\ tip w3 = 0%nat
    /\ transactionCache (tx w3) = ∅ /\ mutations (tx w3) = ∅.
Proof.
  destruct (transaction_throw_never_commits throwing_work
              (world0 (mem_store ∅ 0 0) default_opts tt) "boom"
              (snd (run throwing_work
                      (tx_enter (world0 (mem_store ∅ 0 0) default_opts tt)))))
    as (w3 & Hr & Hc & Ht & Hout & _).
  - vm_compute. reflexivity.
  - exists w3. split; [exact Hr|]. split; [exact Hc|]. split; [exact Ht|].
    apply Hout. reflexivity.
Defined.

(** C3, as stated, fails for a nested transaction: the body of the inner
    transaction throws and the inner transaction rejects; the enclosing
    body catches the error and returns; and the pre-key that the throwing
    body wrote is handed to [set] and is in the store afterwards. *)
Lemma caught_throw_is_committed :
  let w0 := world0 (mem_store ∅ 0 0) default_opts tt in
  let out := ks_transaction (run catching_work) w0 in
  fst (run throwing_work (tx_enter (tx_enter w0))) = Err "boom"
  /\ fst (ks_transaction (run throwing_work) (tx_enter w0)) = Err "boom"
  /\ fst out = Ok tt
  /\ set_calls (calls (snd out))
     = [CallSet {[ "pre-key" := {[ "1" := VItem (PreKey sample_pair) ]} ]}]
  /\ entry (entries (backing w0)) "pre-key" "1" = None
  /\ entry (entries (backing (snd out))) "pre-key" "1"
     = Some (VItem (PreKey sample_pair)).
Proof.
  cbv zeta. repeat split; vm_compute; reflexivity.
Qed.

(** C1, as stated, fails: all three commit attempts reject, and the
    transaction resolves. *)
Lemma exhausted_commit_counterexample :
  all_commits_fail 3
    (mutations (tx (snd (run writing_work (tx_enter rejecting_world)))))
    (backing (snd (run writing_work (tx_enter rejecting_world))))
  /\ ~ (exists e, fst (ks_transaction (run writing_work) rejecting_world) = Err e).
Proof.
  split.
  - simpl. repeat (do 2 eexists; split; [vm_compute; reflexivity|]). exact I.
  - intros [e He]. vm_compute in He. discriminate He.
Qed.

Lemma exhausted_commit_is_not_surfaced_witness :
  exists w3,
    ks_transaction (run writing_work) rejecting_world = (Ok tt, w3)
    /\ calls w3
       = calls (snd (run writing_work (tx_enter rejecting_world)))
         ++ replicate 3 (CallSet (mutations
              (tx (snd (run writing_work (tx_enter rejecting_world))))))
    /\ tx w3 = tx_init default_opts
    /\ forall B (b : B), ks_transaction (run (Ret b)) w3 = (Ok b, w3).
Proof.
  apply (exhausted_commit_is_not_surfaced writing_work rejecting_world tt
           (snd (run writing_work (tx_enter rejecting_world)))).
  - reflexivity.
  - vm_compute. reflexivity.
  - vm_compute. discriminate.
  - simpl. repeat (do 2 eexists; split; [vm_compute; reflexivity|]). exact I.
Defined.

Section NullEntries.
Context {St Env : Type} `{SignalKeyStore St}.
Implicit Types w : World St Env.

Lemma collect_lookup_Some (cached : dict) ids k v :
  collect cached ids !! k = Some v ->
  cached !! k = Some v /\ truthy v = true /\ k ∈ ids.
Proof.
  unfold collect.
  assert (Hgen : forall (acc : dict),
             fold_left (fun acc id =>
                          match cached !! id with
                          | Some v => if truthy v then <[id := v]> acc else acc
                          | None => acc
                          end) ids acc !! k = Some v ->
             acc !! k = Some v
             \/ (cached !! k = Some v /\ truthy v = true /\ k ∈ ids)).
  { induction ids as [|i ids IH]; intros acc; simpl.
    - auto.
    - intros Hf. apply IH in Hf. destruct Hf as [Hacc|(Hc & Ht & Hin)].
      + destruct (cached !! i) as [vi|] eqn:Hci; [|auto].
        destruct (truthy vi) eqn:Hti; [|auto].
        destruct (decide (i = k)) as [->|Hne].
        * rewrite lookup_insert_eq in Hacc. injection Hacc as ->.
          right. repeat split; auto. apply list_elem_of_here.
        * rewrite lookup_insert_ne in Hacc by exact Hne. auto.
      + right. repeat split; auto. apply list_elem_of_further. exact Hin. }
  intros Hf. apply Hgen in Hf. destruct Hf as [Hempty|Hr]; [|exact Hr].
  rewrite lookup_empty in Hempty. discriminate.
Qed.

Lemma spread_into_lookup (data old : dataset) t :
  spread_into data old !! t
  = match data !! t with
    | Some d => Some (d ∪ default ∅ (old !! t))
    | None => old !! t
    end.
Proof.
  unfold spread_into. rewrite lookup_merge.
  destruct (data !! t), (old !! t); reflexivity.
Qed.

Lemma spread_into_sets_null type id data d old :
  data !! type = Some d -> d !! id = Some VNull ->
  null_at type id (spread_into data old).
Proof.
  intros Hd Hid. exists (d ∪ default ∅ (old !! type)). split.
  - rewrite spread_into_lookup, Hd. reflexivity.
  - apply lookup_union_Some_l. exact Hid.
Qed.

Lemma spread_into_keeps_null type id data old :
  (forall d, data !! type = Some d -> d !! id = None) ->
  null_at type id old ->
  null_at type id (spread_into data old).
Proof.
  intros Hfree (o & Ho & Hid). unfold null_at.
  rewrite spread_into_lookup. destruct (data !! type) as [d|] eqn:Hd.
  - eexists. split; [reflexivity|]. rewrite Ho. simpl.
    rewrite lookup_union_r by (apply Hfree; reflexivity). exact Hid.
  - exists o. auto.
Qed.

Lemma holds_null_after_set type id data d w w1 :
  (0 < tip w)%nat ->
  data !! type = Some d -> d !! id = Some VNull ->
  ks_set data w = (Ok tt, w1) ->
  holds_null type id w1.
Proof.
  intros Hin Hd Hid. rewrite (ks_set_in_tx data w Hin). intros [= <-].
  split; [exact Hin|]. split; simpl; eapply spread_into_sets_null; eauto.
Qed.

Lemma filter_not_None_excludes (c : dict) id ids :
  c !! id = Some VNull ->
  id ∉ List.filter (fun i => bool_decide (c !! i = None)) ids.
Proof.
  intros Hc Hin. apply list_elem_of_In, List.filter_In in Hin.
  destruct Hin as [_ Hb]. apply bool_decide_eq_true in Hb. congruence.
Qed.

(** One [get] in a transaction in which [(type, id)] is [null]: the
    entry stays [null], the result has no [id] when the get is for
    [type], and a fetch for [type], if there is one, does not ask for
    [id]. *)
Lemma get_with_null type id t ids w r w' :
  get_returns_requested ->
  holds_null type id w ->
  ks_get t ids w = (r, w') ->
  holds_null type id w'
  /\ (t = type -> forall res, r = Ok res -> res !! id = None)
  /\ (forall ids', CallGet type ids' ∈ drop (length (calls w)) (calls w') ->
      id ∉ ids').
Proof.
  intros Hwb (Hin & (c & Hc & Hcid) & Hm) Hg.
  destruct (ks_get_in_tx _ _ _ _ _ Hin Hg) as (Ht & _ & Hmut & _ & _).
  revert Hg. unfold ks_get. rewrite (isInTransaction_true w Hin). cbv zeta.
  set (F := List.filter _ ids).
  assert (HF : t = type -> id ∉ F).
  { intros ->. subst F. rewrite Hc. simpl.
    apply filter_not_None_excludes. exact Hcid. }
  destruct F as [|i0 rest] eqn:HFe.
  - intros [= <- <-]. split; [|split].
    + split; [exact Hin|]. split; [exists c; auto|exact Hm].
    + intros -> res [= <-]. rewrite Hc. simpl.
      destruct (collect c ids !! id) as [v|] eqn:Hcol; [|reflexivity].
      apply collect_lookup_Some in Hcol. destruct Hcol as (Hv & Htr & _).
      rewrite Hcid in Hv. injection Hv as <-. discriminate Htr.
    + rewrite drop_all. intros ids' Hx. apply elem_of_nil in Hx. contradiction.
  - unfold state_get. simpl.
    destruct (store_get t (i0 :: rest) (backing w)) as [[res|e] s'] eqn:Hsg.
    + intros [= <- <-]. simpl.
      assert (Hnew : null_at type id
                (<[t := res ∪ default ∅ (transactionCache (tx w) !! t)]>
                   (transactionCache (tx w)))).
      { destruct (decide (t = type)) as [->|Hne].
        - exists (res ∪ default ∅ (transactionCache (tx w) !! type)). split.
          + apply lookup_insert_eq.
          + rewrite Hc. simpl. rewrite lookup_union_r; [exact Hcid|].
            destruct (res !! id) eqn:Hres; [|reflexivity].
            exfalso. apply (HF eq_refl).
            eapply Hwb; [exact Hsg|]. rewrite Hres. eauto.
        - exists c. split; [|exact Hcid].
          rewrite lookup_insert_ne by exact Hne. exact Hc. }
      split; [|split].
      * split; [exact Hin|]. split; [exact Hnew|exact Hm].
      * intros -> r0 [= <-]. rewrite lookup_insert_eq. simpl.
        destruct Hnew as (c' & Hc' & Hc'id).
        rewrite lookup_insert_eq in Hc'. injection Hc' as <-.
        match goal with |- collect ?cc ids !! id = None =>
          destruct (collect cc ids !! id) as [v|] eqn:Hcol; [|reflexivity] end.
        apply collect_lookup_Some in Hcol. destruct Hcol as (Hv & Htr & _).
        rewrite Hc'id in Hv. injection Hv as <-. discriminate Htr.
      * rewrite drop_app_length. intros ids' Hx.
        apply list_elem_of_singleton in Hx. injection Hx as -> ->.
        apply HF. reflexivity.
    + intros [= <- <-]. simpl. split; [|split].
      * split; [exact Hin|]. split; [exists c; auto|exact Hm].
      * intros _ res0 Hr. discriminate Hr.
      * rewrite drop_app_length. intros ids' Hx.
        apply list_elem_of_singleton in Hx. injection Hx as -> ->.
        apply HF. reflexivity.
Qed.

Lemma later_in_tx_holds_null type id w1 w2 :
  get_returns_requested ->
  later_in_tx type id w1 w2 ->
  holds_null type id w1 -> holds_null type id w2.
Proof.
  intros Hwb Hl. induction Hl as [w|w t ids r wa wb Hg _ IH|w data wa wb Hfree Hs _ IH];
    intros Hn.
  - exact Hn.
  - apply IH. eapply get_with_null; eauto.
  - apply IH. destruct Hn as (Hin & Hc & Hm).
    rewrite (ks_set_in_tx data w Hin) in Hs. injection Hs as <-.
    split; [exact Hin|].
    split; simpl; apply spread_into_keeps_null; assumption.
Qed.

(** With one transaction open and mutations pending, the exit makes at
    least one and at most [maxCommitRetries] calls of [set], each with
    the pending mutations. *)
Lemma commit_calls tries : forall w,
  exists n, (n <= tries)%nat /\ (tries = 0%nat \/ 0 < n)%nat
    /\ calls (commit tries w)
       = calls w ++ replicate n (CallSet (mutations (tx w)))
    /\ tx (commit tries w) = tx w.
Proof.
  induction tries as [|k IH]; intros w; simpl.
  - exists 0%nat. simpl. rewrite app_nil_r. repeat split; auto.
  - destruct (state_set (mutations (tx w)) w) as [[u|e] w1] eqn:Hs;
      apply state_set_frame in Hs; destruct Hs as (Htx & _ & Hc).
    + exists 1%nat. simpl. repeat split; auto; lia.
    + destruct (IH w1) as (n & Hle & _ & Hcalls & Htx').
      exists (S n). repeat split; try lia.
      * rewrite Hcalls, Hc, Htx, <- app_assoc. reflexivity.
      * congruence.
Qed.

(** C10. In a transaction, once [set] has stored [null] under
    [(type, id)], every later [get] for [type] leaves [id] out of its
    result and does not ask the wrapped store for it, while the [null]
    stays among the mutations; and when the outermost transaction exits
    there, the wrapped store's [set] is called with those mutations. *)
Theorem null_entry_hidden_but_committed type id data d w0 w1 w2 :
  get_returns_requested ->
  (0 < tip w0)%nat ->
  data !! type = Some d -> d !! id = Some VNull ->
  ks_set data w0 = (Ok tt, w1) ->
  later_in_tx type id w1 w2 ->
  (forall ids r w3,
      ks_get type ids w2 = (r, w3) ->
      (forall res, r = Ok res -> res !! id = None)
      /\ (forall ids', CallGet type ids' ∈ drop (length (calls w2)) (calls w3) ->
          id ∉ ids'))
  /\ null_at type id (mutations (tx w2))
  /\ (forall A (a : A),
        tip w2 = 1%nat -> (0 < maxCommitRetries (opts (tx w2)))%nat ->
        exists n, (0 < n <= maxCommitRetries (opts (tx w2)))%nat
          /\ calls (snd (tx_exit (Ok a, w2)))
             = calls w2 ++ replicate n (CallSet (mutations (tx w2)))).
Proof.
  intros Hwb Hin Hd Hid Hs Hl.
  assert (Hn : holds_null type id w2).
  { eapply later_in_tx_holds_null; eauto.
    eapply holds_null_after_set; eauto. }
  split; [|split].
  - intros ids r w3 Hg.
    destruct (get_with_null type id type ids w2 r w3 Hwb Hn Hg) as (_ & Hres & Hcalls).
    split; [apply Hres; reflexivity|exact Hcalls].
  - apply Hn.
  - intros A a Ht Hpos. simpl.
    rewrite bool_decide_eq_true_2 by exact Ht.
    destruct Hn as (_ & _ & (m & Hm & _)).
    rewrite bool_decide_eq_true_2
      by (intros He; rewrite He, lookup_empty in Hm; discriminate).
    simpl.
    destruct (commit_calls (maxCommitRetries (opts (tx w2))) w2)
      as (n & Hle & Hpos' & Hcalls & Htx).
    exists n. split; [lia|].
    assert (Htc : tip (commit (maxCommitRetries (opts (tx w2))) w2) = 1%nat)
      by (unfold tip; rewrite Htx; exact Ht).
    destruct (tx_finally_outermost _ Htc) as (_ & Hfc & _).
    rewrite Hfc. exact Hcalls.
Qed.

End NullEntries.

Lemma mem_read_lookup_Some (d : dict) ids k v :
  mem_read d ids !! k = Some v -> k ∈ ids.
Proof.
  unfold mem_read.
  assert (Hgen : forall (acc : dict),
             fold_left (fun acc id => match d !! id with
                                      | Some v => <[id := v]> acc
                                      | None => acc
                                      end) ids acc !! k = Some v ->
             acc !! k = Some v \/ k ∈ ids).
  { induction ids as [|i ids IH]; intros acc; simpl; [auto|].
    intros Hf. apply IH in Hf. destruct Hf as [Hacc|Hin].
    - destruct (d !! i) as [vi|]; [|auto].
      destruct (decide (i = k)) as [->|Hne].
      + right. apply list_elem_of_here.
      + rewrite lookup_insert_ne in Hacc by exact Hne. auto.
    - right. apply list_elem_of_further. exact Hin. }
  intros Hf. apply Hgen in Hf. destruct Hf as [He|Hin]; [|exact Hin].
  rewrite lookup_empty in He. discriminate.
Qed.

(** The in-memory store answers with requested ids only. *)
Lemma mem_store_returns_requested : @get_returns_requested MemStore _.
Proof.
  intros type ids s r s'. simpl. destruct (failing_gets s); [|discriminate].
  intros [= <- <-] id [v Hv]. eapply mem_read_lookup_Some. exact Hv.
Qed.

Lemma null_entry_hidden_but_committed_witness :
  (forall ids r w3,
      ks_get "pre-key" ids (snd (ks_set delete_7 holding_7)) = (r, w3) ->
      (forall res, r = Ok res -> res !! "7" = None)
      /\ (forall ids',
             CallGet "pre-key" ids'
               ∈ drop (length (calls (snd (ks_set delete_7 holding_7)))) (calls w3) ->
             "7" ∉ ids'))
  /\ null_at "pre-key" "7" (mutations (tx (snd (ks_set delete_7 holding_7))))
  /\ (forall A (a : A),
        tip (snd (ks_set delete_7 holding_7)) = 1%nat ->
        (0 < maxCommitRetries (opts (tx (snd (ks_set delete_7 holding_7)))))%nat ->
        exists n, (0 < n <= maxCommitRetries (opts (tx (snd (ks_set delete_7 holding_7)))))%nat
          /\ calls (snd (tx_exit (Ok a, snd (ks_set delete_7 holding_7))))
             = calls (snd (ks_set delete_7 holding_7))
               ++ replicate n (CallSet (mutations (tx (snd (ks_set delete_7 holding_7)))))).
Proof.
  apply (null_entry_hidden_but_committed "pre-key" "7" delete_7 {[ "7" := VNull ]}
           holding_7 (snd (ks_set delete_7 holding_7)) (snd (ks_set delete_7 holding_7))).
  - exact mem_store_returns_requested.
  - vm_compute. lia.
  - reflexivity.
  - reflexivity.
  - reflexivity.
  - apply later_refl.
Defined.

(* ===================================================================== *)
(** * Properties of the pre-key functions                                *)
(* ===================================================================== *)

Example generateOrGetPreKeys_ids_10_5 :
  newPreKeyIds (generateOrGetPreKeys sample_draw (sample_creds 10 10) 5)
  = [10; 11; 12; 13; 14].
Proof. reflexivity. Qed.

Example generateOrGetPreKeys_enough_available :
  newPreKeyIds (generateOrGetPreKeys sample_draw (sample_creds 30 10) 5) = [].
Proof. reflexivity. Qed.

Section PreKeyTheorems.
Context {St Env : Type} `{SignalKeyStore St}.
Implicit Types w : World St Env.

(** Outside a transaction [set] and [get] go straight to the wrapped
    store. *)
Lemma ks_set_outside data w :
  tip w = 0%nat -> ks_set data w = state_set data w.
Proof. intros Hz. unfold ks_set. now rewrite (isInTransaction_false w Hz). Qed.

Lemma ks_get_outside type ids w :
  tip w = 0%nat -> ks_get type ids w = state_get type ids w.
Proof. intros Hz. unfold ks_get. now rewrite (isInTransaction_false w Hz). Qed.

(** [getNextPreKeys] outside a transaction: one [set] of the new pairs,
    then, if it succeeded, one [get] of the requested range. *)
Lemma getNextPreKeys_outside draw creds count w r w' :
  tip w = 0%nat ->
  getNextPreKeys draw creds count w = (r, w') ->
  let b := generateOrGetPreKeys draw creds count in
  set_calls (calls w')
  = set_calls (calls w) ++ [CallSet {[ "pre-key" := preKeyEntries (newPreKeys b) ]}]
  /\ (forall upd pk, r = Ok (upd, pk) ->
        upd_nextPreKeyId upd = Z.max (lastPreKeyId b + 1) (nextPreKeyId creds)
        /\ upd_firstUnuploadedPreKeyId upd
           = Z.max (firstUnuploadedPreKeyId creds) (lastPreKeyId b + 1))
  /\ (forall e, r = Err e ->
        (exists s, store_set {[ "pre-key" := preKeyEntries (newPreKeys b) ]} (backing w)
                   = (Err e, s))
        \/ (exists s1 s2 ids,
               store_set {[ "pre-key" := preKeyEntries (newPreKeys b) ]} (backing w)
               = (Ok tt, s1)
               /\ store_get "pre-key" ids s1 = (Err e, s2))).
Proof.
  intros Hz. unfold getNextPreKeys, bind. cbv zeta.
  set (b := generateOrGetPreKeys draw creds count).
  rewrite (ks_set_outside _ w Hz).
  destruct (state_set _ w) as [[u|e] w1] eqn:Hs.
  - pose proof Hs as Hs'. apply state_set_frame in Hs'.
    destruct Hs' as (Htx & _ & Hc).
    assert (Hz1 : tip w1 = 0%nat) by (unfold tip; rewrite Htx; exact Hz).
    unfold getPreKeys. rewrite (ks_get_outside _ _ w1 Hz1).
    destruct (state_get _ _ w1) as [[pk|e] w2] eqn:Hg;
      pose proof Hg as Hg'; apply state_get_frame in Hg';
      destruct Hg' as (_ & _ & Hc2); intros [= <- <-].
    + rewrite Hc2, Hc, !set_calls_app. simpl. rewrite app_nil_r.
      split; [reflexivity|]. split.
      * intros upd pk0 [= <- _]. simpl. auto.
      * intros e He. discriminate He.
    + rewrite Hc2, Hc, !set_calls_app. simpl. rewrite app_nil_r.
      split; [reflexivity|]. split.
      * intros upd pk0 He. discriminate He.
      * intros e0 [= <-]. right.
        unfold state_set in Hs. unfold state_get in Hg.
        destruct (store_set _ (backing w)) as [rs s1] eqn:Hss.
        injection Hs as -> <-. simpl in Hg.
        destruct (store_get _ _ s1) as [rg s2] eqn:Hgg.
        injection Hg as -> _. destruct u. eauto.
  - pose proof Hs as Hs'. apply state_set_frame in Hs'.
    destruct Hs' as (_ & _ & Hc). intros [= <- <-].
    rewrite Hc, set_calls_app. simpl.
    split; [reflexivity|]. split.
    + intros upd pk He. discriminate He.
    + intros e0 [= <-]. left.
      unfold state_set in Hs.
      destruct (store_set _ (backing w)) as [rs s1] eqn:Hss.
      injection Hs as -> _. eauto.
Qed.

(** [getNextPreKeys] inside a transaction: the new pairs go to the
    pending mutations in one [set], and the wrapped store is not written. *)
Lemma getNextPreKeys_inside draw creds count w r w' :
  (0 < tip w)%nat ->
  getNextPreKeys draw creds count w = (r, w') ->
  let b := generateOrGetPreKeys draw creds count in
  set_calls (calls w') = set_calls (calls w)
  /\ mutations (tx w')
     = spread_into {[ "pre-key" := preKeyEntries (newPreKeys b) ]} (mutations (tx w))
  /\ (forall upd pk, r = Ok (upd, pk) ->
        upd_nextPreKeyId upd = Z.max (lastPreKeyId b + 1) (nextPreKeyId creds)
        /\ upd_firstUnuploadedPreKeyId upd
           = Z.max (firstUnuploadedPreKeyId creds) (lastPreKeyId b + 1)).
Proof.
  intros Hin. unfold getNextPreKeys, bind. cbv zeta.
  rewrite (ks_set_in_tx _ w Hin). unfold getPreKeys.
  match goal with |- context [ks_get ?t ?ids ?x] =>
    destruct (ks_get t ids x) as [[pk|e] w2] eqn:Hg end;
    apply ks_get_in_tx in Hg; try exact Hin;
    destruct Hg as (_ & _ & Hm & Hc & _); unfold ret; intros [= <- <-];
    (split; [exact Hc|]); (split; [exact Hm|]).
  - intros upd pk0 [= <- _]. simpl. auto.
  - intros upd pk0 He. discriminate He.
Qed.

(** C6. With [nextPreKeyId = 10] and [firstUnuploadedPreKeyId = 10],
    [getNextPreKeys(state, 5)] generates pairs under exactly the ids
    10..14 and hands them to the key store in exactly one write batch
    under ['pre-key'] (one [set] of the store outside a transaction, one
    addition to the pending mutations inside one); the update it returns
    has [nextPreKeyId = 15] and [firstUnuploadedPreKeyId = 15]. *)
Theorem getNextPreKeys_10_5 draw creds w r w' :
  nextPreKeyId creds = 10 ->
  firstUnuploadedPreKeyId creds = 10 ->
  getNextPreKeys draw creds 5 w = (r, w') ->
  let b := generateOrGetPreKeys draw creds 5 in
  let batch : dataset := {[ "pre-key" := preKeyEntries (newPreKeys b) ]} in
  newPreKeyIds b = [10; 11; 12; 13; 14]
  /\ newPreKeys b
     = list_to_map [("10", draw 0%nat); ("11", draw 1%nat); ("12", draw 2%nat);
                    ("13", draw 3%nat); ("14", draw 4%nat)]
  /\ (tip w = 0%nat ->
      set_calls (calls w') = set_calls (calls w) ++ [CallSet batch])
  /\ ((0 < tip w)%nat ->
      set_calls (calls w') = set_calls (calls w)
      /\ mutations (tx w') = spread_into batch (mutations (tx w)))
  /\ (forall upd pk, r = Ok (upd, pk) ->
        upd_nextPreKeyId upd = 15 /\ upd_firstUnuploadedPreKeyId upd = 15)
  /\ (forall e, r = Err e ->
        exists type ids s s', store_set batch s = (Err e, s')
                              \/ store_get type ids s = (Err e, s')).
Proof.
  intros Hn Hf Hr b batch.
  assert (Hids : newPreKeyIds b = [10; 11; 12; 13; 14]).
  { subst b. unfold generateOrGetPreKeys. simpl. rewrite Hn, Hf. reflexivity. }
  assert (Hlast : lastPreKeyId b = 14).
  { subst b. unfold generateOrGetPreKeys. simpl. rewrite Hn, Hf. reflexivity. }
  split; [exact Hids|]. split.
  { subst b. unfold generateOrGetPreKeys in *. simpl in *.
    rewrite Hn, Hf in *. reflexivity. }
  destruct (tip w) as [|n] eqn:Ht.
  - destruct (getNextPreKeys_outside draw creds 5 w r w' Ht Hr) as (Hc & Hu & He).
    fold b in Hc, Hu, He. fold batch in Hc, He.
    split; [intros _; exact Hc|]. split; [intros Hlt; lia|]. split.
    + intros upd pk Hok. destruct (Hu upd pk Hok) as (-> & ->).
      rewrite Hlast, Hn, Hf. split; reflexivity.
    + intros e Herr. destruct (He e Herr) as [(s & Hs)|(s1 & s2 & ids & _ & Hg)].
      * exists "pre-key", [], (backing w), s. left. exact Hs.
      * exists "pre-key", ids, s1, s2. right. exact Hg.
  - assert (Hin : (0 < tip w)%nat) by lia.
    assert (Hr' := Hr). apply getNextPreKeys_inside in Hr'; [|exact Hin].
    destruct Hr' as (Hc & Hm & Hu). fold b in Hm, Hu. fold batch in Hm.
    split; [intros Hz; discriminate Hz|]. split; [intros _; auto|]. split.
    + intros upd pk Hok. destruct (Hu upd pk Hok) as (-> & ->).
      rewrite Hlast, Hn, Hf. split; reflexivity.
    + intros e Herr. subst r.
      revert Hr. unfold getNextPreKeys, bind. cbv zeta.
      rewrite (ks_set_in_tx _ w Hin). unfold getPreKeys, ks_get.
      rewrite isInTransaction_true by exact Hin. cbv zeta.
      match goal with |- context [List.filter ?f ?l] =>
        destruct (List.filter f l) as [|i0 rest] end.
      * unfold ret. discriminate.
      * unfold state_get. cbn [backing with_tx].
        match goal with |- context [store_get ?t ?l ?x] =>
          destruct (store_get t l x) as [[res|e0] s'] eqn:Hsg end.
        -- unfold ret. discriminate.
        -- intros [= <- _]. do 4 eexists. right. exact Hsg.
Qed.

(** C7. For creds with [firstUnuploadedPreKeyId <= nextPreKeyId] and any
    count, the update returned by [getNextPreKeys] keeps
    [firstUnuploadedPreKeyId <= nextPreKeyId] and decreases neither
    counter, and every id for which [generateOrGetPreKeys] generates a
    pair is at least [creds.nextPreKeyId]. *)
Theorem prekey_counters_never_go_back draw creds count :
  firstUnuploadedPreKeyId creds <= nextPreKeyId creds ->
  (forall w upd pk w',
      getNextPreKeys draw creds count w = (Ok (upd, pk), w') ->
      upd_firstUnuploadedPreKeyId upd <= upd_nextPreKeyId upd
      /\ nextPreKeyId creds <= upd_nextPreKeyId upd
      /\ firstUnuploadedPreKeyId creds <= upd_firstUnuploadedPreKeyId upd)
  /\ (forall i, i ∈ newPreKeyIds (generateOrGetPreKeys draw creds count) ->
        nextPreKeyId creds <= i)
  /\ (forall k, k ∈ dom (newPreKeys (generateOrGetPreKeys draw creds count)) ->
        exists i, k = toString i /\ nextPreKeyId creds <= i).
Proof.
  intros Hle.
  assert (Hids : forall i,
             i ∈ newPreKeyIds (generateOrGetPreKeys draw creds count) ->
             nextPreKeyId creds <= i).
  { intros i. unfold generateOrGetPreKeys. simpl. case_bool_decide.
    - intros Hi. apply elem_of_seqZ in Hi. lia.
    - intros Hi. apply elem_of_nil in Hi. contradiction. }
  split; [|split; [exact Hids|]].
  - intros w upd pk w'. unfold getNextPreKeys, bind. cbv zeta.
    destruct (ks_set _ w) as [[u|e] w1]; [|discriminate].
    destruct (getPreKeys _ _ w1) as [[d|e] w2]; [|discriminate].
    intros [= <- _ _]. unfold generateOrGetPreKeys. simpl. lia.
  - intros k Hk. apply elem_of_dom in Hk. destruct Hk as [kp Hkp].
    unfold generateOrGetPreKeys in Hkp. cbn [newPreKeys] in Hkp.
    apply elem_of_list_to_map_2 in Hkp.
    apply elem_of_lookup_imap in Hkp. destruct Hkp as (idx & i & Heq & Hl).
    injection Heq as -> _. exists i. split; [reflexivity|].
    apply Hids. unfold generateOrGetPreKeys. simpl.
    eapply list_elem_of_lookup_2. exact Hl.
Qed.

End PreKeyTheorems.

Lemma getNextPreKeys_10_5_witness :
  let w := world0 (mem_store ∅ 0 0) default_opts tt in
  let b := generateOrGetPreKeys sample_draw (sample_creds 10 10) 5 in
  fst (getNextPreKeys sample_draw (sample_creds 10 10) 5 w)
  = Ok ({| upd_nextPreKeyId := 15; upd_firstUnuploadedPreKeyId := 15 |},
        preKeyEntries (newPreKeys b))
  /\ newPreKeyIds b = [10; 11; 12; 13; 14]
  /\ set_calls (calls (snd (getNextPreKeys sample_draw (sample_creds 10 10) 5 w)))
     = [CallSet {[ "pre-key" := preKeyEntries (newPreKeys b) ]}].
Proof.
  intros w b. split; [vm_compute; reflexivity|].
  destruct (getNextPreKeys_10_5 sample_draw (sample_creds 10 10) w
              (fst (getNextPreKeys sample_draw (sample_creds 10 10) 5 w))
              (snd (getNextPreKeys sample_draw (sample_creds 10 10) 5 w)))
    as (Hids & _ & Hc & _).
  - reflexivity.
  - reflexivity.
  - vm_compute. reflexivity.
  - split; [exact Hids|]. apply Hc. reflexivity.
Defined.

Lemma prekey_counters_never_go_back_witness :
  Forall (fun i => 12 <= i)
         (newPreKeyIds (generateOrGetPreKeys sample_draw (sample_creds 12 10) 5)).
Proof.
  apply Forall_forall.
  destruct (@prekey_counters_never_go_back MemStore unit _ sample_draw
              (sample_creds 12 10) 5) as (_ & Hids & _).
  - simpl. lia.
  - exact Hids.
Defined.

(* ===================================================================== *)
(** * Properties of extractDeviceJids                                    *)
(* ===================================================================== *)

Section ExtractFacts.
Context `{WABinary}.

Lemma processDevice_cases dn u myUser myDevice acc :
  processDevice (tag dn) (attrs dn) u myUser myDevice true acc = acc
  \/ exists x, processDevice (tag dn) (attrs dn) u myUser myDevice true acc = acc ++ [x]
               /\ pushed_from myUser myDevice u dn x.
Proof.
  unfold processDevice.
  destruct (bool_decide (tag dn = "device")) eqn:Ht; simpl; [|auto].
  destruct (strict_eq (toNumber (attrs dn !! "id")) (Num 0)) eqn:Hz; simpl; [auto|].
  destruct (bool_decide (myUser = u)) eqn:Hu; simpl.
  - destruct (strict_eq_opt myDevice (toNumber (attrs dn !! "id"))) eqn:Hd; simpl; [auto|].
    destruct (attr_truthy (attrs dn !! "key-index")) eqn:Hk; [|auto].
    right. eexists. split; [reflexivity|].
    apply bool_decide_eq_true in Ht.
    repeat split; auto. intros [_ Hc]. congruence.
  - destruct (attr_truthy (attrs dn !! "key-index")) eqn:Hk; [|auto].
    right. eexists. split; [reflexivity|].
    apply bool_decide_eq_true in Ht. apply bool_decide_eq_false in Hu.
    repeat split; auto. intros [Hc _]. contradiction.
Qed.

Lemma fold_processDevice_elem ds u myUser myDevice : forall acc x,
  x ∈ fold_left (fun acc d =>
                   processDevice (tag d) (attrs d) u myUser myDevice true acc) ds acc ->
  x ∈ acc \/ exists dn, dn ∈ ds /\ pushed_from myUser myDevice u dn x.
Proof.
  induction ds as [|d ds IH]; intros acc x; simpl; [auto|].
  intros Hx. apply IH in Hx. destruct Hx as [Hx|(dn & Hdn & Hp)].
  - destruct (processDevice_cases d u myUser myDevice acc) as [->|(y & -> & Hy)] in Hx.
    + auto.
    + apply elem_of_app in Hx. destruct Hx as [Hx|Hx]; [auto|].
      apply list_elem_of_singleton in Hx. subst y.
      right. exists d. split; [apply list_elem_of_here|exact Hy].
  - right. exists dn. split; [apply list_elem_of_further; exact Hdn|exact Hp].
Qed.

Lemma processItem_elem item myUser myDevice acc acc' x :
  processItem item myUser myDevice true acc = Ok acc' ->
  x ∈ acc' ->
  x ∈ acc \/ pushed_by_item myUser myDevice item x.
Proof.
  unfold processItem.
  destruct (jidDecode (attrs item !! "jid")) as [fj|] eqn:Hj; [|discriminate].
  destruct (getBinaryNodeChild (getBinaryNodeChild (Some item) "devices") "device-list")
    as [[t a [| |ds]]|] eqn:Hdl; intros [= <-]; auto.
  intros Hx. apply fold_processDevice_elem in Hx.
  destruct Hx as [Hx|(dn & Hdn & Hp)]; [auto|].
  right. exists fj, t, a, ds, dn. auto.
Qed.

Lemma processItems_elem items myUser myDevice : forall acc acc' x,
  processItems items myUser myDevice true acc = Ok acc' ->
  x ∈ acc' ->
  x ∈ acc \/ exists item, item ∈ items /\ pushed_by_item myUser myDevice item x.
Proof.
  induction items as [|item items IH]; intros acc acc' x; simpl.
  - intros [= <-]. auto.
  - destruct (processItem item myUser myDevice true acc) as [acc1|e] eqn:Hi;
      [|discriminate].
    intros Hr Hx. destruct (IH _ _ _ Hr Hx) as [Hx1|(it & Hit & Hp)].
    + destruct (processItem_elem _ _ _ _ _ _ Hi Hx1) as [Hacc|Hp]; [auto|].
      right. exists item. split; [apply list_elem_of_here|exact Hp].
    + right. exists it. split; [apply list_elem_of_further; exact Hit|exact Hp].
Qed.

Lemma extractFromNodes_elem nodes myUser myDevice : forall acc acc' x,
  extractFromNodes nodes myUser myDevice true acc = Ok acc' ->
  x ∈ acc' ->
  x ∈ acc
  \/ exists node t a items item,
       node ∈ nodes
       /\ getBinaryNodeChild (Some node) "list" = Some (Node t a (Children items))
       /\ item ∈ items
       /\ pushed_by_item myUser myDevice item x.
Proof.
  induction nodes as [|node nodes IH]; intros acc acc' x; simpl.
  - intros [= <-]. auto.
  - destruct (getBinaryNodeChild (Some node) "list") as [[t a [| |items]]|] eqn:Hl.
    1,2,4: intros Hr Hx; destruct (IH _ _ _ Hr Hx)
             as [Hacc|(nd & t' & a' & its & it & Hnd & Hg & Hit & Hp)];
           [auto|right; exists nd, t', a', its, it;
                 split; [apply list_elem_of_further; exact Hnd|auto]].
    destruct (processItems items myUser myDevice true acc) as [acc1|e] eqn:Hi;
      [|discriminate].
    intros Hr Hx.
    destruct (IH _ _ _ Hr Hx)
      as [Hx1|(nd & t' & a' & its & it & Hnd & Hg & Hit & Hp)].
    + destruct (processItems_elem _ _ _ _ _ _ Hi Hx1) as [Hacc|(it & Hit & Hp)];
        [auto|].
      right. exists node, t, a, items, it.
      split; [apply list_elem_of_here|auto].
    + right. exists nd, t', a', its, it.
      split; [apply list_elem_of_further; exact Hnd|auto].
Qed.

(** C8. Every pair in the list returned by
    [extractDeviceJids(resp, myJid, true)] differs from the caller's own
    [(myUser, myDevice)], has a device other than 0, and comes from a
    [<device>] descriptor of the response whose [key-index] attribute is
    present and non-empty. *)
Theorem extractDeviceJids_excluding_zero result myJid me l :
  jidDecode (Some myJid) = Some me ->
  extractDeviceJids result myJid true = Ok l ->
  forall x, x ∈ l ->
    ~ (user x = fj_user me
       /\ exists dv, device x = Some dv /\ strict_eq_opt (fj_device me) dv = true)
    /\ (forall z, fj_device me = Some (Num z) ->
          x <> {| user := fj_user me; device := Some (Num z) |})
    /\ device x <> Some (Num 0)
    /\ exists dn,
         descriptor_in result (user x) dn
         /\ tag dn = "device"
         /\ device x = Some (toNumber (attrs dn !! "id"))
         /\ exists k, attrs dn !! "key-index" = Some k /\ k <> "".
Proof.
  intros Hme. unfold extractDeviceJids. rewrite Hme.
  destruct (content result) as [| |nodes] eqn:Hc; [discriminate| |].
  - intros [= <-] x Hx. apply elem_of_nil in Hx. contradiction.
  - intros He x Hx.
    destruct (extractFromNodes_elem _ _ _ _ _ _ He Hx)
      as [Hnil|(node & t & a & items & item & Hnode & Hlist & Hitem & Hp)].
    { apply elem_of_nil in Hnil. contradiction. }
    destruct Hp as (fj & t2 & a2 & ds & dn & Hj & Hdl & Hdn & Hpush).
    destruct Hpush as (Htag & -> & Hz & Hown & Hk). simpl.
    split; [|split; [|split]].
    + intros (Hu & dv & [= <-] & Hs). apply Hown. auto.
    + intros z Hdz [= Hu Hd]. apply Hown. split; [auto|].
      rewrite Hdz, Hd. simpl. apply bool_decide_eq_true. reflexivity.
    + intros [= Hd]. rewrite Hd in Hz. discriminate Hz.
    + exists dn. split; [|split; [exact Htag|split; [reflexivity|]]].
      * exists node, t, a, items, item, fj, t2, a2, ds.
        rewrite Hc. simpl. auto 10.
      * unfold attr_truthy in Hk.
        destruct (attrs dn !! "key-index") as [k|]; [|discriminate].
        exists k. split; [reflexivity|].
        intros ->. discriminate Hk.
Qed.

End ExtractFacts.

Example extractDeviceJids_sample_excluding_zero :
  @extractDeviceJids wa sample_usync_result "14155550009:3@s.whatsapp.net" true
  = Ok [{| user := "14155550001"; device := Some (Num 1) |}].
Proof. vm_compute. reflexivity. Qed.

Example extractDeviceJids_sample_with_zero :
  @extractDeviceJids wa sample_usync_result "14155550009:3@s.whatsapp.net" false
  = Ok [{| user := "14155550001"; device := Some (Num 0) |};
        {| user := "14155550001"; device := Some (Num 1) |}].
Proof. vm_compute. reflexivity. Qed.

Lemma extractDeviceJids_excluding_zero_witness :
  Forall (fun x => device x <> Some (Num 0)
                   /\ x <> {| user := "14155550009"; device := Some (Num 3) |})
         [{| user := "14155550001"; device := Some (Num 1) |}].
Proof.
  apply Forall_forall. intros x Hx.
  destruct (@extractDeviceJids_excluding_zero wa sample_usync_result
              "14155550009:3@s.whatsapp.net"
              {| fj_user := "14155550009"; fj_server := "s.whatsapp.net";
                 fj_device := Some (Num 3) |}
              [{| user := "14155550001"; device := Some (Num 1) |}])
    with (x := x) as (_ & Hown & Hzero & _).
  - vm_compute. reflexivity.
  - vm_compute. reflexivity.
  - exact Hx.
  - split; [exact Hzero|]. apply (Hown 3). reflexivity.
Defined.

(* ===================================================================== *)
(** * Properties of getUSyncDevices                                      *)
(* ===================================================================== *)

Lemma uniq_from_elem l : forall seen x,
  x ∈ uniq_from seen l <-> x ∈ l /\ x ∉ seen.
Proof.
  induction l as [|y l IH]; intros seen x; simpl.
  - split; [intros Hx; apply elem_of_nil in Hx; contradiction|].
    intros [Hx _]. exact Hx.
  - case_bool_decide as Hy.
    + rewrite IH. split.
      * intros [Hx Hs]. split; [apply list_elem_of_further; exact Hx|exact Hs].
      * intros [Hx Hs]. split; [|exact Hs].
        apply elem_of_cons in Hx. destruct Hx as [->|Hx]; [contradiction|exact Hx].
    + rewrite elem_of_cons, IH. split.
      * intros [->|[Hx Hs]].
        -- split; [apply list_elem_of_here|exact Hy].
        -- split; [apply list_elem_of_further; exact Hx|].
           intros Hc. apply Hs. apply list_elem_of_further. exact Hc.
      * intros [Hx Hs]. apply elem_of_cons in Hx. destruct Hx as [->|Hx]; [auto|].
        destruct (decide (x = y)) as [->|Hne]; [auto|].
        right. split; [exact Hx|].
        intros Hc. apply elem_of_cons in Hc. destruct Hc as [->|Hc]; auto.
Qed.

Lemma uniq_from_NoDup l : forall seen, NoDup (uniq_from seen l).
Proof.
  induction l as [|y l IH]; intros seen; simpl.
  - apply NoDup_nil_2.
  - case_bool_decide as Hy; [apply IH|].
    apply NoDup_cons_2; [|apply IH].
    rewrite uniq_from_elem. intros [_ Hc]. apply Hc. apply list_elem_of_here.
Qed.

(** [uniq] removes repeated texts and nothing else. *)
Lemma uniq_spec l : NoDup (uniq l) /\ forall x, x ∈ uniq l <-> x ∈ l.
Proof.
  split; [apply uniq_from_NoDup|].
  intros x. unfold uniq. rewrite uniq_from_elem. split; [intros [Hx _]; exact Hx|].
  intros Hx. split; [exact Hx|]. intros Hc. apply elem_of_nil in Hc. exact Hc.
Qed.

Section USyncFacts.
Context `{WABinary} {Message : Type} `{Collaborators Message}.

Lemma splitCached_spec cache useCache js : forall dr us dr' us',
  splitCached cache useCache js dr us = Ok (dr', us') ->
  dr' = dr ++ concat (cachedDevices cache
                        <$> List.filter (servedFromCache cache useCache) js)
  /\ us' = us ++ ((fun j => userNode (jidNormalizedUser j))
                    <$> List.filter (fun j => negb (servedFromCache cache useCache j)) js)
  /\ Forall (fun j => is_Some (jidDecode (Some j))) js.
Proof.
  induction js as [|j js IH]; intros dr us dr' us'.
  - simpl. intros [= <- <-]. rewrite !app_nil_r. auto.
  - cbn [splitCached]. intros Hr.
    destruct (jidDecode (Some j)) as [fj|] eqn:Hj; [|discriminate].
    assert (Hsv : servedFromCache cache useCache j
                  = useCache && bool_decide (is_Some (cache !! fj_user fj)))
      by (unfold servedFromCache; rewrite Hj; reflexivity).
    assert (Hcd : cachedDevices cache j = default [] (cache !! fj_user fj))
      by (unfold cachedDevices; rewrite Hj; reflexivity).
    assert (Hdec : is_Some (jidDecode (Some j))) by (rewrite Hj; eauto).
    cbn [List.filter]. rewrite Hsv.
    destruct (cache !! fj_user fj) as [devs|] eqn:Hc.
    + rewrite bool_decide_eq_true_2 by eauto.
      destruct useCache; cbn [andb negb].
      * apply IH in Hr. destruct Hr as (-> & -> & Hall).
        rewrite fmap_cons. cbn [concat]. rewrite Hcd. cbn [default].
        rewrite <- app_assoc. repeat split; auto.
      * apply IH in Hr. destruct Hr as (-> & -> & Hall).
        rewrite fmap_cons, <- app_assoc. repeat split; auto.
    + rewrite bool_decide_eq_false_2 by (intros [? ?]; discriminate).
      rewrite andb_false_r. cbn [negb].
      apply IH in Hr. destruct Hr as (-> & -> & Hall).
      rewrite fmap_cons, <- app_assoc. repeat split; auto.
Qed.

(** C5 (amended). [getUSyncDevices] removes repeated JIDs from its input
    by their exact text (not by bare user).  Of the remaining JIDs, those
    whose user is in the device cache are served from the cache when
    [useCache] holds.  If none is left the result is the cached devices
    and nothing is sent; otherwise exactly one [iq/usync] query is sent,
    whose user list is the normalised JIDs of the JIDs not served from
    the cache, in order, and the result is the cached devices followed
    by those extracted from the reply, which are cached per user. *)
Theorem getUSyncDevices_spec jids useCache ignoreZeroDevices s r s' :
  getUSyncDevices jids useCache ignoreZeroDevices s = (Ok r, s') ->
  let cache := userDevicesCache s in
  let served := List.filter (servedFromCache cache useCache) (uniq jids) in
  let toFetch :=
    List.filter (fun j => negb (servedFromCache cache useCache j)) (uniq jids) in
  NoDup (uniq jids)
  /\ (forall j, j ∈ uniq jids <-> j ∈ jids)
  /\ sent s' = sent s
  /\ ((toFetch = []
       /\ r = concat (cachedDevices cache <$> served)
       /\ queried s' = queried s
       /\ userDevicesCache s' = cache)
      \/ (toFetch <> []
          /\ exists reply extracted,
              let iq := usyncQuery (generateMessageTag (epoch s))
                          ((fun j => userNode (jidNormalizedUser j)) <$> toFetch) in
              queried s' = queried s ++ [iq]
              /\ query iq = Ok reply
              /\ extractDeviceJids reply meId ignoreZeroDevices = Ok extracted
              /\ r = concat (cachedDevices cache <$> served) ++ extracted
              /\ userDevicesCache s' = groupByUser extracted ∪ cache)).
Proof.
  intros Hr. cbv zeta. destruct (uniq_spec jids) as (Hnd & Hel).
  split; [exact Hnd|]. split; [exact Hel|].
  revert Hr. unfold getUSyncDevices.
  destruct (splitCached (userDevicesCache s) useCache (uniq jids) [] [])
    as [[dr us]|e] eqn:Hs; [|discriminate].
  apply splitCached_spec in Hs. destruct Hs as (Hdr & Hus & _).
  cbn [app] in Hdr, Hus. subst dr.
  destruct us as [|u0 us'].
  - intros [= <- <-]. split; [reflexivity|]. left.
    symmetry in Hus. apply fmap_nil_inv in Hus. auto.
  - destruct (query _) as [reply|e] eqn:Hq; [|discriminate].
    destruct (extractDeviceJids reply meId ignoreZeroDevices) as [extracted|e] eqn:He;
      [|discriminate].
    intros [= <- <-]. simpl. split; [reflexivity|]. right. split.
    + intros Hnil. rewrite Hnil in Hus. discriminate Hus.
    + exists reply, extracted. rewrite <- Hus. auto.
Qed.

End USyncFacts.

(** The spec's scenario: one cached user, one to fetch. *)
Example getUSyncDevices_one_cached_one_fetched :
  let s := socket0 {[ "14155550000" :=
                        [{| user := "14155550000"; device := Some (Num 0) |}] ]} in
  let out := @getUSyncDevices wa _ demo
               ["14155550000@s.whatsapp.net"; "14155550001@s.whatsapp.net"]
               true false s in
  fst out = Ok [{| user := "14155550000"; device := Some (Num 0) |};
                {| user := "14155550001"; device := Some (Num 0) |}]
  /\ (usyncUsers <$> queried (snd out)) = [[userNode "14155550001@s.whatsapp.net"]].
Proof. vm_compute. split; reflexivity. Qed.

Lemma getUSyncDevices_spec_witness :
  let s := socket0 {[ "14155550000" :=
                        [{| user := "14155550000"; device := Some (Num 0) |}] ]} in
  let out := @getUSyncDevices wa _ demo
               ["14155550000@s.whatsapp.net"; "14155550001@s.whatsapp.net"]
               true false s in
  sent (snd out) = sent s.
Proof.
  intros s out.
  destruct (@getUSyncDevices_spec wa _ demo
              ["14155550000@s.whatsapp.net"; "14155550001@s.whatsapp.net"]
              true false s
              [{| user := "14155550000"; device := Some (Num 0) |};
               {| user := "14155550001"; device := Some (Num 0) |}]
              (snd out)) as (_ & _ & Hsent & _).
  - vm_compute. reflexivity.
  - exact Hsent.
Defined.

(** C5, as stated, fails: the input is not made unique by bare user.  The
    relay itself asks for [[meId, jid]]; when the destination is the
    sender's own bare JID the two texts differ, name the same user, and
    the one query lists that user twice. *)
Lemma getUSyncDevices_not_unique_by_user :
  let jids := ["14155550009:3@s.whatsapp.net"; "14155550009@s.whatsapp.net"] in
  let out := @getUSyncDevices wa _ demo jids true true (socket0 ∅) in
  @bareUsers wa jids = ["14155550009"; "14155550009"]
  /\ is_ok (fst out) = true
  /\ (usyncUsers <$> queried (snd out))
     = [[userNode "14155550009@s.whatsapp.net"; userNode "14155550009@s.whatsapp.net"]]
  /\ ~ Forall (fun iq => NoDup (usyncUsers iq)) (queried (snd out)).
Proof.
  cbv zeta. split; [vm_compute; reflexivity|].
  split; [vm_compute; reflexivity|].
  assert (Hq : (usyncUsers <$> queried
                  (snd (@getUSyncDevices wa _ demo
                          ["14155550009:3@s.whatsapp.net"; "14155550009@s.whatsapp.net"]
                          true true (socket0 ∅))))
               = [[userNode "14155550009@s.whatsapp.net";
                   userNode "14155550009@s.whatsapp.net"]])
    by (vm_compute; reflexivity).
  split; [exact Hq|].
  intros Hall.
  destruct (queried _) as [|iq [|iq2 rest]]; try discriminate Hq.
  injection Hq as Hq. apply Forall_inv in Hall. rewrite Hq in Hall.
  apply NoDup_cons_1_1 in Hall. apply Hall. apply list_elem_of_here.
Qed.

(* ===================================================================== *)
(** * Properties of the group relay                                      *)
(* ===================================================================== *)

Lemma bool_decide_ext_if {A} (P Q : Prop) `{Decision P, Decision Q} (a b : A) :
  (P <-> Q) ->
  (if bool_decide P then a else b) = (if bool_decide Q then a else b).
Proof. intros HPQ. rewrite (bool_decide_ext P Q HPQ). reflexivity. Qed.

(** ** The recipients of the sender-key distribution message *)

Lemma unmarked_insert_true m j k :
  unmarked (<[j := true]> m) k = negb (bool_decide (k = j)) && unmarked m k.
Proof.
  unfold unmarked. destruct (decide (k = j)) as [->|Hne].
  - rewrite lookup_insert_eq, bool_decide_eq_true_2 by reflexivity. reflexivity.
  - rewrite lookup_insert_ne by congruence.
    rewrite bool_decide_eq_false_2 by exact Hne. reflexivity.
Qed.

(** Without a forced resend the loop picks, in order, the first
    occurrence of every JID that the row does not mark, and marks it. *)
Lemma markSenderKeys_unforced m0 jids : forall seen acc m,
  (forall k, unmarked m k = unmarked m0 k && negb (bool_decide (k ∈ seen))) ->
  (forall k, m !! k = if bool_decide (k ∈ seen /\ unmarked m0 k = true)
                      then Some true else m0 !! k) ->
  exists m',
    markSenderKeys jids false acc m
    = (acc ++ List.filter (unmarked m0) (uniq_from seen jids), m')
    /\ forall k, m' !! k = if bool_decide ((k ∈ seen \/ k ∈ jids) /\ unmarked m0 k = true)
                           then Some true else m0 !! k.
Proof.
  induction jids as [|j jids IH]; intros seen acc m Hun Hm.
  - simpl. exists m. rewrite app_nil_r. split; [reflexivity|].
    intros k. rewrite Hm. apply bool_decide_ext_if.
    split; [intros [? ?]; auto|]. intros [[?|Hn] ?]; [auto|].
    apply elem_of_nil in Hn. contradiction.
  - cbn [markSenderKeys uniq_from]. rewrite orb_false_r, Hun.
    destruct (unmarked m0 j) eqn:Hj; cbn [andb].
    + case_bool_decide as Hs; cbn [negb].
      * destruct (IH seen acc m Hun Hm) as (m' & -> & Hm').
        exists m'. split; [reflexivity|]. intros k. rewrite Hm'.
        apply bool_decide_ext_if. split.
        -- intros [[?|?] ?]; split; auto. right. apply list_elem_of_further. auto.
        -- intros [[?|Hk] ?]; split; auto.
           apply elem_of_cons in Hk. destruct Hk as [->|?]; auto.
      * destruct (IH (j :: seen) (acc ++ [j]) (<[j := true]> m)) as (m' & -> & Hm').
        -- intros k. rewrite unmarked_insert_true, Hun.
           destruct (decide (k = j)) as [->|Hne].
           ++ rewrite bool_decide_eq_true_2 by reflexivity.
              rewrite (bool_decide_eq_true_2 (j ∈ j :: seen)) by apply list_elem_of_here.
              rewrite andb_false_r. reflexivity.
           ++ rewrite bool_decide_eq_false_2 by exact Hne. cbn [negb andb].
              f_equal. f_equal. apply bool_decide_ext. rewrite elem_of_cons.
              split; [auto|]. intros [?|?]; [contradiction|auto].
        -- intros k. destruct (decide (k = j)) as [->|Hne].
           ++ rewrite lookup_insert_eq. rewrite bool_decide_eq_true_2; [reflexivity|].
              split; [apply list_elem_of_here|exact Hj].
           ++ rewrite lookup_insert_ne by congruence. rewrite Hm.
              apply bool_decide_ext_if. rewrite elem_of_cons.
              split; [intros [? ?]; auto|]. intros [[?|?] ?]; [contradiction|auto].
        -- exists m'. split.
           ++ cbn [List.filter]. rewrite Hj. rewrite <- app_assoc. reflexivity.
           ++ intros k. rewrite Hm'. apply bool_decide_ext_if.
              rewrite !elem_of_cons. split.
              ** intros [[[?|?]|?] ?]; auto.
              ** intros [[?|[?|?]] ?]; auto.
    + case_bool_decide as Hs.
      * destruct (IH seen acc m Hun Hm) as (m' & -> & Hm').
        exists m'. split; [reflexivity|]. intros k. rewrite Hm'.
        apply bool_decide_ext_if. rewrite elem_of_cons. split.
        -- intros [[?|?] ?]; auto.
        -- intros [[?|[->|?]] ?]; auto.
      * destruct (IH (j :: seen) acc m) as (m' & -> & Hm').
        -- intros k. rewrite Hun. destruct (decide (k = j)) as [->|Hne].
           ++ rewrite Hj. reflexivity.
           ++ f_equal. f_equal. apply bool_decide_ext. rewrite elem_of_cons.
              split; [auto|]. intros [?|?]; [contradiction|auto].
        -- intros k. rewrite Hm. apply bool_decide_ext_if. rewrite elem_of_cons.
           split; [intros [? ?]; auto|].
           intros [[->|?] Hu]; [rewrite Hj in Hu; discriminate|auto].
        -- exists m'. split.
           ++ cbn [List.filter]. rewrite Hj. reflexivity.
           ++ intros k. rewrite Hm'. apply bool_decide_ext_if.
              rewrite !elem_of_cons. split.
              ** intros [[[?|?]|?] ?]; auto.
              ** intros [[?|[?|?]] ?]; auto.
Qed.

Lemma markSenderKeys_row m0 jids :
  exists row,
    markSenderKeys jids false [] m0 = (List.filter (unmarked m0) (uniq jids), row)
    /\ forall k, row !! k = if bool_decide (k ∈ jids /\ unmarked m0 k = true)
                            then Some true else m0 !! k.
Proof.
  destruct (markSenderKeys_unforced m0 jids [] [] m0) as (row & Hrow & Hk).
  - intros k. rewrite bool_decide_eq_false_2 by apply not_elem_of_nil.
    rewrite andb_true_r. reflexivity.
  - intros k. rewrite bool_decide_eq_false_2; [reflexivity|].
    intros [Hn _]. apply elem_of_nil in Hn. exact Hn.
  - exists row. split; [exact Hrow|]. intros k. rewrite Hk.
    apply bool_decide_ext_if. split.
    + intros [[Hn|?] ?]; [apply elem_of_nil in Hn; contradiction|auto].
    + intros [? ?]; auto.
Qed.

(** After the loop every JID of the list is marked. *)
Lemma marked_after (m0 row : gmap string bool) (jids : list string) :
  (forall k, row !! k = if bool_decide (k ∈ jids /\ unmarked m0 k = true)
                        then Some true else m0 !! k) ->
  forall j, j ∈ jids -> row !! j = Some true.
Proof.
  intros Hrow j Hj. rewrite Hrow. case_bool_decide as Hc; [reflexivity|].
  destruct (unmarked m0 j) eqn:Hu; [exfalso; auto|].
  unfold unmarked in Hu. destruct (m0 !! j) as [[|]|]; simpl in Hu; congruence.
Qed.

(** Of [n] distinct JIDs of which the row marks [k], [n - k] are picked. *)
Lemma filter_unmarked_length (m : gmap string bool) (jids : list string) :
  (length (List.filter (unmarked m) jids)
   + length (List.filter (fun j => bool_decide (m !! j = Some true)) jids)
   = length jids)%nat.
Proof.
  induction jids as [|j jids IH]; [reflexivity|]. cbn [List.filter].
  assert (Hj : unmarked m j = negb (bool_decide (m !! j = Some true))).
  { unfold unmarked. destruct (m !! j) as [[|]|]; reflexivity. }
  rewrite Hj. destruct (bool_decide (m !! j = Some true)); simpl; lia.
Qed.

Lemma uniq_from_NoDup_id l : forall seen,
  NoDup l -> (forall x, x ∈ l -> x ∉ seen) -> uniq_from seen l = l.
Proof.
  induction l as [|x l IH]; intros seen Hnd Hs; [reflexivity|]. simpl.
  apply NoDup_cons in Hnd. destruct Hnd as [Hx Hnd].
  rewrite bool_decide_eq_false_2 by (apply Hs; apply list_elem_of_here).
  f_equal. apply IH; [exact Hnd|].
  intros y Hy Hc. apply elem_of_cons in Hc. destruct Hc as [->|Hc]; [contradiction|].
  apply (Hs y); [apply list_elem_of_further; exact Hy|exact Hc].
Qed.

Lemma uniq_NoDup_id l : NoDup l -> uniq l = l.
Proof.
  intros Hnd. apply uniq_from_NoDup_id; [exact Hnd|].
  intros x _. apply not_elem_of_nil.
Qed.

(** ** Stanzas *)

Lemma is_skmsg_skmsgNode c : is_skmsg (skmsgNode c) = true.
Proof. reflexivity. Qed.

Lemma recipientNodes_children l :
  recipientNodes (Node "message" ∅ (Children l))
  = concat ((fun n => if bool_decide (tag n = "participants")
                      then List.filter (fun c => bool_decide (tag c = "to"))
                                       (children_of (content n))
                      else []) <$> l).
Proof. reflexivity. Qed.

Section RelayFacts.
Context {St : Type} `{SignalKeyStore St} `{WABinary}
        {Message : Type} `{Collaborators Message}.
Implicit Types w : World St Socket.

(** Every node built by [createParticipantNodes] is the [<to>] node of
    its JID around what [encryptMessage] returned for it. *)
Lemma encryptEach_spec data ea jids : forall nodes flag,
  encryptEach jids data ea = Ok (nodes, flag) ->
  Forall2 (fun j n => exists type ct,
               encryptMessage j data = Ok (type, ct)
               /\ n = toNode j type ea ct) jids nodes.
Proof.
  induction jids as [|j jids IH]; intros nodes flag; simpl.
  - intros [= <- <-]. constructor.
  - destruct (encryptMessage j data) as [[type ct]|e] eqn:He; [|discriminate].
    destruct (encryptEach jids data ea) as [[ns fl]|e] eqn:Hr; [|discriminate].
    intros [= <- <-]. constructor; [eauto|]. eapply IH. reflexivity.
Qed.

Lemma to_nodes_filter jids nodes (P : string -> BinaryNode -> Prop) :
  Forall2 P jids nodes ->
  (forall j n, P j n -> tag n = "to") ->
  List.filter (fun c => bool_decide (tag c = "to")) nodes = nodes.
Proof.
  intros HF Htag. induction HF as [|j n js ns Hp _ IH]; [reflexivity|].
  cbn [List.filter]. rewrite bool_decide_eq_true_2 by (eapply Htag; exact Hp).
  f_equal. exact IH.
Qed.

(** The children of a stanza outside the peer category and without
    additional nodes: the payload, the [<participants>] wrapper when
    there are recipient nodes, and the device identity when required. *)
Lemma buildStanza_plain jid fj message o msgId parts bnc flag :
  isPeer o = false ->
  default [] (additionalNodes o) = [] ->
  content (buildStanza jid fj message o msgId parts bnc flag)
  = Children (bnc
              ++ match parts with
                 | [] => []
                 | _ :: _ => [Node "participants" ∅ (Children parts)]
                 end
              ++ if flag
                 then [Node "device-identity" ∅ (Bytes encodeSignedDeviceIdentity)]
                 else []).
Proof.
  intros Hpeer Han. unfold buildStanza. rewrite Hpeer. cbn [content].
  f_equal.
  assert (Hadd : forall c : list BinaryNode,
             match additionalNodes o with
             | Some (n :: ns) => c ++ n :: ns
             | _ => c
             end = c).
  { intros c. destruct (additionalNodes o) as [[|n ns]|]; try reflexivity.
    simpl in Han. discriminate Han. }
  rewrite Hadd. destruct parts as [|p ps], flag; simpl;
    rewrite ?app_nil_r, <- ?app_assoc; reflexivity.
Qed.

(** The stanza of a group message with recipient nodes [parts]: exactly
    one [skmsg] payload, and [parts] as its recipient nodes. *)
Lemma group_stanza_shape stanza c (parts : list BinaryNode) (flag : bool) jids
    (P : string -> BinaryNode -> Prop) :
  content stanza
  = Children ([skmsgNode c]
              ++ match parts with
                 | [] => []
                 | _ :: _ => [Node "participants" ∅ (Children parts)]
                 end
              ++ if flag
                 then [Node "device-identity" ∅ (Bytes encodeSignedDeviceIdentity)]
                 else []) ->
  Forall2 P jids parts ->
  (forall j n, P j n -> tag n = "to") ->
  List.filter is_skmsg (children_of (content stanza)) = [skmsgNode c]
  /\ recipientNodes stanza = parts.
Proof.
  intros Hc HF Htag. unfold recipientNodes. rewrite Hc. cbn [children_of].
  pose proof (to_nodes_filter jids parts P HF Htag) as Hto.
  destruct parts as [|p ps], flag; cbn; rewrite ?Hto, ?app_nil_r; auto.
Qed.

End RelayFacts.

(** ** Steps that do not write *)

Section QuietSteps.
Context {St : Type} `{SignalKeyStore St} `{WABinary}
        {Message : Type} `{Collaborators Message}.
Implicit Types w : World St Socket.

Lemma quiet_refl P w : quiet P w w.
Proof.
  repeat split. exists []. rewrite app_nil_r. split; [reflexivity|constructor].
Qed.

Lemma quiet_trans P w1 w2 w3 : quiet P w1 w2 -> quiet P w2 w3 -> quiet P w1 w3.
Proof.
  intros (Ht & Ho & Hm & Hs & e1 & Hc1 & Hf1) (Ht' & Ho' & Hm' & Hs' & e2 & Hc2 & Hf2).
  repeat split; try congruence.
  exists (e1 ++ e2). split.
  - rewrite Hc2, Hc1, app_assoc. reflexivity.
  - apply Forall_app. auto.
Qed.

Lemma quiet_mono (P Q : StoreCall -> Prop) w w' :
  (forall c, P c -> Q c) -> quiet P w w' -> quiet Q w w'.
Proof.
  intros HPQ (Ht & Ho & Hm & Hs & e & Hc & Hf).
  repeat split; auto. exists e. split; [exact Hc|].
  eapply Forall_impl; eauto.
Qed.

Lemma quiet_set_calls P w w' :
  (forall c, P c -> is_set_call c = false) ->
  quiet P w w' -> set_calls (calls w') = set_calls (calls w).
Proof.
  intros HP (_ & _ & _ & _ & e & -> & Hf). rewrite set_calls_app.
  assert (He : set_calls e = []).
  { unfold set_calls. induction Hf as [|c e Hc _ IH]; [reflexivity|].
    simpl. rewrite (HP c Hc). exact IH. }
  rewrite He. apply app_nil_r.
Qed.

Lemma ks_get_quiet type ids w r w' :
  (0 < tip w)%nat ->
  ks_get type ids w = (r, w') ->
  quiet (is_get_of type) w w' /\ env w' = env w.
Proof.
  intros Hin. unfold ks_get. rewrite (isInTransaction_true w Hin). cbv zeta.
  destruct (List.filter _ ids) as [|i0 rest] eqn:Hf.
  - intros [= <- <-]. split; [apply quiet_refl|reflexivity].
  - match goal with |- context [state_get ?t ?l ?x] =>
      destruct (state_get t l x) as [[res|e] w1] eqn:Hg end;
    apply state_get_frame in Hg; simpl in Hg; destruct Hg as (Htx & Henv & Hc);
    intros [= <- <-]; (split; [|simpl; congruence]);
    unfold quiet, tip; simpl; rewrite ?Htx, ?Henv; simpl;
    (repeat split; try reflexivity);
    eexists; (split; [exact Hc|]); repeat constructor; eexists; reflexivity.
Qed.

Lemma lift_env_quiet {X} P (f : Socket -> Res X * Socket) w r w' :
  (forall s, sent (snd (f s)) = sent s) ->
  lift_env f w = (r, w') -> quiet P w w'.
Proof.
  intros Hs. unfold lift_env. pose proof (Hs (env w)) as Hse.
  destruct (f (env w)) as [r0 e']. intros [= <- <-].
  unfold quiet, tip. simpl. repeat split; auto.
  exists []. rewrite app_nil_r. split; [reflexivity|constructor].
Qed.

Lemma getUSyncDevices_sent jids useCache iz s :
  sent (snd (getUSyncDevices jids useCache iz s)) = sent s.
Proof.
  unfold getUSyncDevices.
  destruct (splitCached _ _ _ _ _) as [[dr [|u us]]|e]; try reflexivity.
  destruct (query _) as [reply|e]; [|reflexivity].
  destruct (extractDeviceJids _ _ _); reflexivity.
Qed.

Lemma sock_query_quiet P iq w r w' :
  sock_query iq w = (r, w') -> quiet P w w'.
Proof. apply lift_env_quiet. intros s. reflexivity. Qed.

Lemma assertSessions_quiet jids force w r w' :
  (0 < tip w)%nat ->
  assertSessions jids force w = (r, w') ->
  quiet (is_get_of "session") w w'.
Proof.
  intros Hin. unfold assertSessions, bind.
  assert (Htail : forall (l : list string) w1 r1 w1',
             match l with
             | [] => ret false
             | _ :: _ =>
                 fun w0 =>
                   match sock_query (keyQuery l) w0 with
                   | (Ok a, w2) =>
                       match lift_res (parseAndInjectE2ESessions a) w2 with
                       | (Ok _, w3) => ret true w3
                       | (Err e, w3) => (Err e, w3)
                       end
                   | (Err e, w2) => (Err e, w2)
                   end
             end w1 = (r1, w1') ->
             quiet (is_get_of "session") w1 w1').
  { intros [|j l] w1 r1 w1'.
    - intros [= <- <-]. apply quiet_refl.
    - destruct (sock_query _ w1) as [[a|e] w2] eqn:Hq;
        apply (sock_query_quiet (is_get_of "session")) in Hq.
      + unfold lift_res, ret.
        destruct (parseAndInjectE2ESessions a); intros [= <- <-]; exact Hq.
      + intros [= <- <-]. exact Hq. }
  destruct force.
  - unfold ret at 1. apply Htail.
  - destruct (ks_get "session" _ w) as [[sessions|e] w1] eqn:Hg;
      apply ks_get_quiet in Hg; try exact Hin; destruct Hg as [Hq _].
    + unfold ret at 1. intros Hr. apply Htail in Hr.
      eapply quiet_trans; eauto.
    + intros [= <- <-]. exact Hq.
Qed.

End QuietSteps.

(** ** Steps that only read the wrapped store *)

Section ReadingSteps.
Context {St : Type} `{SignalKeyStore St} `{WABinary}
        {Message : Type} `{Collaborators Message}.
Implicit Types w : World St Socket.

Lemma only_read_trans (s1 s2 s3 : St) :
  only_read s1 s2 -> only_read s2 s3 -> only_read s1 s3.
Proof.
  intros H12 H23. induction H12 as [s|s type ids r sa sb Hg _ IH]; [exact H23|].
  eapply only_read_get; [exact Hg|]. apply IH. exact H23.
Qed.

Lemma only_read_stays_ok (ok : St -> Prop) (s s' : St) :
  takes_writes ok -> only_read s s' -> ok s -> ok s'.
Proof.
  intros Hc Hr. induction Hr as [s|s type ids r sa sb Hg _ IH]; [auto|].
  intros Hs. apply IH. eapply (get_stays_ok ok Hc); eauto.
Qed.

Lemma reads_store_ret {A} (a : A) : reads_store (ret a : M St Socket A).
Proof. intros w r w' _ [= <- <-]. split; [reflexivity|apply only_read_refl]. Qed.

Lemma reads_store_lift_res {A} (r0 : Res A) :
  reads_store (lift_res r0 : M St Socket A).
Proof. intros w r w' _ [= <- <-]. split; [reflexivity|apply only_read_refl]. Qed.

Lemma reads_store_bind {A B} (m : M St Socket A) (f : A -> M St Socket B) :
  reads_store m -> (forall a, reads_store (f a)) -> reads_store (bind m f).
Proof.
  intros Hm Hf w r w' Hin. unfold bind.
  destruct (m w) as [[a|e] w1] eqn:Hmw;
    destruct (Hm _ _ _ Hin Hmw) as (Ht & Hr).
  - intros Hfa. apply Hf in Hfa; [|lia]. destruct Hfa as (Ht' & Hr').
    split; [lia|]. eapply only_read_trans; eauto.
  - intros [= <- <-]. auto.
Qed.

Lemma reads_store_ks_get type ids :
  reads_store (ks_get type ids : M St Socket dict).
Proof.
  intros w r w' Hin Hg.
  split; [eapply ks_get_in_tx; eauto|].
  revert Hg. unfold ks_get. rewrite (isInTransaction_true w Hin). cbv zeta.
  destruct (List.filter _ ids) as [|i0 rest].
  - intros [= <- <-]. apply only_read_refl.
  - unfold state_get. cbn [backing with_tx].
    destruct (store_get type (i0 :: rest) (backing w)) as [[res|e] s'] eqn:Hs;
      intros [= <- <-]; cbn [backing with_tx];
      (eapply only_read_get; [exact Hs|apply only_read_refl]).
Qed.

Lemma reads_store_ks_set data : reads_store (ks_set data : M St Socket unit).
Proof.
  intros w r w' Hin. rewrite (ks_set_in_tx data w Hin). intros [= <- <-].
  split; [reflexivity|apply only_read_refl].
Qed.

Lemma reads_store_lift_env {X} (f : Socket -> Res X * Socket) :
  reads_store (lift_env f : M St Socket X).
Proof.
  intros w r w' Hin Hl. apply lift_env_frame in Hl. destruct Hl as (Htx & _ & Hb).
  unfold tip. rewrite Htx, Hb. split; [reflexivity|apply only_read_refl].
Qed.

Lemma reads_store_assertSessions jids force :
  reads_store (assertSessions jids force : M St Socket bool).
Proof.
  unfold assertSessions. apply reads_store_bind.
  - destruct force; [apply reads_store_ret|].
    apply reads_store_bind; [apply reads_store_ks_get|].
    intros; apply reads_store_ret.
  - intros [|j l]; [apply reads_store_ret|].
    apply reads_store_bind; [apply reads_store_lift_env|intros].
    apply reads_store_bind; [apply reads_store_lift_res|intros].
    apply reads_store_ret.
Qed.

Lemma reads_store_groupAudience jid o devices0 :
  reads_store (groupAudience jid o devices0).
Proof.
  unfold groupAudience. apply reads_store_bind.
  - unfold readSenderKeyMap. destruct (_ && _); [|apply reads_store_ret].
    apply reads_store_bind; [apply reads_store_ks_get|].
    intros; apply reads_store_ret.
  - intros skm. apply reads_store_bind; [apply reads_store_lift_res|intros gd].
    apply reads_store_bind; [|intros; apply reads_store_ret].
    unfold groupDevices. destruct (participant o); [apply reads_store_ret|].
    apply reads_store_bind; [apply reads_store_lift_env|].
    intros; apply reads_store_ret.
Qed.

Lemma reads_store_groupFanOut jid fj message o skm devices :
  reads_store (groupFanOut jid fj message o skm devices).
Proof.
  unfold groupFanOut. cbv zeta.
  apply reads_store_bind; [apply reads_store_lift_res|intros [ciphertext skdm]].
  destruct (markSenderKeys _ _ _ _) as [skj row].
  apply reads_store_bind.
  - destruct skj; [apply reads_store_ret|].
    apply reads_store_bind; [apply reads_store_assertSessions|intros].
    apply reads_store_lift_res.
  - intros parts. apply reads_store_bind; [apply reads_store_ks_set|intros].
    apply reads_store_ret.
Qed.

End ReadingSteps.

(** ** The group branch *)

Section GroupBranch.
Context {St : Type} `{SignalKeyStore St} `{WABinary}
        {Message : Type} `{Collaborators Message}.
Implicit Types w : World St Socket.

(** What [groupFanOut] does for a relay without participant: one group
    encryption, recipient nodes for the first occurrences of the
    unmarked JIDs, and a write of the row with every JID marked. *)
Lemma groupFanOut_spec jid fj message o skm devices w r w' :
  (0 < tip w)%nat ->
  groupFanOut jid fj message o skm devices w = (Ok r, w') ->
  let jids := deviceJids fj devices in
  let mk := markSenderKeys jids (bool_decide (is_Some (participant o))) [] skm in
  exists ciphertext skdm,
    encryptGroupMessage (destinationJid jid fj)
      (encodeWAMessage (patchMessageBeforeSending message jids)) meId
    = Ok (ciphertext, skdm)
    /\ snd (fst r) = [skmsgNode ciphertext]
    /\ createParticipantNodes (fst mk)
         (senderKeyDistributionMessage skdm (destinationJid jid fj))
         (extraAttrsOf message)
       = Ok (fst (fst r), snd r)
    /\ mutations (tx w')
       = spread_into {[ "sender-key-memory" :=
                          {[ jid := VItem (SenderKeyMemory (snd mk)) ]} ]}
                     (mutations (tx w))
    /\ tip w' = tip w /\ opts (tx w') = opts (tx w)
    /\ sent (env w') = sent (env w)
    /\ exists extra, calls w' = calls w ++ extra
                     /\ Forall (is_get_of "session") extra.
Proof.
  intros Hin. unfold groupFanOut. cbv zeta. unfold bind at 1, lift_res at 1.
  destruct (encryptGroupMessage _ _ _) as [[ciphertext skdm]|e] eqn:Henc;
    [|discriminate].
  destruct (markSenderKeys (deviceJids fj devices) _ [] skm) as [skj row] eqn:Hmk.
  unfold bind. cbn [fst snd].
  assert (Hparts : forall (parts : list BinaryNode * bool) w1,
             quiet (is_get_of "session") w w1 ->
             createParticipantNodes skj
               (senderKeyDistributionMessage skdm (destinationJid jid fj))
               (extraAttrsOf message) = Ok parts ->
             match ks_set {[ "sender-key-memory" :=
                               {[ jid := VItem (SenderKeyMemory row) ]} ]} w1 with
             | (Ok _, w2) => ret (parts.1, [skmsgNode ciphertext], parts.2) w2
             | (Err e, w2) => (Err e, w2)
             end = (Ok r, w') ->
             exists ciphertext0 skdm0,
               Ok (ciphertext, skdm) = Ok (ciphertext0, skdm0)
               /\ snd (fst r) = [skmsgNode ciphertext0]
               /\ createParticipantNodes skj
                    (senderKeyDistributionMessage skdm0 (destinationJid jid fj))
                    (extraAttrsOf message) = Ok (fst (fst r), snd r)
               /\ mutations (tx w')
                  = spread_into {[ "sender-key-memory" :=
                                     {[ jid := VItem (SenderKeyMemory row) ]} ]}
                                (mutations (tx w))
               /\ tip w' = tip w /\ opts (tx w') = opts (tx w)
               /\ sent (env w') = sent (env w)
               /\ exists extra, calls w' = calls w ++ extra
                                /\ Forall (is_get_of "session") extra).
  { intros [nodes flag] w1 (Ht & Ho & Hm & Hs & extra & Hc & Hf) Hcp.
    rewrite ks_set_in_tx by lia. unfold ret. intros [= <- <-].
    exists ciphertext, skdm. simpl.
    rewrite Hm, Hs, Hc. repeat split; auto. eauto. }
  destruct skj as [|j0 rest] eqn:Hskj.
  - unfold ret at 1. apply Hparts; [apply quiet_refl|reflexivity].
  - destruct (assertSessions (j0 :: rest) false w) as [[b|e] w1] eqn:Has;
      [|discriminate].
    apply assertSessions_quiet in Has; [|exact Hin].
    unfold lift_res.
    destruct (createParticipantNodes (j0 :: rest) _ _) as [parts|e] eqn:Hcp;
      [|discriminate].
    apply Hparts; [exact Has|reflexivity].
Qed.

End GroupBranch.

Section GroupRelay.
Context {St : Type} `{SignalKeyStore St} `{WABinary}
        {Message : Type} `{Collaborators Message}.
Implicit Types w : World St Socket.

Lemma commit_env tries : forall w, env (commit tries w) = env w.
Proof.
  induction tries as [|n IH]; intros w; simpl; [reflexivity|].
  destruct (state_set (mutations (tx w)) w) as [[u|e] w1] eqn:Hs;
    apply state_set_frame in Hs; destruct Hs as (_ & Henv & _).
  - exact Henv.
  - rewrite IH. exact Henv.
Qed.

Lemma chooseMessageId_frame o w r w' :
  chooseMessageId o w = (r, w') ->
  (exists id, r = Ok id)
  /\ tx w' = tx w /\ calls w' = calls w /\ backing w' = backing w
  /\ sent (env w') = sent (env w)
  /\ userDevicesCache (env w') = userDevicesCache (env w).
Proof.
  unfold chooseMessageId.
  destruct o as [id|]; [case_bool_decide|]; unfold lift_env, ret; simpl;
    intros [= <- <-]; simpl; eauto 10.
Qed.

Lemma relayPrelude_ok jid fj o w r w' :
  jidDecode (Some jid) = Some fj ->
  relayPrelude jid o w = (Ok r, w') ->
  (exists msgId, r = (fj, msgId, participantDevices o))
  /\ tx w' = tx w /\ calls w' = calls w /\ backing w' = backing w
  /\ sent (env w') = sent (env w).
Proof.
  intros Hj. unfold relayPrelude, participantDevices. rewrite Hj. unfold bind.
  destruct (chooseMessageId (messageId o) w) as [r0 w0] eqn:Hc.
  apply chooseMessageId_frame in Hc.
  destruct Hc as ((id & ->) & Htx & Hcalls & Hb & Hs & _).
  destruct (participant o) as [pjid|].
  - destruct (jidDecode (Some pjid)) as [p|]; [|discriminate].
    unfold ret. intros [= <- <-]. eauto 10.
  - unfold ret. intros [= <- <-]. eauto 10.
Qed.

(** The audience step reads the row at most, and for a status does not
    touch the key store at all. *)
Lemma groupAudience_quiet jid o devices0 w skm devices w' :
  (0 < tip w)%nat ->
  groupAudience jid o devices0 w = (Ok (skm, devices), w') ->
  quiet (is_get_of "sender-key-memory") w w'
  /\ (isStatus jid = true -> skm = ∅ /\ quiet (fun _ => False) w w').
Proof.
  intros Hin. unfold groupAudience, bind, lift_res.
  assert (Hdev : forall P gd w1 r1 w1',
             groupDevices jid o gd devices0 w1 = (r1, w1') -> quiet P w1 w1').
  { intros P gd w1 r1 w1'. unfold groupDevices.
    destruct (participant o).
    - intros [= <- <-]. apply quiet_refl.
    - unfold bind.
      destruct (lift_env _ w1) as [[ad|e] w2] eqn:Hl;
        apply (lift_env_quiet P) in Hl;
        try (intros s; apply getUSyncDevices_sent);
        unfold ret; intros [= <- <-]; exact Hl. }
  unfold readSenderKeyMap.
  destruct (negb (bool_decide (is_Some (participant o))) && negb (isStatus jid)) eqn:Hread.
  - unfold bind.
    destruct (ks_get "sender-key-memory" [jid] w) as [[res|e] w1] eqn:Hg;
      [|discriminate].
    apply ks_get_quiet in Hg; [|exact Hin]. destruct Hg as [Hq _].
    unfold ret at 1.
    destruct (fetchGroupData jid o) as [gd|e]; [|discriminate].
    destruct (groupDevices jid o gd devices0 w1) as [[devs|e] w2] eqn:Hd;
      [|discriminate].
    apply (Hdev (is_get_of "sender-key-memory")) in Hd.
    unfold ret. intros [= <- <- <-]. split; [eapply quiet_trans; eauto|].
    intros Hst. rewrite Hst in Hread. rewrite andb_false_r in Hread. discriminate.
  - unfold ret at 1.
    destruct (fetchGroupData jid o) as [gd|e]; [|discriminate].
    destruct (groupDevices jid o gd devices0 w) as [[devs|e] w2] eqn:Hd;
      [|discriminate].
    unfold ret. intros [= <- <- <-]. split.
    + eapply Hdev. exact Hd.
    + intros _. split; [reflexivity|]. eapply Hdev. exact Hd.
Qed.

(** The run of a group or status relay that resolves, taken apart: the
    audience step, the fan-out, the stanza handed to [sendNode], and the
    exit of the transaction. *)
Lemma relay_group_inv jid fj message o w id w' :
  jidDecode (Some jid) = Some fj ->
  isGroup fj || isStatus jid = true ->
  tip w = 0%nat ->
  relayMessage jid message o w = (Ok id, w') ->
  exists wp skm devices w2 r w3 w4,
    tx wp = tx w /\ calls wp = calls w /\ sent (env wp) = sent (env w)
    /\ backing wp = backing w /\ backing w4 = backing w3
    /\ wp = snd (relayPrelude jid o w)
    /\ fst (relayAudience jid o w) = Ok (skm, devices)
    /\ groupAudience jid o (participantDevices o) (tx_enter wp)
       = (Ok (skm, devices), w2)
    /\ groupFanOut jid fj message o skm devices w2 = (Ok r, w3)
    /\ tx w4 = tx w3 /\ calls w4 = calls w3
    /\ sent (env w4)
       = sent (env w3) ++ [buildStanza jid fj message o id (fst (fst r)) (snd (fst r)) (snd r)]
    /\ (Ok id, w') = tx_exit (Ok id, w4).
Proof.
  intros Hj Hg Hz. unfold relayMessage, relayAudience, bind.
  destruct (relayPrelude jid o w) as [[rp|e] wp] eqn:Hpre; [|discriminate].
  apply (relayPrelude_ok jid fj) in Hpre; [|exact Hj].
  destruct Hpre as ((msgId & ->) & Htx & Hcalls & Hback & Hsent).
  unfold ks_transaction, relayBody. rewrite Hg. unfold bind.
  destruct (groupAudience jid o (participantDevices o) (tx_enter wp))
    as [[[skm devices]|e] w2] eqn:Ha; [|discriminate].
  cbn [fst snd].
  destruct (groupFanOut jid fj message o skm devices w2) as [[r|e] w3] eqn:Hf;
    [|discriminate].
  unfold sock_sendNode, lift_env.
  destruct (sendNode _) as [u|e] eqn:Hsend; [|discriminate].
  unfold ret. intros Hexit.
  assert (Hid : id = msgId) by (simpl in Hexit; congruence). subst msgId.
  match type of Hexit with tx_exit (_, ?x) = _ =>
    exists wp, skm, devices, w2, r, w3, x end.
  rewrite Ha. cbn [fst].
  repeat split; try assumption; try reflexivity.
  symmetry. exact Hexit.
Qed.

End GroupRelay.

Section GroupOutcome.
Context {St : Type} `{SignalKeyStore St} `{WABinary}
        {Message : Type} `{Collaborators Message}.
Implicit Types w : World St Socket.

(** The first try of the commit loop, when the store accepts it. *)
Lemma commit_accepted tries w s' :
  (0 < tries)%nat ->
  store_set (mutations (tx w)) (backing w) = (Ok tt, s') ->
  backing (commit tries w) = s'.
Proof.
  intros Hpos Hs. destruct tries as [|k]; [lia|].
  cbn [commit]. unfold state_set. rewrite Hs. reflexivity.
Qed.

(** What a store that takes writes returns for an entry of the data it
    accepted. *)
Lemma entry_is_kept (ok : St -> Prop) muts s s' type id x r s'' :
  takes_writes ok ->
  store_set muts s = (Ok tt, s') ->
  entry muts type id = Some (VItem x) ->
  store_get type [id] s' = (Ok r, s'') ->
  r !! id = Some (VItem x).
Proof.
  intros Hc Hs He Hg. unfold entry in He.
  destruct (muts !! type) as [d|] eqn:Hd; [|discriminate].
  cbn in He. eapply (set_is_kept ok Hc); eauto.
Qed.

(** The outcome of a group or status relay that resolves, whatever its
    options: the stanza is built around the one [skmsg] payload and the
    recipient nodes of the JIDs that [markSenderKeys] picked, and the row
    it left is written under the destination and handed to the key store
    at the exit of the transaction, which a store that takes writes
    accepts. *)
Lemma relay_group_outcome jid fj message o w id w' :
  jidDecode (Some jid) = Some fj ->
  isGroup fj || isStatus jid = true ->
  tip w = 0%nat ->
  relayMessage jid message o w = (Ok id, w') ->
  exists skm devices parts flag ciphertext skdm muts gets n,
    let mk := markSenderKeys (deviceJids fj devices)
                (bool_decide (is_Some (participant o))) [] skm in
    fst (relayAudience jid o w) = Ok (skm, devices)
    /\ (isStatus jid = true -> skm = ∅)
    /\ encryptGroupMessage (destinationJid jid fj)
         (encodeWAMessage (patchMessageBeforeSending message (deviceJids fj devices)))
         meId = Ok (ciphertext, skdm)
    /\ sent (env w')
       = sent (env w)
         ++ [buildStanza jid fj message o id parts [skmsgNode ciphertext] flag]
    /\ Forall2
         (encrypted_for
            (encodeWAMessage
               (patchMessageBeforeSending
                  (senderKeyDistributionMessage skdm (destinationJid jid fj))
                  (fst mk)))
            (extraAttrsOf message))
         (fst mk) parts
    /\ entry muts "sender-key-memory" jid = Some (VItem (SenderKeyMemory (snd mk)))
    /\ calls w' = calls w ++ gets ++ replicate n (CallSet muts)
    /\ Forall (fun c => is_set_call c = false) gets
    /\ (n <= maxCommitRetries (opts (tx w)))%nat
    /\ ((0 < maxCommitRetries (opts (tx w)))%nat -> (0 < n)%nat)
    /\ (forall ok : St -> Prop,
           takes_writes ok -> ok (backing w) ->
           (0 < maxCommitRetries (opts (tx w)))%nat ->
           exists s, store_set muts s = (Ok tt, backing w')).
Proof.
  intros Hj Hg Hz Hr.
  destruct (relay_group_inv jid fj message o w id w' Hj Hg Hz Hr)
    as (wp & skm & devices & w2 & r & w3 & w4 & Htxp & Hcp & Hsp & Hbp & Hb4 & _
        & Haud & Ha & Hf & Htx4 & Hc4 & Hs4 & Hexit).
  assert (Hin1 : (0 < tip (tx_enter wp))%nat) by (rewrite tip_enter; lia).
  assert (Ht1 : tip (tx_enter wp) = 1%nat).
  { rewrite tip_enter. unfold tip. rewrite Htxp. fold (tip w). rewrite Hz. reflexivity. }
  destruct (groupAudience_quiet jid o _ (tx_enter wp) skm devices w2 Hin1 Ha)
    as [(Ht2 & Ho2 & Hm2 & Hs2 & e1 & Hc2 & Hf1) Hstatus].
  assert (Hin2 : (0 < tip w2)%nat) by lia.
  destruct (groupFanOut_spec jid fj message o skm devices w2 r w3 Hin2 Hf)
    as (ciphertext & skdm & Henc & Hbnc & Hparts & Hmut & Ht3 & Ho3
        & Hs3 & e2 & Hc3 & Hf2).
  rewrite Hbnc in Hs4.
  unfold createParticipantNodes in Hparts. apply encryptEach_spec in Hparts.
  (* the wrapped store has only been read *)
  assert (Hread : only_read (backing w) (backing w4)).
  { rewrite Hb4, <- Hbp.
    eapply only_read_trans.
    - apply (reads_store_groupAudience jid o _ _ _ _ Hin1 Ha).
    - apply (reads_store_groupFanOut jid fj message o skm devices _ _ _ Hin2 Hf). }
  (* the exit of the transaction *)
  assert (Ht4 : tip w4 = 1%nat) by (unfold tip in *; rewrite Htx4; lia).
  set (mk := markSenderKeys (deviceJids fj devices)
               (bool_decide (is_Some (participant o))) [] skm) in *.
  assert (Hentry : entry (mutations (tx w4)) "sender-key-memory" jid
                   = Some (VItem (SenderKeyMemory (snd mk)))).
  { rewrite Htx4, Hmut. unfold entry. rewrite spread_into_lookup.
    rewrite lookup_singleton_eq. simpl.
    apply lookup_union_Some_l. apply lookup_singleton_eq. }
  assert (Hne : mutations (tx w4) ≠ ∅).
  { intros He. rewrite He in Hentry. unfold entry in Hentry.
    rewrite lookup_empty in Hentry. discriminate. }
  simpl in Hexit.
  rewrite bool_decide_eq_true_2 in Hexit by exact Ht4.
  rewrite bool_decide_eq_true_2 in Hexit by exact Hne. simpl in Hexit.
  injection Hexit as ->.
  destruct (commit_calls (maxCommitRetries (opts (tx w4))) w4)
    as (n & Hle & Hpos & Hcc & Htxc).
  assert (Htc : tip (commit (maxCommitRetries (opts (tx w4))) w4) = 1%nat)
    by (unfold tip; rewrite Htxc; exact Ht4).
  destruct (tx_finally_outermost _ Htc) as (_ & Hfc & Hfe & Hfb).
  assert (Hopts : opts (tx w4) = opts (tx w)).
  { rewrite Htx4, Ho3, Ho2. simpl. rewrite Htxp. reflexivity. }
  exists skm, devices, r.1.1, r.2, ciphertext, skdm, (mutations (tx w4)),
         (e1 ++ e2), n.
  cbv zeta. fold mk.
  split; [exact Haud|]. split; [intros Hst; apply (Hstatus Hst)|].
  split; [exact Henc|]. split.
  { rewrite Hfe, commit_env, Hs4, Hs3, Hs2. simpl. rewrite Hsp. reflexivity. }
  split; [exact Hparts|]. split; [exact Hentry|]. split.
  { rewrite Hfc, Hcc, Hc4, Hc3, Hc2. simpl. rewrite Hcp, <- !app_assoc. reflexivity. }
  split.
  { apply Forall_app. split.
    - eapply Forall_impl; [exact Hf1|]. intros c [ids ->]. reflexivity.
    - eapply Forall_impl; [exact Hf2|]. intros c [ids ->]. reflexivity. }
  rewrite <- Hopts. split; [exact Hle|]. split; [lia|].
  intros ok Hc Hok Hpos'.
  assert (Hok4 : ok (backing w4)) by (eapply only_read_stays_ok; eauto).
  destruct (set_resolves ok Hc (mutations (tx w4)) (backing w4) Hok4) as (s' & Hset).
  exists (backing w4). rewrite Hfb.
  rewrite (commit_accepted _ w4 s' Hpos' Hset). exact Hset.
Qed.

End GroupOutcome.

Lemma filter_unmarked_empty (l : list string) : List.filter (unmarked ∅) l = l.
Proof.
  induction l as [|x l IH]; [reflexivity|]. cbn [List.filter].
  unfold unmarked at 1. rewrite lookup_empty. simpl. f_equal. exact IH.
Qed.

(** The in-memory store takes writes as long as it is not told to reject
    them. *)
Lemma mem_takes_writes : takes_writes mem_accepting.
Proof.
  split.
  - intros type ids s r s' Hok. cbn. unfold mem_accepting in *.
    destruct (failing_gets s); intros [= <- <-]; exact Hok.
  - intros data s Hok. cbn. unfold mem_accepting in Hok. rewrite Hok. eauto.
  - intros data s s' type d id x r s'' Hs Hd Hid Hg. cbn in Hs, Hg.
    destruct (failing_sets s); [|discriminate]. injection Hs as <-.
    cbn in Hg. destruct (failing_gets s); [|discriminate]. injection Hg as <- _.
    unfold mem_write. rewrite lookup_merge, Hd. cbn.
    unfold mem_read. cbn. unfold mem_write_dict.
    destruct (entries s !! type) as [old|]; cbn;
      rewrite lookup_merge, Hid; cbn; apply lookup_insert_eq.
Qed.

Section RelayTheorems.
Context {St : Type} `{SignalKeyStore St} `{WABinary}
        {Message : Type} `{Collaborators Message}.
Implicit Types w : World St Socket.

(** C4. A plain relay to a group whose audience has four devices, of
    which the group's sender-key-memory row marks exactly two, sends one
    stanza whose children are exactly one [<enc type=skmsg>] payload
    with the one group ciphertext, one [<participants>] node and, if
    required, the device identity.  The [<participants>] node holds
    exactly two [<to>] nodes, one for each unmarked device, around the
    sender-key distribution message encrypted for that device.  The row
    the relay writes marks all four devices; the exit of the
    transaction hands it to [set] of the key store, and on a store that
    takes writes, sender-key-memory holds that row for the group after
    the call. *)
Theorem group_fan_out_half_known jid fj message o w id w' skm devices :
  jidDecode (Some jid) = Some fj -> fj_server fj = "g.us" ->
  participant o = None -> isPeer o = false ->
  default [] (additionalNodes o) = [] ->
  tip w = 0%nat ->
  fst (relayAudience jid o w) = Ok (skm, devices) ->
  NoDup (deviceJids fj devices) ->
  length (deviceJids fj devices) = 4%nat ->
  length (List.filter (fun j => bool_decide (skm !! j = Some true))
                      (deviceJids fj devices)) = 2%nat ->
  relayMessage jid message o w = (Ok id, w') ->
  exists stanza ciphertext skdm parts (flag : bool) row muts gets n,
    let jids := deviceJids fj devices in
    let unknown := List.filter (unmarked skm) jids in
    let data :=
      encodeWAMessage
        (patchMessageBeforeSending
           (senderKeyDistributionMessage skdm (destinationJid jid fj)) unknown) in
    let payload :=
      Node "enc" (list_to_map [("v", "2"); ("type", "skmsg")]) (Bytes ciphertext) in
    encryptGroupMessage (destinationJid jid fj)
      (encodeWAMessage (patchMessageBeforeSending message jids)) meId
    = Ok (ciphertext, skdm)
    /\ sent (env w') = sent (env w) ++ [stanza]
    /\ content stanza
       = Children (payload
                   :: Node "participants" ∅ (Children parts)
                   :: (if flag
                       then [Node "device-identity" ∅
                                  (Bytes encodeSignedDeviceIdentity)]
                       else []))
    /\ length parts = 2%nat
    /\ Forall2
         (fun j n =>
            exists type ct,
              encryptMessage j data = Ok (type, ct)
              /\ n = Node "to" {[ "jid" := j ]}
                          (Children
                             [Node "enc"
                                   (extraAttrsOf message
                                    ∪ list_to_map [("v", "2"); ("type", type)])
                                   (Bytes ct)]))
         unknown parts
    /\ List.filter is_skmsg (children_of (content stanza)) = [payload]
    /\ recipientNodes stanza = parts
    /\ (forall j, j ∈ jids -> row !! j = Some true)
    /\ entry muts "sender-key-memory" jid = Some (VItem (SenderKeyMemory row))
    /\ calls w' = calls w ++ gets ++ replicate n (CallSet muts)
    /\ Forall (fun c => is_set_call c = false) gets
    /\ ((0 < maxCommitRetries (opts (tx w)))%nat -> (0 < n)%nat)
    /\ (forall ok : St -> Prop,
           takes_writes ok -> ok (backing w) ->
           (0 < maxCommitRetries (opts (tx w)))%nat ->
           forall r s,
             store_get "sender-key-memory" [jid] (backing w') = (Ok r, s) ->
             r !! jid = Some (VItem (SenderKeyMemory row))).
Proof.
  intros Hj Hsrv Hp Hpeer Han Hz Haud Hnd Hlen Hmarked Hr.
  assert (Hg : isGroup fj || isStatus jid = true).
  { unfold isGroup. rewrite bool_decide_eq_true_2 by exact Hsrv. reflexivity. }
  pose proof (relay_group_outcome jid fj message o w id w' Hj Hg Hz Hr) as Hout.
  cbv zeta in Hout.
  destruct Hout
    as (skm' & devices' & parts & flag & ciphertext & skdm & muts & gets & n
        & Haud' & _ & Henc & Hsent & Hparts & Hentry & Hcalls & Hgets & _ & Hn
        & Hkept).
  rewrite Haud in Haud'. injection Haud' as <- <-.
  rewrite Hp in Hparts, Hentry.
  rewrite bool_decide_eq_false_2 in Hparts, Hentry by (intros [? ?]; discriminate).
  destruct (markSenderKeys_row skm (deviceJids fj devices)) as (row & Hmk & Hrow).
  rewrite Hmk in Hparts, Hentry. cbn [fst snd] in Hparts, Hentry.
  rewrite (uniq_NoDup_id _ Hnd) in Hparts.
  set (stanza := buildStanza jid fj message o id parts [skmsgNode ciphertext] flag)
    in *.
  pose proof (buildStanza_plain jid fj message o id parts [skmsgNode ciphertext] flag
                Hpeer Han) as Hcontent.
  fold stanza in Hcontent.
  destruct (group_stanza_shape stanza ciphertext parts flag _ _ Hcontent Hparts)
    as (Hsk & Hrec).
  { intros j m (type & ct & _ & ->). reflexivity. }
  assert (Hlp : length parts = 2%nat).
  { apply Forall2_length in Hparts. rewrite <- Hparts.
    pose proof (filter_unmarked_length skm (deviceJids fj devices)). lia. }
  exists stanza, ciphertext, skdm, parts, flag, row, muts, gets, n. cbv zeta.
  split; [exact Henc|]. split; [exact Hsent|]. split.
  { rewrite Hcontent. destruct parts as [|p ps]; [discriminate Hlp|].
    destruct flag; reflexivity. }
  split; [exact Hlp|]. split; [exact Hparts|].
  split; [exact Hsk|]. split; [exact Hrec|].
  split; [eapply marked_after; exact Hrow|].
  split; [exact Hentry|]. split; [exact Hcalls|]. split; [exact Hgets|].
  split; [exact Hn|].
  intros ok Hc Hok Hpos r s Hget.
  destruct (Hkept ok Hc Hok Hpos) as (s0 & Hset).
  eapply entry_is_kept; eauto.
Qed.

(** C2 (amended). A relay to [status@broadcast] that resolves starts
    from an empty sender-key map, whatever sender-key-memory holds, so
    every device of the audience (the devices of [statusJidList], or the
    one device of [participant] when that option is set) gets a
    [<to>] node around the sender-key distribution message encrypted
    for it, next to the one [skmsg] payload.  But it does write
    sender-key-memory: the row it sets under [status@broadcast] marks
    exactly the devices of the audience; the exit of the transaction
    hands it to [set] of the key store, and on a store that takes writes
    sender-key-memory holds that row afterwards. *)
Theorem status_relay_writes_row fj message o w id w' :
  jidDecode (Some statusJid) = Some fj ->
  tip w = 0%nat ->
  relayMessage statusJid message o w = (Ok id, w') ->
  exists devices parts flag ciphertext skdm row muts gets n,
    let jids := deviceJids fj devices in
    let payload :=
      Node "enc" (list_to_map [("v", "2"); ("type", "skmsg")]) (Bytes ciphertext) in
    let stanza := buildStanza statusJid fj message o id parts [payload] flag in
    let data :=
      encodeWAMessage
        (patchMessageBeforeSending
           (senderKeyDistributionMessage skdm statusJid) (uniq jids)) in
    fst (relayAudience statusJid o w) = Ok (∅, devices)
    /\ match participant o with
       | Some _ => devices = participantDevices o
       | None =>
           fst (getUSyncDevices (default [] (statusJidList o))
                  (not_false (useUserDevicesCache o)) false
                  (env (snd (relayPrelude statusJid o w)))) = Ok devices
       end
    /\ encryptGroupMessage statusJid
         (encodeWAMessage (patchMessageBeforeSending message jids)) meId
       = Ok (ciphertext, skdm)
    /\ sent (env w') = sent (env w) ++ [stanza]
    /\ Forall2
         (fun j n =>
            exists type ct,
              encryptMessage j data = Ok (type, ct)
              /\ n = Node "to" {[ "jid" := j ]}
                          (Children
                             [Node "enc"
                                   (extraAttrsOf message
                                    ∪ list_to_map [("v", "2"); ("type", type)])
                                   (Bytes ct)]))
         (uniq jids) parts
    /\ (isPeer o = false -> default [] (additionalNodes o) = [] ->
        content stanza
        = Children (payload
                    :: (match parts with
                        | [] => []
                        | _ :: _ => [Node "participants" ∅ (Children parts)]
                        end
                        ++ (if flag
                            then [Node "device-identity" ∅
                                       (Bytes encodeSignedDeviceIdentity)]
                            else [])))
        /\ List.filter is_skmsg (children_of (content stanza)) = [payload]
        /\ recipientNodes stanza = parts)
    /\ (forall k, row !! k = if bool_decide (k ∈ jids) then Some true else None)
    /\ entry muts "sender-key-memory" statusJid = Some (VItem (SenderKeyMemory row))
    /\ calls w' = calls w ++ gets ++ replicate n (CallSet muts)
    /\ Forall (fun c => is_set_call c = false) gets
    /\ ((0 < maxCommitRetries (opts (tx w)))%nat -> (0 < n)%nat)
    /\ (forall ok : St -> Prop,
           takes_writes ok -> ok (backing w) ->
           (0 < maxCommitRetries (opts (tx w)))%nat ->
           forall r s,
             store_get "sender-key-memory" [statusJid] (backing w') = (Ok r, s) ->
             r !! statusJid = Some (VItem (SenderKeyMemory row))).
Proof.
  intros Hj Hz Hr.
  assert (Hst : isStatus statusJid = true)
    by (unfold isStatus; apply bool_decide_eq_true_2; reflexivity).
  assert (Hg : isGroup fj || isStatus statusJid = true)
    by (rewrite Hst; apply orb_true_r).
  assert (Hdest : destinationJid statusJid fj = statusJid).
  { unfold destinationJid. rewrite Hst. reflexivity. }
  pose proof (relay_group_outcome statusJid fj message o w id w' Hj Hg Hz Hr) as Hout.
  cbv zeta in Hout.
  destruct Hout
    as (skm & devices & parts & flag & ciphertext & skdm & muts & gets & n
        & Haud & Hstatus & Henc & Hsent & Hparts & Hentry & Hcalls & Hgets & _ & Hn
        & Hkept).
  rewrite (Hstatus Hst) in *. clear Hstatus.
  rewrite Hdest in Henc, Hparts.
  (* where the devices come from *)
  assert (Hdev : match participant o with
                 | Some _ => devices = participantDevices o
                 | None =>
                     fst (getUSyncDevices (default [] (statusJidList o))
                            (not_false (useUserDevicesCache o)) false
                            (env (snd (relayPrelude statusJid o w)))) = Ok devices
                 end).
  { revert Haud. unfold relayAudience, bind.
    destruct (relayPrelude statusJid o w) as [[rp|e] wp] eqn:Hpre; [|discriminate].
    apply (relayPrelude_ok statusJid fj) in Hpre; [|exact Hj].
    destruct Hpre as ((msgId & ->) & _). cbn [snd].
    unfold groupAudience, bind, lift_res.
    unfold readSenderKeyMap. rewrite Hst, andb_false_r. unfold ret at 1.
    destruct (fetchGroupData statusJid o) as [gd|e]; [|discriminate].
    unfold groupDevices. destruct (participant o) as [pjid|] eqn:Hp.
    - unfold ret. cbn [fst]. intros [= <-]. reflexivity.
    - rewrite Hst. cbn [negb app]. unfold bind, lift_env.
      cbn [env tx_enter with_tx].
      destruct (getUSyncDevices _ _ _ (env wp)) as [[ad|e] s']; [|discriminate].
      unfold ret. cbn [fst]. intros [= <-].
      unfold participantDevices. rewrite Hp. reflexivity. }
  (* what the loop picks and marks *)
  assert (Hmk : exists row,
             markSenderKeys (deviceJids fj devices)
               (bool_decide (is_Some (participant o))) [] ∅
             = (uniq (deviceJids fj devices), row)
             /\ forall k, row !! k = if bool_decide (k ∈ deviceJids fj devices)
                                     then Some true else None).
  { destruct (participant o) as [pjid|] eqn:Hp.
    - rewrite bool_decide_eq_true_2 by eauto. subst devices.
      unfold participantDevices. rewrite Hp.
      destruct (jidDecode (Some pjid)) as [p|].
      + cbn. unfold unmarked. rewrite lookup_empty. cbn.
        eexists. split; [reflexivity|]. intros k.
        destruct (decide (k = jidEncode (fj_user p) (deviceServer fj) (fj_device p)))
          as [->|Hne].
        * rewrite lookup_insert_eq.
          rewrite bool_decide_eq_true_2 by apply list_elem_of_here. reflexivity.
        * rewrite lookup_insert_ne by congruence. rewrite lookup_empty.
          rewrite bool_decide_eq_false_2; [reflexivity|].
          intros Hk. apply list_elem_of_singleton in Hk. contradiction.
      + cbn. exists ∅. split; [reflexivity|]. intros k. rewrite lookup_empty.
        rewrite bool_decide_eq_false_2 by apply not_elem_of_nil. reflexivity.
    - rewrite bool_decide_eq_false_2 by (intros [? ?]; discriminate).
      destruct (markSenderKeys_row ∅ (deviceJids fj devices)) as (row & Hrow & Hk).
      rewrite filter_unmarked_empty in Hrow.
      exists row. split; [exact Hrow|]. intros k. rewrite Hk, lookup_empty.
      apply bool_decide_ext_if. split; [intros [? _]; auto|].
      intros Hin. split; [exact Hin|]. unfold unmarked. rewrite lookup_empty.
      reflexivity. }
  destruct Hmk as (row & Hmk & Hrow).
  rewrite Hmk in Hparts, Hentry. cbn [fst snd] in Hparts, Hentry.
  exists devices, parts, flag, ciphertext, skdm, row, muts, gets, n.
  cbv zeta.
  split; [exact Haud|]. split; [exact Hdev|].
  split; [exact Henc|]. split; [exact Hsent|]. split; [exact Hparts|].
  split.
  { intros Hpeer Han.
    pose proof (buildStanza_plain statusJid fj message o id parts
                  [skmsgNode ciphertext] flag Hpeer Han) as Hcontent.
    split; [exact Hcontent|].
    eapply group_stanza_shape; [exact Hcontent|exact Hparts|].
    intros j m (type & ct & _ & ->). reflexivity. }
  split; [exact Hrow|]. split; [exact Hentry|]. split; [exact Hcalls|].
  split; [exact Hgets|]. split; [exact Hn|].
  intros ok Hc Hok Hpos r s Hget.
  destruct (Hkept ok Hc Hok Hpos) as (s0 & Hset).
  eapply entry_is_kept; eauto.
Qed.

End RelayTheorems.

Lemma group_fan_out_half_known_witness :
  let out := @relayMessage MemStore _ wa string demo "x@g.us" "hello"
               default_relay_options half_known_world in
  exists stanza parts row r s,
    sent (env (snd out)) = [stanza]
    /\ recipientNodes stanza = parts /\ length parts = 2%nat
    /\ store_get "sender-key-memory" ["x@g.us"] (backing (snd out)) = (Ok r, s)
    /\ r !! "x@g.us" = Some (VItem (SenderKeyMemory row))
    /\ Forall (fun j => row !! j = Some true) (@deviceJids wa group_x demo_devices).
Proof.
  intros out.
  destruct (@group_fan_out_half_known MemStore _ wa string demo "x@g.us" group_x
              "hello" default_relay_options half_known_world "3EB00" (snd out)
              half_known_row demo_devices)
    as (stanza & ciphertext & skdm & parts & flag & row & muts & gets & n & Hall).
  - reflexivity.
  - reflexivity.
  - reflexivity.
  - reflexivity.
  - reflexivity.
  - reflexivity.
  - vm_compute. reflexivity.
  - apply (bool_decide_unpack (NoDup (@deviceJids wa group_x demo_devices))).
    vm_compute. exact I.
  - reflexivity.
  - vm_compute. reflexivity.
  - vm_compute. reflexivity.
  - cbv zeta in Hall.
    destruct Hall as (_ & Hs & _ & Hl & _ & _ & Hrec & Hrow & _ & _ & _ & _ & Hkept).
    exists stanza, parts, row.
    destruct (store_get "sender-key-memory" ["x@g.us"] (backing (snd out)))
      as [[r|e] s] eqn:Hget; [|vm_compute in Hget; discriminate Hget].
    exists r, s. split; [exact Hs|]. split; [exact Hrec|]. split; [exact Hl|].
    split; [reflexivity|]. split.
    + refine (Hkept mem_accepting mem_takes_writes _ _ r s eq_refl);
        [reflexivity|vm_compute; lia].
    + apply Forall_forall. exact Hrow.
Defined.

Lemma status_relay_writes_row_witness :
  let out := @relayMessage MemStore _ wa string demo statusJid "hello"
               status_options empty_world in
  exists stanza row r s,
    sent (env (snd out)) = [stanza]
    /\ store_get "sender-key-memory" [statusJid] (backing (snd out)) = (Ok r, s)
    /\ r !! statusJid = Some (VItem (SenderKeyMemory row))
    /\ row !! "14155550001@s.whatsapp.net" = Some true.
Proof.
  intros out.
  destruct (@status_relay_writes_row MemStore _ wa string demo status_fj
              "hello" status_options empty_world "3EB00" (snd out))
    as (devices & parts & flag & ciphertext & skdm & row & muts & gets & n & Hall).
  - reflexivity.
  - reflexivity.
  - vm_compute. reflexivity.
  - cbv zeta in Hall.
    destruct Hall as (Haud & _ & _ & Hs & _ & _ & Hrow & _ & _ & _ & _ & Hkept).
    destruct (store_get "sender-key-memory" [statusJid] (backing (snd out)))
      as [[r|e] s] eqn:Hget; [|vm_compute in Hget; discriminate Hget].
    eexists _, row, r, s. split; [exact Hs|]. split; [reflexivity|]. split.
    + refine (Hkept mem_accepting mem_takes_writes _ _ r s eq_refl);
        [reflexivity|vm_compute; lia].
    + assert (Hd : devices = [{| user := "14155550001"; device := Some (Num 0) |}]).
      { vm_compute in Haud. congruence. }
      rewrite Hrow, Hd. rewrite bool_decide_eq_true_2; [reflexivity|].
      vm_compute. apply list_elem_of_here.
Defined.

(** C2, as stated, fails: after a status post that resolves, the key
    store holds a sender-key-memory entry for [status@broadcast] that it
    did not hold before. *)
Lemma status_relay_writes_sender_key_memory :
  let out := @relayMessage MemStore _ wa string demo statusJid "hello"
               status_options empty_world in
  fst out = Ok "3EB00"
  /\ entry (entries (backing empty_world)) "sender-key-memory" statusJid = None
  /\ entry (entries (backing (snd out))) "sender-key-memory" statusJid
     = Some (VItem (SenderKeyMemory {[ "14155550001@s.whatsapp.net" := true ]}))
  /\ entries (backing (snd out)) !! "sender-key-memory"
     <> entries (backing empty_world) !! "sender-key-memory".
Proof.
  cbv zeta. split; [vm_compute; reflexivity|].
  split; [vm_compute; reflexivity|].
  split; [vm_compute; reflexivity|].
  intros Heq. vm_compute in Heq. discriminate Heq.
Qed.

(* ===================================================================== *)
(** * Properties of the job queue                                        *)
(* ===================================================================== *)

Local Open Scope nat_scope.

Example burst_of_three :
  history <$> feed (burst "peer" 3) no_queues
  = Some [ExecutorStarted "peer"; JobStarted "peer" 0;
          JobSettled "peer" 0 Resolved; JobStarted "peer" 1;
          JobSettled "peer" 1 Resolved; JobStarted "peer" 2;
          JobSettled "peer" 2 Resolved; BucketRemoved "peer"].
Proof. vm_compute. reflexivity. Qed.

Lemma gcLimit_ge_2 : 2 <= _gcLimit.
Proof. apply Nat.leb_le. vm_compute. reflexivity. Qed.

(** ** The executor, case by case *)

Lemma executor_run_start fuel b queue offt limit i tr job :
  i < limit -> queue !! i = Some job ->
  executor_run fuel b queue offt limit i tr
  = Some (Suspended {| ex_queue := queue; ex_offt := offt;
                       ex_limit := limit; ex_i := i |},
          JobStarted b job :: tr).
Proof.
  intros Hlt Hq. destruct fuel; cbn [executor_run];
    rewrite (proj2 (Nat.ltb_lt i limit) Hlt), Hq; reflexivity.
Qed.

Lemma executor_run_next_pass fuel b queue offt limit i tr :
  ~ i < limit -> limit < length queue -> limit < _gcLimit ->
  executor_run (S fuel) b queue offt limit i tr
  = executor_run fuel b queue limit (Nat.min (length queue) _gcLimit) limit tr.
Proof.
  intros Hi Hl Hg. cbn [executor_run].
  rewrite (proj2 (Nat.ltb_ge i limit)) by lia.
  rewrite (proj2 (Nat.ltb_lt limit (length queue)) Hl).
  rewrite (proj2 (Nat.leb_gt _gcLimit limit)) by lia. reflexivity.
Qed.

Lemma executor_run_splice fuel b queue offt limit i tr :
  ~ i < limit -> limit < length queue -> _gcLimit <= limit ->
  executor_run (S fuel) b queue offt limit i tr
  = executor_run fuel b (drop limit queue) 0
      (Nat.min (length (drop limit queue)) _gcLimit) 0 (Spliced b limit :: tr).
Proof.
  intros Hi Hl Hg. cbn [executor_run].
  rewrite (proj2 (Nat.ltb_ge i limit)) by lia.
  rewrite (proj2 (Nat.ltb_lt limit (length queue)) Hl).
  rewrite (proj2 (Nat.leb_le _gcLimit limit) Hg). reflexivity.
Qed.

Lemma executor_run_finish fuel b queue offt limit i tr :
  ~ i < limit -> ~ limit < length queue ->
  executor_run fuel b queue offt limit i tr
  = Some (Finished, BucketRemoved b :: tr).
Proof.
  intros Hi Hl. destruct fuel; cbn [executor_run];
    rewrite (proj2 (Nat.ltb_ge i limit)) by lia;
    rewrite (proj2 (Nat.ltb_ge limit (length queue))) by lia; reflexivity.
Qed.

(** The fuel given to the executor is enough: from any state two turns of
    the outer loop reach an [await] or the return. *)
Lemma executor_run_total b queue offt limit i tr :
  is_Some (executor_run executor_fuel b queue offt limit i tr).
Proof.
  pose proof gcLimit_ge_2 as Hg. unfold executor_fuel.
  destruct (decide (i < limit)) as [Hi|Hi].
  - cbn [executor_run]. rewrite (proj2 (Nat.ltb_lt i limit) Hi).
    destruct (queue !! i); eauto.
  - destruct (decide (limit < length queue)) as [Hl|Hl];
      [|rewrite executor_run_finish by assumption; eauto].
    destruct (decide (_gcLimit <= limit)) as [Hs|Hs].
    + rewrite executor_run_splice by assumption.
      assert (Hd : 0 < length (drop limit queue)) by (rewrite length_drop; lia).
      destruct (drop limit queue) as [|j rest] eqn:Hdq; [simpl in Hd; lia|].
      rewrite (executor_run_start _ _ _ _ _ _ _ j); [eauto| |reflexivity].
      simpl. lia.
    + rewrite executor_run_next_pass by (assumption || lia).
      destruct (lookup_lt_is_Some_2 queue limit Hl) as [j Hj].
      rewrite (executor_run_start _ _ _ _ _ _ _ j); [eauto| |exact Hj]. lia.
Qed.

(** ** One bucket *)

Lemma feed_app a : forall c q, feed (a ++ c) q = feed a q ≫= feed c.
Proof.
  induction a as [|[b j|b how] a IH]; intros c q; simpl; [reflexivity| |].
  - destruct (enqueue b j q); [apply IH|reflexivity].
  - destruct (settle b how q); [apply IH|reflexivity].
Qed.

Lemma enqueue_first b j :
  enqueue b j no_queues
  = Some (single b {| ex_queue := [j]; ex_offt := 0; ex_limit := 1; ex_i := 0 |}
                 [JobStarted b j; ExecutorStarted b]).
Proof.
  pose proof gcLimit_ge_2 as Hg. unfold enqueue, no_queues. cbn [buckets qtrace].
  rewrite lookup_empty. rewrite Nat.min_l by lia.
  rewrite (executor_run_start _ _ _ _ _ _ _ j) by (reflexivity || lia).
  reflexivity.
Qed.

Lemma enqueue_more b j e tr :
  enqueue b j (single b e tr)
  = Some (single b {| ex_queue := ex_queue e ++ [j]; ex_offt := ex_offt e;
                      ex_limit := ex_limit e; ex_i := ex_i e |} tr).
Proof.
  unfold enqueue, single. simpl. rewrite lookup_singleton_eq.
  rewrite insert_singleton_eq. reflexivity.
Qed.

Lemma feed_enqueue_more b jobs : forall e tr,
  feed (Enqueue b <$> jobs) (single b e tr)
  = Some (single b {| ex_queue := ex_queue e ++ jobs; ex_offt := ex_offt e;
                      ex_limit := ex_limit e; ex_i := ex_i e |} tr).
Proof.
  induction jobs as [|j jobs IH]; intros e tr.
  - simpl. rewrite app_nil_r. destruct e; reflexivity.
  - rewrite fmap_cons. cbn [feed]. rewrite enqueue_more, IH. simpl.
    rewrite <- app_assoc. reflexivity.
Qed.

(** A settle inside a pass: the next job of the queue is started. *)
Lemma settle_in_pass b queue offt limit i tr job next :
  queue !! i = Some job -> S i < limit -> queue !! S i = Some next ->
  settle b Resolved
    (single b {| ex_queue := queue; ex_offt := offt; ex_limit := limit; ex_i := i |} tr)
  = Some (single b {| ex_queue := queue; ex_offt := offt; ex_limit := limit;
                      ex_i := S i |}
                 (JobStarted b next :: JobSettled b job Resolved :: tr)).
Proof.
  intros Hq Hlt Hn. unfold settle, single. cbn [buckets qtrace].
  rewrite lookup_singleton_eq. cbn [ex_queue ex_i ex_offt ex_limit].
  rewrite Hq. rewrite (executor_run_start _ _ _ _ _ _ _ next) by assumption.
  cbn [after_run buckets qtrace]. rewrite insert_singleton_eq. reflexivity.
Qed.

(** [k] settles inside a pass over the queue [0, 1, 2, ...]. *)
Lemma settles_in_pass b n offt limit k : forall i tr,
  i + k < limit -> limit <= n ->
  feed (replicate k (Settle b Resolved))
    (single b {| ex_queue := seq 0 n; ex_offt := offt; ex_limit := limit; ex_i := i |} tr)
  = Some (single b {| ex_queue := seq 0 n; ex_offt := offt; ex_limit := limit;
                      ex_i := i + k |}
                 (rev (in_pass b i k) ++ tr)).
Proof.
  induction k as [|k IH]; intros i tr Hlt Hn.
  - simpl. rewrite Nat.add_0_r. reflexivity.
  - cbn [replicate feed].
    rewrite (settle_in_pass b (seq 0 n) offt limit i tr i (S i));
      [|apply lookup_seq_lt; lia|lia|apply lookup_seq_lt; lia].
    rewrite IH by lia. f_equal. f_equal.
    + f_equal. lia.
    + unfold in_pass. cbn [seq flat_map]. rewrite rev_app_distr. simpl.
      rewrite <- app_assoc. reflexivity.
Qed.

Lemma in_pass_app b i k1 k2 :
  in_pass b i (k1 + k2) = in_pass b i k1 ++ in_pass b (i + k1) k2.
Proof. unfold in_pass. rewrite seq_app, flat_map_app. reflexivity. Qed.

Lemma started_in_pass b k : forall i, started_jobs (in_pass b i k) = seq (S i) k.
Proof.
  induction k as [|k IH]; intros i; [reflexivity|].
  unfold in_pass, started_jobs in *. cbn [seq flat_map app omap list_omap].
  f_equal. apply IH.
Qed.

Lemma settled_in_pass b k : forall i, settled_jobs (in_pass b i k) = seq i k.
Proof.
  induction k as [|k IH]; intros i; [reflexivity|].
  unfold in_pass, settled_jobs in *. cbn [seq flat_map app omap list_omap].
  f_equal. apply IH.
Qed.

Lemma executors_in_pass b k : forall i, executors_started (in_pass b i k) = 0.
Proof.
  induction k as [|k IH]; intros i; [reflexivity|].
  unfold in_pass, executors_started in *. cbn [seq flat_map app List.filter].
  apply IH.
Qed.

Lemma splices_in_pass b k : forall i, splices (in_pass b i k) = [].
Proof.
  induction k as [|k IH]; intros i; [reflexivity|].
  unfold in_pass, splices in *. cbn [seq flat_map app omap list_omap].
  apply IH.
Qed.

(** The first settle of the burst ends the executor's first pass, which
    covered the one job that was queued when it started. *)
Lemma settle_first_pass b g tr :
  2 <= g -> g = _gcLimit ->
  settle b Resolved
    (single b {| ex_queue := seq 0 (S g); ex_offt := 0; ex_limit := 1; ex_i := 0 |} tr)
  = Some (single b {| ex_queue := seq 0 (S g); ex_offt := 1; ex_limit := g; ex_i := 1 |}
                 (JobStarted b 1 :: JobSettled b 0 Resolved :: tr)).
Proof.
  intros Hg ->. unfold settle, single. cbn [buckets qtrace].
  rewrite lookup_singleton_eq. cbn [ex_queue ex_i ex_offt ex_limit].
  rewrite (lookup_seq_lt 0 (S _gcLimit) 0) by lia. unfold executor_fuel.
  rewrite executor_run_next_pass by (rewrite ?length_seq; lia).
  rewrite length_seq, Nat.min_r by lia.
  rewrite (executor_run_start _ _ _ _ _ _ _ 1) by (try apply lookup_seq_lt; lia).
  cbn [after_run buckets qtrace]. rewrite insert_singleton_eq. reflexivity.
Qed.

(** The settle of the last job of the full pass: the first [g] items are
    spliced off and the remaining job is started. *)
Lemma settle_splices b g tr :
  2 <= g -> g = _gcLimit ->
  settle b Resolved
    (single b {| ex_queue := seq 0 (S g); ex_offt := 1; ex_limit := g; ex_i := g - 1 |} tr)
  = Some (single b {| ex_queue := [g]; ex_offt := 0; ex_limit := 1; ex_i := 0 |}
                 (JobStarted b g :: Spliced b g :: JobSettled b (g - 1) Resolved :: tr)).
Proof.
  intros Hg ->. unfold settle, single. cbn [buckets qtrace].
  rewrite lookup_singleton_eq. cbn [ex_queue ex_i ex_offt ex_limit].
  rewrite (lookup_seq_lt 0 (S _gcLimit) (_gcLimit - 1)) by lia. unfold executor_fuel.
  rewrite executor_run_splice by (rewrite ?length_seq; lia).
  assert (Hdrop : drop _gcLimit (seq 0 (S _gcLimit)) = [_gcLimit]).
  { replace (S _gcLimit) with (_gcLimit + 1) by lia.
    rewrite seq_app, drop_app_length'; [reflexivity|symmetry; apply length_seq]. }
  rewrite Hdrop. cbn [length]. rewrite Nat.min_l by lia.
  rewrite (executor_run_start _ _ _ _ _ _ _ _gcLimit) by (reflexivity || lia).
  cbn [after_run buckets qtrace]. rewrite insert_singleton_eq. reflexivity.
Qed.

(** The settle of the last job: the executor returns and removes the
    bucket. *)
Lemma settle_last b j tr :
  settle b Resolved
    (single b {| ex_queue := [j]; ex_offt := 0; ex_limit := 1; ex_i := 0 |} tr)
  = Some {| buckets := ∅;
            qtrace := BucketRemoved b :: JobSettled b j Resolved :: tr |}.
Proof.
  unfold settle, single. cbn [buckets qtrace].
  rewrite lookup_singleton_eq. cbn [ex_queue ex_i ex_offt ex_limit].
  assert (Hl : [j] !! 0 = Some j) by reflexivity. rewrite Hl.
  rewrite executor_run_finish by (simpl; lia).
  cbn [after_run buckets qtrace]. rewrite delete_singleton_eq. reflexivity.
Qed.

(** A burst of [g + 1] jobs, for [g] the limit. *)
Lemma burst_over_limit b g :
  g = _gcLimit ->
  feed (burst b (S g)) no_queues
  = Some {| buckets := ∅; qtrace := rev (burst_history b g) |}.
Proof.
  intros Hgc. pose proof gcLimit_ge_2 as Hg. rewrite <- Hgc in Hg.
  unfold burst. rewrite feed_app.
  (* the enqueues *)
  cbn [seq fmap list_fmap feed]. rewrite enqueue_first.
  change (list_fmap nat QInput (Enqueue b) (seq 1 g)) with (Enqueue b <$> seq 1 g).
  rewrite feed_enqueue_more. cbn [ex_queue ex_offt ex_limit ex_i mbind option_bind].
  change ([0] ++ seq 1 g) with (seq 0 (S g)).
  (* the settles *)
  replace (S g) with (1 + ((g - 2) + (1 + 1))) at 1 by lia.
  rewrite !replicate_add, !feed_app. cbn [replicate feed].
  rewrite settle_first_pass by assumption. cbn [mbind option_bind].
  rewrite feed_app, settles_in_pass by lia. cbn [mbind option_bind app feed].
  replace (1 + (g - 2)) with (g - 1) by lia.
  rewrite settle_splices by assumption. cbn [mbind option_bind].
  rewrite settle_last. f_equal. f_equal.
  unfold burst_history.
  replace (g - 1) with (1 + (g - 2)) at 2 by lia.
  rewrite in_pass_app. rewrite !rev_app_distr. simpl.
  rewrite <- !app_assoc. reflexivity.
Qed.

Lemma burst_history_facts b g :
  2 <= g ->
  started_jobs (burst_history b g) = seq 0 (S g)
  /\ settled_jobs (burst_history b g) = seq 0 (S g)
  /\ executors_started (burst_history b g) = 1
  /\ splices (burst_history b g) = [g].
Proof.
  intros Hg. unfold burst_history.
  assert (Hseq : seq 0 (S g) = [0] ++ seq 1 (g - 1) ++ [g]).
  { replace (S g) with (1 + ((g - 1) + 1)) by lia.
    rewrite !seq_app. simpl. repeat f_equal. lia. }
  assert (Hseq' : seq 0 (S g) = seq 0 (g - 1) ++ [g - 1; g]).
  { replace (S g) with ((g - 1) + 2) by lia.
    rewrite seq_app. simpl. repeat f_equal; lia. }
  split; [|split; [|split]].
  - unfold started_jobs. rewrite !omap_app. fold (started_jobs (in_pass b 0 (g - 1))).
    rewrite started_in_pass, Hseq. reflexivity.
  - unfold settled_jobs. rewrite !omap_app. fold (settled_jobs (in_pass b 0 (g - 1))).
    rewrite settled_in_pass, Hseq'. reflexivity.
  - unfold executors_started. rewrite !List.filter_app, !length_app.
    fold (executors_started (in_pass b 0 (g - 1))).
    rewrite executors_in_pass. reflexivity.
  - unfold splices. rewrite !omap_app. fold (splices (in_pass b 0 (g - 1))).
    rewrite splices_in_pass. reflexivity.
Qed.

(** C9. When 10,001 jobs are enqueued in one bucket and resolve, one
    executor is started; it runs every job once, in arrival order; after
    it has drained the first 10,000 it splices them off the queue head,
    then runs the remaining job; and when that one has settled it removes
    the bucket entry. *)
Theorem burst_of_10001 b :
  exists q,
    feed (burst b 10001) no_queues = Some q
    /\ buckets q = ∅
    /\ history q = burst_history b 10000
    /\ started_jobs (history q) = seq 0 10001
    /\ settled_jobs (history q) = seq 0 10001
    /\ executors_started (history q) = 1
    /\ splices (history q) = [10000].
Proof.
  change 10001 with (S _gcLimit). change 10000 with _gcLimit.
  eexists. split; [apply burst_over_limit; reflexivity|].
  unfold history. cbn [buckets qtrace]. rewrite rev_involutive.
  split; [reflexivity|]. split; [reflexivity|].
  apply burst_history_facts. apply gcLimit_ge_2.
Qed.

Local Open Scope Z_scope.

(* ===================================================================== *)
(** * Reads and writes inside a transaction                              *)
(* ===================================================================== *)

Lemma filter_nil_all {A} (P : A -> bool) (l : list A) :
  (forall x, x ∈ l -> P x = false) -> List.filter P l = [].
Proof.
  induction l as [|x l IH]; intros Hall; [reflexivity|]. cbn [List.filter].
  rewrite (Hall x) by apply list_elem_of_here.
  apply IH. intros y Hy. apply Hall. apply list_elem_of_further. exact Hy.
Qed.

Lemma fold_collect_lookup (cached : dict) ids : forall (acc : dict) k,
  fold_left (fun acc id =>
               match cached !! id with
               | Some v => if truthy v then <[id := v]> acc else acc
               | None => acc
               end) ids acc !! k
  = if bool_decide (k ∈ ids)
    then match kept cached k with Some v => Some v | None => acc !! k end
    else acc !! k.
Proof.
  induction ids as [|i ids IH]; intros acc k.
  - rewrite bool_decide_eq_false_2 by apply not_elem_of_nil. reflexivity.
  - cbn [fold_left]. rewrite IH.
    set (acc' := match cached !! i with
                 | Some v => if truthy v then <[i := v]> acc else acc
                 | None => acc
                 end).
    assert (Hstep : acc' !! k
                    = if bool_decide (k = i)
                      then match kept cached k with Some v => Some v | None => acc !! k end
                      else acc !! k).
    { unfold acc', kept. case_bool_decide as Hk.
      - subst k. destruct (cached !! i) as [v|]; [|reflexivity].
        destruct (truthy v); [apply lookup_insert_eq|reflexivity].
      - destruct (cached !! i) as [v|]; [|reflexivity].
        destruct (truthy v); [|reflexivity].
        apply lookup_insert_ne. congruence. }
    rewrite Hstep.
    destruct (decide (k = i)) as [->|Hne].
    + rewrite (bool_decide_eq_true_2 (i = i)) by reflexivity.
      rewrite (bool_decide_eq_true_2 (i ∈ i :: ids)) by apply list_elem_of_here.
      destruct (bool_decide (i ∈ ids)); destruct (kept cached i); reflexivity.
    + rewrite (bool_decide_eq_false_2 (k = i)) by exact Hne.
      apply bool_decide_ext_if. rewrite elem_of_cons.
      split; [auto|]. intros [?|?]; [contradiction|assumption].
Qed.

Lemma collect_lookup (cached : dict) ids k :
  collect cached ids !! k = if bool_decide (k ∈ ids) then kept cached k else None.
Proof.
  unfold collect. rewrite fold_collect_lookup, lookup_empty.
  destruct (bool_decide (k ∈ ids)); destruct (kept cached k); reflexivity.
Qed.

Section TransactionReads.
Context {St Env : Type} `{SignalKeyStore St}.
Implicit Types w : World St Env.

(** A [get] whose ids are all defined in the transaction cache is
    answered from it and leaves the world as it is. *)
Lemma ks_get_all_cached type ids w :
  (0 < tip w)%nat ->
  (forall id, id ∈ ids -> is_Some (cached_of type w !! id)) ->
  ks_get type ids w = (Ok (collect (cached_of type w) ids), w).
Proof.
  intros Hin Hall. unfold ks_get. rewrite (isInTransaction_true w Hin). cbv zeta.
  fold (cached_of type w). rewrite filter_nil_all; [reflexivity|].
  intros id Hid. apply bool_decide_eq_false_2.
  destruct (Hall id Hid) as [v Hv]. rewrite Hv. discriminate.
Qed.

(** What a [get] inside a transaction returns is read off the
    transaction cache as the call leaves it. *)
Lemma ks_get_in_tx_result type ids w r w1 :
  (0 < tip w)%nat ->
  ks_get type ids w = (Ok r, w1) ->
  r = collect (cached_of type w1) ids /\ tip w1 = tip w.
Proof.
  intros Hin. unfold ks_get. rewrite (isInTransaction_true w Hin). cbv zeta.
  destruct (List.filter _ ids) as [|i0 rest] eqn:Hf.
  - intros [= <- <-]. auto.
  - match goal with |- context [state_get ?t ?l ?x] =>
      destruct (state_get t l x) as [[res|e] w0] eqn:Hg end;
      [|discriminate].
    apply state_get_frame in Hg. destruct Hg as (Htx & _ & _).
    intros [= <- <-]. unfold cached_of, tip. simpl.
    rewrite lookup_insert_eq, Htx. simpl. auto.
Qed.

(** X1. Inside a transaction a [get] of ids that a [set] has just
    written is answered from the transaction alone: the truthy values
    are returned, the [null]s are left out, the wrapped store is not
    called and nothing else changes. *)
Theorem set_then_get_in_transaction type (d : dict) data ids w :
  (0 < tip w)%nat ->
  data !! type = Some d ->
  (forall id, id ∈ ids -> is_Some (d !! id)) ->
  exists r,
    fst (ks_set data w) = Ok tt
    /\ calls (snd (ks_set data w)) = calls w
    /\ ks_get type ids (snd (ks_set data w)) = (Ok r, snd (ks_set data w))
    /\ forall id, r !! id = if bool_decide (id ∈ ids) then kept d id else None.
Proof.
  intros Hin Hd Hall. rewrite (ks_set_in_tx data w Hin). cbn [fst snd].
  set (w1 := with_tx w _).
  assert (Hc : cached_of type w1 = d ∪ default ∅ (transactionCache (tx w) !! type)).
  { unfold cached_of, w1. simpl. rewrite spread_into_lookup, Hd. reflexivity. }
  assert (Hin1 : (0 < tip w1)%nat) by exact Hin.
  exists (collect (cached_of type w1) ids).
  split; [reflexivity|]. split; [reflexivity|]. split.
  - apply ks_get_all_cached; [exact Hin1|].
    intros id Hid. destruct (Hall id Hid) as [v Hv]. exists v.
    rewrite Hc. apply lookup_union_Some_l. exact Hv.
  - intros id. rewrite collect_lookup. case_bool_decide as Hid; [|reflexivity].
    destruct (Hall id Hid) as [v Hv]. unfold kept. rewrite Hc.
    rewrite (lookup_union_Some_l _ _ _ _ Hv), Hv. reflexivity.
Qed.

(** X2. Inside a transaction an entry that a [get] has returned is
    served from the transaction cache from then on: a later [get] of
    such ids returns the same values and does not call the wrapped
    store. *)
Theorem get_is_cached_in_transaction type ids ids' w r w1 :
  (0 < tip w)%nat ->
  ks_get type ids w = (Ok r, w1) ->
  (forall id, id ∈ ids' -> is_Some (r !! id)) ->
  exists r',
    ks_get type ids' w1 = (Ok r', w1)
    /\ forall id, id ∈ ids' -> r' !! id = r !! id.
Proof.
  intros Hin Hg Hall.
  destruct (ks_get_in_tx_result type ids w r w1 Hin Hg) as (-> & Ht).
  assert (Hin1 : (0 < tip w1)%nat) by lia.
  exists (collect (cached_of type w1) ids'). split.
  - apply ks_get_all_cached; [exact Hin1|].
    intros id Hid. destruct (Hall id Hid) as [v Hv].
    apply collect_lookup_Some in Hv. destruct Hv as (Hv & _). eauto.
  - intros id Hid. destruct (Hall id Hid) as [v Hv]. rewrite Hv.
    rewrite collect_lookup in Hv. rewrite collect_lookup.
    rewrite bool_decide_eq_true_2 by exact Hid.
    case_bool_decide; [exact Hv|discriminate].
Qed.

(** X3. An id the wrapped store has no entry for is not remembered as
    missing: every [get] of it inside the transaction asks the store
    again. *)
Theorem miss_is_fetched_again type id w res s1 :
  (0 < tip w)%nat ->
  cached_of type w !! id = None ->
  store_get type [id] (backing w) = (Ok res, s1) ->
  res !! id = None ->
  exists w1 r2 w2,
    ks_get type [id] w = (Ok ∅, w1)
    /\ ks_get type [id] w1 = (r2, w2)
    /\ calls w2 = calls w ++ [CallGet type [id]; CallGet type [id]].
Proof.
  intros Hin Hc Hs Hres.
  assert (Hfirst : exists w1,
             ks_get type [id] w = (Ok ∅, w1)
             /\ tip w1 = tip w
             /\ cached_of type w1 !! id = None
             /\ calls w1 = calls w ++ [CallGet type [id]]).
  { unfold ks_get. rewrite (isInTransaction_true w Hin). cbv zeta.
    fold (cached_of type w). cbn [List.filter].
    rewrite (bool_decide_eq_true_2 _ Hc).
    unfold state_get. cbn [backing with_tx]. rewrite Hs. simpl.
    assert (Hmiss : (res ∪ default ∅ (transactionCache (tx w) !! type)) !! id = None).
    { rewrite lookup_union, Hres. unfold cached_of in Hc. rewrite Hc. reflexivity. }
    eexists. split; [|split; [|split]].
    - unfold collect. cbn [fold_left]. rewrite lookup_insert_eq. simpl.
      rewrite Hmiss. reflexivity.
    - reflexivity.
    - unfold cached_of. simpl. rewrite lookup_insert_eq. exact Hmiss.
    - reflexivity. }
  destruct Hfirst as (w1 & Hg1 & Ht1 & Hc1 & Hcalls1).
  exists w1. destruct (ks_get type [id] w1) as [r2 w2] eqn:Hg2.
  exists r2, w2. split; [exact Hg1|]. split; [reflexivity|].
  revert Hg2. unfold ks_get.
  rewrite (isInTransaction_true w1) by lia. cbv zeta.
  fold (cached_of type w1). cbn [List.filter].
  rewrite (bool_decide_eq_true_2 _ Hc1).
  match goal with |- context [state_get ?t ?l ?x] =>
    destruct (state_get t l x) as [[res2|e] w0] eqn:Hg end;
    apply state_get_frame in Hg; destruct Hg as (_ & _ & Hcalls);
    intros [= <- <-]; cbn [calls with_tx] in *; rewrite Hcalls; cbn [calls with_tx];
    rewrite Hcalls1, <- app_assoc; reflexivity.
Qed.

End TransactionReads.

(* ===================================================================== *)
(** * Nesting, commit and exit                                           *)
(* ===================================================================== *)

Section TransactionDepthFacts.
Context {St Env : Type} `{SignalKeyStore St}.
Implicit Types w : World St Env.

Lemma at_depth_tip w : at_depth (tip w) w = w.
Proof. destruct w as [b c [o q tc mu n] e]. reflexivity. Qed.

Lemma tip_at_depth n w : tip (at_depth n w) = n.
Proof. reflexivity. Qed.

(** Inside a transaction the capability behaves the same at every
    depth of nesting. *)
Lemma ks_get_at_depth type ids w m :
  (0 < tip w)%nat -> (0 < m)%nat ->
  ks_get type ids (at_depth m w)
  = (fst (ks_get type ids w), at_depth m (snd (ks_get type ids w))).
Proof.
  intros Hin Hm. unfold ks_get.
  rewrite (isInTransaction_true w Hin).
  rewrite (isInTransaction_true (at_depth m w)) by exact Hm.
  cbv zeta. cbn [at_depth with_tx tx transactionCache].
  destruct (List.filter _ ids) as [|i0 rest]; [reflexivity|].
  unfold state_get. simpl.
  destruct (store_get type (i0 :: rest) (backing w)) as [[res|e] s']; reflexivity.
Qed.

Lemma ks_set_at_depth data w m :
  (0 < tip w)%nat -> (0 < m)%nat ->
  ks_set data (at_depth m w)
  = (fst (ks_set data w), at_depth m (snd (ks_set data w))).
Proof.
  intros Hin Hm. rewrite (ks_set_in_tx data w Hin).
  rewrite (ks_set_in_tx data (at_depth m w)) by exact Hm. reflexivity.
Qed.

Lemma lift_env_at_depth {X} (f : Env -> Res X * Env) w m :
  lift_env f (at_depth m w)
  = (fst (lift_env f w), at_depth m (snd (lift_env f w))).
Proof.
  unfold lift_env. cbn [at_depth with_tx env].
  destruct (f (env w)) as [r e']. reflexivity.
Qed.

Lemma tx_exit_at_depth {A} (r : Res A) w n m :
  tip w = S n -> (0 < n)%nat -> (0 < m)%nat ->
  tx_exit (r, at_depth (S m) w)
  = (fst (tx_exit (r, w)), at_depth m (snd (tx_exit (r, w)))).
Proof.
  intros Ht Hn Hm. unfold tip in Ht.
  assert (Hfin : tx_finally (at_depth (S m) w) = at_depth m (tx_finally w)).
  { unfold tx_finally. cbn [at_depth with_tx tx transactionsInProgress Nat.pred].
    rewrite Ht. cbn [Nat.pred].
    rewrite !bool_decide_eq_false_2 by lia. reflexivity. }
  destruct r as [a|e]; cbn [tx_exit fst snd].
  - cbn [at_depth with_tx tx transactionsInProgress]. rewrite Ht.
    rewrite (bool_decide_eq_false_2 (S m = 1%nat)) by lia.
    rewrite (bool_decide_eq_false_2 (S n = 1%nat)) by lia. cbn [andb].
    fold (at_depth (S m) w). rewrite Hfin. reflexivity.
  - rewrite Hfin. reflexivity.
Qed.

Lemma run_at_depth {A} (p : prog Env A) :
  forall w m,
    (0 < tip w)%nat -> (0 < m)%nat ->
    run p (at_depth m w) = (fst (run p w), at_depth m (snd (run p w))).
Proof.
  induction p as [A a|A e|A type ids k IH|A data k IH|A B work IHw k IHk
                 |A B body IHb handler IHh k IHk|A X f k IH];
    intros w m Hin Hm; cbn [run].
  - reflexivity.
  - reflexivity.
  - unfold bind. rewrite (ks_get_at_depth type ids w m Hin Hm).
    destruct (ks_get type ids w) as [[d|e] w1] eqn:Hg; cbn [fst snd]; [|reflexivity].
    apply IH; [|exact Hm].
    destruct (ks_get_in_tx _ _ _ _ _ Hin Hg) as (Ht & _). lia.
  - unfold bind. rewrite (ks_set_at_depth data w m Hin Hm).
    rewrite (ks_set_in_tx data w Hin). cbn [fst snd].
    apply IH; [exact Hin|exact Hm].
  - unfold bind, ks_transaction.
    change (tx_enter (at_depth m w)) with (at_depth (S m) (tx_enter w)).
    rewrite (IHw (tx_enter w) (S m)) by (rewrite ?tip_enter; lia).
    destruct (run work (tx_enter w)) as [rb w1] eqn:Hw. cbn [fst snd].
    assert (Ht1 : tip w1 = S (tip w)).
    { apply run_in_tx in Hw; [|rewrite tip_enter; lia].
      destruct Hw as (Ht & _). rewrite Ht. apply tip_enter. }
    rewrite (tx_exit_at_depth rb w1 (tip w) m Ht1 Hin Hm).
    destruct (tx_exit (rb, w1)) as [[b|e] w2] eqn:Hx; cbn [fst snd]; [|reflexivity].
    apply IHk; [|exact Hm].
    assert (Hfin : tip w2 = tip w).
    { destruct (tx_finally_nested w1) as (Hf & _); [lia|].
      destruct rb as [b'|e']; simpl in Hx.
      - rewrite (bool_decide_eq_false_2 (transactionsInProgress (tx w1) = 1%nat))
          in Hx by (unfold tip in *; lia).
        simpl in Hx. injection Hx as _ <-. rewrite Hf, Ht1. reflexivity.
      - discriminate Hx. }
    lia.
  - rewrite (IHb w m Hin Hm).
    destruct (run body w) as [[b|e] w1] eqn:Hb; cbn [fst snd];
      apply run_in_tx in Hb; try exact Hin; destruct Hb as (Ht & _).
    + apply IHk; [lia|exact Hm].
    + rewrite (IHh e w1 m) by lia.
      destruct (run (handler e) w1) as [[b|e'] w2] eqn:Hh; cbn [fst snd];
        [|reflexivity].
      apply run_in_tx in Hh; [|lia]. destruct Hh as (Ht2 & _).
      apply IHk; [lia|exact Hm].
  - unfold bind. rewrite (lift_env_at_depth f w m).
    destruct (lift_env f w) as [[x|e] w1] eqn:Hl; cbn [fst snd]; [|reflexivity].
    apply lift_env_frame in Hl. destruct Hl as (Htx & _).
    apply IH; [unfold tip; rewrite Htx; exact Hin|exact Hm].
Qed.

(** X4. Transactions nest flat: a transaction that does nothing but run
    another transaction has the result and the effects of that
    transaction alone, whatever its body.  The inner exit neither
    commits nor clears anything. *)
Theorem nested_transaction_is_flat {A} (work : prog Env A) w :
  tip w = 0%nat ->
  ks_transaction (ks_transaction (run work)) w = ks_transaction (run work) w.
Proof.
  intros Hz. unfold ks_transaction at 1 2.
  assert (Henter : tx_enter (tx_enter w) = at_depth 2 (tx_enter w)).
  { unfold tx_enter, at_depth, with_tx. simpl. unfold tip in Hz. rewrite Hz.
    reflexivity. }
  rewrite Henter.
  rewrite (run_at_depth work (tx_enter w) 2) by (rewrite ?tip_enter; lia).
  destruct (run work (tx_enter w)) as [r w2] eqn:Hw. cbn [fst snd].
  destruct (work_returns_outermost work w r w2 Hz Hw) as (Ht2 & _).
  assert (Hinner : tx_exit (r, at_depth 2 w2) = (r, w2)).
  { assert (Hfin : tx_finally (at_depth 2 w2) = w2).
    { transitivity (at_depth 1 w2); [|rewrite <- Ht2; apply at_depth_tip].
      unfold tx_finally. cbn [at_depth with_tx tx transactionsInProgress Nat.pred].
      rewrite bool_decide_eq_false_2 by lia. reflexivity. }
    destruct r as [a|e]; cbn [tx_exit].
    - cbn [at_depth with_tx tx transactionsInProgress].
      rewrite bool_decide_eq_false_2 by lia. cbn [andb].
      fold (at_depth 2 w2). rewrite Hfin. reflexivity.
    - rewrite Hfin. reflexivity. }
  rewrite Hinner. unfold ks_transaction. rewrite Hw. reflexivity.
Qed.

Lemma commit_accepts_after k : forall tries w s',
  (k < tries)%nat ->
  accepts_after k (mutations (tx w)) (backing w) s' ->
  tx (commit tries w) = tx w
  /\ env (commit tries w) = env w
  /\ backing (commit tries w) = s'
  /\ calls (commit tries w)
     = calls w ++ replicate (S k) (CallSet (mutations (tx w))).
Proof.
  induction k as [|k IH]; intros tries w s' Hlt Hacc;
    (destruct tries as [|tries]; [lia|]); cbn [commit accepts_after] in *.
  - unfold state_set. rewrite Hacc. simpl. auto.
  - destruct Hacc as (e & s1 & Hs & Hacc). unfold state_set. rewrite Hs.
    match goal with |- context [commit tries ?x] => set (w1 := x) end.
    destruct (IH tries w1 s') as (Htx & Henv & Hb & Hc); [lia|exact Hacc|].
    rewrite Htx, Henv, Hb, Hc. simpl. rewrite <- app_assoc. auto.
Qed.

(** X5. The commit of the outermost transaction stops at the first
    [set] the wrapped store accepts: when the store rejects the
    mutations [k] times, with [k] below [maxCommitRetries], and then
    accepts them, [set] is called exactly [k + 1] times with the same
    mutations, the transaction resolves with the result of its body,
    and the capability is back in its initial state. *)
Theorem commit_retries_until_accepted {A} (work : prog Env A) w r w2 k s' :
  tip w = 0%nat ->
  run work (tx_enter w) = (Ok r, w2) ->
  mutations (tx w2) ≠ ∅ ->
  (k < maxCommitRetries (opts (tx w)))%nat ->
  accepts_after k (mutations (tx w2)) (backing w2) s' ->
  exists w3,
    ks_transaction (run work) w = (Ok r, w3)
    /\ calls w3 = calls w2 ++ replicate (S k) (CallSet (mutations (tx w2)))
    /\ backing w3 = s'
    /\ env w3 = env w2
    /\ tx w3 = tx_init (opts (tx w)).
Proof.
  intros Hz Hw Hne Hk Hacc.
  destruct (work_returns_outermost work w (Ok r) w2 Hz Hw) as (Ht2 & Ho2 & _).
  unfold ks_transaction. rewrite Hw. cbn [tx_exit].
  rewrite bool_decide_eq_true_2 by exact Ht2.
  rewrite bool_decide_eq_true_2 by exact Hne. cbn [andb].
  rewrite Ho2.
  destruct (commit_accepts_after k (maxCommitRetries (opts (tx w))) w2 s' Hk Hacc)
    as (Htx & Henv & Hb & Hc).
  set (w2' := commit _ w2) in *.
  assert (Ht' : tip w2' = 1%nat) by (unfold tip; rewrite Htx; exact Ht2).
  destruct (tx_finally_outermost w2' Ht') as (Hf1 & Hf2 & Hf3 & Hf4).
  eexists. split; [reflexivity|].
  rewrite Hf2, Hf3, Hf4, Hf1, Hc, Hb, Henv, Htx, Ho2. auto.
Qed.

(** X6. Every outermost transaction, whatever its body does and
    however it ends (result, error, commit accepted or given up),
    leaves the capability in its initial state: no open transaction, an
    empty transaction cache, no pending mutations. *)
Theorem outermost_transaction_resets {A} (work : prog Env A) w r w' :
  tip w = 0%nat ->
  ks_transaction (run work) w = (r, w') ->
  tx w' = tx_init (opts (tx w)).
Proof.
  intros Hz. unfold ks_transaction.
  destruct (run work (tx_enter w)) as [r2 w2] eqn:Hw.
  destruct (work_returns_outermost work w r2 w2 Hz Hw) as (Ht2 & Ho2 & _).
  destruct r2 as [a|e]; cbn [tx_exit].
  - match goal with |- context [tx_finally ?x] => set (w3 := x) end.
    assert (Htx3 : tx w3 = tx w2).
    { unfold w3. destruct (_ && _); [|reflexivity].
      destruct (commit_calls (maxCommitRetries (opts (tx w2))) w2)
        as (n & _ & _ & _ & Htx). exact Htx. }
    assert (Ht3 : tip w3 = 1%nat) by (unfold tip; rewrite Htx3; exact Ht2).
    destruct (tx_finally_outermost w3 Ht3) as (Hf & _).
    intros [= <- <-]. rewrite Hf, Htx3, Ho2. reflexivity.
  - destruct (tx_finally_outermost w2 Ht2) as (Hf & _).
    intros [= <- <-]. rewrite Hf, Ho2. reflexivity.
Qed.

Lemma entry_spread_into data old type id :
  entry (spread_into data old) type id
  = match entry data type id with
    | Some v => Some v
    | None => entry old type id
    end.
Proof.
  unfold entry. rewrite spread_into_lookup.
  destruct (data !! type) as [d|]; cbn; [|reflexivity].
  rewrite lookup_union. destruct (d !! id) as [v|] eqn:Hd.
  - destruct (old !! type) as [o|]; cbn; [destruct (o !! id)|]; reflexivity.
  - destruct (old !! type) as [o|]; cbn.
    + destruct (o !! id); reflexivity.
    + reflexivity.
Qed.

Lemma set_all_in_tx sets : forall w,
  (0 < tip w)%nat ->
  tip (set_all sets w) = tip w
  /\ calls (set_all sets w) = calls w
  /\ backing (set_all sets w) = backing w
  /\ forall type id,
       entry (mutations (tx (set_all sets w))) type id
       = last_written sets type id (entry (mutations (tx w)) type id)
       /\ entry (transactionCache (tx (set_all sets w))) type id
          = last_written sets type id (entry (transactionCache (tx w)) type id).
Proof.
  induction sets as [|data sets IH]; intros w Hin.
  - repeat split; reflexivity.
  - unfold set_all, last_written. cbn [fold_left].
    fold (set_all sets (snd (ks_set data w))).
    rewrite (ks_set_in_tx data w Hin). cbn [snd].
    match goal with |- context [set_all sets ?x] => set (w1 := x) end.
    destruct (IH w1) as (Ht & Hc & Hb & Hent); [exact Hin|].
    split; [exact Ht|]. split; [exact Hc|]. split; [exact Hb|].
    intros type id. destruct (Hent type id) as (Hm & Hca).
    rewrite Hm, Hca. unfold w1. cbn [tx with_tx mutations transactionCache].
    rewrite !entry_spread_into. split; reflexivity.
Qed.

(** X7. In a transaction the last write wins, entry by entry: after any
    sequence of [set] calls the pending mutations and the transaction
    cache hold, for every [(type, id)], the value of the last [set]
    that named it (and what they held before if none did), and nothing
    has reached the wrapped store. *)
Theorem last_write_wins_in_transaction sets w type id :
  (0 < tip w)%nat ->
  entry (mutations (tx (set_all sets w))) type id
  = last_written sets type id (entry (mutations (tx w)) type id)
  /\ entry (transactionCache (tx (set_all sets w))) type id
     = last_written sets type id (entry (transactionCache (tx w)) type id)
  /\ calls (set_all sets w) = calls w
  /\ backing (set_all sets w) = backing w.
Proof.
  intros Hin. destruct (set_all_in_tx sets w Hin) as (_ & Hc & Hb & Hent).
  destruct (Hent type id) as (Hm & Hca). auto.
Qed.

End TransactionDepthFacts.

Lemma set_then_get_in_transaction_witness :
  exists r,
    ks_get "pre-key" ["8"] (snd (ks_set write_8 holding_7))
    = (Ok r, snd (ks_set write_8 holding_7))
    /\ r !! "8" = Some pair_7.
Proof.
  destruct (set_then_get_in_transaction "pre-key" {[ "8" := pair_7 ]} write_8 ["8"]
              holding_7) as (r & _ & _ & Hg & Hr).
  - vm_compute. lia.
  - reflexivity.
  - intros id Hid. apply list_elem_of_singleton in Hid. subst id.
    exists pair_7. reflexivity.
  - exists r. split; [exact Hg|]. rewrite Hr. reflexivity.
Defined.

Lemma get_is_cached_in_transaction_witness :
  exists r',
    ks_get "pre-key" ["7"] (snd (ks_get "pre-key" ["7"] holding_7))
    = (Ok r', snd (ks_get "pre-key" ["7"] holding_7))
    /\ r' !! "7" = Some pair_7.
Proof.
  destruct (get_is_cached_in_transaction "pre-key" ["7"] ["7"] holding_7
              {[ "7" := pair_7 ]} (snd (ks_get "pre-key" ["7"] holding_7)))
    as (r' & Hg & Hr).
  - vm_compute. lia.
  - vm_compute. reflexivity.
  - intros id Hid. apply list_elem_of_singleton in Hid. subst id.
    exists pair_7. reflexivity.
  - exists r'. split; [exact Hg|]. rewrite Hr by apply list_elem_of_here.
    reflexivity.
Defined.

Lemma miss_is_fetched_again_witness :
  exists w1 r2 w2,
    ks_get "pre-key" ["9"] holding_7 = (Ok ∅, w1)
    /\ ks_get "pre-key" ["9"] w1 = (r2, w2)
    /\ calls w2 = calls holding_7 ++ [CallGet "pre-key" ["9"]; CallGet "pre-key" ["9"]].
Proof.
  apply (miss_is_fetched_again "pre-key" "9" holding_7 ∅ (backing holding_7)).
  - vm_compute. lia.
  - reflexivity.
  - vm_compute. reflexivity.
  - reflexivity.
Defined.

Lemma nested_transaction_is_flat_witness :
  ks_transaction (ks_transaction (run writing_work)) plain_world
  = ks_transaction (run writing_work) plain_world.
Proof. apply nested_transaction_is_flat. reflexivity. Defined.

Lemma commit_retries_until_accepted_witness :
  exists w3,
    ks_transaction (run writing_work) twice_rejecting_world = (Ok tt, w3)
    /\ set_calls (calls w3)
       = replicate 3 (CallSet {[ "pre-key" := {[ "1" := VItem (PreKey sample_pair) ]} ]})
    /\ entry (entries (backing w3)) "pre-key" "1" = Some (VItem (PreKey sample_pair)).
Proof.
  destruct (commit_retries_until_accepted writing_work twice_rejecting_world tt
              (snd (run writing_work (tx_enter twice_rejecting_world))) 2
              (mem_store {[ "pre-key" := {[ "1" := VItem (PreKey sample_pair) ]} ]} 0 0))
    as (w3 & Hr & Hc & Hb & _).
  - reflexivity.
  - vm_compute. reflexivity.
  - intros Heq. vm_compute in Heq. discriminate Heq.
  - vm_compute. lia.
  - simpl. do 2 eexists. split; [vm_compute; reflexivity|].
    do 2 eexists. split; [vm_compute; reflexivity|].
    vm_compute. reflexivity.
  - exists w3. split; [exact Hr|]. rewrite Hc, Hb. split; vm_compute; reflexivity.
Defined.

Lemma outermost_transaction_resets_witness :
  tx (snd (ks_transaction (run throwing_work) plain_world)) = tx_init default_opts.
Proof.
  apply (outermost_transaction_resets throwing_work plain_world
           (fst (ks_transaction (run throwing_work) plain_world))).
  - reflexivity.
  - apply surjective_pairing.
Defined.

Lemma last_write_wins_in_transaction_witness :
  entry (mutations (tx (set_all [write_8; delete_8] holding_7))) "pre-key" "8"
  = Some VNull
  /\ calls (set_all [write_8; delete_8] holding_7) = [].
Proof.
  destruct (last_write_wins_in_transaction [write_8; delete_8] holding_7 "pre-key" "8")
    as (Hm & _ & Hc & _).
  - vm_compute. lia.
  - split; [rewrite Hm; reflexivity|exact Hc].
Defined.

(* ===================================================================== *)
(** * The cacheable key store                                            *)
(* ===================================================================== *)

Lemma getUniqueId_nil id : getUniqueId "" id = String "."%char id.
Proof. reflexivity. Qed.

Lemma getUniqueId_cons c type id :
  getUniqueId (String c type) id = String c (getUniqueId type id).
Proof. reflexivity. Qed.

Lemma getUniqueId_same_type type id1 id2 :
  getUniqueId type id1 = getUniqueId type id2 -> id1 = id2.
Proof.
  induction type as [|c t IH]; rewrite ?getUniqueId_nil, ?getUniqueId_cons;
    intros Heq.
  - congruence.
  - apply IH. congruence.
Qed.

Lemma getUniqueId_cut t1 : forall t2 id1 id2,
  dot_free t1 = true -> dot_free t2 = true ->
  getUniqueId t1 id1 = getUniqueId t2 id2 -> t1 = t2 /\ id1 = id2.
Proof.
  induction t1 as [|c1 t1 IH]; intros [|c2 t2] id1 id2 H1 H2;
    rewrite ?getUniqueId_nil, ?getUniqueId_cons; intros Heq.
  - split; congruence.
  - exfalso. cbn in H2. injection Heq as Hc _. subst c2.
    rewrite Ascii.eqb_refl in H2. discriminate.
  - exfalso. cbn in H1. injection Heq as Hc _. subst c1.
    rewrite Ascii.eqb_refl in H1. discriminate.
  - cbn in H1, H2. apply andb_true_iff in H1, H2.
    injection Heq as Hc Ht. destruct (IH t2 id1 id2) as (-> & ->); try tauto.
    subst. auto.
Qed.

(** X8. Cache keys do not collide: for types without a dot (as all
    types of the key store are), [getUniqueId] maps different
    [(type, id)] pairs to different keys. *)
Theorem getUniqueId_injective t1 t2 id1 id2 :
  dot_free t1 = true -> dot_free t2 = true ->
  getUniqueId t1 id1 = getUniqueId t2 id2 ->
  t1 = t2 /\ id1 = id2.
Proof. apply getUniqueId_cut. Qed.

(** With a dot in the type two different entries can share a key. *)
Example getUniqueId_collision :
  getUniqueId "a.b" "c" = getUniqueId "a" "b.c".
Proof. reflexivity. Qed.

Lemma getUniqueId_injective_witness :
  "sender-key" = "sender-key" /\ "x@g.us::1" = "x@g.us::1".
Proof.
  apply (getUniqueId_injective "sender-key" "sender-key" "x@g.us::1" "x@g.us::1");
    reflexivity.
Defined.

Lemma fromCache_spec c type ids : forall data fetch,
  snd (fromCache c type ids data fetch) = fetch ++ cacheMisses c type ids
  /\ forall id,
       fst (fromCache c type ids data fetch) !! id
       = if bool_decide (id ∈ ids)
         then match c !! getUniqueId type id with
              | Some v => Some v
              | None => data !! id
              end
         else data !! id.
Proof.
  induction ids as [|i ids IH]; intros data fetch.
  - cbn. rewrite app_nil_r. split; [reflexivity|]. intros id.
    rewrite bool_decide_eq_false_2 by apply not_elem_of_nil. reflexivity.
  - cbn [fromCache cacheMisses List.filter].
    destruct (c !! getUniqueId type i) as [item|] eqn:Hi.
    + rewrite bool_decide_eq_false_2 by discriminate.
      destruct (IH (<[i := item]> data) fetch) as (Hf & Hd).
      split; [exact Hf|]. intros id. rewrite Hd.
      destruct (decide (id = i)) as [->|Hne].
      * rewrite Hi, lookup_insert_eq.
        rewrite (bool_decide_eq_true_2 (i ∈ i :: ids)) by apply list_elem_of_here.
        destruct (bool_decide (i ∈ ids)); reflexivity.
      * rewrite lookup_insert_ne by congruence.
        apply bool_decide_ext_if. rewrite elem_of_cons.
        split; [auto|]. intros [?|?]; [contradiction|assumption].
    + rewrite bool_decide_eq_true_2 by reflexivity.
      destruct (IH data (fetch ++ [i])) as (Hf & Hd).
      split; [rewrite Hf, <- app_assoc; reflexivity|]. intros id. rewrite Hd.
      destruct (decide (id = i)) as [->|Hne].
      * rewrite Hi.
        rewrite (bool_decide_eq_true_2 (i ∈ i :: ids)) by apply list_elem_of_here.
        destruct (bool_decide (i ∈ ids)); reflexivity.
      * apply bool_decide_ext_if. rewrite elem_of_cons.
        split; [auto|]. intros [?|?]; [contradiction|assumption].
Qed.

Lemma absorbFetched_spec type fetched ids : forall data c,
  (forall id,
      fst (absorbFetched type fetched ids data c) !! id
      = if bool_decide (id ∈ ids)
        then match kept fetched id with Some v => Some v | None => data !! id end
        else data !! id)
  /\ (forall id,
         snd (absorbFetched type fetched ids data c) !! getUniqueId type id
         = if bool_decide (id ∈ ids)
           then match kept fetched id with
                | Some v => Some v
                | None => c !! getUniqueId type id
                end
           else c !! getUniqueId type id)
  /\ (forall k, (forall id, id ∈ ids -> k <> getUniqueId type id) ->
                snd (absorbFetched type fetched ids data c) !! k = c !! k).
Proof.
  induction ids as [|i ids IH]; intros data c.
  - cbn. repeat split; intros; try reflexivity;
      rewrite bool_decide_eq_false_2 by apply not_elem_of_nil; reflexivity.
  - cbn [absorbFetched].
    assert (Hstep : forall data' c',
               (forall id, data' !! id
                           = if bool_decide (id = i)
                             then match kept fetched id with
                                  | Some v => Some v | None => data !! id end
                             else data !! id) ->
               (forall id, c' !! getUniqueId type id
                           = if bool_decide (id = i)
                             then match kept fetched id with
                                  | Some v => Some v
                                  | None => c !! getUniqueId type id end
                             else c !! getUniqueId type id) ->
               (forall k, k <> getUniqueId type i -> c' !! k = c !! k) ->
               (forall id,
                   fst (absorbFetched type fetched ids data' c') !! id
                   = if bool_decide (id ∈ i :: ids)
                     then match kept fetched id with
                          | Some v => Some v | None => data !! id end
                     else data !! id)
               /\ (forall id,
                      snd (absorbFetched type fetched ids data' c') !! getUniqueId type id
                      = if bool_decide (id ∈ i :: ids)
                        then match kept fetched id with
                             | Some v => Some v
                             | None => c !! getUniqueId type id
                             end
                        else c !! getUniqueId type id)
               /\ (forall k, (forall id, id ∈ i :: ids -> k <> getUniqueId type id) ->
                             snd (absorbFetched type fetched ids data' c') !! k = c !! k)).
    { intros data' c' Hd Hc Hk. destruct (IH data' c') as (H1 & H2 & H3).
      split; [|split].
      - intros id. rewrite H1, Hd.
        destruct (decide (id = i)) as [->|Hne].
        + rewrite (bool_decide_eq_true_2 (i = i)) by reflexivity.
          rewrite (bool_decide_eq_true_2 (i ∈ i :: ids)) by apply list_elem_of_here.
          destruct (bool_decide (i ∈ ids)); destruct (kept fetched i); reflexivity.
        + rewrite (bool_decide_eq_false_2 (id = i)) by exact Hne.
          apply bool_decide_ext_if. rewrite elem_of_cons.
          split; [auto|]. intros [?|?]; [contradiction|assumption].
      - intros id. rewrite H2, Hc.
        destruct (decide (id = i)) as [->|Hne].
        + rewrite (bool_decide_eq_true_2 (i = i)) by reflexivity.
          rewrite (bool_decide_eq_true_2 (i ∈ i :: ids)) by apply list_elem_of_here.
          destruct (bool_decide (i ∈ ids)); destruct (kept fetched i); reflexivity.
        + rewrite (bool_decide_eq_false_2 (id = i)) by exact Hne.
          apply bool_decide_ext_if. rewrite elem_of_cons.
          split; [auto|]. intros [?|?]; [contradiction|assumption].
      - intros k Hall. rewrite H3.
        + apply Hk. apply Hall. apply list_elem_of_here.
        + intros id Hid. apply Hall. apply list_elem_of_further. exact Hid. }
    unfold kept in Hstep |- *.
    destruct (fetched !! i) as [item|] eqn:Hi; [destruct (truthy item) eqn:Ht|].
    + apply Hstep.
      * intros id. case_bool_decide as Hid.
        -- subst id. rewrite Hi, Ht. apply lookup_insert_eq.
        -- apply lookup_insert_ne. congruence.
      * intros id. case_bool_decide as Hid.
        -- subst id. rewrite Hi, Ht. apply lookup_insert_eq.
        -- apply lookup_insert_ne. intros Heq.
           apply getUniqueId_same_type in Heq. congruence.
      * intros k Hk. apply lookup_insert_ne. congruence.
    + apply Hstep; [| |reflexivity]; intros id; case_bool_decide as Hid;
        try reflexivity; subst id; rewrite Hi, Ht; reflexivity.
    + apply Hstep; [| |reflexivity]; intros id; case_bool_decide as Hid;
        try reflexivity; subst id; rewrite Hi; reflexivity.
Qed.

Section CacheableFacts.
Context {St : Type} `{SignalKeyStore St}.
Implicit Types s : Cacheable St.

(** [get] taken apart: served from the cache alone, or completed by
    one call of the wrapped store. *)
Lemma cacheable_get_inv type ids s :
  let misses := cacheMisses (cache s) type ids in
  let data := fst (fromCache (cache s) type ids ∅ []) in
  (misses = [] /\ cacheable_get type ids s = (Ok data, s))
  \/ (misses <> []
      /\ exists rf st,
           store_get type misses (inner s) = (rf, st)
           /\ cacheable_get type ids s
              = match rf with
                | Err e =>
                    (Err e, {| cache := cache s; inner := st;
                               inner_calls := inner_calls s ++ [CallGet type misses] |})
                | Ok fetched =>
                    (Ok (fst (absorbFetched type fetched misses data (cache s))),
                     {| cache := snd (absorbFetched type fetched misses data (cache s));
                        inner := st;
                        inner_calls := inner_calls s ++ [CallGet type misses] |})
                end).
Proof.
  cbv zeta. unfold cacheable_get.
  destruct (fromCache_spec (cache s) type ids ∅ []) as (Hf & _).
  destruct (fromCache (cache s) type ids ∅ []) as [data fetch] eqn:Hfc.
  cbn [fst snd] in *. rewrite app_nil_l in Hf. subst fetch.
  destruct (cacheMisses (cache s) type ids) as [|m ms] eqn:Hm.
  - left. auto.
  - right. split; [discriminate|]. unfold inner_get.
    destruct (store_get type (m :: ms) (inner s)) as [[fetched|e] st] eqn:Hs.
    + exists (Ok fetched), st. split; [reflexivity|]. cbn [cache inner inner_calls].
      destruct (absorbFetched type fetched (m :: ms) data (cache s)); reflexivity.
    + exists (Err e), st. split; reflexivity.
Qed.

Lemma elem_of_cacheMisses c type ids id :
  id ∈ cacheMisses c type ids <-> id ∈ ids /\ c !! getUniqueId type id = None.
Proof.
  unfold cacheMisses. rewrite list_elem_of_In, filter_In, <- list_elem_of_In.
  rewrite bool_decide_eq_true. reflexivity.
Qed.

Lemma cacheable_get_asks_for_misses_only_aux type ids s :
  inner_calls (snd (cacheable_get type ids s))
  = inner_calls s ++ oneGet type (cacheMisses (cache s) type ids)
  /\ (cacheMisses (cache s) type ids = [] ->
      snd (cacheable_get type ids s) = s
      /\ is_ok (fst (cacheable_get type ids s)) = true).
Proof.
  destruct (cacheable_get_inv type ids s) as [(Hm & Hg)|(Hm & rf & st & Hs & Hg)];
    rewrite Hg.
  - rewrite Hm. cbn. rewrite app_nil_r. auto.
  - split; [|intros Hnil; contradiction].
    destruct (cacheMisses (cache s) type ids) as [|m ms]; [contradiction|].
    destruct rf; reflexivity.
Qed.

(** X9. [get] of the cacheable store calls the wrapped store at most
    once, for exactly the ids the cache holds nothing for (in the order
    asked), and not at all when the cache holds them all; in that case
    nothing changes. *)
Theorem cacheable_get_asks_for_misses_only type ids s :
  inner_calls (snd (cacheable_get type ids s))
  = inner_calls s ++ oneGet type (cacheMisses (cache s) type ids)
  /\ (cacheMisses (cache s) type ids = [] ->
      snd (cacheable_get type ids s) = s
      /\ is_ok (fst (cacheable_get type ids s)) = true).
Proof. apply cacheable_get_asks_for_misses_only_aux. Qed.

(** What [get] returns and what it leaves in the cache. *)
Lemma cacheable_get_view type ids s r s' :
  cacheable_get type ids s = (Ok r, s') ->
  exists fetched,
    (cacheMisses (cache s) type ids = []
     \/ store_get type (cacheMisses (cache s) type ids) (inner s)
        = (Ok fetched, inner s'))
    /\ (forall id, id ∈ ids ->
          r !! id = match cache s !! getUniqueId type id with
                    | Some v => Some v
                    | None => kept fetched id
                    end)
    /\ (forall id, id ∉ ids -> r !! id = None)
    /\ (forall id, id ∈ ids -> cache s' !! getUniqueId type id = r !! id)
    /\ (forall k, (forall id, id ∈ ids -> k <> getUniqueId type id) ->
                  cache s' !! k = cache s !! k).
Proof.
  intros Hg.
  destruct (fromCache_spec (cache s) type ids ∅ []) as (_ & Hd).
  destruct (cacheable_get_inv type ids s) as [(Hm & Hg')|(Hm & rf & st & Hs & Hg')];
    rewrite Hg' in Hg.
  - injection Hg as <- <-. exists ∅. split; [left; exact Hm|].
    assert (Hall : forall id, id ∈ ids -> is_Some (cache s !! getUniqueId type id)).
    { intros id Hid. destruct (cache s !! getUniqueId type id) eqn:Hc; [eauto|].
      exfalso. assert (Hin : id ∈ cacheMisses (cache s) type ids)
        by (apply elem_of_cacheMisses; auto).
      rewrite Hm in Hin. apply elem_of_nil in Hin. exact Hin. }
    split; [|split; [|split]].
    + intros id Hid. rewrite Hd, bool_decide_eq_true_2 by exact Hid.
      destruct (Hall id Hid) as [v ->]. reflexivity.
    + intros id Hid. rewrite Hd, bool_decide_eq_false_2 by exact Hid.
      apply lookup_empty.
    + intros id Hid. rewrite Hd, bool_decide_eq_true_2 by exact Hid.
      destruct (Hall id Hid) as [v ->]. reflexivity.
    + reflexivity.
  - destruct rf as [fetched|e]; [|discriminate].
    injection Hg as <- <-. cbn [cache inner].
    set (misses := cacheMisses (cache s) type ids) in *.
    set (data := fst (fromCache (cache s) type ids ∅ [])) in *.
    destruct (absorbFetched_spec type fetched misses data (cache s))
      as (Ha & Hc & Hk).
    exists fetched. split; [right; exact Hs|].
    assert (Hr : forall id, id ∈ ids ->
                   fst (absorbFetched type fetched misses data (cache s)) !! id
                   = match cache s !! getUniqueId type id with
                     | Some v => Some v
                     | None => kept fetched id
                     end).
    { intros id Hid. rewrite Ha. unfold data. rewrite Hd.
      rewrite (bool_decide_eq_true_2 (id ∈ ids)) by exact Hid.
      destruct (cache s !! getUniqueId type id) as [v|] eqn:Hcv.
      - rewrite bool_decide_eq_false_2; [reflexivity|].
        intros Hin. apply elem_of_cacheMisses in Hin. destruct Hin as (_ & Hn).
        congruence.
      - rewrite bool_decide_eq_true_2 by (apply elem_of_cacheMisses; auto).
        rewrite lookup_empty. destruct (kept fetched id); reflexivity. }
    split; [exact Hr|]. split; [|split].
    + intros id Hid. rewrite Ha. unfold data. rewrite Hd.
      rewrite (bool_decide_eq_false_2 (id ∈ ids)) by exact Hid.
      rewrite bool_decide_eq_false_2; [apply lookup_empty|].
      intros Hin. apply elem_of_cacheMisses in Hin. tauto.
    + intros id Hid. rewrite Hc, (Hr id Hid).
      destruct (cache s !! getUniqueId type id) as [v|] eqn:Hcv.
      * rewrite bool_decide_eq_false_2; [reflexivity|].
        intros Hin. apply elem_of_cacheMisses in Hin. destruct Hin as (_ & Hn).
        congruence.
      * rewrite bool_decide_eq_true_2 by (apply elem_of_cacheMisses; auto).
        destruct (kept fetched id); reflexivity.
    + intros k Hall. apply Hk. intros id Hid. apply Hall.
      apply elem_of_cacheMisses in Hid. tauto.
Qed.

(** X10. What [get] of the cacheable store returns: for every id asked
    the cached item if there is one (a cached [null] included), else
    the item the wrapped store returned if it is truthy; nothing for
    other ids.  Afterwards the cache holds, for the ids asked, exactly
    what was returned, and is unchanged elsewhere. *)
Theorem cacheable_get_returns_cache_view type ids s r s' :
  cacheable_get type ids s = (Ok r, s') ->
  exists fetched,
    (cacheMisses (cache s) type ids = []
     \/ store_get type (cacheMisses (cache s) type ids) (inner s)
        = (Ok fetched, inner s'))
    /\ (forall id, id ∈ ids ->
          r !! id = match cache s !! getUniqueId type id with
                    | Some v => Some v
                    | None => kept fetched id
                    end)
    /\ (forall id, id ∉ ids -> r !! id = None)
    /\ (forall id, id ∈ ids -> cache s' !! getUniqueId type id = r !! id)
    /\ (forall k, (forall id, id ∈ ids -> k <> getUniqueId type id) ->
                  cache s' !! k = cache s !! k).
Proof. apply cacheable_get_view. Qed.

(** X11. Once [get] has returned, a second [get] of the same ids asks
    the wrapped store only for the ids the first one returned nothing
    for, and for none if it returned them all. *)
Theorem cacheable_get_again_asks_for_the_rest type ids s r s' :
  cacheable_get type ids s = (Ok r, s') ->
  inner_calls (snd (cacheable_get type ids s'))
  = inner_calls s' ++ oneGet type (notReturned r ids).
Proof.
  intros Hg. destruct (cacheable_get_view type ids s r s' Hg)
    as (fetched & _ & _ & _ & Hc & _).
  destruct (cacheable_get_asks_for_misses_only_aux type ids s') as (-> & _).
  f_equal. f_equal. unfold cacheMisses, notReturned.
  clear Hg. induction ids as [|i ids IH]; [reflexivity|]. cbn [List.filter].
  rewrite (Hc i) by apply list_elem_of_here.
  rewrite IH; [reflexivity|].
  intros id Hid. apply Hc. apply list_elem_of_further. exact Hid.
Qed.

End CacheableFacts.

Lemma cacheType_lookup type (d : dict) (c : gmap string value) :
  (forall id v, d !! id = Some v ->
     map_fold (fun id item c => <[getUniqueId type id := item]> c) c d
       !! getUniqueId type id = Some v)
  /\ (forall k, (forall id, is_Some (d !! id) -> k <> getUniqueId type id) ->
        map_fold (fun id item c => <[getUniqueId type id := item]> c) c d !! k
        = c !! k).
Proof.
  apply (map_fold_weak_ind
           (fun (r : gmap string value) (m : dict) =>
              (forall id v, m !! id = Some v -> r !! getUniqueId type id = Some v)
              /\ (forall k, (forall id, is_Some (m !! id) -> k <> getUniqueId type id) ->
                    r !! k = c !! k))).
  - split; [intros id v Hm; rewrite lookup_empty in Hm; discriminate|reflexivity].
  - intros i x m r Hi (IH1 & IH2). split.
    + intros id v Hm. destruct (decide (id = i)) as [->|Hne].
      * rewrite lookup_insert_eq in Hm. injection Hm as <-. apply lookup_insert_eq.
      * rewrite lookup_insert_ne in Hm by congruence.
        rewrite lookup_insert_ne; [apply IH1; exact Hm|].
        intros Heq. apply getUniqueId_same_type in Heq. congruence.
    + intros k Hk. rewrite lookup_insert_ne.
      * apply IH2. intros id Hid. apply Hk.
        rewrite lookup_insert_ne; [exact Hid|].
        intros <-. rewrite Hi in Hid. destruct Hid as [? ?]. discriminate.
      * intros Heq. apply (Hk i); [|symmetry; exact Heq].
        rewrite lookup_insert_eq. eauto.
Qed.

Lemma cacheAll_lookup (data : dataset) (c : gmap string value) :
  dot_free_types data ->
  (forall t d id v, data !! t = Some d -> d !! id = Some v ->
     cacheAll data c !! getUniqueId t id = Some v)
  /\ (forall k, (forall t d id, data !! t = Some d -> is_Some (d !! id) ->
                                k <> getUniqueId t id) ->
        cacheAll data c !! k = c !! k).
Proof.
  unfold cacheAll.
  apply (map_fold_weak_ind
           (fun (r : gmap string value) (m : dataset) =>
              dot_free_types m ->
              (forall t d id v, m !! t = Some d -> d !! id = Some v ->
                 r !! getUniqueId t id = Some v)
              /\ (forall k, (forall t d id, m !! t = Some d -> is_Some (d !! id) ->
                                            k <> getUniqueId t id) ->
                    r !! k = c !! k))).
  - intros _. split; [intros t d id v Hm; rewrite lookup_empty in Hm; discriminate|].
    reflexivity.
  - intros t0 d0 m r Hm0 IH Hdf.
    assert (Hdfm : dot_free_types m).
    { intros t Ht. apply Hdf. rewrite lookup_insert_ne; [exact Ht|].
      intros <-. rewrite Hm0 in Ht. destruct Ht as [? ?]. discriminate. }
    destruct (IH Hdfm) as (IH1 & IH2).
    destruct (cacheType_lookup t0 d0 r) as (Ha & Hb). split.
    + intros t d id v Ht Hd. destruct (decide (t = t0)) as [->|Hne].
      * rewrite lookup_insert_eq in Ht. injection Ht as <-. apply Ha. exact Hd.
      * rewrite lookup_insert_ne in Ht by congruence.
        rewrite Hb; [eapply IH1; eauto|].
        intros id' _ Heq. apply getUniqueId_cut in Heq; [tauto| |].
        -- apply Hdf. rewrite lookup_insert_ne by congruence. eauto.
        -- apply Hdf. rewrite lookup_insert_eq. eauto.
    + intros k Hk. rewrite Hb.
      * apply IH2. intros t d id Ht Hid. apply (Hk t d id); [|exact Hid].
        rewrite lookup_insert_ne; [exact Ht|].
        intros <-. rewrite Hm0 in Ht. discriminate.
      * intros id Hid. apply (Hk t0 d0 id); [apply lookup_insert_eq|exact Hid].
Qed.

Lemma dot_free_types_checked (data : dataset) :
  bool_decide (map_Forall (fun t _ => dot_free t = true) data) = true ->
  dot_free_types data.
Proof.
  intros Hb. apply bool_decide_eq_true in Hb. intros t [d Hd]. exact (Hb t d Hd).
Qed.

Section CacheableWrites.
Context {St : Type} `{SignalKeyStore St}.
Implicit Types s : Cacheable St.

Lemma cacheable_set_frame data s :
  cache (snd (cacheable_set data s)) = cacheAll data (cache s)
  /\ inner_calls (snd (cacheable_set data s)) = inner_calls s ++ [CallSet data]
  /\ (fst (cacheable_set data s), inner (snd (cacheable_set data s)))
     = store_set data (inner s).
Proof.
  unfold cacheable_set, inner_set. cbn [inner cache inner_calls].
  destruct (store_set data (inner s)) as [r st]. auto.
Qed.

(** A [get] of ids the cache holds is answered from the cache. *)
Lemma cacheable_get_all_cached type ids s :
  (forall id, id ∈ ids -> is_Some (cache s !! getUniqueId type id)) ->
  exists r,
    cacheable_get type ids s = (Ok r, s)
    /\ forall id, r !! id = if bool_decide (id ∈ ids)
                            then cache s !! getUniqueId type id else None.
Proof.
  intros Hall.
  assert (Hm : cacheMisses (cache s) type ids = []).
  { destruct (cacheMisses (cache s) type ids) as [|m ms] eqn:Hm; [reflexivity|].
    exfalso. assert (Hin : m ∈ cacheMisses (cache s) type ids)
      by (rewrite Hm; apply list_elem_of_here).
    apply elem_of_cacheMisses in Hin. destruct Hin as (Hin & Hn).
    destruct (Hall m Hin) as [v Hv]. congruence. }
  destruct (cacheable_get_inv type ids s) as [(_ & Hg)|(Hne & _)];
    [|contradiction].
  eexists. split; [exact Hg|]. intros id.
  destruct (fromCache_spec (cache s) type ids ∅ []) as (_ & Hd). rewrite Hd.
  case_bool_decide as Hid; [|apply lookup_empty].
  destruct (Hall id Hid) as [v ->]. reflexivity.
Qed.

(** X12. [set] of the cacheable store writes the cache before it calls
    the wrapped store, once.  So whatever the wrapped store answers,
    even when it rejects the write, a [get] of the ids just set is
    served from the cache with the values set ([null] included) and
    without any call to the wrapped store. *)
Theorem cacheable_set_then_get data type (d : dict) ids s :
  dot_free_types data ->
  data !! type = Some d ->
  (forall id, id ∈ ids -> is_Some (d !! id)) ->
  inner_calls (snd (cacheable_set data s)) = inner_calls s ++ [CallSet data]
  /\ exists r,
       cacheable_get type ids (snd (cacheable_set data s))
       = (Ok r, snd (cacheable_set data s))
       /\ forall id, r !! id = if bool_decide (id ∈ ids) then d !! id else None.
Proof.
  intros Hdf Hd Hall.
  destruct (cacheable_set_frame data s) as (Hc & Hcalls & _).
  split; [exact Hcalls|].
  destruct (cacheAll_lookup data (cache s) Hdf) as (Hin & _).
  destruct (cacheable_get_all_cached type ids (snd (cacheable_set data s)))
    as (r & Hg & Hr).
  - intros id Hid. destruct (Hall id Hid) as [v Hv]. exists v.
    rewrite Hc. eapply Hin; eauto.
  - exists r. split; [exact Hg|]. intros id. rewrite Hr.
    case_bool_decide as Hid; [|reflexivity].
    destruct (Hall id Hid) as [v Hv]. rewrite Hc, Hv. eapply Hin; eauto.
Qed.

End CacheableWrites.

Section CachedTransactions.
Context {St Env : Type} `{SignalKeyStore St}.
Existing Instance Cacheable_SignalKeyStore.
Implicit Types w : World (Cacheable St) Env.

Lemma commit_fills_cache type (d : dict) id v tries : forall w,
  dot_free_types (mutations (tx w)) ->
  mutations (tx w) !! type = Some d -> d !! id = Some v ->
  cache (backing w) !! getUniqueId type id = Some v \/ (0 < tries)%nat ->
  cache (backing (commit tries w)) !! getUniqueId type id = Some v
  /\ tx (commit tries w) = tx w /\ env (commit tries w) = env w.
Proof.
  induction tries as [|n IH]; intros w Hdf Hm Hd Hor; cbn [commit].
  - destruct Hor as [Hc|Hlt]; [auto|lia].
  - unfold state_set. cbn [store_set Cacheable_SignalKeyStore].
    destruct (cacheable_set_frame (mutations (tx w)) (backing w)) as (Hc & _).
    destruct (cacheable_set (mutations (tx w)) (backing w)) as [[u|e] s1] eqn:Hs;
      cbn [snd] in Hc.
    + cbn [backing tx env]. split; [|auto]. rewrite Hc.
      destruct (cacheAll_lookup _ (cache (backing w)) Hdf) as (Hin & _).
      eapply Hin; eauto.
    + match goal with |- context [commit n ?x] => set (w1 := x) end.
      destruct (IH w1) as (Hc1 & Htx1 & Henv1); try assumption.
      * left. unfold w1. cbn [backing]. rewrite Hc.
        destruct (cacheAll_lookup _ (cache (backing w)) Hdf) as (Hin & _).
        eapply Hin; eauto.
      * auto.
Qed.

(** X13. The transaction capability over a cacheable store: when the
    outermost transaction commits, every pending mutation is in the
    cache after the first try, whether the wrapped store accepts the
    write or rejects it on every try.  After the transaction a [get]
    of such an entry returns the value the transaction set, from the
    cache, without asking the wrapped store. *)
Theorem committed_entries_stay_cached {A} (work : prog Env A) w a w2 r w3
    type (d : dict) id v :
  tip w = 0%nat ->
  (0 < maxCommitRetries (opts (tx w)))%nat ->
  run work (tx_enter w) = (Ok a, w2) ->
  dot_free_types (mutations (tx w2)) ->
  mutations (tx w2) !! type = Some d -> d !! id = Some v ->
  ks_transaction (run work) w = (r, w3) ->
  r = Ok a
  /\ cache (backing w3) !! getUniqueId type id = Some v
  /\ ks_get type [id] w3
     = (Ok {[ id := v ]},
        {| backing := backing w3; calls := calls w3 ++ [CallGet type [id]];
           tx := tx w3; env := env w3 |}).
Proof.
  intros Hz Hretries Hw Hdf Hm Hd. unfold ks_transaction. rewrite Hw.
  destruct (work_returns_outermost work w (Ok a) w2 Hz Hw) as (Ht2 & Ho2 & _).
  cbn [tx_exit]. rewrite bool_decide_eq_true_2 by exact Ht2.
  rewrite bool_decide_eq_true_2
    by (intros He; rewrite He, lookup_empty in Hm; discriminate).
  cbn [andb].
  destruct (commit_fills_cache type d id v (maxCommitRetries (opts (tx w2))) w2
              Hdf Hm Hd) as (Hc & Htx & Henv); [right; rewrite Ho2; exact Hretries|].
  set (w2' := commit _ w2) in *.
  assert (Ht' : tip w2' = 1%nat) by (unfold tip; rewrite Htx; exact Ht2).
  destruct (tx_finally_outermost w2' Ht') as (Hf1 & Hf2 & Hf3 & Hf4).
  intros [= <- <-]. split; [reflexivity|]. rewrite Hf4. split; [exact Hc|].
  unfold ks_get. rewrite isInTransaction_false by (unfold tip; rewrite Hf1; reflexivity).
  unfold state_get. cbn [store_get Cacheable_SignalKeyStore]. rewrite Hf4.
  destruct (cacheable_get_all_cached type [id] (backing w2')) as (r & Hg & Hr).
  { intros i Hi. apply list_elem_of_singleton in Hi. subst i. eauto. }
  rewrite Hg. f_equal. f_equal. apply map_eq. intros i. rewrite Hr.
  destruct (decide (i = id)) as [->|Hne].
  - rewrite bool_decide_eq_true_2 by apply list_elem_of_here.
    rewrite lookup_singleton_eq. exact Hc.
  - rewrite bool_decide_eq_false_2
      by (intros Hi; apply list_elem_of_singleton in Hi; contradiction).
    rewrite lookup_singleton_ne by congruence. reflexivity.
Qed.

End CachedTransactions.

Lemma cacheable_get_returns_cache_view_witness :
  let out := cacheable_get "pre-key" ["7"; "9"] cold_cache in
  fst out = Ok {[ "7" := pair_7 ]}
  /\ cache (snd out) !! getUniqueId "pre-key" "7" = Some pair_7
  /\ cache (snd out) !! getUniqueId "pre-key" "9" = None.
Proof.
  intros out.
  destruct (cacheable_get_returns_cache_view "pre-key" ["7"; "9"] cold_cache
              {[ "7" := pair_7 ]} (snd out)) as (fetched & _ & _ & _ & Hc & _).
  - vm_compute. reflexivity.
  - split; [vm_compute; reflexivity|].
    rewrite !Hc by (rewrite !elem_of_cons; auto).
    split; reflexivity.
Defined.

Lemma cacheable_get_again_asks_for_the_rest_witness :
  let s1 := snd (cacheable_get "pre-key" ["7"; "9"] cold_cache) in
  inner_calls (snd (cacheable_get "pre-key" ["7"; "9"] s1))
  = [CallGet "pre-key" ["7"; "9"]; CallGet "pre-key" ["9"]].
Proof.
  intros s1.
  rewrite (cacheable_get_again_asks_for_the_rest "pre-key" ["7"; "9"] cold_cache
             {[ "7" := pair_7 ]} s1).
  - reflexivity.
  - vm_compute. reflexivity.
Defined.

Lemma cacheable_set_then_get_witness :
  let out := cacheable_set pre_key_1 cache_over_rejecting in
  fst out = Err "set failed"
  /\ entries (inner (snd out)) = ∅
  /\ exists r,
       cacheable_get "pre-key" ["1"] (snd out) = (Ok r, snd out)
       /\ r !! "1" = Some (VItem (PreKey sample_pair)).
Proof.
  intros out.
  destruct (cacheable_set_then_get pre_key_1 "pre-key"
              {[ "1" := VItem (PreKey sample_pair) ]} ["1"] cache_over_rejecting)
    as (_ & r & Hg & Hr).
  - apply dot_free_types_checked. vm_compute. reflexivity.
  - reflexivity.
  - intros id Hid. apply list_elem_of_singleton in Hid. subst id.
    eexists. reflexivity.
  - split; [reflexivity|]. split; [reflexivity|].
    exists r. split; [exact Hg|]. rewrite Hr. reflexivity.
Defined.

Lemma committed_entries_stay_cached_witness :
  let out := @ks_transaction (Cacheable MemStore) unit Cacheable_SignalKeyStore unit
               (@run (Cacheable MemStore) unit Cacheable_SignalKeyStore unit writing_work)
               cached_rejecting_world in
  fst out = Ok tt
  /\ entries (inner (backing (snd out))) = ∅
  /\ cache (backing (snd out)) !! getUniqueId "pre-key" "1"
     = Some (VItem (PreKey sample_pair)).
Proof.
  intros out.
  destruct (@committed_entries_stay_cached MemStore unit _ unit writing_work
              cached_rejecting_world tt
              (snd (@run (Cacheable MemStore) unit Cacheable_SignalKeyStore unit
                      writing_work (tx_enter cached_rejecting_world)))
              (fst out) (snd out) "pre-key"
              {[ "1" := VItem (PreKey sample_pair) ]} "1"
              (VItem (PreKey sample_pair)))
    as (Hr & Hc & _).
  - reflexivity.
  - vm_compute. lia.
  - vm_compute. reflexivity.
  - apply dot_free_types_checked. vm_compute. reflexivity.
  - vm_compute. reflexivity.
  - reflexivity.
  - apply surjective_pairing.
  - split; [exact Hr|]. split; [vm_compute; reflexivity|exact Hc].
Defined.

Section CacheableCleared.
Context {St : Type} `{SignalKeyStore St}.

Lemma cacheMisses_empty type ids : cacheMisses ∅ type ids = ids.
Proof.
  unfold cacheMisses. induction ids as [|id ids IH]; [reflexivity|].
  cbn [List.filter]. rewrite lookup_empty, bool_decide_eq_true_2 by reflexivity.
  f_equal. exact IH.
Qed.

Lemma cacheable_clear_frame clear (s : Cacheable St) :
  cache (snd (cacheable_clear clear s)) = ∅
  /\ inner_calls (snd (cacheable_clear clear s)) = inner_calls s.
Proof.
  unfold cacheable_clear. cbv zeta. destruct clear as [f|]; [|auto].
  cbn [inner cache inner_calls]. destruct (f (inner s)) as [r st]. auto.
Qed.

(** X29. [clear] empties the cache whether the wrapped store has a
    [clear] of its own or not, and whether that one resolves or
    rejects.  The next [get] asks the wrapped store for every id
    requested and returns only what that store answers: nothing that
    was cached before the [clear] is served again. *)
Theorem clear_forgets_every_entry clear (s : Cacheable St) type ids :
  let s1 := snd (cacheable_clear clear s) in
  inner_calls (snd (cacheable_get type ids s1)) = inner_calls s ++ oneGet type ids
  /\ forall r s2,
       cacheable_get type ids s1 = (Ok r, s2) ->
       exists fetched,
         (ids = [] \/ store_get type ids (inner s1) = (Ok fetched, inner s2))
         /\ forall id, r !! id = if bool_decide (id ∈ ids) then kept fetched id
                                 else None.
Proof.
  intros s1. destruct (cacheable_clear_frame clear s) as [Hc Hl].
  fold s1 in Hc, Hl. split.
  - rewrite (proj1 (cacheable_get_asks_for_misses_only_aux type ids s1)).
    rewrite Hc, Hl, cacheMisses_empty. reflexivity.
  - intros r s2 Hg.
    destruct (cacheable_get_view type ids s1 r s2 Hg)
      as (fetched & Hf & Hin & Hout & _).
    rewrite Hc, cacheMisses_empty in Hf. exists fetched. split; [exact Hf|].
    intros id. case_bool_decide as Hid.
    + rewrite (Hin id Hid), Hc, lookup_empty. reflexivity.
    + apply Hout. exact Hid.
Qed.

End CacheableCleared.

(* ===================================================================== *)
(** * Pre-key batches                                                    *)
(* ===================================================================== *)

Lemma newPreKeyIds_seqZ draw creds range :
  newPreKeyIds (generateOrGetPreKeys draw creds range)
  = seqZ (nextPreKeyId creds) (remainingKeys creds range).
Proof.
  unfold generateOrGetPreKeys, remainingKeys. cbn [newPreKeyIds].
  case_bool_decide as Hr.
  - f_equal. lia.
  - symmetry. apply seqZ_nil. lia.
Qed.

Lemma lastPreKeyId_eq draw creds range :
  lastPreKeyId (generateOrGetPreKeys draw creds range)
  = firstUnuploadedPreKeyId creds + range - 1.
Proof. unfold generateOrGetPreKeys. cbn [lastPreKeyId]. lia. Qed.

Lemma newPreKeys_lookup draw creds range (k : nat) :
  Z.of_nat k < remainingKeys creds range ->
  newPreKeys (generateOrGetPreKeys draw creds range)
    !! toString (nextPreKeyId creds + Z.of_nat k)
  = Some (draw k).
Proof.
  intros Hk.
  pose proof (newPreKeyIds_seqZ draw creds range) as Hids.
  unfold generateOrGetPreKeys in *. cbn [newPreKeys newPreKeyIds] in *.
  rewrite Hids. apply elem_of_list_to_map_1.
  - rewrite fmap_imap.
    assert (Himap : forall (l : list Z),
               imap (fun n => fst ∘ (fun i => (toString i, draw n))) l = toString <$> l).
    { intros l. rewrite <- (imap_const toString l). apply imap_ext.
      intros; reflexivity. }
    rewrite Himap. apply NoDup_fmap_2; [|apply NoDup_seqZ].
    unfold toString. apply _.
  - apply (elem_of_lookup_imap_2 (fun k i => (toString i, draw k))).
    apply lookup_seqZ_lt. exact Hk.
Qed.

(** X14. For counters and a range that are not negative and small
    enough for the code's arithmetic on doubles to be exact (the
    counters plus the range stay below 2^53), [generateOrGetPreKeys]
    generates exactly the keys that are missing for a batch of [range]:
    [range] minus the number of keys generated but not yet uploaded (none
    if that is not positive), under consecutive ids from [nextPreKeyId],
    each filed under the decimal text of its id and drawn in this
    order. *)
Theorem generateOrGetPreKeys_fills_the_gap draw creds range :
  0 <= nextPreKeyId creds -> 0 <= firstUnuploadedPreKeyId creds -> 0 <= range ->
  nextPreKeyId creds + range < 2 ^ 53 ->
  firstUnuploadedPreKeyId creds + range < 2 ^ 53 ->
  let b := generateOrGetPreKeys draw creds range in
  newPreKeyIds b = seqZ (nextPreKeyId creds) (remainingKeys creds range)
  /\ length (newPreKeyIds b) = Z.to_nat (remainingKeys creds range)
  /\ size (newPreKeys b) = Z.to_nat (remainingKeys creds range)
  /\ (forall k : nat,
        Z.of_nat k < remainingKeys creds range ->
        newPreKeys b !! toString (nextPreKeyId creds + Z.of_nat k) = Some (draw k))
  /\ (remainingKeys creds range <= 0 -> newPreKeys b = ∅)
  /\ Forall (fun i => 0 <= i < 2 ^ 53) (newPreKeyIds b).
Proof.
  intros Hn Hf Hr Hbn Hbf.
  cbv zeta. pose proof (newPreKeyIds_seqZ draw creds range) as Hids.
  split; [exact Hids|]. split; [rewrite Hids; apply length_seqZ|].
  split; [|split; [|split]].
  - unfold generateOrGetPreKeys in *. cbn [newPreKeys newPreKeyIds] in *.
    rewrite Hids. rewrite <- size_dom, dom_list_to_map_L, size_list_to_set.
    + rewrite length_fmap, length_imap. apply length_seqZ.
    + rewrite fmap_imap.
      assert (Himap : forall (l : list Z),
                 imap (fun n => fst ∘ (fun i => (toString i, draw n))) l
                 = toString <$> l).
      { intros l. rewrite <- (imap_const toString l). apply imap_ext.
        intros; reflexivity. }
      rewrite Himap. apply NoDup_fmap_2; [|apply NoDup_seqZ].
      unfold toString. apply _.
  - intros k Hk. apply newPreKeys_lookup. exact Hk.
  - intros Hle. unfold generateOrGetPreKeys in *. cbn [newPreKeys newPreKeyIds] in *.
    rewrite Hids, seqZ_nil by exact Hle. reflexivity.
  - rewrite Hids. apply Forall_forall. intros i Hi.
    apply elem_of_seqZ in Hi. unfold remainingKeys in Hi. lia.
Qed.

Lemma generateOrGetPreKeys_fills_the_gap_witness :
  let b := generateOrGetPreKeys sample_draw (sample_creds 12 10) 5 in
  newPreKeyIds b = [12; 13; 14]
  /\ size (newPreKeys b) = 3%nat
  /\ newPreKeys b !! "13" = Some (sample_draw 1).
Proof.
  intros b.
  destruct (generateOrGetPreKeys_fills_the_gap sample_draw (sample_creds 12 10) 5)
    as (Hids & _ & Hsize & Hkeys & _).
  - cbn. lia.
  - cbn. lia.
  - lia.
  - cbn. lia.
  - cbn. lia.
  - split; [exact Hids|]. split; [exact Hsize|].
    apply (Hkeys 1%nat). vm_compute. reflexivity.
Defined.

Section PreKeyBatches.
Context {St Env : Type} `{SignalKeyStore St}.
Implicit Types w : World St Env.

(** The [update] of a call of [getNextPreKeys] that resolves. *)
Lemma getNextPreKeys_update draw creds count w upd pk w' :
  getNextPreKeys draw creds count w = (Ok (upd, pk), w') ->
  upd_nextPreKeyId upd
  = Z.max (firstUnuploadedPreKeyId creds + count) (nextPreKeyId creds)
  /\ upd_firstUnuploadedPreKeyId upd
     = Z.max (firstUnuploadedPreKeyId creds) (firstUnuploadedPreKeyId creds + count).
Proof.
  unfold getNextPreKeys. cbv zeta. unfold bind.
  destruct (ks_set _ w) as [[u|e] w1]; [|discriminate].
  destruct (getPreKeys _ _ w1) as [[d|e] w2]; [|discriminate].
  unfold ret. intros [= <- <- <-]. cbn [upd_nextPreKeyId upd_firstUnuploadedPreKeyId].
  split; f_equal; lia.
Qed.

(** X15. When at least [count] keys are generated but not yet uploaded,
    [getNextPreKeys] generates no key and uses up no id: [nextPreKeyId]
    stays, and [firstUnuploadedPreKeyId] advances by [count]. *)
Theorem enough_unuploaded_generates_nothing draw creds count w upd pk w' :
  0 <= count <= nextPreKeyId creds - firstUnuploadedPreKeyId creds ->
  getNextPreKeys draw creds count w = (Ok (upd, pk), w') ->
  newPreKeyIds (generateOrGetPreKeys draw creds count) = []
  /\ newPreKeys (generateOrGetPreKeys draw creds count) = ∅
  /\ upd_nextPreKeyId upd = nextPreKeyId creds
  /\ upd_firstUnuploadedPreKeyId upd = firstUnuploadedPreKeyId creds + count.
Proof.
  intros Hc Hg.
  destruct (getNextPreKeys_update draw creds count w upd pk w' Hg) as (-> & ->).
  assert (Hids : newPreKeyIds (generateOrGetPreKeys draw creds count) = []).
  { rewrite newPreKeyIds_seqZ. apply seqZ_nil. unfold remainingKeys. lia. }
  split; [exact Hids|]. split.
  - unfold generateOrGetPreKeys in *. cbn [newPreKeys newPreKeyIds] in *.
    rewrite Hids. reflexivity.
  - split; lia.
Qed.

(** X16. No pre-key id is issued twice: when the caller merges the
    returned [update] into the creds, every id the next call generates
    is greater than every id this call generated, whatever the two
    counts. *)
Theorem successive_batches_never_share_an_id draw1 draw2 creds count1 count2
    w upd pk w' :
  getNextPreKeys draw1 creds count1 w = (Ok (upd, pk), w') ->
  forall i j,
    i ∈ newPreKeyIds (generateOrGetPreKeys draw1 creds count1) ->
    j ∈ newPreKeyIds (generateOrGetPreKeys draw2 (applyUpdate creds upd) count2) ->
    i < j.
Proof.
  intros Hg i j Hi Hj.
  destruct (getNextPreKeys_update draw1 creds count1 w upd pk w' Hg) as (Hn & Hf).
  rewrite newPreKeyIds_seqZ in Hi, Hj.
  apply elem_of_seqZ in Hi, Hj. unfold remainingKeys in *.
  cbn [applyUpdate nextPreKeyId firstUnuploadedPreKeyId] in Hj. lia.
Qed.

(** Inside a transaction a [get] keeps what the transaction cache
    holds, as long as the wrapped store answers with requested ids
    only. *)
Lemma ks_get_keeps_cached type ids w r w1 id v :
  get_returns_requested ->
  (0 < tip w)%nat ->
  ks_get type ids w = (r, w1) ->
  cached_of type w !! id = Some v ->
  cached_of type w1 !! id = Some v.
Proof.
  intros Hreq Hin. unfold ks_get. rewrite (isInTransaction_true w Hin). cbv zeta.
  fold (cached_of type w).
  destruct (List.filter _ ids) as [|i0 rest] eqn:Hf.
  - intros [= <- <-]. auto.
  - unfold state_get. cbn [backing with_tx].
    destruct (store_get type (i0 :: rest) (backing w)) as [[res|e] s'] eqn:Hs.
    + intros [= <- <-] Hc. unfold cached_of. simpl.
      rewrite lookup_insert_eq. simpl. fold (cached_of type w).
      rewrite lookup_union_r; [exact Hc|].
      destruct (res !! id) as [x|] eqn:Hres; [|reflexivity]. exfalso.
      assert (Hid : id ∈ i0 :: rest) by (eapply Hreq; eauto).
      rewrite <- Hf in Hid. apply list_elem_of_In, filter_In in Hid.
      destruct Hid as (_ & Hb). apply bool_decide_eq_true in Hb. congruence.
    + intros [= <- <-] Hc. exact Hc.
Qed.

(** X17. Inside a transaction, and with a store that answers with
    requested ids only, the [preKeys] that [getNextPreKeys] returns
    contain every key it has just generated, under its id, and nothing
    outside the range of [count] ids from
    [firstUnuploadedPreKeyId]. *)
Theorem getNextPreKeys_returns_generated draw creds count w upd pk w' :
  get_returns_requested ->
  (0 < tip w)%nat ->
  firstUnuploadedPreKeyId creds <= nextPreKeyId creds ->
  getNextPreKeys draw creds count w = (Ok (upd, pk), w') ->
  (forall k : nat,
      Z.of_nat k < remainingKeys creds count ->
      pk !! toString (nextPreKeyId creds + Z.of_nat k)
      = Some (VItem (PreKey (draw k))))
  /\ (forall key, is_Some (pk !! key) ->
        exists i, key = toString i
                  /\ firstUnuploadedPreKeyId creds <= i
                     < firstUnuploadedPreKeyId creds + count).
Proof.
  intros Hreq Hin Hle. unfold getNextPreKeys. cbv zeta. unfold bind.
  rewrite (ks_set_in_tx _ w Hin).
  match goal with |- context [getPreKeys _ _ ?x] => set (w1 := x) end.
  assert (Hin1 : (0 < tip w1)%nat) by exact Hin.
  unfold getPreKeys.
  change (preKeysRange (generateOrGetPreKeys draw creds count))
    with (firstUnuploadedPreKeyId creds, count).
  cbn [fst snd].
  destruct (ks_get "pre-key" _ w1) as [[d|e] w2] eqn:Hg; [|discriminate].
  unfold ret. intros [= <- <- <-].
  destruct (ks_get_in_tx_result _ _ _ _ _ Hin1 Hg) as (Hd & _).
  match type of Hg with ks_get _ ?l _ = _ => set (idList := l) in * end.
  assert (Hlist : forall key, key ∈ idList <->
                    exists i, key = toString i
                              /\ firstUnuploadedPreKeyId creds <= i
                                 < firstUnuploadedPreKeyId creds + count).
  { intros key. unfold idList. rewrite list_elem_of_fmap. split.
    - intros (i & -> & Hi). apply elem_of_seqZ in Hi. exists i. split; [reflexivity|lia].
    - intros (i & -> & Hi). exists i. split; [reflexivity|]. apply elem_of_seqZ. lia. }
  split.
  - intros k Hk.
    assert (Hc1 : cached_of "pre-key" w1 !! toString (nextPreKeyId creds + Z.of_nat k)
                  = Some (VItem (PreKey (draw k)))).
    { unfold cached_of, w1. cbn -[generateOrGetPreKeys].
      rewrite spread_into_lookup, lookup_singleton_eq.
      cbn -[generateOrGetPreKeys]. apply lookup_union_Some_l. unfold preKeyEntries.
      rewrite lookup_fmap.
      rewrite (newPreKeys_lookup draw creds count k Hk). reflexivity. }
    pose proof (ks_get_keeps_cached _ _ _ _ _ _ _ Hreq Hin1 Hg Hc1) as Hc2.
    rewrite Hd, collect_lookup. unfold kept. rewrite Hc2. cbn [truthy].
    rewrite bool_decide_eq_true_2; [reflexivity|].
    apply Hlist. eexists. split; [reflexivity|]. unfold remainingKeys in Hk. lia.
  - intros key [v Hv]. rewrite Hd in Hv. apply collect_lookup_Some in Hv.
    destruct Hv as (_ & _ & Hkey). apply Hlist. exact Hkey.
Qed.

End PreKeyBatches.

Lemma enough_unuploaded_generates_nothing_witness :
  fst (getNextPreKeys sample_draw (sample_creds 30 10) 5 plain_world)
  = Ok ({| upd_nextPreKeyId := 30; upd_firstUnuploadedPreKeyId := 15 |}, ∅)
  /\ newPreKeys (generateOrGetPreKeys sample_draw (sample_creds 30 10) 5) = ∅.
Proof.
  destruct (enough_unuploaded_generates_nothing sample_draw (sample_creds 30 10) 5
              plain_world
              {| upd_nextPreKeyId := 30; upd_firstUnuploadedPreKeyId := 15 |} ∅
              (snd (getNextPreKeys sample_draw (sample_creds 30 10) 5 plain_world)))
    as (_ & Hk & _).
  - cbn. lia.
  - vm_compute. reflexivity.
  - split; [vm_compute; reflexivity|exact Hk].
Defined.

Lemma successive_batches_never_share_an_id_witness :
  let first := generateOrGetPreKeys sample_draw (sample_creds 10 10) 5 in
  let second :=
    generateOrGetPreKeys sample_draw
      (applyUpdate (sample_creds 10 10)
         {| upd_nextPreKeyId := 15; upd_firstUnuploadedPreKeyId := 15 |}) 3 in
  Forall (fun i => Forall (fun j => i < j) (newPreKeyIds second)) (newPreKeyIds first).
Proof.
  intros first second. apply Forall_forall. intros i Hi.
  apply Forall_forall. intros j Hj.
  apply (successive_batches_never_share_an_id sample_draw sample_draw
           (sample_creds 10 10) 5 3 plain_world
           {| upd_nextPreKeyId := 15; upd_firstUnuploadedPreKeyId := 15 |}
           (preKeyEntries (newPreKeys first))
           (snd (getNextPreKeys sample_draw (sample_creds 10 10) 5 plain_world)));
    [vm_compute; reflexivity|exact Hi|exact Hj].
Defined.

Lemma getNextPreKeys_returns_generated_witness :
  let out := getNextPreKeys sample_draw (sample_creds 12 10) 5 holding_7 in
  exists upd pk,
    fst out = Ok (upd, pk)
    /\ pk !! "12" = Some (VItem (PreKey (sample_draw 0)))
    /\ pk !! "14" = Some (VItem (PreKey (sample_draw 2))).
Proof.
  intros out.
  destruct (fst out) as [[upd pk]|e] eqn:Hout; [|vm_compute in Hout; discriminate].
  destruct (getNextPreKeys_returns_generated sample_draw (sample_creds 12 10) 5
              holding_7 upd pk (snd out)) as (Hk & _).
  - apply mem_store_returns_requested.
  - vm_compute. lia.
  - cbn. lia.
  - rewrite <- Hout. apply surjective_pairing.
  - exists upd, pk. split; [reflexivity|].
    split; [apply (Hk 0%nat)|apply (Hk 2%nat)]; vm_compute; reflexivity.
Defined.

(* ===================================================================== *)
(** * The list [extractDeviceJids] returns                               *)
(* ===================================================================== *)

Lemma forallb_false_exists {A} (P : A -> bool) (l : list A) :
  forallb P l = false <-> exists x, x ∈ l /\ P x = false.
Proof.
  induction l as [|a l IH]; cbn [forallb].
  - split; [discriminate|]. intros (x & Hx & _). apply elem_of_nil in Hx. contradiction.
  - rewrite andb_false_iff, IH. split.
    + intros [Ha|(x & Hx & Hp)].
      * exists a. split; [apply list_elem_of_here|exact Ha].
      * exists x. split; [apply list_elem_of_further; exact Hx|exact Hp].
    + intros (x & Hx & Hp). apply elem_of_cons in Hx. destruct Hx as [->|Hx].
      * left. exact Hp.
      * right. exists x. auto.
Qed.

Section Listing.
Context `{WABinary}.

Lemma processDevice_kept dn u myUser myDevice ez acc :
  processDevice (tag dn) (attrs dn) u myUser myDevice ez acc
  = acc ++ keptDevices myUser myDevice ez u [dn].
Proof.
  unfold processDevice, keptDevices. cbn [List.filter]. unfold deviceKept. cbv zeta.
  destruct (_ && _ && _ && _); cbn; [reflexivity|apply eq_sym, app_nil_r].
Qed.

Lemma keptDevices_app myUser myDevice ez u l1 l2 :
  keptDevices myUser myDevice ez u (l1 ++ l2)
  = keptDevices myUser myDevice ez u l1 ++ keptDevices myUser myDevice ez u l2.
Proof. unfold keptDevices. rewrite List.filter_app, fmap_app. reflexivity. Qed.

Lemma fold_processDevice ds u myUser myDevice ez : forall acc,
  fold_left (fun acc d =>
               processDevice (tag d) (attrs d) u myUser myDevice ez acc) ds acc
  = acc ++ keptDevices myUser myDevice ez u ds.
Proof.
  induction ds as [|d ds IH]; intros acc; cbn [fold_left].
  - unfold keptDevices. cbn. rewrite app_nil_r. reflexivity.
  - rewrite IH, processDevice_kept, <- app_assoc.
    rewrite <- keptDevices_app. reflexivity.
Qed.

Lemma processItem_listing item myUser myDevice ez acc :
  processItem item myUser myDevice ez acc
  = match jidDecode (attrs item !! "jid") with
    | Some _ => Ok (acc ++ devicesOfItem myUser myDevice ez item)
    | None => Err "TypeError: cannot destructure undefined"
    end.
Proof.
  unfold processItem, devicesOfItem, deviceListOf.
  destruct (jidDecode (attrs item !! "jid")) as [fj|]; [|reflexivity].
  cbv zeta.
  destruct (getBinaryNodeChild _ "device-list") as [[t a [| |ds]]|];
    try (unfold keptDevices; cbn; rewrite app_nil_r; reflexivity).
  rewrite fold_processDevice. reflexivity.
Qed.

Lemma processItems_listing items myUser myDevice ez : forall acc,
  processItems items myUser myDevice ez acc
  = if forallb (fun item => bool_decide (is_Some (jidDecode (attrs item !! "jid")))) items
    then Ok (acc ++ flat_map (devicesOfItem myUser myDevice ez) items)
    else Err "TypeError: cannot destructure undefined".
Proof.
  induction items as [|item items IH]; intros acc; cbn [processItems forallb flat_map].
  - rewrite app_nil_r. reflexivity.
  - rewrite processItem_listing.
    destruct (jidDecode (attrs item !! "jid")) as [fj|] eqn:Hj.
    + rewrite bool_decide_eq_true_2 by eauto. cbn [andb]. rewrite IH.
      destruct (forallb _ items); [|reflexivity].
      rewrite <- app_assoc. reflexivity.
    + rewrite bool_decide_eq_false_2 by (intros [? ?]; discriminate). reflexivity.
Qed.

Lemma extractFromNodes_listing nodes myUser myDevice ez : forall acc,
  extractFromNodes nodes myUser myDevice ez acc
  = if forallb (fun item => bool_decide (is_Some (jidDecode (attrs item !! "jid"))))
               (flat_map itemsOf nodes)
    then Ok (acc ++ flat_map (devicesOfItem myUser myDevice ez)
                             (flat_map itemsOf nodes))
    else Err "TypeError: cannot destructure undefined".
Proof.
  induction nodes as [|node nodes IH]; intros acc;
    cbn [extractFromNodes flat_map forallb].
  - rewrite app_nil_r. reflexivity.
  - rewrite forallb_app, flat_map_app. unfold itemsOf at 1 3.
    destruct (getBinaryNodeChild (Some node) "list") as [[t a [| |items]]|];
      cbn [forallb flat_map andb app]; try apply IH.
    rewrite processItems_listing.
    destruct (forallb _ items); cbn [andb]; [|reflexivity].
    rewrite IH. destruct (forallb _ _); [|reflexivity].
    rewrite <- app_assoc. reflexivity.
Qed.

(** [extractDeviceJids] as a whole. *)
Lemma extractDeviceJids_listing result myJid ez :
  extractDeviceJids result myJid ez
  = match jidDecode (Some myJid) with
    | None => Err "TypeError: cannot destructure undefined"
    | Some me =>
        match content result with
        | Absent => Err "TypeError: result.content is not iterable"
        | _ =>
            if forallb (fun item =>
                          bool_decide (is_Some (jidDecode (attrs item !! "jid"))))
                       (allItems result)
            then Ok (listedDevices (fj_user me) (fj_device me) ez result)
            else Err "TypeError: cannot destructure undefined"
        end
    end.
Proof.
  unfold extractDeviceJids, listedDevices, allItems.
  destruct (jidDecode (Some myJid)) as [me|]; [|reflexivity].
  destruct (content result) as [| |nodes]; cbn [children_of flat_map forallb];
    try reflexivity.
  rewrite extractFromNodes_listing. reflexivity.
Qed.

(** X18. The list that [extractDeviceJids] returns, for either value of
    [excludeZeroDevices]: the descriptors that pass the test of
    [processDevice], each with the user of its item, in the order of the
    document and with repetitions as the response has them. *)
Theorem extractDeviceJids_lists_in_order result myJid ez me l :
  jidDecode (Some myJid) = Some me ->
  extractDeviceJids result myJid ez = Ok l ->
  l = listedDevices (fj_user me) (fj_device me) ez result.
Proof.
  intros Hme. rewrite extractDeviceJids_listing, Hme.
  destruct (content result); [discriminate| |];
    destruct (forallb _ _); congruence.
Qed.

(** X19. When [extractDeviceJids] throws: exactly when the own JID does
    not decode, the response has no content, or the [jid] of some item
    of one of its lists does not decode (one such item anywhere fails
    the whole call). *)
Theorem extractDeviceJids_throws_iff result myJid ez :
  is_ok (extractDeviceJids result myJid ez) = false
  <-> jidDecode (Some myJid) = None
      \/ content result = Absent
      \/ exists item, item ∈ allItems result
                      /\ jidDecode (attrs item !! "jid") = None.
Proof.
  rewrite extractDeviceJids_listing.
  destruct (jidDecode (Some myJid)) as [me|]; [|cbn; tauto].
  assert (Hitems : forallb (fun item =>
                              bool_decide (is_Some (jidDecode (attrs item !! "jid"))))
                           (allItems result) = false
                   <-> exists item, item ∈ allItems result
                                    /\ jidDecode (attrs item !! "jid") = None).
  { rewrite forallb_false_exists. split; intros (item & Hin & Hd); exists item;
      (split; [exact Hin|]).
    - apply bool_decide_eq_false in Hd.
      destruct (jidDecode (attrs item !! "jid")); [|reflexivity].
      exfalso. apply Hd. eauto.
    - apply bool_decide_eq_false_2. rewrite Hd. intros [? ?]. discriminate. }
  destruct (content result) as [| |nodes] eqn:Hc.
  - cbn. split; auto.
  - destruct (forallb _ _) eqn:Hf; cbn.
    + split; [discriminate|]. intros [?|[?|Hex]]; try discriminate.
      apply Hitems in Hex. discriminate.
    + split; [|reflexivity]. intros _. right. right. apply Hitems. reflexivity.
  - destruct (forallb _ _) eqn:Hf; cbn.
    + split; [discriminate|]. intros [?|[?|Hex]]; try discriminate.
      apply Hitems in Hex. discriminate.
    + split; [|reflexivity]. intros _. right. right. apply Hitems. reflexivity.
Qed.

End Listing.

Section ListingCorollaries.
Context `{WABinary}.

Lemma elem_of_listedDevices myUser myDevice ez result x :
  x ∈ listedDevices myUser myDevice ez result
  <-> exists item fj dn,
        item ∈ allItems result
        /\ jidDecode (attrs item !! "jid") = Some fj
        /\ dn ∈ deviceListOf item
        /\ deviceKept myUser myDevice ez (fj_user fj) dn = true
        /\ x = {| user := fj_user fj; device := Some (toNumber (attrs dn !! "id")) |}.
Proof.
  unfold listedDevices. rewrite list_elem_of_In, in_flat_map. split.
  - intros (item & Hin & Hx). apply list_elem_of_In in Hin.
    unfold devicesOfItem in Hx.
    destruct (jidDecode (attrs item !! "jid")) as [fj|] eqn:Hj; [|destruct Hx].
    apply list_elem_of_In in Hx. unfold keptDevices in Hx.
    apply list_elem_of_fmap in Hx. destruct Hx as (dn & -> & Hdn).
    apply list_elem_of_In, filter_In in Hdn. destruct Hdn as (Hdn & Hk).
    apply list_elem_of_In in Hdn. exists item, fj, dn. auto.
  - intros (item & fj & dn & Hin & Hj & Hdn & Hk & ->).
    exists item. split; [apply list_elem_of_In; exact Hin|].
    unfold devicesOfItem. rewrite Hj. apply list_elem_of_In.
    unfold keptDevices. apply list_elem_of_fmap. exists dn. split; [reflexivity|].
    apply list_elem_of_In, filter_In. split; [apply list_elem_of_In; exact Hdn|exact Hk].
Qed.

(** X20. Whatever the value of [excludeZeroDevices], the list never
    holds the device the own JID names: no entry has the own user
    together with a device number strictly equal to the own one. *)
Theorem extractDeviceJids_never_own_device result myJid ez me l x :
  jidDecode (Some myJid) = Some me ->
  extractDeviceJids result myJid ez = Ok l ->
  x ∈ l ->
  ~ (user x = fj_user me
     /\ exists dv, device x = Some dv /\ strict_eq_opt (fj_device me) dv = true).
Proof.
  intros Hme. rewrite extractDeviceJids_listing, Hme.
  destruct (content result); [discriminate| |];
    (destruct (forallb _ _); [|discriminate]); intros [= <-] Hx;
    apply elem_of_listedDevices in Hx;
    destruct Hx as (item & fj & dn & _ & _ & _ & Hk & ->);
    cbn [user device]; intros (Hu & dv & [= <-] & Heq);
    unfold deviceKept in Hk; cbv zeta in Hk;
    rewrite Hu, Heq in Hk;
    rewrite (bool_decide_eq_true_2 (fj_user me = fj_user me)) in Hk by reflexivity;
    cbn [negb orb] in Hk; rewrite andb_false_r in Hk; discriminate.
Qed.

(** X21. A descriptor whose [id] does not read as a number is not
    dropped: if it carries a key index it is listed, with [NaN] as its
    device, for either value of [excludeZeroDevices] and whatever the
    own JID. *)
Theorem descriptor_without_id_is_listed result myJid ez l item fj dn :
  extractDeviceJids result myJid ez = Ok l ->
  item ∈ allItems result ->
  jidDecode (attrs item !! "jid") = Some fj ->
  dn ∈ deviceListOf item ->
  tag dn = "device" ->
  toNumber (attrs dn !! "id") = NaN ->
  attr_truthy (attrs dn !! "key-index") = true ->
  {| user := fj_user fj; device := Some NaN |} ∈ l.
Proof.
  intros Hex Hitem Hj Hdn Htag Hnan Hkey.
  rewrite extractDeviceJids_listing in Hex.
  destruct (jidDecode (Some myJid)) as [me|]; [|discriminate].
  assert (Hin : {| user := fj_user fj; device := Some NaN |}
                  ∈ listedDevices (fj_user me) (fj_device me) ez result).
  { apply elem_of_listedDevices. exists item, fj, dn.
    repeat (split; [assumption|]). split; [|rewrite Hnan; reflexivity].
    unfold deviceKept. cbv zeta. rewrite Hnan, Hkey.
    rewrite bool_decide_eq_true_2 by exact Htag.
    destruct (fj_device me) as [[|z]|]; cbn;
      rewrite ?orb_true_r; reflexivity. }
  destruct (content result); [discriminate| |];
    (destruct (forallb _ _); [|discriminate]); injection Hex as <-; exact Hin.
Qed.

End ListingCorollaries.

Lemma extractDeviceJids_lists_in_order_witness :
  [{| user := "14155550001"; device := Some (Num 0) |};
   {| user := "14155550001"; device := Some (Num 1) |}]
  = @listedDevices wa "14155550009" (Some (Num 3)) false sample_usync_result.
Proof.
  apply (@extractDeviceJids_lists_in_order wa sample_usync_result
           "14155550009:3@s.whatsapp.net" false
           {| fj_user := "14155550009"; fj_server := "s.whatsapp.net";
              fj_device := Some (Num 3) |}).
  - reflexivity.
  - vm_compute. reflexivity.
Defined.

Lemma extractDeviceJids_never_own_device_witness :
  Forall (fun x => ~ (user x = "14155550009"
                      /\ exists dv, device x = Some dv
                                    /\ strict_eq_opt (Some (Num 3)) dv = true))
         [{| user := "14155550001"; device := Some (Num 0) |};
          {| user := "14155550001"; device := Some (Num 1) |}].
Proof.
  apply Forall_forall. intros x Hx.
  apply (@extractDeviceJids_never_own_device wa sample_usync_result
           "14155550009:3@s.whatsapp.net" false
           {| fj_user := "14155550009"; fj_server := "s.whatsapp.net";
              fj_device := Some (Num 3) |}
           [{| user := "14155550001"; device := Some (Num 0) |};
            {| user := "14155550001"; device := Some (Num 1) |}]).
  - reflexivity.
  - vm_compute. reflexivity.
  - exact Hx.
Defined.

Lemma descriptor_without_id_is_listed_witness :
  exists l,
    @extractDeviceJids wa usync_result_without_id "14155550009:3@s.whatsapp.net" true
    = Ok l
    /\ {| user := "14155550001"; device := Some NaN |} ∈ l.
Proof.
  eexists. split; [vm_compute; reflexivity|].
  apply (@descriptor_without_id_is_listed wa usync_result_without_id
           "14155550009:3@s.whatsapp.net" true _
           (user_item "14155550001@s.whatsapp.net" [device_node [("key-index", "2")]])
           {| fj_user := "14155550001"; fj_server := "s.whatsapp.net";
              fj_device := None |}
           (device_node [("key-index", "2")])).
  - vm_compute. reflexivity.
  - vm_compute. apply list_elem_of_here.
  - reflexivity.
  - vm_compute. apply list_elem_of_here.
  - reflexivity.
  - reflexivity.
  - reflexivity.
Defined.

(* ===================================================================== *)
(** * The user-devices cache across calls                                *)
(* ===================================================================== *)



Section CacheRoundTrip.
Context `{WABinary} {Message : Type} `{Collaborators Message}.



End CacheRoundTrip.


(* ===================================================================== *)
(** * The prelude of a relay                                             *)
(* ===================================================================== *)

Section RelayPrelude.
Context {St : Type} `{SignalKeyStore St} `{WABinary}
        {Message : Type} `{Collaborators Message}.
Implicit Types w : World St Socket.

(** The prelude touches neither the key store nor the capability. *)
Lemma relayPrelude_frame jid o w r w' :
  relayPrelude jid o w = (r, w') ->
  tx w' = tx w /\ calls w' = calls w /\ backing w' = backing w
  /\ sent (env w') = sent (env w) /\ queried (env w') = queried (env w)
  /\ userDevicesCache (env w') = userDevicesCache (env w).
Proof.
  unfold relayPrelude.
  destruct (jidDecode (Some jid)) as [fj|]; [|intros [= <- <-]; auto 10].
  unfold bind.
  destruct (chooseMessageId (messageId o) w) as [r0 w0] eqn:Hc.
  assert (Hq : queried (env w0) = queried (env w)).
  { revert Hc. unfold chooseMessageId.
    destruct (messageId o) as [id|]; [case_bool_decide|];
      unfold lift_env, ret; intros [= <- <-]; reflexivity. }
  apply chooseMessageId_frame in Hc.
  destruct Hc as ((id & ->) & Htx & Hcalls & Hb & Hs & Hu).
  destruct (participant o) as [pjid|].
  - destruct (jidDecode (Some pjid)) as [p|]; intros [= <- <-]; auto 10.
  - intros [= <- <-]. auto 10.
Qed.

End RelayPrelude.

(* ===================================================================== *)
(** * A send that fails                                                  *)
(* ===================================================================== *)

Section BeforeSend.
Context {St : Type} `{SignalKeyStore St} `{WABinary}
        {Message : Type} `{Collaborators Message}.
Implicit Types w : World St Socket.

Lemma before_send_ret {A} (a : A) : before_send (ret a : M St Socket A).
Proof. intros w r w' _ [= <- <-]. auto. Qed.

Lemma before_send_throw {A} e : before_send (throw e : M St Socket A).
Proof. intros w r w' _ [= <- <-]. auto. Qed.

Lemma before_send_lift_res {A} (r0 : Res A) :
  before_send (lift_res r0 : M St Socket A).
Proof. intros w r w' _ [= <- <-]. auto. Qed.

Lemma before_send_bind {A B} (m : M St Socket A) (f : A -> M St Socket B) :
  before_send m -> (forall a, before_send (f a)) -> before_send (bind m f).
Proof.
  intros Hm Hf w r w' Hin. unfold bind.
  destruct (m w) as [[a|e] w1] eqn:Hmw;
    destruct (Hm _ _ _ Hin Hmw) as (Ht & Ho & Hc & Hs).
  - intros Hfa. apply Hf in Hfa; [|lia].
    destruct Hfa as (-> & -> & -> & ->). auto.
  - intros [= <- <-]. auto.
Qed.

Lemma before_send_ks_get type ids :
  before_send (ks_get type ids : M St Socket dict).
Proof.
  intros w r w' Hin Hg.
  destruct (ks_get_in_tx _ _ _ _ _ Hin Hg) as (Ht & Ho & _ & Hc & He).
  rewrite He. auto.
Qed.

Lemma before_send_ks_set data : before_send (ks_set data : M St Socket unit).
Proof.
  intros w r w' Hin. rewrite (ks_set_in_tx data w Hin). intros [= <- <-]. auto.
Qed.

Lemma before_send_lift_env {X} (f : Socket -> Res X * Socket) :
  (forall s, sent (snd (f s)) = sent s) ->
  before_send (lift_env f : M St Socket X).
Proof.
  intros Hs w r w' Hin Hl. pose proof Hl as Hfr.
  apply lift_env_frame in Hfr. destruct Hfr as (Htx & Hc & _).
  revert Hl. unfold lift_env. pose proof (Hs (env w)) as Hse.
  destruct (f (env w)) as [r0 e']. intros [= <- <-].
  unfold tip. cbn [tx calls env] in *. auto.
Qed.

Lemma before_send_usync jids useCache iz :
  before_send (lift_env (getUSyncDevices jids useCache iz)
               : M St Socket (list JidWithDevice)).
Proof. apply before_send_lift_env. intros s. apply getUSyncDevices_sent. Qed.

Lemma before_send_assertSessions jids force :
  before_send (assertSessions jids force : M St Socket bool).
Proof.
  unfold assertSessions. apply before_send_bind.
  - destruct force; [apply before_send_ret|].
    apply before_send_bind; [apply before_send_ks_get|].
    intros; apply before_send_ret.
  - intros [|j l]; [apply before_send_ret|].
    apply before_send_bind.
    + unfold sock_query. apply before_send_lift_env. intros s. reflexivity.
    + intros. apply before_send_bind; [apply before_send_lift_res|intros].
      apply before_send_ret.
Qed.

Lemma before_send_groupAudience jid o devices0 :
  before_send (groupAudience jid o devices0).
Proof.
  unfold groupAudience. apply before_send_bind.
  - unfold readSenderKeyMap. destruct (_ && _); [|apply before_send_ret].
    apply before_send_bind; [apply before_send_ks_get|].
    intros; apply before_send_ret.
  - intros skm. apply before_send_bind; [apply before_send_lift_res|intros gd].
    apply before_send_bind; [|intros; apply before_send_ret].
    unfold groupDevices. destruct (participant o); [apply before_send_ret|].
    apply before_send_bind; [apply before_send_usync|].
    intros; apply before_send_ret.
Qed.

Lemma before_send_groupFanOut jid fj message o skm devices :
  before_send (groupFanOut jid fj message o skm devices).
Proof.
  unfold groupFanOut. cbv zeta.
  apply before_send_bind; [apply before_send_lift_res|intros [ciphertext skdm]].
  destruct (markSenderKeys _ _ _ _) as [skj row].
  apply before_send_bind.
  - destruct skj; [apply before_send_ret|].
    apply before_send_bind; [apply before_send_assertSessions|intros].
    apply before_send_lift_res.
  - intros parts. apply before_send_bind; [apply before_send_ks_set|intros].
    apply before_send_ret.
Qed.

Lemma before_send_directBranch jid fj message o devices0 :
  before_send (directBranch jid fj message o devices0).
Proof.
  unfold directBranch. cbv zeta.
  destruct (jidDecode (Some meId)) as [me|]; [|apply before_send_throw].
  apply before_send_bind.
  - destruct (participant o); [apply before_send_ret|].
    destruct (isPeer o); [apply before_send_ret|].
    apply before_send_bind; [apply before_send_usync|intros; apply before_send_ret].
  - intros devices. apply before_send_bind; [apply before_send_lift_res|intros tagged].
    apply before_send_bind; [apply before_send_assertSessions|intros].
    apply before_send_bind; [apply before_send_lift_res|intros r1].
    apply before_send_bind; [apply before_send_lift_res|intros r2].
    apply before_send_ret.
Qed.

(** A body of the form "prepare, send, return": if it rejects after a
    stanza was handed to [sendNode], it is [sendNode] that rejected. *)
Lemma send_last {A} (m : M St Socket A) (build : A -> BinaryNode)
    (msgId : string) w e w' stanza :
  before_send m ->
  (0 < tip w)%nat ->
  (a <- m ;; _ <- sock_sendNode (build a) ;; (ret msgId : M St Socket string)) w
    = (Err e, w') ->
  sent (env w') = sent (env w) ++ [stanza] ->
  sendNode stanza = Err e
  /\ tip w' = tip w /\ opts (tx w') = opts (tx w)
  /\ set_calls (calls w') = set_calls (calls w).
Proof.
  intros Hm Hin. unfold bind.
  destruct (m w) as [[a|e0] w1] eqn:Hmw;
    destruct (Hm _ _ _ Hin Hmw) as (Ht & Ho & Hc & Hs).
  - unfold sock_sendNode, lift_env. cbn [env].
    destruct (sendNode (build a)) as [u|e1] eqn:Hsend; [discriminate|].
    intros [= <- <-]. cbn [env sent tx calls]. rewrite Hs. intros Heq.
    apply app_inv_head in Heq. injection Heq as <-.
    split; [exact Hsend|]. unfold tip in *. cbn [tx]. auto.
  - intros [= <- <-]. rewrite Hs. intros Heq.
    rewrite <- (app_nil_r (sent (env w))) in Heq at 1.
    apply app_inv_head in Heq. discriminate Heq.
Qed.

(** X23. When a relay, called outside a transaction, rejects after it
    has handed its stanza to [sendNode], the error is the one of
    [sendNode] and the transaction is not committed: [set] of the
    wrapped store has not been called, the pending mutations (the
    sender-key-memory row of a group among them) are discarded, and the
    capability is back in its initial state, with no transaction
    open. *)
Theorem failed_send_commits_nothing jid message o w e w' stanza :
  tx w = tx_init (opts (tx w)) ->
  relayMessage jid message o w = (Err e, w') ->
  sent (env w') = sent (env w) ++ [stanza] ->
  sendNode stanza = Err e
  /\ set_calls (calls w') = set_calls (calls w)
  /\ tx w' = tx_init (opts (tx w)).
Proof.
  intros Hfresh. unfold relayMessage, bind.
  destruct (relayPrelude jid o w) as [[[[fj msgId] devices0]|e0] wp] eqn:Hpre;
    apply relayPrelude_frame in Hpre;
    destruct Hpre as (Htx & Hcalls & _ & Hsent & _).
  2:{ intros [= <- <-]. rewrite Hsent. intros Heq.
      rewrite <- (app_nil_r (sent (env w))) in Heq at 1.
      apply app_inv_head in Heq. discriminate Heq. }
  unfold ks_transaction.
  assert (Hz : tip wp = 0%nat) by (unfold tip; rewrite Htx, Hfresh; reflexivity).
  assert (Hin : (0 < tip (tx_enter wp))%nat) by (rewrite tip_enter; lia).
  destruct (relayBody jid fj message o msgId devices0 (tx_enter wp))
    as [[id|e1] w2] eqn:Hb; cbn [tx_exit]; [discriminate|].
  intros [= -> <-] Hs.
  assert (Hlast : sendNode stanza = Err e
                  /\ tip w2 = tip (tx_enter wp)
                  /\ opts (tx w2) = opts (tx (tx_enter wp))
                  /\ set_calls (calls w2) = set_calls (calls (tx_enter wp))).
  { assert (Hs2 : sent (env w2) = sent (env (tx_enter wp)) ++ [stanza]).
    { cbn [env tx_enter with_tx]. rewrite Hsent.
      destruct (tip w2) as [|[|k]] eqn:Ht2; revert Hs;
        unfold tx_finally, tip in *; rewrite ?Ht2;
        destruct (bool_decide _); cbn [env with_tx]; auto. }
    revert Hb. unfold relayBody.
    destruct (isGroup fj || isStatus jid).
    - intros Hb.
      apply (send_last
               (a <- groupAudience jid o devices0 ;;
                groupFanOut jid fj message o (fst a) (snd a))
               (fun r => buildStanza jid fj message o msgId
                           (fst (fst r)) (snd (fst r)) (snd r))
               msgId (tx_enter wp) e w2 stanza);
        [|exact Hin| |exact Hs2].
      + apply before_send_bind; [apply before_send_groupAudience|].
        intros a. apply before_send_groupFanOut.
      + revert Hb. unfold bind.
        destruct (groupAudience jid o devices0 (tx_enter wp)) as [[a|ea] wa];
          [|exact (fun x => x)].
        destruct (groupFanOut jid fj message o a.1 a.2 wa) as [[r|er] wr];
          exact (fun x => x).
    - destruct (isNewsletter fj).
      + destruct (newsletterBranch message msgId) as [[msgId' message'] bnc].
        intros Hb.
        apply (send_last (ret tt)
                 (fun _ => buildStanza jid fj message' o msgId' [] bnc false)
                 msgId' (tx_enter wp) e w2 stanza);
          [apply before_send_ret|exact Hin|exact Hb|exact Hs2].
      + intros Hb.
        apply (send_last (directBranch jid fj message o devices0)
                 (fun r => buildStanza jid fj message o msgId (fst r) [] (snd r))
                 msgId (tx_enter wp) e w2 stanza);
          [apply before_send_directBranch|exact Hin|exact Hb|exact Hs2]. }
  destruct Hlast as (Hsend & Ht & Ho & Hc).
  rewrite tip_enter, Hz in Ht.
  destruct (tx_finally_outermost w2 Ht) as (Hf1 & Hf2 & _).
  split; [exact Hsend|]. rewrite Hf1, Hf2, Hc, Ho. cbn. rewrite Hcalls, Htx. auto.
Qed.

End BeforeSend.

Lemma failed_send_commits_nothing_witness :
  let out := @relayMessage MemStore _ wa string demo_offline "x@g.us" "hello"
               default_relay_options half_known_world in
  exists stanza,
    fst out = Err "Connection Closed"
    /\ sent (env (snd out)) = [stanza]
    /\ set_calls (calls (snd out)) = []
    /\ tx (snd out) = tx_init default_opts.
Proof.
  intros out.
  destruct (sent (env (snd out))) as [|stanza [|x l]] eqn:Hsent;
    try (vm_compute in Hsent; discriminate Hsent).
  destruct (@failed_send_commits_nothing MemStore _ wa string demo_offline "x@g.us"
              "hello" default_relay_options half_known_world "Connection Closed"
              (snd out) stanza) as (_ & Hc & Ht).
  - reflexivity.
  - vm_compute. reflexivity.
  - exact Hsent.
  - exists stanza. split; [vm_compute; reflexivity|]. split; [reflexivity|].
    split; [exact Hc|exact Ht].
Defined.

(* ===================================================================== *)
(** * Recipient nodes                                                    *)
(* ===================================================================== *)

Section ParticipantNodes.
Context `{WABinary} {Message : Type} `{Collaborators Message}.

Lemma encryptEach_flag data ea jids : forall nodes flag,
  encryptEach jids data ea = Ok (nodes, flag) ->
  (flag = true
   <-> Exists (fun j => exists ct, encryptMessage j data = Ok ("pkmsg", ct)) jids).
Proof.
  induction jids as [|j jids IH]; intros nodes flag; cbn [encryptEach].
  - intros [= <- <-]. split; [discriminate|]. intros Hex. inversion Hex.
  - destruct (encryptMessage j data) as [[type ct]|e] eqn:He; [|discriminate].
    destruct (encryptEach jids data ea) as [[ns fl]|e] eqn:Hr; [|discriminate].
    intros [= <- <-]. specialize (IH ns fl eq_refl).
    rewrite orb_true_iff, Exists_cons, bool_decide_eq_true, IH.
    split; (intros [Hj|Hrest]; [left|right; exact Hrest]).
    + subst type. exists ct. exact He.
    + destruct Hj as [ct' Hct]. congruence.
Qed.

Lemma encryptEach_fails data ea jids e :
  encryptEach jids data ea = Err e ->
  Exists (fun j => encryptMessage j data = Err e) jids.
Proof.
  induction jids as [|j jids IH]; cbn [encryptEach]; [discriminate|].
  destruct (encryptMessage j data) as [[type ct]|e'] eqn:He.
  - destruct (encryptEach jids data ea) as [[ns fl]|e'']; [discriminate|].
    intros [= ->]. apply Exists_cons_tl. apply IH. reflexivity.
  - intros [= ->]. apply Exists_cons_hd. exact He.
Qed.

(** X30. [createParticipantNodes] encodes the patched message once and
    encrypts the same bytes for every JID.  When it resolves it
    returns one [<to>] node per JID, in the order of [jids], each
    around the [enc] node of what [encryptMessage] returned for that
    JID, and the device identity is asked for exactly when some
    encryption returned a [pkmsg].  When it rejects, it is with the
    error of an encryption that failed. *)
Theorem createParticipantNodes_one_node_per_jid jids message ea :
  let data := encodeWAMessage (patchMessageBeforeSending message jids) in
  match createParticipantNodes jids message ea with
  | Ok (nodes, shouldIncludeDeviceIdentity) =>
      Forall2 (fun j n => exists type ct,
                   encryptMessage j data = Ok (type, ct)
                   /\ n = Node "to" {[ "jid" := j ]}
                               (Children [encNode type ea ct])) jids nodes
      /\ (shouldIncludeDeviceIdentity = true
          <-> Exists (fun j => exists ct,
                          encryptMessage j data = Ok ("pkmsg", ct)) jids)
  | Err e => Exists (fun j => encryptMessage j data = Err e) jids
  end.
Proof.
  intros data. unfold createParticipantNodes. cbv zeta. fold data.
  destruct (encryptEach jids data ea) as [[nodes flag]|e] eqn:Hr.
  - split; [|eapply encryptEach_flag; exact Hr].
    exact (encryptEach_spec data ea jids nodes flag Hr).
  - apply encryptEach_fails with ea. exact Hr.
Qed.

End ParticipantNodes.

(* ===================================================================== *)
(** * Newsletters                                                        *)
(* ===================================================================== *)

Section NewsletterRelay.
Context {St : Type} `{SignalKeyStore St} `{WABinary}
        {Message : Type} `{Collaborators Message}.
Implicit Types w : World St Socket.

Lemma sock_sendNode_frame stanza w r w' :
  sock_sendNode stanza w = (r, w') ->
  tx w' = tx w /\ calls w' = calls w /\ backing w' = backing w
  /\ sent (env w') = sent (env w) ++ [stanza]
  /\ queried (env w') = queried (env w)
  /\ userDevicesCache (env w') = userDevicesCache (env w).
Proof. unfold sock_sendNode, lift_env. intros [= <- <-]. auto 10. Qed.

(** The exit of an outermost transaction that has no pending
    mutations. *)
Lemma tx_exit_nothing_pending {A} (r : Res A) w :
  tip w = 1%nat -> mutations (tx w) = ∅ ->
  tx_exit (r, w) = (r, tx_finally w).
Proof.
  intros Ht Hm. destruct r as [a|e]; cbn [tx_exit]; [|reflexivity].
  rewrite Hm. rewrite (bool_decide_eq_false_2 (∅ ≠ ∅)) by (intros Hn; apply Hn; reflexivity).
  rewrite andb_false_r. reflexivity.
Qed.

(** X24. A relay to a newsletter that resolves sends one stanza whose
    payload is a single [plaintext] node with the encoded message,
    followed only by the additional nodes of the options; nothing is
    encrypted, the key store is neither read nor written, and no query
    is sent.  The id it returns is the id of the stanza: the one chosen
    for the relay, or the id of the edited or revoked message. *)
Theorem newsletter_relay_is_plaintext jid fj message o w id w' :
  jidDecode (Some jid) = Some fj ->
  fj_server fj = "newsletter" ->
  jid <> statusJid ->
  tx w = tx_init (opts (tx w)) ->
  relayMessage jid message o w = (Ok id, w') ->
  exists msgId message' stanza,
    fst (relayPrelude jid o w) = Ok (fj, msgId, participantDevices o)
    /\ newsletterBranch message msgId
       = (id, message', [plaintextNode (getMediaType message) message'])
    /\ stanza = buildStanza jid fj message' o id []
                  [plaintextNode (getMediaType message) message'] false
    /\ sent (env w') = sent (env w) ++ [stanza]
    /\ content stanza
       = Children (plaintextNode (getMediaType message) message'
                   :: default [] (additionalNodes o))
    /\ attrs stanza !! "type"
       = Some (default (getTypeMessage message')
                       (additionalAttributes o ≫= (fun a => a !! "type")))
    /\ calls w' = calls w
    /\ queried (env w') = queried (env w)
    /\ tx w' = tx w.
Proof.
  intros Hj Hsrv Hns Hfresh. unfold relayMessage, bind.
  destruct (relayPrelude jid o w) as [[rp|e0] wp] eqn:Hpre; [|discriminate].
  pose proof Hpre as Hframe. apply relayPrelude_frame in Hframe.
  destruct Hframe as (Htx & Hcalls & _ & Hsent & Hq & _).
  apply (relayPrelude_ok jid fj) in Hpre; [|exact Hj].
  destruct Hpre as ((msgId & ->) & _).
  unfold ks_transaction, relayBody.
  assert (Hg : isGroup fj || isStatus jid = false).
  { unfold isGroup, isStatus. rewrite Hsrv.
    rewrite !bool_decide_eq_false_2; [reflexivity|exact Hns|discriminate]. }
  rewrite Hg. unfold isNewsletter at 1.
  rewrite (bool_decide_eq_true_2 _ Hsrv).
  assert (Hnb : newsletterBranch message msgId
                = (fst (fst (newsletterBranch message msgId)),
                   snd (fst (newsletterBranch message msgId)),
                   [plaintextNode (getMediaType message)
                                  (snd (fst (newsletterBranch message msgId)))])).
  { unfold newsletterBranch, plaintextNode.
    destruct (editedMessage message); destruct (isRevoke _); reflexivity. }
  destruct (newsletterBranch message msgId) as [[msgId' message'] bnc] eqn:Hbranch.
  cbn [fst snd] in Hnb. injection Hnb as ->.
  unfold bind.
  match goal with |- context [sock_sendNode ?st ?x] =>
    destruct (sock_sendNode st x) as [[u|e] w2] eqn:Hs; set (stanza := st) in * end;
    apply sock_sendNode_frame in Hs;
    destruct Hs as (Htx2 & Hc2 & _ & Hs2 & Hq2 & _).
  2:{ rewrite tx_exit_nothing_pending; [discriminate| |].
      - unfold tip. rewrite Htx2. cbn. rewrite Htx, Hfresh. reflexivity.
      - rewrite Htx2. cbn. rewrite Htx, Hfresh. reflexivity. }
  unfold ret. rewrite tx_exit_nothing_pending.
  2:{ unfold tip. rewrite Htx2. cbn. rewrite Htx, Hfresh. reflexivity. }
  2:{ rewrite Htx2. cbn. rewrite Htx, Hfresh. reflexivity. }
  intros [= <- <-].
  assert (Ht2 : tip w2 = 1%nat).
  { unfold tip. rewrite Htx2. cbn. rewrite Htx, Hfresh. reflexivity. }
  destruct (tx_finally_outermost w2 Ht2) as (Hf1 & Hf2 & Hf3 & _).
  exists msgId, message', stanza. cbn [fst].
  split; [reflexivity|]. split; [exact Hbranch|]. split; [reflexivity|].
  split; [rewrite Hf3, Hs2; cbn; rewrite Hsent; reflexivity|].
  split.
  { unfold stanza, buildStanza. cbn [content app].
    destruct (additionalNodes o) as [[|n ns]|]; reflexivity. }
  split.
  { unfold stanza, buildStanza. cbv zeta. unfold isNewsletter.
    rewrite (bool_decide_eq_true_2 _ Hsrv).
    assert (Hattrs :
               (default ∅ (additionalAttributes o)
                ∪ list_to_map [("id", msgId'); ("type", getTypeMessage message')])
                 !! "type"
               = Some (default (getTypeMessage message')
                               (additionalAttributes o ≫= (fun a => a !! "type")))).
    { rewrite lookup_union.
      destruct (additionalAttributes o) as [a|]; cbn.
      - destruct (a !! "type"); reflexivity.
      - rewrite lookup_empty. reflexivity. }
    destruct (participant o) as [pjid|]; cbn [attrs].
    - destruct (isJidGroup _); [|destruct (areJidsSameUser _ _)];
        rewrite ?lookup_insert_ne by discriminate; exact Hattrs.
    - rewrite lookup_insert_ne by discriminate. exact Hattrs. }
  split; [rewrite Hf2, Hc2; cbn; exact Hcalls|].
  split; [rewrite Hf3, Hq2; cbn; exact Hq|].
  rewrite Hf1, Htx2. cbn. rewrite Htx. symmetry. exact Hfresh.
Qed.

End NewsletterRelay.

Lemma newsletter_relay_is_plaintext_witness :
  let out := @relayMessage MemStore _ wa string demo newsletter_jid "hello"
               default_relay_options empty_world in
  exists stanza,
    fst out = Ok "3EB00"
    /\ sent (env (snd out)) = [stanza]
    /\ content stanza = Children [@plaintextNode string demo None "hello"]
    /\ calls (snd out) = [].
Proof.
  intros out.
  destruct (@newsletter_relay_is_plaintext MemStore _ wa string demo newsletter_jid
              newsletter_fj "hello" default_relay_options empty_world "3EB00" (snd out))
    as (msgId & message' & stanza & _ & Hb & _ & Hs & Hc & _ & Hcalls & _).
  - reflexivity.
  - reflexivity.
  - discriminate.
  - reflexivity.
  - vm_compute. reflexivity.
  - exists stanza. split; [vm_compute; reflexivity|]. split; [exact Hs|].
    split; [|exact Hcalls].
    rewrite Hc. assert (Hm : message' = "hello").
    { revert Hb. vm_compute. congruence. }
    rewrite Hm. reflexivity.
Defined.

(* ===================================================================== *)
(** * One-to-one messages                                                *)
(* ===================================================================== *)

Section DirectRelay.
Context {St : Type} `{SignalKeyStore St} `{WABinary}
        {Message : Type} `{Collaborators Message}.
Implicit Types w : World St Socket.

Lemma lift_res_quiet {A} P (r0 : Res A) w r w' :
  lift_res r0 w = (r, w') -> quiet P w w' /\ r = r0.
Proof. intros [= <- <-]. split; [apply quiet_refl|reflexivity]. Qed.

(** The one-to-one branch, when it returns. *)
Lemma directBranch_inv jid fj me message o devices0 w r w' :
  (0 < tip w)%nat ->
  jidDecode (Some meId) = Some me ->
  directBranch jid fj message o devices0 w = (Ok r, w') ->
  exists devices tagged r1 r2,
    match participant o with
    | Some _ => devices = devices0
    | None =>
        if isPeer o then devices = devices0 ++ seededDevices fj me
        else exists additional,
            fst (getUSyncDevices [meId; jid] (not_false (useUserDevicesCache o))
                   true (env w)) = Ok additional
            /\ devices = (devices0 ++ seededDevices fj me) ++ additional
    end
    /\ directJids fj (fj_user me) devices = Ok tagged
    /\ createParticipantNodes (snd <$> List.filter fst tagged)
         (deviceSentMessage (destinationJid jid fj) message) (extraAttrsOf message)
       = Ok r1
    /\ createParticipantNodes (snd <$> List.filter (fun p => negb (fst p)) tagged)
         message (extraAttrsOf message)
       = Ok r2
    /\ r = (fst r1 ++ fst r2, snd r1 || snd r2)
    /\ quiet (is_get_of "session") w w'.
Proof.
  intros Hin Hme. unfold directBranch. rewrite Hme. cbv zeta. unfold bind at 1.
  match goal with |- context [match ?m w with _ => _ end] =>
    destruct (m w) as [[devices|e] w1] eqn:Hd end; [|discriminate].
  assert (Hdev : match participant o with
                 | Some _ => devices = devices0
                 | None =>
                     if isPeer o then devices = devices0 ++ seededDevices fj me
                     else exists additional,
                         fst (getUSyncDevices [meId; jid]
                                (not_false (useUserDevicesCache o)) true (env w))
                         = Ok additional
                         /\ devices = (devices0 ++ seededDevices fj me) ++ additional
                 end
                 /\ quiet (is_get_of "session") w w1).
  { revert Hd. unfold seededDevices. destruct (participant o) as [pjid|].
    - intros [= <- <-]. split; [reflexivity|apply quiet_refl].
    - destruct (isPeer o).
      + intros [= <- <-]. split; [reflexivity|apply quiet_refl].
      + unfold bind.
        destruct (lift_env _ w) as [[additional|e] w0] eqn:Hl; [|discriminate].
        intros [= <- <-]. split.
        * exists additional. split; [|reflexivity].
          revert Hl. unfold lift_env.
          destruct (getUSyncDevices _ _ _ (env w)) as [ra s']. cbn [fst].
          congruence.
        * eapply lift_env_quiet; [|exact Hl]. intros s. apply getUSyncDevices_sent. }
  destruct Hdev as (Hdev & Hq1).
  unfold bind.
  destruct (lift_res (directJids fj (fj_user me) devices) w1) as [[tagged|e] w2] eqn:Ht;
    [|discriminate].
  apply (lift_res_quiet (is_get_of "session")) in Ht. destruct Ht as (Hq2 & Ht).
  destruct (assertSessions _ false w2) as [[b|e] w3] eqn:Ha; [|discriminate].
  apply assertSessions_quiet in Ha;
    [|destruct Hq1 as (E1 & _), Hq2 as (E2 & _); lia].
  destruct (lift_res (createParticipantNodes (snd <$> List.filter fst tagged) _ _) w3)
    as [[r1|e] w4] eqn:H1c; [|discriminate].
  apply (lift_res_quiet (is_get_of "session")) in H1c. destruct H1c as (Hq4 & H1c).
  destruct (lift_res (createParticipantNodes _ message _) w4)
    as [[r2|e] w5] eqn:H2c; [|discriminate].
  apply (lift_res_quiet (is_get_of "session")) in H2c. destruct H2c as (Hq5 & H2c).
  unfold ret. intros [= <- <-].
  exists devices, tagged, r1, r2.
  split; [exact Hdev|]. split; [symmetry; exact Ht|].
  split; [symmetry; exact H1c|]. split; [symmetry; exact H2c|].
  split; [reflexivity|].
  eapply quiet_trans; [exact Hq1|]. eapply quiet_trans; [exact Hq2|].
  eapply quiet_trans; [exact Ha|]. eapply quiet_trans; [exact Hq4|exact Hq5].
Qed.

(** A relay to a user that resolves, taken apart. *)
Lemma relay_direct_inv jid fj me message o w id w' :
  jidDecode (Some jid) = Some fj ->
  jidDecode (Some meId) = Some me ->
  fj_server fj <> "g.us" -> fj_server fj <> "newsletter" -> jid <> statusJid ->
  tx w = tx_init (opts (tx w)) ->
  relayMessage jid message o w = (Ok id, w') ->
  exists wp r w2 gets,
    relayPrelude jid o w = (Ok (fj, id, participantDevices o), wp)
    /\ directBranch jid fj message o (participantDevices o) (tx_enter wp) = (Ok r, w2)
    /\ sent (env w')
       = sent (env w) ++ [buildStanza jid fj message o id (fst r) [] (snd r)]
    /\ calls w' = calls w ++ gets
    /\ Forall (is_get_of "session") gets
    /\ tx w' = tx w
    /\ queried (env wp) = queried (env w)
    /\ queried (env w') = queried (env w2).
Proof.
  intros Hj Hme Hng Hnn Hns Hfresh. unfold relayMessage, bind.
  destruct (relayPrelude jid o w) as [[rp|e0] wp] eqn:Hpre; [|discriminate].
  pose proof Hpre as Hframe. apply relayPrelude_frame in Hframe.
  destruct Hframe as (Htx & Hcalls & _ & Hsent & Hqp & _).
  pose proof Hpre as Hok. apply (relayPrelude_ok jid fj) in Hok; [|exact Hj].
  destruct Hok as ((msgId & ->) & _).
  unfold ks_transaction, relayBody.
  assert (Hg : isGroup fj || isStatus jid = false).
  { unfold isGroup, isStatus.
    rewrite !bool_decide_eq_false_2; [reflexivity|exact Hns|exact Hng]. }
  rewrite Hg. unfold isNewsletter at 1.
  rewrite (bool_decide_eq_false_2 _ Hnn). unfold bind.
  assert (Hin : (0 < tip (tx_enter wp))%nat) by (rewrite tip_enter; lia).
  assert (Ht1 : tip (tx_enter wp) = 1%nat).
  { rewrite tip_enter. unfold tip. rewrite Htx, Hfresh. reflexivity. }
  assert (Hm1 : mutations (tx (tx_enter wp)) = ∅).
  { cbn. rewrite Htx, Hfresh. reflexivity. }
  destruct (directBranch jid fj message o (participantDevices o) (tx_enter wp))
    as [[r|e] w2] eqn:Hd.
  2:{ cbn [tx_exit]. discriminate. }
  pose proof Hd as Hinv.
  apply (directBranch_inv jid fj me) in Hinv; [|exact Hin|exact Hme].
  destruct Hinv as (dv & tg & q1 & q2 & _ & _ & _ & _ & _ & Hq).
  destruct Hq as (Ht2 & Ho2 & Hm2 & Hs2 & gets & Hc2 & Hgets).
  match goal with |- context [sock_sendNode ?st ?x] =>
    destruct (sock_sendNode st x) as [[u|e] w3] eqn:Hs end;
    apply sock_sendNode_frame in Hs;
    destruct Hs as (Htx3 & Hc3 & _ & Hs3 & Hq3 & _).
  2:{ cbn [tx_exit]. discriminate. }
  unfold ret. rewrite tx_exit_nothing_pending.
  2:{ unfold tip. rewrite Htx3. fold (tip w2). lia. }
  2:{ rewrite Htx3, Hm2. exact Hm1. }
  intros [= <- <-].
  assert (Ht3 : tip w3 = 1%nat) by (unfold tip; rewrite Htx3; fold (tip w2); lia).
  destruct (tx_finally_outermost w3 Ht3) as (Hf1 & Hf2 & Hf3 & _).
  exists wp, r, w2, gets.
  split; [reflexivity|]. split; [exact Hd|].
  split; [rewrite Hf3, Hs3, Hs2; cbn; rewrite Hsent; reflexivity|].
  split; [rewrite Hf2, Hc3, Hc2; cbn; rewrite Hcalls; reflexivity|].
  split; [exact Hgets|].
  split; [rewrite Hf1, Htx3, Ho2; cbn; rewrite Htx; symmetry; exact Hfresh|].
  split; [exact Hqp|]. rewrite Hf3. exact Hq3.
Qed.

End DirectRelay.

Lemma filter_partition_length {A} (f : A -> bool) (l : list A) :
  (length (List.filter f l) + length (List.filter (fun x => negb (f x)) l)
   = length l)%nat.
Proof.
  induction l as [|x l IH]; [reflexivity|]. cbn [List.filter].
  destruct (f x); cbn [negb length]; lia.
Qed.

Section DirectTheorems.
Context {St : Type} `{SignalKeyStore St} `{WABinary}
        {Message : Type} `{Collaborators Message}.
Implicit Types w : World St Socket.

Lemma directJids_length fj meUser devices : forall tagged,
  directJids fj meUser devices = Ok tagged -> length tagged = length devices.
Proof.
  induction devices as [|d devices IH]; intros tagged; cbn [directJids].
  - intros [= <-]. reflexivity.
  - destruct (_ && _).
    + destruct meLid as [lid|]; [|discriminate].
      destruct (directJids fj meUser devices) as [tl|e]; [|discriminate].
      intros [= <-]. cbn. f_equal. apply IH. reflexivity.
    + destruct (directJids fj meUser devices) as [tl|e]; [|discriminate].
      intros [= <-]. cbn. f_equal. apply IH. reflexivity.
Qed.

(** X25. A relay to a user (no participant, no peer category, no
    additional nodes) that resolves: the devices are the bare recipient,
    the bare own user if that is someone else, and the devices of both
    as [getUSyncDevices] lists them.  Every own device gets a [<to>]
    node around the message wrapped in a [deviceSentMessage] and
    encrypted for it, every other device one around the message itself.
    The stanza goes to the destination and carries one [participants]
    node, the own copies first, followed by the device identity exactly
    when some encryption returned a [pkmsg]. *)
Theorem direct_relay_wraps_own_copies jid fj me message o w id w' :
  jidDecode (Some jid) = Some fj ->
  jidDecode (Some meId) = Some me ->
  fj_server fj <> "g.us" -> fj_server fj <> "newsletter" -> jid <> statusJid ->
  participant o = None -> isPeer o = false ->
  default [] (additionalNodes o) = [] ->
  tx w = tx_init (opts (tx w)) ->
  relayMessage jid message o w = (Ok id, w') ->
  exists additional tagged meNodes otherNodes (flag : bool) stanza,
    let seeded :=
      {| user := fj_user fj; device := None |}
      :: (if bool_decide (fj_user fj = fj_user me) then []
          else [{| user := fj_user me; device := None |}]) in
    let meJids := snd <$> List.filter fst tagged in
    let otherJids := snd <$> List.filter (fun p => negb (fst p)) tagged in
    let meData :=
      encodeWAMessage
        (patchMessageBeforeSending
           (deviceSentMessage (destinationJid jid fj) message) meJids) in
    let otherData :=
      encodeWAMessage (patchMessageBeforeSending message otherJids) in
    let recipient (data : bytes) (j : string) (n : BinaryNode) :=
      exists type ct,
        encryptMessage j data = Ok (type, ct)
        /\ n = Node "to" {[ "jid" := j ]}
                    (Children
                       [Node "enc"
                             (extraAttrsOf message
                              ∪ list_to_map [("v", "2"); ("type", type)])
                             (Bytes ct)]) in
    let pkmsg (data : bytes) (j : string) :=
      exists ct, encryptMessage j data = Ok ("pkmsg", ct) in
    fst (getUSyncDevices [meId; jid] (not_false (useUserDevicesCache o)) true
           (env (snd (relayPrelude jid o w)))) = Ok additional
    /\ directJids fj (fj_user me) (seeded ++ additional) = Ok tagged
    /\ Forall2 (recipient meData) meJids meNodes
    /\ Forall2 (recipient otherData) otherJids otherNodes
    /\ (flag = true
        <-> Exists (pkmsg meData) meJids \/ Exists (pkmsg otherData) otherJids)
    /\ sent (env w') = sent (env w) ++ [stanza]
    /\ content stanza
       = Children (Node "participants" ∅ (Children (meNodes ++ otherNodes))
                   :: (if flag
                       then [Node "device-identity" ∅
                                  (Bytes encodeSignedDeviceIdentity)]
                       else []))
    /\ attrs stanza !! "to" = Some (destinationJid jid fj).
Proof.
  intros Hj Hme Hng Hnn Hns Hp Hpeer Han Hfresh Hr.
  destruct (relay_direct_inv jid fj me message o w id w' Hj Hme Hng Hnn Hns Hfresh Hr)
    as (wp & r & w2 & gets & Hpre & Hd & Hsent & _).
  assert (Hin : (0 < tip (tx_enter wp))%nat) by (rewrite tip_enter; lia).
  apply (directBranch_inv jid fj me) in Hd; [|exact Hin|exact Hme].
  destruct Hd as (devices & tagged & [n1 f1] & [n2 f2] & Hdev & Htag & H1c & H2c
                  & -> & _).
  rewrite Hp, Hpeer in Hdev. destruct Hdev as (additional & Hadd & ->).
  assert (Hpd : participantDevices o = []) by (unfold participantDevices; rewrite Hp; reflexivity).
  rewrite Hpd in *. cbn [app] in Htag.
  unfold createParticipantNodes in H1c, H2c.
  pose proof (encryptEach_flag _ _ _ _ _ H1c) as Hf1.
  pose proof (encryptEach_flag _ _ _ _ _ H2c) as Hf2.
  apply encryptEach_spec in H1c, H2c. cbn [fst snd] in *.
  exists additional, tagged, n1, n2, (f1 || f2),
         (buildStanza jid fj message o id (n1 ++ n2) [] (f1 || f2)).
  cbv zeta.
  split; [rewrite Hpre; exact Hadd|]. split; [exact Htag|].
  split; [exact H1c|]. split; [exact H2c|].
  split; [rewrite orb_true_iff, Hf1, Hf2; reflexivity|].
  split; [exact Hsent|].
  split.
  { rewrite (buildStanza_plain jid fj message o id (n1 ++ n2) [] (f1 || f2) Hpeer Han).
    cbn [app].
    destruct (n1 ++ n2) as [|x l] eqn:Hn; [|reflexivity]. exfalso.
    apply (f_equal length) in Hn. rewrite length_app in Hn.
    apply Forall2_length in H1c, H2c. rewrite <- H1c, <- H2c, !length_fmap in Hn.
    pose proof (filter_partition_length fst tagged) as Hlen.
    apply directJids_length in Htag. unfold seededDevices in Htag.
    rewrite !length_app in Htag. cbn [length] in *. lia. }
  unfold buildStanza. cbv zeta. rewrite Hp. cbn [attrs]. apply lookup_insert_eq.
Qed.

End DirectTheorems.

Lemma direct_relay_wraps_own_copies_witness :
  let out := @relayMessage MemStore _ wa string demo "14155550001@s.whatsapp.net"
               "hello" default_relay_options empty_world in
  exists stanza meNodes otherNodes (flag : bool),
    fst out = Ok "3EB00"
    /\ sent (env (snd out)) = [stanza]
    /\ content stanza
       = Children (Node "participants" ∅ (Children (meNodes ++ otherNodes))
                   :: (if flag
                       then [Node "device-identity" ∅
                                  (Bytes (@encodeSignedDeviceIdentity _ demo))]
                       else []))
    /\ attrs stanza !! "to" = Some "14155550001@s.whatsapp.net".
Proof.
  intros out.
  destruct (@direct_relay_wraps_own_copies MemStore _ wa string demo
              "14155550001@s.whatsapp.net"
              {| fj_user := "14155550001"; fj_server := "s.whatsapp.net";
                 fj_device := None |}
              {| fj_user := "14155550009"; fj_server := "s.whatsapp.net";
                 fj_device := Some (Num 3) |}
              "hello" default_relay_options empty_world "3EB00" (snd out))
    as (additional & tagged & meNodes & otherNodes & flag & stanza & Hall).
  - reflexivity.
  - reflexivity.
  - discriminate.
  - discriminate.
  - discriminate.
  - reflexivity.
  - reflexivity.
  - reflexivity.
  - reflexivity.
  - vm_compute. reflexivity.
  - cbv zeta in Hall. destruct Hall as (_ & _ & _ & _ & _ & Hs & Hc & Hto).
    exists stanza, meNodes, otherNodes, flag.
    split; [vm_compute; reflexivity|]. split; [exact Hs|].
    split; [exact Hc|exact Hto].
Defined.

(* ===================================================================== *)
(** * Peer messages                                                      *)
(* ===================================================================== *)

Section PeerRelay.
Context {St : Type} `{SignalKeyStore St} `{WABinary}
        {Message : Type} `{Collaborators Message}.
Implicit Types w : World St Socket.
Variable peerDataOperationRequest : Message -> Message.

Lemma ks_get_env type ids w r w' :
  ks_get type ids w = (r, w') -> env w' = env w.
Proof.
  unfold ks_get. destruct (isInTransaction w).
  - cbv zeta. destruct (List.filter _ ids) as [|i0 rest].
    + intros [= <- <-]. reflexivity.
    + match goal with |- context [state_get ?t ?l ?x] =>
        destruct (state_get t l x) as [[res|e] w1] eqn:Hg end;
        apply state_get_frame in Hg; destruct Hg as (_ & Henv & _);
        intros [= <- <-]; exact Henv.
  - intros Hg. apply state_get_frame in Hg. tauto.
Qed.

(** [assertSessions] sends at most one query, for pre-key bundles. *)
Lemma assertSessions_queried jids force w r w' :
  assertSessions jids force w = (r, w') ->
  exists l, queried (env w') = queried (env w) ++ l /\ Forall is_key_query l.
Proof.
  unfold assertSessions, bind.
  assert (Htail : forall (l : list string) w1 r1 w1',
             match l with
             | [] => ret false
             | _ :: _ =>
                 fun w0 =>
                   match sock_query (keyQuery l) w0 with
                   | (Ok a, w2) =>
                       match lift_res (parseAndInjectE2ESessions a) w2 with
                       | (Ok _, w3) => ret true w3
                       | (Err e, w3) => (Err e, w3)
                       end
                   | (Err e, w2) => (Err e, w2)
                   end
             end w1 = (r1, w1') ->
             exists q, queried (env w1') = queried (env w1) ++ q
                       /\ Forall is_key_query q).
  { intros [|j l] w1 r1 w1'.
    - intros [= <- <-]. exists []. rewrite app_nil_r. split; [reflexivity|constructor].
    - unfold sock_query, lift_env. cbn [fst snd].
      destruct (query (keyQuery (j :: l))) as [a|e].
      + unfold lift_res, ret.
        destruct (parseAndInjectE2ESessions a); intros [= <- <-];
          exists [keyQuery (j :: l)]; (split; [reflexivity|]);
          repeat constructor; exists (j :: l); reflexivity.
      + intros [= <- <-]. exists [keyQuery (j :: l)]. split; [reflexivity|].
        repeat constructor. exists (j :: l). reflexivity. }
  destruct force.
  - unfold ret at 1. apply Htail.
  - destruct (ks_get "session" _ w) as [[sessions|e] w1] eqn:Hg;
      apply ks_get_env in Hg.
    + unfold ret at 1. intros Hr. apply Htail in Hr. rewrite Hg in Hr. exact Hr.
    + intros [= <- <-]. rewrite Hg. exists []. rewrite app_nil_r.
      split; [reflexivity|constructor].
Qed.

(** X26. [sendPeerDataOperationMessage] that resolves sends one stanza
    to the own bare JID, marked with the peer category and high
    priority, whose payload is a single [enc] node, not wrapped in
    [participants]: the protocol message around the request, inside a
    [deviceSentMessage], encrypted for the own bare JID alone (followed
    by the device identity if that is a [pkmsg]).  The devices of the
    own user are not looked up: the only query it may send asks for
    pre-key bundles. *)
Theorem peer_message_is_one_enc pdoMessage fj me w id w' :
  jidDecode (Some (jidNormalizedUser meId)) = Some fj ->
  jidDecode (Some meId) = Some me ->
  fj_user fj = fj_user me ->
  fj_server fj = "s.whatsapp.net" ->
  jidNormalizedUser meId <> statusJid ->
  tx w = tx_init (opts (tx w)) ->
  sendPeerDataOperationMessage peerDataOperationRequest pdoMessage w
  = (Ok id, w') ->
  let protocolMessage := peerDataOperationRequest pdoMessage in
  let dest := destinationJid (jidNormalizedUser meId) fj in
  let own := jidEncode (fj_user me) "s.whatsapp.net" None in
  let data :=
    encodeWAMessage
      (patchMessageBeforeSending (deviceSentMessage dest protocolMessage) [own]) in
  exists type ct stanza,
    meId <> ""
    /\ encryptMessage own data = Ok (type, ct)
    /\ sent (env w') = sent (env w) ++ [stanza]
    /\ content stanza
       = Children (Node "enc"
                        (extraAttrsOf protocolMessage
                         ∪ list_to_map [("v", "2"); ("type", type)])
                        (Bytes ct)
                   :: (if bool_decide (type = "pkmsg")
                       then [Node "device-identity" ∅
                                  (Bytes encodeSignedDeviceIdentity)]
                       else []))
    /\ attrs stanza !! "category" = Some "peer"
    /\ attrs stanza !! "push_priority" = Some "high_force"
    /\ attrs stanza !! "to" = Some dest
    /\ Forall is_key_query (queriedSince (env w) (env w')).
Proof.
  intros Hj Hme Hu Hsrv Hns Hfresh. unfold sendPeerDataOperationMessage.
  case_bool_decide as Hid; [discriminate|]. cbv zeta. intros Hr.
  set (protocolMessage := peerDataOperationRequest pdoMessage) in *.
  set (jid := jidNormalizedUser meId) in *.
  assert (Hng : fj_server fj <> "g.us") by (rewrite Hsrv; discriminate).
  assert (Hnn : fj_server fj <> "newsletter") by (rewrite Hsrv; discriminate).
  destruct (relay_direct_inv jid fj me protocolMessage peerOptions w id w'
              Hj Hme Hng Hnn Hns Hfresh Hr)
    as (wp & r & w2 & gets & Hpre & Hd & Hsent & Hcalls & Hgets & Htx & Hqp & Hq2).
  assert (Hin : (0 < tip (tx_enter wp))%nat) by (rewrite tip_enter; lia).
  (* the queries of the branch *)
  assert (Hq : exists q, queried (env w2) = queried (env (tx_enter wp)) ++ q
                         /\ Forall is_key_query q).
  { revert Hd. unfold directBranch. rewrite Hme. cbv zeta.
    change (participant peerOptions) with (@None string).
    change (isPeer peerOptions) with true. unfold bind, ret, lift_res.
    destruct (directJids _ _ _) as [tagged|e]; [|discriminate].
    destruct (assertSessions _ false (tx_enter wp)) as [[b|e] w3] eqn:Ha;
      [|discriminate].
    apply assertSessions_queried in Ha.
    destruct (createParticipantNodes _ _ _); [|discriminate].
    destruct (createParticipantNodes _ _ _); [|discriminate].
    intros [= <- <-]. exact Ha. }
  apply (directBranch_inv jid fj me) in Hd; [|exact Hin|exact Hme].
  destruct Hd as (devices & tagged & [n1 f1] & [n2 f2] & Hdev & Htag & H1c & H2c
                  & -> & _).
  change (participant peerOptions) with (@None string) in Hdev.
  change (isPeer peerOptions) with true in Hdev.
  change (participantDevices peerOptions) with (@nil JidWithDevice) in *.
  cbn [app] in Hdev. subst devices.
  unfold seededDevices in Htag. rewrite bool_decide_eq_true_2 in Htag by exact Hu.
  cbn [app directJids user device] in Htag.
  rewrite (bool_decide_eq_true_2 _ Hu) in Htag.
  unfold isLid in Htag. rewrite Hsrv in Htag.
  rewrite (bool_decide_eq_false_2 ("s.whatsapp.net" = "lid")) in Htag by discriminate.
  cbn [andb] in Htag. injection Htag as <-.
  unfold deviceServer, isLid in H1c, H2c. rewrite Hsrv in H1c, H2c.
  rewrite (bool_decide_eq_false_2 ("s.whatsapp.net" = "lid")) in H1c, H2c
    by discriminate.
  cbn [List.filter fst snd negb fmap list_fmap] in H1c, H2c.
  rewrite Hu in H1c.
  unfold createParticipantNodes in H1c, H2c. cbn [encryptEach] in H1c, H2c.
  destruct (encryptMessage _ _) as [[type ct]|e] eqn:Henc; [|discriminate].
  injection H1c as <- <-. injection H2c as <- <-.
  cbn [fst snd app] in Hsent. rewrite !orb_false_r in Hsent.
  eexists type, ct, _.
  split; [exact Hid|]. split; [reflexivity|]. split; [exact Hsent|].
  split.
  { unfold buildStanza. cbv zeta. change (isPeer peerOptions) with true.
    cbn [toNode content children_of app additionalNodes peerOptions].
    destruct (bool_decide (type = "pkmsg")); reflexivity. }
  split.
  { unfold buildStanza. cbv zeta. cbn [participant peerOptions attrs].
    rewrite lookup_insert_ne by discriminate.
    apply lookup_union_Some_l. reflexivity. }
  split.
  { unfold buildStanza. cbv zeta. cbn [participant peerOptions attrs].
    rewrite lookup_insert_ne by discriminate.
    apply lookup_union_Some_l. reflexivity. }
  split.
  { unfold buildStanza. cbv zeta. cbn [participant peerOptions attrs].
    apply lookup_insert_eq. }
  destruct Hq as (q & Hq & Hkq). unfold queriedSince.
  rewrite Hq2, Hq. cbn [env tx_enter with_tx]. rewrite Hqp.
  rewrite drop_app_length. exact Hkq.
Qed.

End PeerRelay.

Lemma peer_message_is_one_enc_witness :
  let out := @sendPeerDataOperationMessage MemStore _ wa string demo_bare
               pdo_request "req" empty_world in
  exists stanza,
    fst out = Ok "3EB00"
    /\ sent (env (snd out)) = [stanza]
    /\ attrs stanza !! "category" = Some "peer"
    /\ attrs stanza !! "to" = Some "14155550009@s.whatsapp.net"
    /\ Forall is_key_query (queriedSince (env empty_world) (env (snd out))).
Proof.
  intros out.
  destruct (@peer_message_is_one_enc MemStore _ wa string demo_bare
              pdo_request "req"
              {| fj_user := "14155550009"; fj_server := "s.whatsapp.net";
                 fj_device := None |}
              {| fj_user := "14155550009"; fj_server := "s.whatsapp.net";
                 fj_device := None |}
              empty_world "3EB00" (snd out))
    as (type & ct & stanza & Hall).
  - reflexivity.
  - reflexivity.
  - reflexivity.
  - reflexivity.
  - discriminate.
  - reflexivity.
  - vm_compute. reflexivity.
  - cbv zeta in Hall.
    destruct Hall as (_ & _ & Hs & _ & Hc & _ & Hto & Hq).
    exists stanza. split; [vm_compute; reflexivity|]. split; [exact Hs|].
    split; [exact Hc|]. split; [exact Hto|exact Hq].
Defined.

(* ===================================================================== *)
(** * The job queue under any sequence of calls                          *)
(* ===================================================================== *)

Local Open Scope nat_scope.

Lemma history_cons ev q bs :
  history {| buckets := bs; qtrace := ev :: qtrace q |} = history q ++ [ev].
Proof. reflexivity. Qed.

Lemma enqueued_in_snoc b inputs inp :
  enqueued_in b (inputs ++ [inp]) = enqueued_in b inputs ++ enqueued_in b [inp].
Proof. unfold enqueued_in. apply omap_app. Qed.

Lemma started_in_snoc b h ev :
  started_in b (h ++ [ev]) = started_in b h ++ started_in b [ev].
Proof. unfold started_in. apply omap_app. Qed.

Lemma settled_in_snoc b h ev :
  settled_in b (h ++ [ev]) = settled_in b h ++ settled_in b [ev].
Proof. unfold settled_in. apply omap_app. Qed.

Lemma prefix_snoc_inv {A} (h' h : list A) x :
  h' `prefix_of` h ++ [x] -> h' `prefix_of` h \/ h' = h ++ [x].
Proof.
  intros [k Hk]. destruct (decide (k = [])) as [->|Hne].
  - right. rewrite app_nil_r in Hk. congruence.
  - left. destruct (exists_last Hne) as (k' & y & ->).
    rewrite app_assoc in Hk. apply app_inj_tail in Hk as [-> _].
    exists k'. reflexivity.
Qed.

(** One more event keeps the history serial if the counts still fit. *)
Lemma one_at_a_time_snoc b h ev :
  one_at_a_time b h ->
  length (settled_in b (h ++ [ev])) <= length (started_in b (h ++ [ev])) ->
  length (started_in b (h ++ [ev])) <= S (length (settled_in b (h ++ [ev]))) ->
  one_at_a_time b (h ++ [ev]).
Proof.
  intros Hs H1 H2 h' Hp. apply prefix_snoc_inv in Hp as [Hp| ->]; [auto|].
  split; assumption.
Qed.

Lemma one_at_a_time_other b h ev :
  started_in b [ev] = [] -> settled_in b [ev] = [] ->
  one_at_a_time b h -> one_at_a_time b (h ++ [ev]).
Proof.
  intros H1 H2 Hs. pose proof (Hs h ltac:(reflexivity)) as [Ha Hb].
  apply one_at_a_time_snoc; [exact Hs| |];
    rewrite started_in_snoc, settled_in_snoc, H1, H2, !app_nil_r; assumption.
Qed.

Lemma started_in_one b b' j :
  started_in b' [JobStarted b j] = if bool_decide (b = b') then [j] else [].
Proof. unfold started_in. cbn. destruct (bool_decide _); reflexivity. Qed.

Lemma settled_in_one b b' j how :
  settled_in b' [JobSettled b j how] = if bool_decide (b = b') then [j] else [].
Proof. unfold settled_in. cbn. destruct (bool_decide _); reflexivity. Qed.

Lemma enqueued_in_one b b' j :
  enqueued_in b' [Enqueue b j] = if bool_decide (b = b') then [j] else [].
Proof. unfold enqueued_in. cbn. destruct (bool_decide _); reflexivity. Qed.

Lemma started_in_own b j : started_in b [JobStarted b j] = [j].
Proof. rewrite started_in_one, bool_decide_eq_true_2; reflexivity. Qed.

Lemma settled_in_own b j how : settled_in b [JobSettled b j how] = [j].
Proof. rewrite settled_in_one, bool_decide_eq_true_2; reflexivity. Qed.

Lemma enqueued_in_own b j : enqueued_in b [Enqueue b j] = [j].
Proof. rewrite enqueued_in_one, bool_decide_eq_true_2; reflexivity. Qed.

Lemma started_in_else b b' j : b' <> b -> started_in b' [JobStarted b j] = [].
Proof. intros. rewrite started_in_one, bool_decide_eq_false_2; congruence. Qed.

Lemma settled_in_else b b' j how : b' <> b -> settled_in b' [JobSettled b j how] = [].
Proof. intros. rewrite settled_in_one, bool_decide_eq_false_2; congruence. Qed.

Lemma enqueued_in_else b b' j : b' <> b -> enqueued_in b' [Enqueue b j] = [].
Proof. intros. rewrite enqueued_in_one, bool_decide_eq_false_2; congruence. Qed.

(** The executor after the awaited job settled: it starts the next job of
    the queue, in the same pass, in the next one or after dropping the
    jobs done; or it returns when the queue has no other job. *)
Lemma executor_run_resumed b queue offt limit i tr :
  i < limit -> limit <= length queue -> limit <= _gcLimit ->
  (exists next offt' limit',
      queue !! S i = Some next
      /\ executor_run executor_fuel b queue offt limit (S i) tr
         = Some (Suspended {| ex_queue := queue; ex_offt := offt';
                              ex_limit := limit'; ex_i := S i |},
                 JobStarted b next :: tr)
      /\ S i < limit' /\ limit' <= length queue /\ limit' <= _gcLimit)
  \/ (exists next limit',
      queue !! S i = Some next
      /\ executor_run executor_fuel b queue offt limit (S i) tr
         = Some (Suspended {| ex_queue := drop (S i) queue; ex_offt := 0;
                              ex_limit := limit'; ex_i := 0 |},
                 JobStarted b next :: Spliced b (S i) :: tr)
      /\ 0 < limit' /\ limit' <= length (drop (S i) queue) /\ limit' <= _gcLimit)
  \/ (S i = length queue
      /\ executor_run executor_fuel b queue offt limit (S i) tr
         = Some (Finished, BucketRemoved b :: tr)).
Proof.
  intros Hi Hl Hg. pose proof gcLimit_ge_2 as Hg2. unfold executor_fuel.
  destruct (decide (S i < limit)) as [Hin|Hin].
  - destruct (lookup_lt_is_Some_2 queue (S i)) as [next Hn]; [lia|].
    left. exists next, offt, limit. split; [exact Hn|].
    split; [apply executor_run_start; assumption|]. lia.
  - assert (Hlim : limit = S i) by lia. subst limit.
    destruct (decide (S i < length queue)) as [Hmore|Hmore].
    + destruct (lookup_lt_is_Some_2 queue (S i) Hmore) as [next Hn].
      destruct (decide (_gcLimit <= S i)) as [Hs|Hs].
      * right. left. exists next, (Nat.min (length (drop (S i) queue)) _gcLimit).
        split; [exact Hn|]. rewrite executor_run_splice by (assumption || lia).
        assert (Hd : length (drop (S i) queue) = length queue - S i)
          by apply length_drop.
        split.
        { apply executor_run_start; [lia|].
          rewrite lookup_drop, Nat.add_0_r. exact Hn. }
        lia.
      * left. exists next, (S i), (Nat.min (length queue) _gcLimit).
        split; [exact Hn|]. rewrite executor_run_next_pass by (assumption || lia).
        split; [apply executor_run_start; [lia|exact Hn]|]. lia.
    + right. right. split; [lia|]. apply executor_run_finish; lia.
Qed.

Lemma take_S_lookup {A} (l : list A) i x :
  l !! i = Some x -> take (S i) l = take i l ++ [x].
Proof. intros Hx. apply take_S_r. exact Hx. Qed.

(** A call on another bucket changes nothing of this one. *)
Lemma bucket_inv_other inputs q b b' inp bs evs :
  b' <> b ->
  bs !! b' = buckets q !! b' ->
  enqueued_in b' [inp] = [] ->
  started_in b' evs = [] -> settled_in b' evs = [] ->
  bucket_inv inputs q b' ->
  bucket_inv (inputs ++ [inp]) {| buckets := bs; qtrace := rev evs ++ qtrace q |} b'.
Proof.
  intros Hne Hbs Hin Hst Hse [Hser Hb].
  assert (Hh : history {| buckets := bs; qtrace := rev evs ++ qtrace q |}
               = history q ++ evs).
  { unfold history. cbn [qtrace]. rewrite rev_app_distr, rev_involutive. reflexivity. }
  assert (Hst' : started_in b' (history q ++ evs) = started_in b' (history q)).
  { unfold started_in in *. rewrite omap_app, Hst, app_nil_r. reflexivity. }
  assert (Hse' : settled_in b' (history q ++ evs) = settled_in b' (history q)).
  { unfold settled_in in *. rewrite omap_app, Hse, app_nil_r. reflexivity. }
  split.
  - rewrite Hh. clear Hst' Hse' Hb Hh.
    induction evs as [|ev evs IH] using rev_ind; [rewrite app_nil_r; exact Hser|].
    unfold started_in, settled_in in Hst, Hse. rewrite omap_app in Hst, Hse.
    apply app_eq_nil in Hst as [Hst1 Hst2]. apply app_eq_nil in Hse as [Hse1 Hse2].
    rewrite app_assoc. apply one_at_a_time_other; [exact Hst2|exact Hse2|].
    apply IH; assumption.
  - rewrite Hh, Hst', Hse'. cbn [buckets]. rewrite Hbs.
    rewrite enqueued_in_snoc, Hin, app_nil_r. exact Hb.
Qed.

(** Every call keeps every bucket as [bucket_inv] says, and the executor
    it resumes reaches its next [await] or its return. *)
Lemma step_inv inputs q inp :
  (forall b, bucket_inv inputs q b) ->
  exists q', feed [inp] q = Some q' /\ forall b, bucket_inv (inputs ++ [inp]) q' b.
Proof.
  intros Hinv. pose proof gcLimit_ge_2 as Hg2. destruct q as [bs tr].
  destruct inp as [b j|b how]; cbn [feed].
  - (* a job is enqueued *)
    unfold enqueue. cbn [buckets qtrace].
    destruct (bs !! b) as [e|] eqn:Hb.
    + eexists. split; [reflexivity|]. intros b'.
      destruct (decide (b' = b)) as [->|Hne].
      * destruct (Hinv b) as [Hser Hst]. cbn [buckets] in Hst. rewrite Hb in Hst.
        destruct Hst as (gone & He & Hse & Hsa & Hi & Hl & Hg).
        split; [exact Hser|]. cbn [buckets]. rewrite lookup_insert_eq.
        unfold history in *. cbn [qtrace] in *.
        exists gone. cbn [ex_queue ex_i ex_limit].
        rewrite enqueued_in_snoc, enqueued_in_own.
        rewrite !take_app_le by lia. rewrite length_app.
        split; [rewrite He, app_assoc; reflexivity|].
        split; [exact Hse|]. split; [exact Hsa|]. lia.
      * apply (bucket_inv_other inputs {| buckets := bs; qtrace := tr |} b b'
                 (Enqueue b j) _ []); try reflexivity; [exact Hne| | |apply Hinv].
        -- cbn [buckets]. apply lookup_insert_ne. congruence.
        -- apply enqueued_in_else. exact Hne.
    + rewrite Nat.min_l by lia.
      rewrite (executor_run_start _ _ _ _ _ _ _ j) by (reflexivity || lia).
      cbn [after_run buckets]. eexists. split; [reflexivity|]. intros b'.
      destruct (decide (b' = b)) as [->|Hne].
      * destruct (Hinv b) as [Hser Hst]. cbn [buckets] in Hst. rewrite Hb in Hst.
        destruct Hst as [Hsa Hse].
        unfold bucket_inv, history in *. cbn [qtrace rev] in *.
        assert (Hsa' : started_in b ((rev tr ++ [ExecutorStarted b]) ++ [JobStarted b j])
                       = enqueued_in b inputs ++ [j]).
        { rewrite !started_in_snoc, started_in_own, Hsa.
          cbn. rewrite app_nil_r. reflexivity. }
        assert (Hse' : settled_in b ((rev tr ++ [ExecutorStarted b]) ++ [JobStarted b j])
                       = enqueued_in b inputs).
        { rewrite !settled_in_snoc, Hse. cbn. rewrite !app_nil_r. reflexivity. }
        split.
        -- apply one_at_a_time_snoc.
           ++ apply one_at_a_time_other; [reflexivity|reflexivity|exact Hser].
           ++ rewrite Hsa', Hse', length_app. lia.
           ++ rewrite Hsa', Hse', length_app. cbn. lia.
        -- cbn [buckets]. rewrite lookup_insert_eq.
           exists (enqueued_in b inputs). cbn [ex_queue ex_i ex_limit take].
           rewrite enqueued_in_snoc, enqueued_in_own.
           rewrite app_nil_r. cbn [length].
           split; [reflexivity|]. split; [exact Hse'|]. split; [exact Hsa'|]. lia.
      * apply (bucket_inv_other inputs {| buckets := bs; qtrace := tr |} b b'
                 (Enqueue b j) _ [ExecutorStarted b; JobStarted b j]);
          [exact Hne| | | |reflexivity|apply Hinv].
        -- cbn [buckets]. apply lookup_insert_ne. congruence.
        -- apply enqueued_in_else. exact Hne.
        -- unfold started_in. cbn.
        rewrite (bool_decide_eq_false_2 (b = b')) by congruence. reflexivity.
  - (* the awaited job settles *)
    unfold settle. cbn [buckets qtrace].
    destruct (bs !! b) as [e|] eqn:Hb.
    2:{ eexists. split; [reflexivity|]. intros b'.
        destruct (Hinv b') as [Hser Hst]. split; [exact Hser|].
        unfold enqueued_in. rewrite omap_app. cbn. rewrite app_nil_r. exact Hst. }
    destruct (Hinv b) as [Hser Hst]. cbn [buckets] in Hst. rewrite Hb in Hst.
    destruct Hst as (gone & He & Hse & Hsa & Hi & Hl & Hg).
    destruct (lookup_lt_is_Some_2 (ex_queue e) (ex_i e)) as [job Hjob]; [lia|].
    rewrite Hjob.
    assert (Henq : forall b', enqueued_in b' (inputs ++ [Settle b how])
                              = enqueued_in b' inputs).
    { intros b'. unfold enqueued_in. rewrite omap_app. cbn. apply app_nil_r. }
    assert (Hboth : length (started_in b (rev tr)) = S (length (settled_in b (rev tr)))).
    { unfold history in Hsa, Hse. cbn [qtrace] in Hsa, Hse. rewrite Hsa, Hse.
      rewrite (take_S_lookup _ _ _ Hjob), !length_app. cbn. lia. }
    assert (Hsettled : settled_in b (rev tr ++ [JobSettled b job how])
                       = gone ++ take (S (ex_i e)) (ex_queue e)).
    { unfold history in Hse. cbn [qtrace] in Hse.
      rewrite settled_in_snoc, settled_in_own, Hse.
      rewrite (take_S_lookup _ _ _ Hjob), app_assoc. reflexivity. }
    assert (Hstarted : started_in b (rev tr ++ [JobSettled b job how])
                       = gone ++ take (S (ex_i e)) (ex_queue e)).
    { unfold history in Hsa. cbn [qtrace] in Hsa.
      rewrite started_in_snoc, Hsa. cbn. apply app_nil_r. }
    assert (Hser1 : one_at_a_time b (rev tr ++ [JobSettled b job how])).
    { apply one_at_a_time_snoc; [exact Hser| |]; rewrite Hstarted, Hsettled; lia. }
    destruct (executor_run_resumed b (ex_queue e) (ex_offt e) (ex_limit e) (ex_i e)
                (JobSettled b job how :: tr) Hi Hl Hg)
      as [(next & offt' & limit' & Hn & -> & Hi' & Hl' & Hg')
         |[(next & limit' & Hn & -> & Hi' & Hl' & Hg')
          |(Hend & ->)]];
      cbn [after_run buckets]; (eexists; split; [reflexivity|]); intros b';
      (destruct (decide (b' = b)) as [->|Hne]).
    + (* the next job, in place *)
      unfold bucket_inv, history. cbn [qtrace rev buckets]. rewrite lookup_insert_eq.
      assert (Hsa' : started_in b ((rev tr ++ [JobSettled b job how]) ++ [JobStarted b next])
                     = gone ++ take (S (S (ex_i e))) (ex_queue e)).
      { rewrite started_in_snoc, started_in_own, Hstarted.
        rewrite (take_S_lookup _ _ _ Hn), app_assoc. reflexivity. }
      assert (Hse' : settled_in b ((rev tr ++ [JobSettled b job how]) ++ [JobStarted b next])
                     = gone ++ take (S (ex_i e)) (ex_queue e)).
      { rewrite settled_in_snoc, Hsettled. cbn. apply app_nil_r. }
      split.
      * apply one_at_a_time_snoc; [exact Hser1| |]; rewrite Hsa', Hse';
          rewrite (take_S_lookup _ _ _ Hn), !length_app; cbn; lia.
      * exists gone. cbn [ex_queue ex_i ex_limit]. rewrite Henq.
        split; [exact He|]. split; [exact Hse'|]. split; [exact Hsa'|]. lia.
    + apply (bucket_inv_other inputs {| buckets := bs; qtrace := tr |} b b'
               (Settle b how) _ [JobSettled b job how; JobStarted b next]);
        [exact Hne| |reflexivity| | |apply Hinv].
      * cbn [buckets]. apply lookup_insert_ne. congruence.
      * unfold started_in. cbn.
        rewrite (bool_decide_eq_false_2 (b = b')) by congruence. reflexivity.
      * unfold settled_in. cbn.
        rewrite (bool_decide_eq_false_2 (b = b')) by congruence. reflexivity.
    + (* the next job, after the splice *)
      unfold bucket_inv, history. cbn [qtrace rev buckets]. rewrite lookup_insert_eq.
      assert (Hn0 : drop (S (ex_i e)) (ex_queue e) !! 0 = Some next)
        by (rewrite lookup_drop, Nat.add_0_r; exact Hn).
      assert (Hsa' : started_in b (((rev tr ++ [JobSettled b job how])
                                    ++ [Spliced b (S (ex_i e))]) ++ [JobStarted b next])
                     = (gone ++ take (S (ex_i e)) (ex_queue e))
                       ++ take 1 (drop (S (ex_i e)) (ex_queue e))).
      { rewrite 2!started_in_snoc, started_in_own, Hstarted.
        rewrite (take_S_lookup _ _ _ Hn0). cbn. rewrite app_nil_r. reflexivity. }
      assert (Hse' : settled_in b (((rev tr ++ [JobSettled b job how])
                                    ++ [Spliced b (S (ex_i e))]) ++ [JobStarted b next])
                     = (gone ++ take (S (ex_i e)) (ex_queue e))
                       ++ take 0 (drop (S (ex_i e)) (ex_queue e))).
      { rewrite 2!settled_in_snoc, Hsettled. cbn. rewrite !app_nil_r. reflexivity. }
      split.
      * apply one_at_a_time_snoc;
          [apply one_at_a_time_other; [reflexivity|reflexivity|exact Hser1]| |];
          rewrite Hsa', Hse', (take_S_lookup _ _ _ Hn0), !length_app; cbn; lia.
      * exists (gone ++ take (S (ex_i e)) (ex_queue e)).
        cbn [ex_queue ex_i ex_limit]. rewrite Henq.
        split; [rewrite <- app_assoc, take_drop; exact He|].
        split; [exact Hse'|]. split; [exact Hsa'|]. lia.
    + apply (bucket_inv_other inputs {| buckets := bs; qtrace := tr |} b b'
               (Settle b how) _
               [JobSettled b job how; Spliced b (S (ex_i e)); JobStarted b next]);
        [exact Hne| |reflexivity| | |apply Hinv].
      * cbn [buckets]. apply lookup_insert_ne. congruence.
      * unfold started_in. cbn.
        rewrite (bool_decide_eq_false_2 (b = b')) by congruence. reflexivity.
      * unfold settled_in. cbn.
        rewrite (bool_decide_eq_false_2 (b = b')) by congruence. reflexivity.
    + (* the queue is done *)
      unfold bucket_inv, history. cbn [qtrace rev buckets]. rewrite lookup_delete_eq.
      assert (Hall : take (S (ex_i e)) (ex_queue e) = ex_queue e)
        by (apply take_ge; lia).
      assert (Hsa' : started_in b ((rev tr ++ [JobSettled b job how]) ++ [BucketRemoved b])
                     = enqueued_in b inputs).
      { rewrite started_in_snoc, Hstarted, Hall, He. cbn. apply app_nil_r. }
      assert (Hse' : settled_in b ((rev tr ++ [JobSettled b job how]) ++ [BucketRemoved b])
                     = enqueued_in b inputs).
      { rewrite settled_in_snoc, Hsettled, Hall, He. cbn. apply app_nil_r. }
      split.
      * apply one_at_a_time_other; [reflexivity|reflexivity|exact Hser1].
      * rewrite Henq. split; assumption.
    + apply (bucket_inv_other inputs {| buckets := bs; qtrace := tr |} b b'
               (Settle b how) _ [JobSettled b job how; BucketRemoved b]);
        [exact Hne| |reflexivity|reflexivity| |apply Hinv].
      * cbn [buckets]. apply lookup_delete_ne. congruence.
      * unfold settled_in. cbn.
        rewrite (bool_decide_eq_false_2 (b = b')) by congruence. reflexivity.
Qed.

Lemma feed_inv inputs :
  exists q, feed inputs no_queues = Some q /\ forall b, bucket_inv inputs q b.
Proof.
  induction inputs as [|inp inputs IH] using rev_ind.
  - exists no_queues. split; [reflexivity|]. intros b. split.
    + intros h' Hp. apply prefix_nil_inv in Hp as ->. cbn. lia.
    + cbn [buckets no_queues]. rewrite lookup_empty. split; reflexivity.
  - destruct IH as (q & Hq & Hinv).
    destruct (step_inv inputs q inp Hinv) as (q' & Hstep & Hinv').
    exists q'. split; [|exact Hinv'].
    rewrite feed_app, Hq. exact Hstep.
Qed.

(** X27. Whatever the calls and however the jobs end (resolved, rejected
    or timed out), the queue never gets stuck and every bucket runs its
    jobs one at a time in the order they were enqueued: the jobs started
    are the first of the jobs enqueued, the jobs settled are the first of
    the jobs started, at every moment at most one started job is not yet
    settled, and once the bucket is removed every job enqueued in it has
    been settled. *)
Theorem queue_runs_each_bucket_in_order inputs :
  exists q,
    feed inputs no_queues = Some q
    /\ forall b,
         one_at_a_time b (history q)
         /\ settled_in b (history q) `prefix_of` started_in b (history q)
         /\ started_in b (history q) `prefix_of` enqueued_in b inputs
         /\ (buckets q !! b = None ->
             settled_in b (history q) = enqueued_in b inputs).
Proof.
  destruct (feed_inv inputs) as (q & Hq & Hinv). exists q. split; [exact Hq|].
  intros b. destruct (Hinv b) as [Hser Hb]. split; [exact Hser|].
  destruct (buckets q !! b) as [e|].
  - destruct Hb as (gone & He & Hse & Hsa & Hi & Hl & Hg).
    rewrite Hse, Hsa, He. split; [|split; [|discriminate]].
    + apply prefix_app.
      replace (take (ex_i e) (ex_queue e))
        with (take (ex_i e) (take (S (ex_i e)) (ex_queue e)))
        by (rewrite take_take; f_equal; lia).
      apply prefix_take.
    + apply prefix_app, prefix_take.
  - destruct Hb as [-> ->]. split; [reflexivity|]. split; [reflexivity|].
    reflexivity.
Qed.

(** X28. A bucket stays in the map exactly while one of its jobs is
    awaited: its queue array then holds, at the executor's index, the job
    started last, behind it exactly the jobs enqueued and not yet
    started, in order, and before it fewer than [_gcLimit] settled jobs.
    A bucket that is not in the map has started every job enqueued. *)
Theorem queue_array_holds_the_waiting_jobs inputs :
  exists q,
    feed inputs no_queues = Some q
    /\ forall b,
         match buckets q !! b with
         | Some e =>
             ex_queue e !! ex_i e = last (started_in b (history q))
             /\ is_Some (ex_queue e !! ex_i e)
             /\ drop (S (ex_i e)) (ex_queue e)
                = drop (length (started_in b (history q))) (enqueued_in b inputs)
             /\ take (ex_i e) (ex_queue e) `suffix_of` settled_in b (history q)
             /\ ex_i e < _gcLimit
         | None => started_in b (history q) = enqueued_in b inputs
         end.
Proof.
  destruct (feed_inv inputs) as (q & Hq & Hinv). exists q. split; [exact Hq|].
  intros b. destruct (Hinv b) as [_ Hb].
  destruct (buckets q !! b) as [e|]; [|tauto].
  destruct Hb as (gone & He & Hse & Hsa & Hi & Hl & Hg).
  destruct (lookup_lt_is_Some_2 (ex_queue e) (ex_i e)) as [job Hjob]; [lia|].
  rewrite Hsa, Hse, He, Hjob.
  split.
  { rewrite (take_S_lookup _ _ _ Hjob), app_assoc, last_snoc. reflexivity. }
  split; [eauto|]. split.
  { rewrite length_app, drop_app_add, length_take, Nat.min_l by lia. reflexivity. }
  split; [|lia]. apply suffix_app_r. reflexivity.
Qed.
